(** * Route sequencing and segment resolution

    A shallow embedding of the route optimisation service
    ([OpenStreetMapRoutingService]) and of the route cache
    ([cacheManager.ts]), with the properties of the specification
    stated and settled against it.

    JavaScript numbers are binary64 floats: they are modelled by Rocq's
    primitive floats, so that every arithmetic operation and comparison
    of the code is the code's.  Position indices, array lengths and
    millisecond timestamps are integral numbers far below 2^53, where
    binary64 arithmetic is exact: they are modelled by [Z] and [nat]. *)

From Stdlib Require Import ZArith List String Ascii Bool Lia Floats.
From Stdlib Require Import Permutation Sorted PeanoNat.
Import ListNotations.

Set Warnings "-inexact-float".
Set Implicit Arguments.

Open Scope string_scope.
Open Scope list_scope.

(* ================================================================== *)
(** ** Strings *)

Module Str.

Local Open Scope string_scope.

Definition chars : string -> list ascii := list_ascii_of_string.

(** [Array.prototype.join] on strings. *)
Fixpoint join (sep : string) (l : list string) : string :=
  match l with
  | [] => ""
  | [x] => x
  | x :: rest => x ++ sep ++ join sep rest
  end.

(** JavaScript truthiness of a string. *)
Definition truthy (s : string) : bool :=
  match s with EmptyString => false | _ => true end.

Definition count (c : ascii) (s : string) : nat :=
  List.length (filter (Ascii.eqb c) (chars s)).

Definition has (c : ascii) (s : string) : bool :=
  existsb (Ascii.eqb c) (chars s).


End Str.

(* ================================================================== *)
(** ** Numbers: [Number.prototype.toFixed] *)

Module JsNumber.

Local Open Scope string_scope.

Definition digit_char (d : Z) : ascii :=
  ascii_of_nat (48 + Z.to_nat d).

(** Decimal digits of a non-negative integer, most significant first. *)
Fixpoint decimal_digits (fuel : nat) (n : Z) (acc : string) : string :=
  let acc' := String (digit_char (n mod 10)) acc in
  match fuel with
  | O => acc'
  | S fuel' => if (n <? 10)%Z then acc' else decimal_digits fuel' (n / 10) acc'
  end.

Definition Z_to_decimal (n : Z) : string :=
  decimal_digits (Z.to_nat (Z.log2 n)) n "".

Fixpoint zeros (k : nat) : string :=
  match k with O => "" | S k' => String "0" (zeros k') end.

(** Step 10 of [toFixed]: the digits of [n] and, when [f] is not 0,
    left-padded to [f + 1] digits, with a point before the last [f]
    digits. *)
Definition fixed_point (f : nat) (n : Z) : string :=
  let m := Z_to_decimal n in
  if (f =? 0)%nat then m
  else
    let k := String.length m in
    let m := if (k <=? f)%nat then zeros (f + 1 - k) ++ m else m in
    let k := String.length m in
    substring 0 (k - f) m ++ "." ++ substring (k - f) f m.

(** The integer [n] for which [n / scale - m * 2^e] is as close to zero
    as possible, the larger one when there are two. *)
Definition nearest_scaled (m : positive) (e : Z) (scale : Z) : Z :=
  if (0 <=? e)%Z then Z.pos m * 2 ^ e * scale
  else let d := (2 ^ (- e))%Z in (2 * Z.pos m * scale + d) / (2 * d).

(** Round a positive integer to the nearest binary64 value (ties to even). *)
Definition round_to_double (z : Z) : Z :=
  let l := (Z.log2 z + 1)%Z in
  if (l <=? 53)%Z then z
  else
    let sh := (l - 53)%Z in
    let q := Z.shiftr z sh in
    let r := (z - Z.shiftl q sh)%Z in
    let half := Z.shiftl 1 (sh - 1) in
    let q' := if (half <? r)%Z || ((r =? half)%Z && Z.odd q) then (q + 1)%Z else q in
    Z.shiftl q' sh.

(** Number::toString for an integral value of at least 10^21: the
    shortest decimal significand that reads back as the same number,
    in exponent notation. *)
Fixpoint shortest (fuel : nat) (k : Z) (n : Z) (x : Z) : Z :=
  match fuel with
  | O => x
  | S fuel' =>
      let p := (10 ^ (n - k))%Z in
      let v := ((x + p / 2) / p * p)%Z in
      if (round_to_double v =? x)%Z then v else shortest fuel' (k + 1) n x
  end.

Fixpoint strip_zeros (rev_digits : list ascii) : list ascii :=
  match rev_digits with
  | "0"%char :: rest => strip_zeros rest
  | _ => rev_digits
  end.

Definition exponent_form (x : Z) : string :=
  let n := Z.of_nat (String.length (Z_to_decimal x)) in
  let v := shortest 17 1 n x in
  let d := Z_to_decimal v in
  let e := Z_to_decimal (Z.of_nat (String.length d) - 1) in
  match rev (strip_zeros (rev (Str.chars d))) with
  | [] => "0"
  | [c] => String c ("e+" ++ e)
  | c :: rest => String c ("." ++ string_of_list_ascii rest ++ "e+" ++ e)
  end.

Definition toFixed (f : nat) (x : float) : string :=
  match Prim2SF x with
  | S754_nan => "NaN"
  | S754_infinity false => "Infinity"
  | S754_infinity true => "-Infinity"
  | S754_zero _ => fixed_point f 0
  | S754_finite s m e =>
      let sign := if s then "-" else "" in
      if (0 <=? e)%Z && (10 ^ 21 <=? Z.pos m * 2 ^ e)%Z
      then sign ++ exponent_form (Z.pos m * 2 ^ e)
      else sign ++ fixed_point f (nearest_scaled m e (10 ^ Z.of_nat f))
  end.

End JsNumber.


(* ================================================================== *)
(** ** Data model ([types/index.ts]) *)

Inductive VehicleType := car | truck.

Inductive OptimizationMethod := shortest_distance | fastest_time | balanced.

Inductive LockPosition := lock_start | lock_end | lock_fixed.

Record Coordinates := { latitude : float; longitude : float }.

Record Location := {
  id : string;
  address : string;
  coordinates : option Coordinates;
  isLocked : option bool;
  lockPosition : option LockPosition;
  order : option Z
}.

(** [GeoJSONLineString | null]: the [coordinates] array of the line, or
    [None] for [null]. *)
Definition RouteGeometry := option (list (list float)).

Record RouteSegment := {
  from : Location;
  to : Location;
  distance : float;
  duration : float;
  instructions : list string;
  polyline : RouteGeometry
}.

Record Route := {
  route_id : string;
  route_locations : list Location;
  totalDistance : float;
  totalDuration : float;
  route_vehicleType : VehicleType;
  route_isLoop : bool;
  segments : list RouteSegment;
  route_optimizationMethod : OptimizationMethod
}.

Record RouteOptimizationRequest := {
  locations : list Location;
  vehicleType : VehicleType;
  isLoop : bool;
  optimizationMethod : OptimizationMethod;
  avoidTolls : option bool;
  avoidHighways : option bool
}.

Record Metadata := {
  calculationTime : Z;
  algorithm : string;
  apiProvider : string
}.

Record RouteOptimizationResponse := {
  route : Route;
  metadata : Metadata
}.

Definition VehicleType_eqb (a b : VehicleType) : bool :=
  match a, b with car, car | truck, truck => true | _, _ => false end.

Definition OptimizationMethod_eqb (a b : OptimizationMethod) : bool :=
  match a, b with
  | shortest_distance, shortest_distance
  | fastest_time, fastest_time
  | balanced, balanced => true
  | _, _ => false
  end.

(** The string a template literal prints for each enumerated value. *)
Definition VehicleType_str (v : VehicleType) : string :=
  match v with car => "car" | truck => "truck" end.

Definition OptimizationMethod_str (m : OptimizationMethod) : string :=
  match m with
  | shortest_distance => "shortest_distance"
  | fastest_time => "fastest_time"
  | balanced => "balanced"
  end.

Definition bool_str (b : bool) : string := if b then "true" else "false".

(** Truthiness of the optional fields the code tests. *)
Definition locked (loc : Location) : bool :=
  match isLocked loc with Some true => true | _ => false end.

Definition has_coordinates (loc : Location) : bool :=
  match coordinates loc with Some _ => true | None => false end.

(** [loc.order || 0] *)
Definition order_or_0 (loc : Location) : Z :=
  match order loc with Some o => o | None => 0%Z end.

(** [loc.order === i] *)
Definition order_is (i : nat) (loc : Location) : bool :=
  match order loc with Some o => (o =? Z.of_nat i)%Z | None => false end.

(* ================================================================== *)
(** ** The numeric library of the host

    ECMAScript leaves [Math.sin], [Math.cos] and [Math.atan2]
    implementation-approximated and fixes their value only at a few
    arguments.  The development is parametric in them; the record keeps
    the values the standard fixes that the proofs below use. *)

Open Scope float_scope.

Record MathImpl := {
  Math_sin : float -> float;
  Math_cos : float -> float;
  Math_atan2 : float -> float -> float;
  Math_sin_zero : Math_sin 0 = 0;
  Math_cos_zero : Math_cos 0 = 1;
  Math_atan2_zero : Math_atan2 0 1 = 0;
  Math_sin_nan : Math_sin nan = nan;
  Math_cos_nan : Math_cos nan = nan;
  Math_atan2_nan : Math_atan2 nan nan = nan
}.

Definition Math_PI : float := 3.141592653589793.

(** One implementation, by Maclaurin polynomials evaluated in binary64
    (accurate to a few units in the last place for arguments within a
    half turn), on which the code can be run. *)
Module PolyMath.

Definition is_nan (x : float) : bool := negb (x =? x).

(** Horner evaluation of [sum_k c_k y^k]. *)
Fixpoint horner (cs : list float) (y : float) : float :=
  match cs with
  | [] => 0
  | c :: rest => c + y * horner rest y
  end.

(** [1 / (2k+1)!] with alternating signs, [k = 0 .. 13]. *)
Fixpoint sin_coeffs (n : nat) (k : float) (term : float) : list float :=
  match n with
  | O => []
  | S n' => term :: sin_coeffs n' (k + 2) (- term / ((k + 1) * (k + 2)))
  end.

Definition sin (x : float) : float :=
  if is_nan x then nan else x * horner (sin_coeffs 14 1 1) (x * x).

Definition cos (x : float) : float :=
  if is_nan x then nan else horner (sin_coeffs 14 0 1) (x * x).

Fixpoint atan_coeffs (n : nat) (k : float) (sign : float) : list float :=
  match n with
  | O => []
  | S n' => sign / k :: atan_coeffs n' (k + 2) (- sign)
  end.

(** [atan t = 2 atan (t / (1 + sqrt (1 + t^2)))], applied until the
    argument is small, then the series. *)
Fixpoint atan_halving (n : nat) (t : float) : float :=
  match n with
  | O => t * horner (atan_coeffs 14 1 1) (t * t)
  | S n' => 2 * atan_halving n' (t / (1 + sqrt (1 + t * t)))
  end.

Definition atan (t : float) : float :=
  if t =? infinity then Math_PI / 2
  else if t =? neg_infinity then - (Math_PI / 2)
  else atan_halving 4 t.

Definition atan2 (y x : float) : float :=
  if is_nan x || is_nan y then nan
  else if 0 <? x then atan (y / x)
  else if x <? 0 then
    (if y <? 0 then atan (y / x) - Math_PI else atan (y / x) + Math_PI)
  else if 0 <? y then Math_PI / 2
  else if y <? 0 then - (Math_PI / 2)
  else 0.

Definition impl : MathImpl.
Proof.
  refine {| Math_sin := sin; Math_cos := cos; Math_atan2 := atan2 |};
    vm_compute; reflexivity.
Defined.

End PolyMath.

(* ================================================================== *)
(** ** Geodesic distance *)

Section Geodesic.

Context (M : MathImpl).

Definition degToRad (deg : float) : float := deg * (Math_PI / 180).

(** Haversine formula on a sphere of radius 6371 km. *)
Definition calculateDistance (coord1 coord2 : Coordinates) : float :=
  let R := 6371 in
  let dLat := degToRad (latitude coord2 - latitude coord1) in
  let dLon := degToRad (longitude coord2 - longitude coord1) in
  let a :=
    Math_sin M (dLat / 2) * Math_sin M (dLat / 2) +
    Math_cos M (degToRad (latitude coord1)) * Math_cos M (degToRad (latitude coord2)) *
    Math_sin M (dLon / 2) * Math_sin M (dLon / 2) in
  let c := 2 * Math_atan2 M (sqrt a) (sqrt (1 - a)) in
  R * c.

(** [estimateSpeed] *)
Definition estimateSpeed (distance : float) : float :=
  if 10 <? distance then 65
  else if 5 <? distance then 55
  else 40.

End Geodesic.


(* ================================================================== *)
(** ** Arrays and [Map]s *)

Open Scope nat_scope.

Module JsArray.

Section Sort.

Context {A : Type} (compareFn : A -> A -> Z).

(** [Array.prototype.sort(compareFn)] is a stable sort: an element is
    placed before the elements it does not compare greater than. *)
Fixpoint insert (x : A) (l : list A) : list A :=
  match l with
  | [] => [x]
  | y :: rest =>
      if (compareFn x y <=? 0)%Z then x :: y :: rest else y :: insert x rest
  end.

Definition sort (l : list A) : list A := fold_right insert [] l.

End Sort.

(** [arr.filter((_, index) => index !== i)] and [arr.splice(i, 1)] *)
Fixpoint remove_at {A : Type} (i : nat) (l : list A) : list A :=
  match l, i with
  | [], _ => []
  | _ :: rest, O => rest
  | x :: rest, S i' => x :: remove_at i' rest
  end.

(** [arr.find(pred)] *)
Definition find {A : Type} (pred : A -> bool) (l : list A) : option A :=
  List.find pred l.

End JsArray.

(** A [Map<string, V>]: keys are unique and kept in insertion order. *)
Module JsMap.

Section Ops.

Context {V : Type}.

Definition t := list (string * V).

Definition empty : t := [].

Fixpoint get (k : string) (m : t) : option V :=
  match m with
  | [] => None
  | (k', v) :: rest => if String.eqb k' k then Some v else get k rest
  end.

Fixpoint set (k : string) (v : V) (m : t) : t :=
  match m with
  | [] => [(k, v)]
  | (k', v') :: rest =>
      if String.eqb k' k then (k, v) :: rest else (k', v') :: set k v rest
  end.

Fixpoint delete (k : string) (m : t) : t :=
  match m with
  | [] => []
  | (k', v') :: rest =>
      if String.eqb k' k then rest else (k', v') :: delete k rest
  end.

Definition size (m : t) : nat := List.length m.

Definition keys (m : t) : list string := map fst m.

Definition entries (m : t) : list (string * V) := m.

End Ops.

Arguments t : clear implicits.

End JsMap.

(** A [Set<string>], by its elements. *)
Module JsSet.

Definition t := list string.

Definition has (x : string) (s : t) : bool := existsb (String.eqb x) s.

Definition add (x : string) (s : t) : t := if has x s then s else s ++ [x].

Definition size (s : t) : nat := List.length s.

End JsSet.

(* ================================================================== *)
(** ** The world outside: clock, configuration and routing providers

    A call that leaves the program ([Date.now], [Math.random], [fetch])
    reads the host at the current tick and advances it, so that two
    calls may answer differently.  A provider's answer is the route the
    code extracts from the response body, or [None] when the call fails
    for any reason (network error, non-success status, no route,
    malformed body). *)

(** OSRM: [routes[0]], distance in metres, duration in seconds,
    step instructions, GeoJSON geometry. *)
Record OSRMRoute := {
  osrm_distance : float;
  osrm_duration : float;
  osrm_instructions : list string;
  osrm_geometry : RouteGeometry
}.

(** OpenRouteService: [routes[0]], summary distance in kilometres,
    summary duration in seconds, step instructions, decoded geometry. *)
Record ORSRoute := {
  ors_distance : float;
  ors_duration : float;
  ors_instructions : list string;
  ors_geometry : RouteGeometry
}.

Record Env := {
  openRouteServiceApiKey : option string;
  Date_now : nat -> Z;
  Math_random_base36 : nat -> string;
  fetchORS : nat -> Location -> Location -> option ORSRoute;
  fetchOSRM : nat -> Location -> Location -> option OSRMRoute
}.

Record CacheEntry := { cached_route : Route; timestamp : Z }.

Record World := {
  routeCache : JsMap.t CacheEntry;
  segmentCache : JsMap.t RouteSegment;
  segmentCacheOrder : list string;
  ticks : nat
}.

Definition set_routeCache (c : JsMap.t CacheEntry) (w : World) : World :=
  {| routeCache := c; segmentCache := segmentCache w;
     segmentCacheOrder := segmentCacheOrder w; ticks := ticks w |}.

Definition set_segmentCache (c : JsMap.t RouteSegment) (w : World) : World :=
  {| routeCache := routeCache w; segmentCache := c;
     segmentCacheOrder := segmentCacheOrder w; ticks := ticks w |}.

Definition set_segmentCacheOrder (o : list string) (w : World) : World :=
  {| routeCache := routeCache w; segmentCache := segmentCache w;
     segmentCacheOrder := o; ticks := ticks w |}.

Definition tick (w : World) : World :=
  {| routeCache := routeCache w; segmentCache := segmentCache w;
     segmentCacheOrder := segmentCacheOrder w; ticks := S (ticks w) |}.

(** The state of a freshly loaded module and service instance. *)
Definition initial_world : World :=
  {| routeCache := JsMap.empty; segmentCache := JsMap.empty;
     segmentCacheOrder := []; ticks := 0 |}.

(* ================================================================== *)
(** ** Computations: state, exceptions and bounded loops *)

Inductive Outcome (A : Type) : Type :=
| Ok (a : A)
| Throw (message : string)
| Pending.

Arguments Ok {A} a.
Arguments Throw {A} message.
Arguments Pending {A}.

(** A computation runs in a world and leaves a world; [Pending] is the
    outcome of a loop that was still running when its fuel ran out. *)
Definition Comp (A : Type) : Type := World -> Outcome A * World.

Definition ret {A : Type} (a : A) : Comp A := fun w => (Ok a, w).

Definition throw {A : Type} (message : string) : Comp A :=
  fun w => (Throw message, w).

Definition pending {A : Type} : Comp A := fun w => (Pending, w).

Definition bind {A B : Type} (c : Comp A) (k : A -> Comp B) : Comp B :=
  fun w =>
    match c w with
    | (Ok a, w') => k a w'
    | (Throw message, w') => (Throw message, w')
    | (Pending, w') => (Pending, w')
    end.

(** [try { c } catch (error) { handler(error.message) }] *)
Definition try_catch {A : Type} (c : Comp A) (handler : string -> Comp A) : Comp A :=
  fun w =>
    match c w with
    | (Throw message, w') => handler message w'
    | r => r
    end.

Definition get_world : Comp World := fun w => (Ok w, w).

Definition update (f : World -> World) : Comp unit := fun w => (Ok tt, f w).

(** A pure loop that may not end, run inside a computation. *)
Definition lift_option {A : Type} (o : option A) : Comp A :=
  match o with Some a => ret a | None => pending end.

Declare Scope comp_scope.
Delimit Scope comp_scope with comp.

Notation "x <- c1 ;; c2" := (bind c1 (fun x => c2))
  (at level 100, c1 at next level, right associativity) : comp_scope.

Notation "c1 ;;; c2" := (bind c1 (fun _ => c2))
  (at level 100, right associativity) : comp_scope.

Open Scope comp_scope.

Section Host.

Context (E : Env).

(** [Date.now()] *)
Definition Date_now_ : Comp Z :=
  fun w => (Ok (Date_now E (ticks w)), tick w).

(** [fetch] of the OpenRouteService directions, read down to [routes[0]]. *)
Definition fetch_ORS (from to : Location) : Comp (option ORSRoute) :=
  fun w => (Ok (fetchORS E (ticks w) from to), tick w).

(** [fetch] of the OSRM route, read down to [routes[0]]. *)
Definition fetch_OSRM (from to : Location) : Comp (option OSRMRoute) :=
  fun w => (Ok (fetchOSRM E (ticks w) from to), tick w).

(** Array access where the code then reads a field of the element. *)
Definition at_index {A : Type} (l : list A) (i : nat) : Comp A :=
  match nth_error l i with
  | Some x => ret x
  | None => throw "TypeError: Cannot read properties of undefined"
  end.

(** [for (const x of l) { s = body(s, x) }] *)
Fixpoint for_each {A S : Type} (l : list A) (body : S -> A -> Comp S) (s : S) : Comp S :=
  match l with
  | [] => ret s
  | x :: rest => s' <- body s x ;; for_each rest body s'
  end.

End Host.

(* ================================================================== *)
(** ** The route cache ([utils/cacheManager.ts]) *)

Section CacheManager.

Context (E : Env).

Local Open Scope string_scope.

Definition ROUTE_CACHE_DURATION : Z := 30 * 60 * 1000.

(** [`${loc.coordinates?.latitude?.toFixed(4)}_${loc.coordinates?.longitude?.toFixed(4)}`] *)
Definition locationKey (loc : Location) : string :=
  match coordinates loc with
  | Some c => JsNumber.toFixed 4 (latitude c) ++ "_" ++ JsNumber.toFixed 4 (longitude c)
  | None => "undefined" ++ "_" ++ "undefined"
  end.

Definition locationIds (request : RouteOptimizationRequest) : string :=
  Str.join "-" (map locationKey (locations request)).

Definition generateRouteKey (request : RouteOptimizationRequest) : string :=
  locationIds request
    ++ "_" ++ VehicleType_str (vehicleType request)
    ++ "_" ++ OptimizationMethod_str (optimizationMethod request)
    ++ "_" ++ bool_str (isLoop request).

Definition expired (now : Z) (entry : string * CacheEntry) : bool :=
  (ROUTE_CACHE_DURATION <? now - timestamp (snd entry))%Z.

Definition cleanRouteCache : Comp unit :=
  now <- Date_now_ E ;;
  update (fun w =>
    set_routeCache (filter (fun entry => negb (expired now entry)) (routeCache w)) w).

Definition getCachedRoute (request : RouteOptimizationRequest) : Comp (option Route) :=
  cleanRouteCache ;;;
  let key := generateRouteKey request in
  w <- get_world ;;
  match JsMap.get key (routeCache w) with
  | Some cached =>
      now <- Date_now_ E ;;
      if (now - timestamp cached <? ROUTE_CACHE_DURATION)%Z
      then ret (Some (cached_route cached))
      else ret None
  | None => ret None
  end.

Definition setCachedRoute (request : RouteOptimizationRequest) (route : Route) : Comp unit :=
  let key := generateRouteKey request in
  now <- Date_now_ E ;;
  update (fun w =>
    set_routeCache
      (JsMap.set key {| cached_route := route; timestamp := now |} (routeCache w)) w) ;;;
  w <- get_world ;;
  if (50 <? JsMap.size (routeCache w))%nat then
    match JsArray.sort (fun a b => (timestamp (snd a) - timestamp (snd b))%Z)
                       (JsMap.entries (routeCache w)) with
    | (oldestKey, _) :: _ =>
        update (fun w => set_routeCache (JsMap.delete oldestKey (routeCache w)) w)
    | [] => throw "TypeError: Cannot read properties of undefined"
    end
  else ret tt.

(** [clearAllCache], as far as the route cache goes. *)
Definition clearAllCache : Comp unit :=
  update (set_routeCache JsMap.empty).

End CacheManager.

(* ================================================================== *)
(** ** The routing service ([OpenStreetMapRoutingService]) *)

Section Service.

Context (M : MathImpl) (E : Env).

Local Open Scope string_scope.

Definition MAX_SEGMENT_CACHE_SIZE : nat := 100.

Definition hasTruckRouting : bool :=
  match openRouteServiceApiKey E with
  | Some key => Str.truthy key
  | None => false
  end.

Definition generateSegmentKey (from to : Location) (vehicleType : VehicleType) : string :=
  id from ++ "-" ++ id to ++ "-" ++ VehicleType_str vehicleType.

Definition clearSegmentCache : Comp unit :=
  update (set_segmentCache JsMap.empty).

(** The eviction loop of [cacheSegment]:
    [while (cache.size >= MAX && order.length > 0)
       { const oldestKey = order.shift(); if (oldestKey) cache.delete(oldestKey); }] *)
Fixpoint evict (cache : JsMap.t RouteSegment) (order : list string)
  : JsMap.t RouteSegment * list string :=
  match order with
  | [] => (cache, [])
  | oldestKey :: rest =>
      if (MAX_SEGMENT_CACHE_SIZE <=? JsMap.size cache)%nat
      then evict (if Str.truthy oldestKey then JsMap.delete oldestKey cache else cache) rest
      else (cache, order)
  end.

Definition cacheSegment (key : string) (segment : RouteSegment) : Comp unit :=
  update (fun w =>
    let (cache, order) := evict (segmentCache w) (segmentCacheOrder w) in
    set_segmentCacheOrder (order ++ [key])%list
      (set_segmentCache (JsMap.set key segment cache) w)).

Definition coordinates_required : string :=
  "Les deux emplacements doivent avoir des coordonnées".

(** The segment built from an OpenRouteService route. *)
Definition orsSegment (from to : Location) (route : ORSRoute) : RouteSegment :=
  {| from := from; to := to;
     distance := ors_distance route;
     duration := (ors_duration route / 60)%float;
     instructions := ors_instructions route;
     polyline := ors_geometry route |}.

Definition calculateSegmentWithORS (from to : Location) (cacheKey : string)
  : Comp RouteSegment :=
  match coordinates from, coordinates to with
  | Some _, Some _ =>
      response <- fetch_ORS E from to ;;
      match response with
      | None => throw "OpenRouteService API error"
      | Some route =>
          let segment := orsSegment from to route in
          cacheSegment cacheKey segment ;;;
          ret segment
      end
  | _, _ => throw coordinates_required
  end.

(** The straight-line segment of the last tier. *)
Definition fallbackSegment (from to : Location) (c1 c2 : Coordinates)
  (vehicleType : VehicleType) : RouteSegment :=
  let distance := calculateDistance M c1 c2 in
  let estimatedSpeed := match vehicleType with truck => 50 | car => 70 end%float in
  let duration := (distance / estimatedSpeed * 60)%float in
  {| from := from; to := to;
     distance := distance;
     duration := duration;
     instructions :=
       ["Parcourir " ++ JsNumber.toFixed 1 distance ++ "km vers " ++ address to];
     polyline := None |}.

(** The segment built from an OSRM route. *)
Definition osrmSegment (from to : Location) (vehicleType : VehicleType)
  (route : OSRMRoute) : RouteSegment :=
  let distance := (osrm_distance route / 1000)%float in
  let duration := (osrm_duration route / 60)%float in
  let distance := match vehicleType with truck => (distance * 1.1)%float | car => distance end in
  let duration := match vehicleType with truck => (duration * 1.4)%float | car => duration end in
  {| from := from; to := to;
     distance := distance;
     duration := duration;
     instructions := osrm_instructions route;
     polyline := osrm_geometry route |}.

Definition calculateSegment (from to : Location) (vehicleType : VehicleType)
  : Comp RouteSegment :=
  match coordinates from, coordinates to with
  | Some c1, Some c2 =>
      let cacheKey := generateSegmentKey from to vehicleType in
      w <- get_world ;;
      match JsMap.get cacheKey (segmentCache w) with
      | Some cachedSegment => ret cachedSegment
      | None =>
          let general_tier : Comp RouteSegment :=
            try_catch
              (response <- fetch_OSRM E from to ;;
               match response with
               | Some route =>
                   let segment := osrmSegment from to vehicleType route in
                   cacheSegment cacheKey segment ;;;
                   ret segment
               | None => throw "Aucun trajet trouvé"
               end)
              (fun _ =>
                 let segment := fallbackSegment from to c1 c2 vehicleType in
                 cacheSegment cacheKey segment ;;;
                 ret segment) in
          if VehicleType_eqb vehicleType truck && hasTruckRouting
          then try_catch (calculateSegmentWithORS from to cacheKey) (fun _ => general_tier)
          else general_tier
      end
  | _, _ => throw coordinates_required
  end.

Definition calculateRouteSegments (locations : list Location)
  (vehicleType : VehicleType) (isLoop : bool) : Comp (list RouteSegment) :=
  segments <-
    for_each (seq 0 (List.length locations - 1))
      (fun segments i =>
         from <- at_index locations i ;;
         to <- at_index locations (i + 1) ;;
         segment <- calculateSegment from to vehicleType ;;
         ret (segments ++ [segment])%list)
      [] ;;
  if isLoop && (2 <? List.length locations)%nat then
    from <- at_index locations (List.length locations - 1) ;;
    to <- at_index locations 0 ;;
    returnSegment <- calculateSegment from to vehicleType ;;
    ret (segments ++ [returnSegment])%list
  else ret segments.

End Service.

(* ================================================================== *)
(** ** The location sequencer: the heuristics without provider calls *)

Section Heuristics.

Context (M : MathImpl).

Local Open Scope float_scope.

(** The score of one candidate in the standard nearest-neighbour scan. *)
Definition nearestScore (method : OptimizationMethod) (distance : float) : float :=
  match method with
  | shortest_distance => distance
  | fastest_time =>
      let baseSpeed := 50 in
      let speedMultiplier :=
        if 10 <? distance then 1.3 else if 5 <? distance then 1.1 else 0.8 in
      let adjustedSpeed := baseSpeed * speedMultiplier in
      distance / adjustedSpeed * 60
  | balanced =>
      let estimatedSpeed := 55 in
      let time := distance / estimatedSpeed * 60 in
      distance * 0.4 + time * 0.6
  end.

(** The [for (const location of locations)] scan of the standard
    nearest neighbour: the candidate kept and its score. *)
Definition nearestScan (visited : JsSet.t) (current : Location)
  (method : OptimizationMethod) (locations : list Location)
  : option Location * float :=
  fold_left
    (fun acc location =>
       let '(nearest, bestScore) := acc in
       if JsSet.has (id location) visited then acc
       else
         match coordinates location, coordinates current with
         | Some cl, Some cc =>
             let distance := calculateDistance M cc cl in
             let score := nearestScore method distance in
             if score <? bestScore then (Some location, score) else acc
         | _, _ => acc
         end)
    locations (None, infinity).

(** [while (visited.size < locations.length) { ... }] *)
Fixpoint nearestWhile (fuel : nat) (locations : list Location)
  (method : OptimizationMethod) (visited : JsSet.t) (result : list Location)
  (current : Location) : option (list Location) :=
  if (JsSet.size visited <? List.length locations)%nat then
    match fuel with
    | O => None
    | S fuel' =>
        match fst (nearestScan visited current method locations) with
        | Some nearest =>
            nearestWhile fuel' locations method
              (JsSet.add (id nearest) visited) (result ++ [nearest]) nearest
        | None => nearestWhile fuel' locations method visited result current
        end
    end
  else Some result.

(** The score of an edge in the loop heuristics. *)
Definition edgeScore (method : OptimizationMethod) (distance : float) : float :=
  match method with
  | shortest_distance => distance
  | fastest_time =>
      let speed := estimateSpeed distance in
      distance / speed * 60
  | balanced =>
      let speed := estimateSpeed distance in
      let time := distance / speed * 60 in
      distance * 0.4 + time * 0.6
  end.

(** The score of the last placement, return edge included. *)
Definition closingScore (method : OptimizationMethod) (distance returnDistance : float)
  : float :=
  match method with
  | shortest_distance => distance + returnDistance
  | fastest_time =>
      let speed1 := estimateSpeed distance in
      let speed2 := estimateSpeed returnDistance in
      distance / speed1 * 60 + returnDistance / speed2 * 60
  | balanced =>
      let speed1 := estimateSpeed distance in
      let speed2 := estimateSpeed returnDistance in
      let time1 := distance / speed1 * 60 in
      let time2 := returnDistance / speed2 * 60 in
      (distance * 0.4 + time1 * 0.6) + (returnDistance * 0.4 + time2 * 0.6)
  end.

(** A scan [for (let i = 0; i < remaining.length; i++)] keeps
    [nearest] and [bestIndex] together, and [bestScore]. *)
Definition indexed {A : Type} (l : list A) : list (nat * A) :=
  combine (seq 0 (List.length l)) l.

Definition scan (score : Coordinates -> Coordinates -> float)
  (current : Location) (remaining : list Location)
  : option (nat * Location) * float :=
  fold_left
    (fun acc entry =>
       let '(best, bestScore) := acc in
       let '(i, location) := entry in
       match coordinates location, coordinates current with
       | Some cl, Some cc =>
           let totalScore := score cc cl in
           if totalScore <? bestScore then (Some (i, location), totalScore) else acc
       | _, _ => acc
       end)
    (indexed remaining) (None, infinity).

(** [while (remaining.length > 0) { scan; if (nearest && bestIndex >= 0)
    { result.push(nearest); remaining.splice(bestIndex, 1); current = nearest } }] *)
Fixpoint placeWhile (fuel : nat)
  (score : nat -> Coordinates -> Coordinates -> float)
  (result remaining : list Location) (current : Location)
  : option (list Location) :=
  match remaining with
  | [] => Some result
  | _ :: _ =>
      match fuel with
      | O => None
      | S fuel' =>
          match fst (scan (score (List.length remaining)) current remaining) with
          | Some (bestIndex, nearest) =>
              placeWhile fuel' score (result ++ [nearest])
                (JsArray.remove_at bestIndex remaining) nearest
          | None => placeWhile fuel' score result remaining current
          end
      end
  end.

(** Scoring of [findNearestNeighborLoop], given [remaining.length]. *)
Definition nearestLoopScore (start : Location) (method : OptimizationMethod)
  (remaining_length : nat) (cc cl : Coordinates) : float :=
  let distance := calculateDistance M cc cl in
  if (remaining_length =? 1)%nat then
    match coordinates start with
    | Some cs =>
        let returnDistance := calculateDistance M cl cs in
        closingScore method distance returnDistance
    | None => distance
    end
  else edgeScore method distance.

Definition findNearestNeighborLoop (fuel : nat) (start : Location)
  (others : list Location) (method : OptimizationMethod) : option (list Location) :=
  placeWhile fuel (nearestLoopScore start method) [start] others start.

(** Scoring of the loops of [findFarthestFirstLoop] and
    [optimizeFromSecondLocation] (the same text in both). *)
Definition distanceLoopScore (start : Location) (remaining_length : nat)
  (cc cl : Coordinates) : float :=
  let distance := calculateDistance M cc cl in
  if (remaining_length =? 1)%nat then
    match coordinates start with
    | Some cs => distance + calculateDistance M cl cs
    | None => distance
    end
  else distance.

(** The first scan of [findFarthestFirstLoop]. *)
Definition farthestScan (start : Location) (others : list Location)
  : option Location * float :=
  fold_left
    (fun acc location =>
       let '(farthest, maxDistance) := acc in
       match coordinates location, coordinates start with
       | Some cl, Some cs =>
           let distance := calculateDistance M cs cl in
           if maxDistance <? distance then (Some location, distance) else acc
       | _, _ => acc
       end)
    others (None, 0).

Definition findFarthestFirstLoop (fuel : nat) (start : Location)
  (others : list Location) : option (list Location) :=
  match fst (farthestScan start others) with
  | None => Some (start :: others)
  | Some farthest =>
      let remaining :=
        filter (fun loc => negb (String.eqb (id loc) (id farthest))) others in
      placeWhile fuel (distanceLoopScore start) [start; farthest] remaining farthest
  end.

Definition optimizeFromSecondLocation (fuel : nat) (order : list Location)
  : option (list Location) :=
  match order with
  | first :: second :: toOptimize =>
      match toOptimize with
      | [] => Some order
      | _ => placeWhile fuel (distanceLoopScore first) [first; second] toOptimize second
      end
  | _ => Some order
  end.

Definition calculateCompleteLoopScore (locations : list Location)
  (method : OptimizationMethod) : float :=
  fold_left
    (fun totalScore i =>
       let from := nth_error locations i in
       let to :=
         if (i =? List.length locations - 1)%nat then nth_error locations 0
         else nth_error locations (i + 1) in
       match from, to with
       | Some from, Some to =>
           match coordinates from, coordinates to with
           | Some cf, Some ct =>
               let distance := calculateDistance M cf ct in
               totalScore + edgeScore method distance
           | _, _ => totalScore
           end
       | _, _ => totalScore
       end)
    (seq 0 (List.length locations)) 0.

(** One step of "keep the best": [if (score < bestScore) { ... }]. *)
Definition keep_best (best : list Location * float) (candidate : list Location)
  (score : float) : list Location * float :=
  if score <? snd best then (candidate, score) else best.

(** The orders tried by the third approach, one per index [i]. *)
Definition alternateSecond (fuel : nat) (startLocation : Location)
  (otherLocations : list Location) (i : nat) : option (list Location) :=
  match nth_error otherLocations i with
  | Some second =>
      optimizeFromSecondLocation fuel
        (startLocation :: second :: JsArray.remove_at i otherLocations)
  | None => Some (startLocation :: JsArray.remove_at i otherLocations)
  end.

Fixpoint tryAlternates (fuel : nat) (startLocation : Location)
  (otherLocations : list Location) (method : OptimizationMethod)
  (indices : list nat) (best : list Location * float)
  : option (list Location * float) :=
  match indices with
  | [] => Some best
  | i :: rest =>
      match alternateSecond fuel startLocation otherLocations i with
      | Some reorderedTest =>
          let testScore := calculateCompleteLoopScore reorderedTest method in
          tryAlternates fuel startLocation otherLocations method rest
            (keep_best best reorderedTest testScore)
      | None => None
      end
  end.

Definition loopAwareOptimization (fuel : nat) (locations : list Location)
  (method : OptimizationMethod) : option (list Location) :=
  match locations with
  | [] => Some locations
  | startLocation :: otherLocations =>
      let best := (locations, infinity) in
      match findNearestNeighborLoop fuel startLocation otherLocations method with
      | None => None
      | Some nearestFirst =>
          let nearestScore := calculateCompleteLoopScore nearestFirst method in
          let best := keep_best best nearestFirst nearestScore in
          match findFarthestFirstLoop fuel startLocation otherLocations with
          | None => None
          | Some farthestFirst =>
              let farthestScore := calculateCompleteLoopScore farthestFirst method in
              let best := keep_best best farthestFirst farthestScore in
              match tryAlternates fuel startLocation otherLocations method
                      (seq 0 (Nat.min (List.length otherLocations) 3)) best with
              | Some (bestOrder, _) => Some bestOrder
              | None => None
              end
          end
      end
  end.

Definition nearestNeighborOptimization (fuel : nat) (locations : list Location)
  (method : OptimizationMethod) (isLoop : bool) : option (list Location) :=
  match locations with
  | [] | [_] => Some locations
  | current :: _ =>
      if isLoop && (3 <=? List.length locations)%nat
      then loopAwareOptimization fuel locations method
      else nearestWhile fuel locations method (JsSet.add (id current) []) [current] current
  end.

End Heuristics.

(* ================================================================== *)
(** ** The location sequencer and the orchestrator *)

Section Orchestrator.

Context (M : MathImpl) (E : Env).

Fixpoint factorial (n : nat) : nat :=
  match n with
  | O => 1
  | S n' => if (n <=? 1)%nat then 1 else n * factorial n'
  end.

(** The recursive [permute(current, remaining)] of [generatePermutations]
    with the [result] array it fills; [depth] bounds the recursion by the
    number of elements left. *)
Fixpoint permute {T : Type} (depth maxCount : nat) (current remaining : list T)
  (result : list (list T)) : list (list T) :=
  if (maxCount <=? List.length result)%nat then result
  else
    match remaining with
    | [] => result ++ [current]
    | _ :: _ =>
        match depth with
        | O => result
        | S depth' =>
            fold_left
              (fun result i =>
                 match nth_error remaining i with
                 | Some next =>
                     permute depth' maxCount (current ++ [next])
                       (JsArray.remove_at i remaining) result
                 | None => result
                 end)
              (seq 0 (List.length remaining)) result
        end
    end.

Definition generatePermutations {T : Type} (arr : list T) (maxCount : nat)
  : list (list T) :=
  firstn maxCount (permute (List.length arr) maxCount [] arr []).

Local Open Scope float_scope.

(** What one segment adds to the score of an order. *)
Definition segmentScore (method : OptimizationMethod) (segment : RouteSegment) : float :=
  match method with
  | shortest_distance => distance segment
  | fastest_time => duration segment
  | balanced => distance segment * 0.4 + duration segment * 0.6
  end.

(** The same from the straight-line distance, in the [catch] branch. *)
Definition estimateScore (method : OptimizationMethod) (vehicleType : VehicleType)
  (distance : float) : float :=
  match method with
  | shortest_distance => distance
  | fastest_time =>
      let estimatedSpeed := match vehicleType with truck => 50 | car => 65 end in
      distance / estimatedSpeed * 60
  | balanced =>
      let estimatedSpeed := match vehicleType with truck => 55 | car => 60 end in
      let time := distance / estimatedSpeed * 60 in
      distance * 0.4 + time * 0.6
  end.

Definition calculateOrderScore (locations : list Location)
  (method : OptimizationMethod) (isLoop : bool) (vehicleType : VehicleType)
  : Comp float :=
  if (List.length locations =? 0)%nat then ret 0
  else
    let segmentCount :=
      if isLoop then List.length locations else (List.length locations - 1)%nat in
    for_each (seq 0 segmentCount)
      (fun totalScore i =>
         from <- at_index locations i ;;
         to <- (if isLoop && (i =? List.length locations - 1)%nat
                then at_index locations 0
                else at_index locations (i + 1)) ;;
         match coordinates from, coordinates to with
         | Some cf, Some ct =>
             try_catch
               (segment <- calculateSegment M E from to vehicleType ;;
                ret (totalScore + segmentScore method segment))
               (fun _ =>
                  let distance := calculateDistance M cf ct in
                  ret (totalScore + estimateScore method vehicleType distance))
         | _, _ => ret totalScore
         end)
      0.

Definition advancedOptimization (fuel : nat) (locations : list Location)
  (method : OptimizationMethod) (isLoop : bool) (vehicleType : VehicleType)
  : Comp (list Location) :=
  if (List.length locations <=? 1)%nat then ret locations
  else
    let maxPermutations := Nat.min (factorial (List.length locations)) 120 in
    let best := (locations, infinity) in
    nearestNeighborResult <-
      lift_option (nearestNeighborOptimization M fuel locations method isLoop) ;;
    nearestScore <- calculateOrderScore nearestNeighborResult method isLoop vehicleType ;;
    let best := keep_best best nearestNeighborResult nearestScore in
    if (List.length locations <=? 6)%nat then
      let permutations := generatePermutations locations (Nat.min maxPermutations 20) in
      best <-
        for_each permutations
          (fun best permutation =>
             score <- calculateOrderScore permutation method isLoop vehicleType ;;
             ret (keep_best best permutation score))
          best ;;
      ret (fst best)
    else ret (fst best).

(** The merge loop of [optimizeLocationOrder]:
    [result] and [optimizedIndex] after positions [0 .. n-1]. *)
Definition mergeStep (lockedLocations optimized : list Location)
  (state : list Location * nat) (i : nat) : list Location * nat :=
  let '(result, optimizedIndex) := state in
  match JsArray.find (order_is i) lockedLocations with
  | Some lockedAtPosition => (result ++ [lockedAtPosition], optimizedIndex)
  | None =>
      match nth_error optimized optimizedIndex with
      | Some next => (result ++ [next], S optimizedIndex)
      | None => state
      end
  end.

Definition mergeLocked (n : nat) (lockedLocations optimized : list Location)
  : list Location :=
  fst (fold_left (mergeStep lockedLocations optimized) (seq 0 n) ([], 0%nat)).

Definition compareOrder (a b : Location) : Z := (order_or_0 a - order_or_0 b)%Z.

(** [optimizeLocationOrder] returns the array it built, or its argument;
    the second component is what its argument array holds afterwards
    ([sort] works in place). *)
Definition optimizeLocationOrder (fuel : nat) (locations : list Location)
  (method : OptimizationMethod) (isLoop : bool) (vehicleType : VehicleType)
  : Comp (list Location * list Location) :=
  if (List.length locations <=? 2)%nat then ret (locations, locations)
  else
    let lockedLocations := filter locked locations in
    let unlockedLocations := filter (fun loc => negb (locked loc)) locations in
    if (List.length unlockedLocations =? 0)%nat then
      let sorted := JsArray.sort compareOrder locations in
      ret (sorted, sorted)
    else
      optimized <-
        (if (List.length unlockedLocations <=? 8)%nat
         then advancedOptimization fuel unlockedLocations method isLoop vehicleType
         else lift_option
                (nearestNeighborOptimization M fuel unlockedLocations method isLoop)) ;;
      ret (mergeLocked (List.length locations) lockedLocations optimized, locations).

Local Open Scope string_scope.

Definition Z_to_string (z : Z) : string :=
  if (z <? 0)%Z then "-" ++ JsNumber.Z_to_decimal (- z) else JsNumber.Z_to_decimal z.

(** [`route_${Date.now()}_${Math.random().toString(36).substring(2, 11)}`] *)
Definition generateRouteId : Comp string :=
  now <- Date_now_ E ;;
  fun w => (Ok ("route_" ++ Z_to_string now ++ "_" ++ Math_random_base36 E (ticks w)), tick w).

Definition with_locations (request : RouteOptimizationRequest)
  (locations : list Location) : RouteOptimizationRequest :=
  {| locations := locations;
     vehicleType := vehicleType request;
     isLoop := isLoop request;
     optimizationMethod := optimizationMethod request;
     avoidTolls := avoidTolls request;
     avoidHighways := avoidHighways request |}.

Definition sum_by (field : RouteSegment -> float) (segments : list RouteSegment) : float :=
  fold_left (fun sum seg => (sum + field seg)%float) segments 0%float.

Definition missing_coordinates_message (missingCoordinates : list Location) : string :=
  "Les emplacements suivants n'ont pas de coordonnées : "
    ++ Str.join ", " (map address missingCoordinates).

Definition too_few_message : string :=
  "Au moins 2 emplacements sont requis pour calculer un trajet".

Definition failure_message (message : string) : string :=
  "Impossible de calculer le trajet: " ++ message.

Definition calculateRoute (fuel : nat) (request : RouteOptimizationRequest)
  : Comp RouteOptimizationResponse :=
  startTime <- Date_now_ E ;;
  cachedRoute <- getCachedRoute E request ;;
  match cachedRoute with
  | Some cachedRoute =>
      now <- Date_now_ E ;;
      ret {| route := cachedRoute;
             metadata := {| calculationTime := (now - startTime)%Z;
                            algorithm := "cache-hit";
                            apiProvider := "Cache" |} |}
  | None =>
      clearSegmentCache ;;;
      try_catch
        (let missingCoordinates :=
           filter (fun loc => negb (has_coordinates loc)) (locations request) in
         if (0 <? List.length missingCoordinates)%nat
         then throw (missing_coordinates_message missingCoordinates)
         else if (List.length (locations request) <? 2)%nat
         then throw too_few_message
         else
           optimizedLocations <-
             optimizeLocationOrder fuel (locations request)
               (optimizationMethod request) (isLoop request) (vehicleType request) ;;
           segments <-
             calculateRouteSegments M E (fst optimizedLocations)
               (vehicleType request) (isLoop request) ;;
           routeId <- generateRouteId ;;
           let route :=
             {| route_id := routeId;
                route_locations := fst optimizedLocations;
                totalDistance := sum_by distance segments;
                totalDuration := sum_by duration segments;
                route_vehicleType := vehicleType request;
                route_isLoop := isLoop request;
                segments := segments;
                route_optimizationMethod := optimizationMethod request |} in
           setCachedRoute E (with_locations request (snd optimizedLocations)) route ;;;
           now <- Date_now_ E ;;
           ret {| route := route;
                  metadata := {| calculationTime := (now - startTime)%Z;
                                 algorithm := "openstreetmap-free";
                                 apiProvider := "nominatim+osrm" |} |})
        (fun message => throw (failure_message message))
  end.

End Orchestrator.

(* ================================================================== *)
(** * Properties *)

(** ** Running the code: stops, hosts and requests of the examples *)

Definition stop (name : string) (lat lon : float) : Location :=
  {| id := name; address := name;
     coordinates := Some {| latitude := lat; longitude := lon |};
     isLocked := None; lockPosition := None; order := None |}.

Definition stop_without_coordinates (name : string) : Location :=
  {| id := name; address := name; coordinates := None;
     isLocked := None; lockPosition := None; order := None |}.

Definition locked_stop (name : string) (lat lon : float) (position : option Z) : Location :=
  {| id := name; address := name;
     coordinates := Some {| latitude := lat; longitude := lon |};
     isLocked := Some true; lockPosition := Some lock_fixed; order := position |}.

(** A host whose routing providers are unreachable and which has no
    OpenRouteService key; its clock advances by one millisecond a read. *)
Definition offline : Env :=
  {| openRouteServiceApiKey := None;
     Date_now := fun n => (1700000000000 + Z.of_nat n)%Z;
     Math_random_base36 := fun _ => "k3j9x0q2m";
     fetchORS := fun _ _ _ => None;
     fetchOSRM := fun _ _ _ => None |}.

(** The same with an OpenRouteService key configured. *)
Definition offline_with_key : Env :=
  {| openRouteServiceApiKey := Some "key";
     Date_now := Date_now offline;
     Math_random_base36 := Math_random_base36 offline;
     fetchORS := fun _ _ _ => None;
     fetchOSRM := fun _ _ _ => None |}.

Definition request_of (stops : list Location) (vehicle : VehicleType)
  (method : OptimizationMethod) (loop : bool) : RouteOptimizationRequest :=
  {| locations := stops; vehicleType := vehicle; isLoop := loop;
     optimizationMethod := method; avoidTolls := None; avoidHighways := None |}.

Definition paris : Coordinates := {| latitude := 48.8566; longitude := 2.3522 |}.
Definition london : Coordinates := {| latitude := 51.5074; longitude := -0.1278 |}.
Definition origin : Coordinates := {| latitude := 0; longitude := 0 |}.

Example toFixed_paris : JsNumber.toFixed 4 48.8566 = "48.8566".
Proof. vm_compute. reflexivity. Qed.

Example toFixed_small_negative : JsNumber.toFixed 4 (-0.00001) = "-0.0000".
Proof. vm_compute. reflexivity. Qed.

Example toFixed_large : JsNumber.toFixed 4 1.2345e25 = "1.2345e+25".
Proof. vm_compute. reflexivity. Qed.

Example toFixed_binary_value : JsNumber.toFixed 2 1.005 = "1.00".
Proof. vm_compute. reflexivity. Qed.

Example toFixed_no_fraction : JsNumber.toFixed 0 12.5 = "13".
Proof. vm_compute. reflexivity. Qed.

Example distance_paris_london :
  (343 <? calculateDistance PolyMath.impl paris london)%float = true /\
  (calculateDistance PolyMath.impl paris london <? 345)%float = true.
Proof. vm_compute. split; reflexivity. Qed.

(* ------------------------------------------------------------------ *)
(** ** Maps *)

Module JsMapFacts.

Section Facts.

Context {V : Type}.

Implicit Types (m : JsMap.t V) (k : string) (v : V).

Lemma get_set_same m k v : JsMap.get k (JsMap.set k v m) = Some v.
Proof.
  induction m as [|[k' v'] m IH]; simpl.
  - now rewrite String.eqb_refl.
  - destruct (String.eqb k' k) eqn:Hk; simpl.
    + now rewrite String.eqb_refl.
    + now rewrite Hk.
Qed.

Lemma get_set_other m k k' v :
  k <> k' -> JsMap.get k' (JsMap.set k v m) = JsMap.get k' m.
Proof.
  intros Hne. induction m as [|[k0 v0] m IH]; simpl.
  - destruct (String.eqb k k') eqn:Hk; [apply String.eqb_eq in Hk; contradiction | reflexivity].
  - destruct (String.eqb k0 k) eqn:Hk; simpl.
    + apply String.eqb_eq in Hk. subst k0.
      destruct (String.eqb k k') eqn:Hk'; [apply String.eqb_eq in Hk'; contradiction | reflexivity].
    + destruct (String.eqb k0 k'); [reflexivity | exact IH].
Qed.

Lemma get_In m k v : JsMap.get k m = Some v -> In (k, v) m.
Proof.
  induction m as [|[k' v'] m IH]; simpl; [discriminate|].
  destruct (String.eqb k' k) eqn:Hk.
  - apply String.eqb_eq in Hk. intros [= ->]. left. now subst.
  - intros H. right. now apply IH.
Qed.

Lemma get_None_keys m k : JsMap.get k m = None <-> ~ In k (JsMap.keys m).
Proof.
  induction m as [|[k' v'] m IH]; simpl.
  - tauto.
  - destruct (String.eqb k' k) eqn:Hk.
    + apply String.eqb_eq in Hk. split; [discriminate | intros H; exfalso; apply H; now left].
    + apply String.eqb_neq in Hk. rewrite IH. tauto.
Qed.

Lemma get_Some_keys m k v : JsMap.get k m = Some v -> In k (JsMap.keys m).
Proof.
  intros H. apply get_In in H. unfold JsMap.keys. change k with (fst (k, v)).
  now apply in_map.
Qed.

Lemma keys_set_new m k v :
  JsMap.get k m = None -> JsMap.keys (JsMap.set k v m) = JsMap.keys m ++ [k].
Proof.
  induction m as [|[k' v'] m IH]; simpl; [reflexivity|].
  destruct (String.eqb k' k) eqn:Hk; [discriminate|].
  intros H. simpl. now rewrite IH.
Qed.

Lemma keys_set_old m k v :
  JsMap.get k m <> None -> JsMap.keys (JsMap.set k v m) = JsMap.keys m.
Proof.
  induction m as [|[k' v'] m IH]; simpl; [congruence|].
  destruct (String.eqb k' k) eqn:Hk; simpl.
  - apply String.eqb_eq in Hk. now subst.
  - intros H. now rewrite IH.
Qed.

Lemma keys_delete_head m k v : JsMap.keys (JsMap.delete k ((k, v) :: m)) = JsMap.keys m.
Proof. simpl. now rewrite String.eqb_refl. Qed.

Lemma delete_absent m k : ~ In k (JsMap.keys m) -> JsMap.delete k m = m.
Proof.
  induction m as [|[k' v'] m IH]; simpl; [reflexivity|].
  intros H. destruct (String.eqb k' k) eqn:Hk.
  - apply String.eqb_eq in Hk. exfalso. apply H. now left.
  - f_equal. apply IH. tauto.
Qed.

Lemma get_delete_other m k k' :
  k <> k' -> JsMap.get k' (JsMap.delete k m) = JsMap.get k' m.
Proof.
  intros Hne. induction m as [|[k0 v0] m IH]; simpl; [reflexivity|].
  destruct (String.eqb k0 k) eqn:Hk; simpl.
  - apply String.eqb_eq in Hk. subst k0.
    destruct (String.eqb k k') eqn:Hk'; [apply String.eqb_eq in Hk'; contradiction | reflexivity].
  - destruct (String.eqb k0 k'); [reflexivity | exact IH].
Qed.

Lemma size_keys m : JsMap.size m = List.length (JsMap.keys m).
Proof. unfold JsMap.size, JsMap.keys. now rewrite length_map. Qed.

End Facts.

End JsMapFacts.

(* ------------------------------------------------------------------ *)
(** ** Running computations *)

Lemma bind_Ok {A B : Type} (c : Comp A) (k : A -> Comp B) w a w' :
  c w = (Ok a, w') -> bind c k w = k a w'.
Proof. unfold bind. now intros ->. Qed.

Lemma bind_Ok_inv {A B : Type} (c : Comp A) (k : A -> Comp B) w b w'' :
  bind c k w = (Ok b, w'') ->
  exists a w', c w = (Ok a, w') /\ k a w' = (Ok b, w'').
Proof.
  unfold bind. destruct (c w) as [[a| |] w']; try discriminate.
  intros H. now exists a, w'.
Qed.

Lemma try_catch_Ok_inv {A : Type} (c : Comp A) (handler : string -> Comp A) w a w'' :
  try_catch c handler w = (Ok a, w'') ->
  c w = (Ok a, w'') \/
  exists message w', c w = (Throw message, w') /\ handler message w' = (Ok a, w'').
Proof.
  unfold try_catch. destruct (c w) as [[a'| message |] w'] eqn:Hc.
  - intros H. now left.
  - intros H. right. now exists message, w'.
  - discriminate.
Qed.

(* ------------------------------------------------------------------ *)
(** ** The segment cache: clearing *)

Lemma clearSegmentCache_spec (w : World) :
  clearSegmentCache w = (Ok tt, set_segmentCache JsMap.empty w).
Proof. reflexivity. Qed.

(** The world after the service answered [calculateRoute] once, for two
    car stops, providers unreachable. *)
Definition after_first_run : World :=
  snd (calculateRoute PolyMath.impl offline 4
         (request_of [stop "A" 48.8566 2.3522; stop "B" 48.8606 2.3376]
            car balanced false)
         initial_world).

(** C4. [clearSegmentCache] empties the key-to-segment map only: the
    insertion-order record keeps every key it held.  After a first run
    that cached the segment "A-B-car", clearing leaves an empty map and
    the order record ["A-B-car"]; in any world the order record is the
    one before the call. *)
Theorem clearSegmentCache_keeps_order :
  segmentCacheOrder after_first_run = ["A-B-car"] /\
  segmentCache (snd (clearSegmentCache after_first_run)) = JsMap.empty /\
  segmentCacheOrder (snd (clearSegmentCache after_first_run)) = ["A-B-car"] /\
  (forall w : World,
     segmentCacheOrder (snd (clearSegmentCache w)) = segmentCacheOrder w).
Proof.
  repeat split.
Qed.

(* ------------------------------------------------------------------ *)
(** ** The segment resolver: the straight-line tier *)

Section Fallback.

Context (M : MathImpl) (E : Env).

Lemma cacheSegment_spec (key : string) (segment : RouteSegment) (w : World) :
  cacheSegment key segment w =
  (Ok tt,
   set_segmentCacheOrder (snd (evict (segmentCache w) (segmentCacheOrder w)) ++ [key])
     (set_segmentCache
        (JsMap.set key segment (fst (evict (segmentCache w) (segmentCacheOrder w)))) w)).
Proof.
  unfold cacheSegment, update.
  destruct (evict (segmentCache w) (segmentCacheOrder w)); reflexivity.
Qed.

(** The world after a segment went through the general tier and the
    straight-line tier cached it. *)
Definition after_fallback (key : string) (segment : RouteSegment) (w : World) : World :=
  snd (cacheSegment key segment w).

Lemma general_tier_fails (from to : Location) (c1 c2 : Coordinates)
  (vehicleType : VehicleType) (w : World) :
  coordinates from = Some c1 ->
  coordinates to = Some c2 ->
  JsMap.get (generateSegmentKey from to vehicleType) (segmentCache w) = None ->
  (forall n, fetchORS E n from to = None) ->
  (forall n, fetchOSRM E n from to = None) ->
  exists w',
    calculateSegment M E from to vehicleType w
    = (Ok (fallbackSegment M from to c1 c2 vehicleType), w').
Proof.
  intros H1 H2 Hmiss Hors Hosrm.
  unfold calculateSegment. rewrite H1, H2.
  unfold bind at 1. unfold get_world. rewrite Hmiss.
  destruct (VehicleType_eqb vehicleType truck && hasTruckRouting E).
  - unfold try_catch at 1. unfold calculateSegmentWithORS. rewrite H1, H2.
    unfold bind at 1, fetch_ORS. rewrite Hors. unfold throw.
    unfold try_catch, bind at 1, fetch_OSRM. rewrite Hosrm. unfold throw.
    unfold bind. rewrite cacheSegment_spec. unfold ret. eauto.
  - unfold try_catch, bind at 1, fetch_OSRM. rewrite Hosrm. unfold throw.
    unfold bind. rewrite cacheSegment_spec. unfold ret. eauto.
Qed.

End Fallback.

(** C3, as the code has it.  For two stops with coordinates whose
    segment is not cached, when both provider tiers fail,
    [calculateSegment] returns a segment whose polyline is [null], whose
    distance is the geodesic distance, and whose duration is that
    distance divided by 50 (truck) or 70 (otherwise), times 60. *)
Theorem calculateSegment_straight_line
  (M : MathImpl) (E : Env) (from to : Location) (c1 c2 : Coordinates)
  (vehicleType : VehicleType) (w : World)
  (Hfrom : coordinates from = Some c1)
  (Hto : coordinates to = Some c2)
  (Hmiss : JsMap.get (generateSegmentKey from to vehicleType) (segmentCache w) = None)
  (Hors : forall n, fetchORS E n from to = None)
  (Hosrm : forall n, fetchOSRM E n from to = None) :
  exists segment w',
    calculateSegment M E from to vehicleType w = (Ok segment, w') /\
    polyline segment = None /\
    distance segment = calculateDistance M c1 c2 /\
    duration segment =
      (distance segment / (match vehicleType with truck => 50 | car => 70 end) * 60)%float.
Proof.
  destruct (general_tier_fails M E from to vehicleType w Hfrom Hto Hmiss Hors Hosrm)
    as [w' Hrun].
  exists (fallbackSegment M from to c1 c2 vehicleType), w'.
  repeat split; try exact Hrun.
Qed.

Lemma calculateSegment_straight_line_witness :
  exists segment w',
    calculateSegment PolyMath.impl offline_with_key
      (stop "A" 48.8566 2.3522) (stop "B" 51.5074 (-0.1278)) truck initial_world
    = (Ok segment, w') /\
    polyline segment = None /\
    distance segment = calculateDistance PolyMath.impl paris london /\
    duration segment = (distance segment / 50 * 60)%float.
Proof.
  apply (calculateSegment_straight_line PolyMath.impl offline_with_key
           (stop "A" 48.8566 2.3522) (stop "B" 51.5074 (-0.1278)) truck initial_world);
    reflexivity.
Defined.

Lemma calculateDistance_origin (M : MathImpl) : calculateDistance M origin origin = 0%float.
Proof.
  unfold calculateDistance, degToRad, origin; simpl.
  change (((0 - 0) * (Math_PI / 180) / 2)%float) with 0%float.
  change ((0 * (Math_PI / 180))%float) with 0%float.
  rewrite Math_sin_zero, Math_cos_zero.
  change ((0 * 0 + 1 * 1 * 0 * 0)%float) with 0%float.
  change (sqrt 0) with 0%float.
  change (sqrt (1 - 0)) with 1%float.
  rewrite Math_atan2_zero. reflexivity.
Qed.

(** C3, against "strictly positive": two distinct stops at the same
    coordinates are at geodesic distance 0, and the straight-line tier
    gives their segment the duration 0, on every numeric library. *)
Lemma calculateSegment_duration_zero :
  exists from to : Location,
    id from <> id to /\
    coordinates from = Some origin /\
    coordinates to = Some origin /\
    forall M : MathImpl,
    exists segment w',
      calculateSegment M offline from to car initial_world = (Ok segment, w') /\
      polyline segment = None /\
      duration segment = 0%float /\
      (0 <? duration segment)%float = false.
Proof.
  exists (stop "depot" 0 0), (stop "dock" 0 0).
  split; [discriminate|]. split; [reflexivity|]. split; [reflexivity|].
  intros M.
  destruct (general_tier_fails M offline (stop "depot" 0 0) (stop "dock" 0 0) car initial_world
              (c1 := origin) (c2 := origin)) as [w' Hrun]; try reflexivity.
  eexists _, w'. split; [exact Hrun|].
  split; [reflexivity|].
  assert (Hd : duration (fallbackSegment M (stop "depot" 0 0) (stop "dock" 0 0) origin origin car)
               = 0%float).
  { unfold fallbackSegment; simpl. rewrite calculateDistance_origin. reflexivity. }
  rewrite Hd. split; reflexivity.
Qed.

(* ------------------------------------------------------------------ *)
(** ** [Array.prototype.sort] by position index *)

Module SortFacts.

Section Generic.

Context {A : Type} (compareFn : A -> A -> Z).

Lemma insert_perm (x : A) (l : list A) :
  Permutation (x :: l) (JsArray.insert compareFn x l).
Proof.
  induction l as [|y l IH]; simpl.
  - apply Permutation_refl.
  - destruct (compareFn x y <=? 0)%Z.
    + apply Permutation_refl.
    + apply perm_trans with (y :: x :: l); [apply perm_swap|].
      now apply perm_skip.
Qed.

Lemma sort_perm (l : list A) : Permutation l (JsArray.sort compareFn l).
Proof.
  induction l as [|x l IH]; simpl.
  - apply perm_nil.
  - apply perm_trans with (x :: JsArray.sort compareFn l).
    + now apply perm_skip.
    + apply insert_perm.
Qed.

End Generic.

Definition by_order (a b : Location) : Prop := (order_or_0 a <= order_or_0 b)%Z.

Lemma insert_sorted (x : Location) (l : list Location) :
  StronglySorted by_order l ->
  StronglySorted by_order (JsArray.insert compareOrder x l).
Proof.
  induction 1 as [|y l Hs IH Hy]; simpl.
  - constructor; constructor.
  - unfold compareOrder at 1.
    destruct (order_or_0 x - order_or_0 y <=? 0)%Z eqn:Hc.
    + apply Z.leb_le in Hc. constructor.
      * now constructor.
      * constructor; [unfold by_order; lia|].
        rewrite Forall_forall in Hy |- *. intros z Hz.
        specialize (Hy z Hz). unfold by_order in *. lia.
    + apply Z.leb_gt in Hc. constructor; [exact IH|].
      rewrite Forall_forall in Hy |- *. intros z Hz.
      apply (Permutation_in _ (Permutation_sym (insert_perm compareOrder x l))) in Hz.
      destruct Hz as [<-|Hz]; [unfold by_order; lia | now apply Hy].
Qed.

Lemma sort_sorted (l : list Location) :
  StronglySorted by_order (JsArray.sort compareOrder l).
Proof.
  induction l as [|x l IH]; simpl; [constructor | now apply insert_sorted].
Qed.

Definition at_position (k : Z) (loc : Location) : bool := (order_or_0 loc =? k)%Z.

Lemma insert_stable (k : Z) (x : Location) (l : list Location) :
  filter (at_position k) (JsArray.insert compareOrder x l)
  = filter (at_position k) (x :: l).
Proof.
  induction l as [|y l IH]; simpl; [reflexivity|].
  unfold compareOrder at 1.
  destruct (order_or_0 x - order_or_0 y <=? 0)%Z eqn:Hc; [reflexivity|].
  apply Z.leb_gt in Hc. simpl. rewrite IH. simpl.
  unfold at_position.
  destruct (order_or_0 x =? k)%Z eqn:Hx; [|reflexivity].
  apply Z.eqb_eq in Hx.
  destruct (order_or_0 y =? k)%Z eqn:Hy; [|reflexivity].
  apply Z.eqb_eq in Hy. lia.
Qed.

(** Stops with the same position index keep their relative order. *)
Lemma sort_stable (k : Z) (l : list Location) :
  filter (at_position k) (JsArray.sort compareOrder l) = filter (at_position k) l.
Proof.
  induction l as [|x l IH]; simpl; [reflexivity|].
  rewrite insert_stable. simpl. now rewrite IH.
Qed.

End SortFacts.

Lemma all_locked_no_unlocked (l : list Location) :
  forallb locked l = true -> filter (fun loc => negb (locked loc)) l = [].
Proof.
  induction l as [|x l IH]; simpl; [reflexivity|].
  intros H. apply andb_prop in H. destruct H as [Hx Hl].
  rewrite Hx. simpl. now apply IH.
Qed.

(** C7, as the code has it.  With at least three stops, all locked, the
    sequencer returns (whatever the method, loop flag, vehicle and state,
    and leaving the state as it was) its input sorted by
    [Array.prototype.sort] on the position index [order || 0]: a
    permutation of the input, ascending in the index, stops with equal
    indices in their input order.  With at most two stops it returns
    its input as it is. *)
Theorem optimizeLocationOrder_all_locked
  (M : MathImpl) (E : Env) (fuel : nat) (stops : list Location)
  (method : OptimizationMethod) (loop : bool) (vehicle : VehicleType) (w : World)
  (Hlocked : forallb locked stops = true) :
  exists output,
    optimizeLocationOrder M E fuel stops method loop vehicle w = (Ok (output, output), w) /\
    (List.length stops <= 2 -> output = stops) /\
    (3 <= List.length stops ->
       output = JsArray.sort compareOrder stops /\
       Permutation stops output /\
       StronglySorted SortFacts.by_order output /\
       forall k, filter (SortFacts.at_position k) output
                 = filter (SortFacts.at_position k) stops).
Proof.
  unfold optimizeLocationOrder.
  destruct (List.length stops <=? 2) eqn:Hlen.
  - apply Nat.leb_le in Hlen. exists stops. split; [reflexivity|].
    split; [reflexivity | lia].
  - apply Nat.leb_gt in Hlen.
    rewrite (all_locked_no_unlocked stops Hlocked). simpl.
    exists (JsArray.sort compareOrder stops). split; [reflexivity|].
    split; [lia|]. intros _.
    split; [reflexivity|].
    split; [apply SortFacts.sort_perm|].
    split; [apply SortFacts.sort_sorted | intros k; apply SortFacts.sort_stable].
Qed.

Definition three_locked : list Location :=
  [locked_stop "C" 48.87 2.33 (Some 2%Z);
   locked_stop "A" 48.85 2.35 (Some 0%Z);
   locked_stop "B" 48.86 2.34 (Some 1%Z)].

Lemma optimizeLocationOrder_all_locked_witness :
  exists output,
    optimizeLocationOrder PolyMath.impl offline 0 three_locked balanced false car initial_world
    = (Ok (output, output), initial_world) /\
    (List.length three_locked <= 2 -> output = three_locked) /\
    (3 <= List.length three_locked ->
       output = JsArray.sort compareOrder three_locked /\
       Permutation three_locked output /\
       StronglySorted SortFacts.by_order output /\
       forall k, filter (SortFacts.at_position k) output
                 = filter (SortFacts.at_position k) three_locked).
Proof.
  apply (optimizeLocationOrder_all_locked PolyMath.impl offline 0 three_locked
           balanced false car initial_world).
  reflexivity.
Defined.

Example three_locked_sorted :
  map id (JsArray.sort compareOrder three_locked) = ["A"; "B"; "C"].
Proof. reflexivity. Qed.

Definition two_locked : list Location :=
  [locked_stop "B" 48.86 2.34 (Some 1%Z); locked_stop "A" 48.85 2.35 (Some 0%Z)].

(** C7, against "for every input list": two locked stops given in the
    order of positions 1, 0 come back in that order, which is not the
    list sorted by position. *)
Lemma two_locked_stops_unsorted :
  forallb locked two_locked = true /\
  map id (JsArray.sort compareOrder two_locked) = ["A"; "B"] /\
  exists output,
    fst (optimizeLocationOrder PolyMath.impl offline 0 two_locked balanced false car
           initial_world) = Ok (output, output) /\
    map id output = ["B"; "A"] /\
    map order output = [Some 1%Z; Some 0%Z].
Proof.
  split; [reflexivity|]. split; [reflexivity|].
  exists two_locked. repeat split.
Qed.

(* ------------------------------------------------------------------ *)
(** ** The segment cache: eviction order *)

(** The cache of the specification, by its words (4.3): [put]: if the
    current size is at least the capacity, evict the single
    oldest-inserted key, then insert; [get] leaves the cache as it is.
    The queue lists the cached keys, oldest first. *)
Definition fifo_put (capacity : nat) (queue : list string) (key : string) : list string :=
  if capacity <=? List.length queue then tl queue ++ [key] else queue ++ [key].

(** A resolution of the key: a [get] that hits, or a miss and a [put]. *)
Definition fifo_resolve (capacity : nat) (queue : list string) (key : string)
  : list string :=
  if existsb (String.eqb key) queue then queue else fifo_put capacity queue key.

(** A call of [calculateSegment]. *)
Definition SegmentCall : Type := Location * Location * VehicleType.

Definition call_key (call : SegmentCall) : option string :=
  let '(from, to, vehicleType) := call in
  if has_coordinates from && has_coordinates to
  then Some (generateSegmentKey from to vehicleType)
  else None.

Definition fifo_trace (queue : list string) (calls : list SegmentCall) : list string :=
  fold_left
    (fun queue call =>
       match call_key call with
       | Some key => fifo_resolve MAX_SEGMENT_CACHE_SIZE queue key
       | None => queue
       end)
    calls queue.

Section SegmentCacheOrder.

Context (M : MathImpl) (E : Env).

(** The world after a sequence of [calculateSegment] calls, whatever
    each returned or threw. *)
Definition resolve_all (calls : list SegmentCall) (w : World) : World :=
  fold_left
    (fun w call =>
       let '(from, to, vehicleType) := call in
       snd (calculateSegment M E from to vehicleType w))
    calls w.

(** The order record lists the keys of the map, oldest first. *)
Definition in_sync (w : World) : Prop :=
  JsMap.keys (segmentCache w) = segmentCacheOrder w /\
  NoDup (segmentCacheOrder w) /\
  ~ In ""%string (segmentCacheOrder w) /\
  List.length (segmentCacheOrder w) <= MAX_SEGMENT_CACHE_SIZE.

Lemma generateSegmentKey_not_empty (from to : Location) (vehicleType : VehicleType) :
  generateSegmentKey from to vehicleType <> ""%string.
Proof.
  unfold generateSegmentKey. destruct (id from); simpl; discriminate.
Qed.

Lemma truthy_not_empty (s : string) : s <> ""%string -> Str.truthy s = true.
Proof. destruct s; [congruence | reflexivity]. Qed.

Lemma same_caches_tick (w : World) :
  segmentCache (tick w) = segmentCache w /\
  segmentCacheOrder (tick w) = segmentCacheOrder w.
Proof. split; reflexivity. Qed.

(** On a miss every tier ends in one [cacheSegment] of the key, in a
    world that differs from the first by its clock only. *)
Lemma calculateSegment_miss (from to : Location) (vehicleType : VehicleType)
  (c1 c2 : Coordinates) (w : World) :
  coordinates from = Some c1 ->
  coordinates to = Some c2 ->
  JsMap.get (generateSegmentKey from to vehicleType) (segmentCache w) = None ->
  exists segment w0,
    segmentCache w0 = segmentCache w /\
    segmentCacheOrder w0 = segmentCacheOrder w /\
    calculateSegment M E from to vehicleType w
    = (Ok segment,
       snd (cacheSegment (generateSegmentKey from to vehicleType) segment w0)).
Proof.
  intros H1 H2 Hmiss.
  assert (Hgeneral : forall w1,
    segmentCache w1 = segmentCache w ->
    segmentCacheOrder w1 = segmentCacheOrder w ->
    exists segment w0,
      segmentCache w0 = segmentCache w /\
      segmentCacheOrder w0 = segmentCacheOrder w /\
      try_catch
        (bind (fetch_OSRM E from to)
           (fun response =>
              match response with
              | Some route =>
                  bind (cacheSegment (generateSegmentKey from to vehicleType)
                          (osrmSegment from to vehicleType route))
                    (fun _ => ret (osrmSegment from to vehicleType route))
              | None => throw "Aucun trajet trouvé"
              end))
        (fun _ =>
           bind (cacheSegment (generateSegmentKey from to vehicleType)
                   (fallbackSegment M from to c1 c2 vehicleType))
             (fun _ => ret (fallbackSegment M from to c1 c2 vehicleType))) w1
      = (Ok segment,
         snd (cacheSegment (generateSegmentKey from to vehicleType) segment w0))).
  { intros w1 Hc Ho. unfold try_catch, bind at 1, fetch_OSRM.
    destruct (fetchOSRM E (ticks w1) from to) as [route|].
    - exists (osrmSegment from to vehicleType route), (tick w1).
      split; [exact Hc|]. split; [exact Ho|].
      unfold bind. rewrite cacheSegment_spec. reflexivity.
    - unfold throw. exists (fallbackSegment M from to c1 c2 vehicleType), (tick w1).
      split; [exact Hc|]. split; [exact Ho|].
      unfold bind. rewrite cacheSegment_spec. reflexivity. }
  unfold calculateSegment. rewrite H1, H2.
  unfold bind at 1. unfold get_world. rewrite Hmiss.
  destruct (VehicleType_eqb vehicleType truck && hasTruckRouting E).
  - unfold try_catch at 1. unfold calculateSegmentWithORS. rewrite H1, H2.
    unfold bind at 1, fetch_ORS.
    destruct (fetchORS E (ticks w) from to) as [route|].
    + exists (orsSegment from to route), (tick w).
      split; [reflexivity|]. split; [reflexivity|].
      unfold bind. rewrite cacheSegment_spec. reflexivity.
    + unfold throw. apply (Hgeneral (tick w)); reflexivity.
  - apply (Hgeneral w); reflexivity.
Qed.

Lemma evict_below_capacity (cache : JsMap.t RouteSegment) (order : list string) :
  JsMap.size cache < MAX_SEGMENT_CACHE_SIZE -> evict cache order = (cache, order).
Proof.
  intros H. destruct order as [|k rest]; cbn [evict]; [reflexivity|].
  destruct (MAX_SEGMENT_CACHE_SIZE <=? JsMap.size cache) eqn:Hc; [|reflexivity].
  apply Nat.leb_le in Hc. lia.
Qed.

Lemma evict_at_capacity (cache : JsMap.t RouteSegment) (order : list string) :
  JsMap.keys cache = order ->
  ~ In ""%string order ->
  List.length order = MAX_SEGMENT_CACHE_SIZE ->
  exists oldest rest,
    order = oldest :: rest /\
    evict cache order = (JsMap.delete oldest cache, rest) /\
    JsMap.keys (JsMap.delete oldest cache) = rest.
Proof.
  intros Hkeys Hne Hlen.
  destruct order as [|oldest rest]; [discriminate|].
  destruct cache as [|[k v] cache]; [discriminate|].
  simpl in Hkeys. injection Hkeys as -> Hrest.
  exists oldest, rest. split; [reflexivity|].
  assert (Hdel : JsMap.delete oldest ((oldest, v) :: cache) = cache).
  { simpl. now rewrite String.eqb_refl. }
  rewrite Hdel. split; [|exact Hrest].
  cbn [evict]. rewrite JsMapFacts.size_keys. cbn [JsMap.keys map fst].
  fold (JsMap.keys cache). rewrite Hrest.
  replace (MAX_SEGMENT_CACHE_SIZE <=? List.length (oldest :: rest)) with true
    by (symmetry; apply Nat.leb_le; rewrite Hlen; lia).
  rewrite truthy_not_empty by (intros ->; apply Hne; now left).
  rewrite Hdel. apply evict_below_capacity.
  rewrite JsMapFacts.size_keys, Hrest. simpl in Hlen. lia.
Qed.

Lemma existsb_eqb_In (key : string) (l : list string) :
  existsb (String.eqb key) l = true <-> In key l.
Proof.
  rewrite existsb_exists. split.
  - intros [x [Hin Heq]]. apply String.eqb_eq in Heq. now subst.
  - intros Hin. exists key. split; [exact Hin | apply String.eqb_refl].
Qed.

(** One call: the order record moves as the queue of the specification. *)
Lemma calculateSegment_fifo_step (call : SegmentCall) (w : World) :
  in_sync w ->
  let w' := resolve_all [call] w in
  in_sync w' /\
  segmentCacheOrder w' =
    match call_key call with
    | Some key => fifo_resolve MAX_SEGMENT_CACHE_SIZE (segmentCacheOrder w) key
    | None => segmentCacheOrder w
    end.
Proof.
  destruct call as [[from to] vehicleType].
  intros (Hkeys & Hnodup & Hne & Hlen). cbn zeta.
  unfold resolve_all, call_key, has_coordinates. cbn [fold_left].
  destruct (coordinates from) as [c1|] eqn:H1;
    [destruct (coordinates to) as [c2|] eqn:H2|].
  2: { unfold calculateSegment. rewrite H1, H2. simpl. repeat split; assumption. }
  2: { unfold calculateSegment. rewrite H1. simpl. repeat split; assumption. }
  cbn [andb]. set (key := generateSegmentKey from to vehicleType).
  unfold fifo_resolve.
  destruct (JsMap.get key (segmentCache w)) as [cached|] eqn:Hget.
  - (* a hit: nothing moves *)
    assert (Hin : In key (segmentCacheOrder w)).
    { rewrite <- Hkeys. eapply JsMapFacts.get_Some_keys; eassumption. }
    rewrite (proj2 (existsb_eqb_In key _) Hin).
    unfold calculateSegment. rewrite H1, H2. unfold bind, get_world.
    fold key. rewrite Hget. simpl. repeat split; assumption.
  - (* a miss: one insertion *)
    assert (Hnotin : ~ In key (segmentCacheOrder w)).
    { rewrite <- Hkeys. now apply JsMapFacts.get_None_keys. }
    destruct (existsb (String.eqb key) (segmentCacheOrder w)) eqn:Hex.
    { apply existsb_eqb_In in Hex. contradiction. }
    destruct (calculateSegment_miss from to vehicleType w H1 H2 Hget)
      as (segment & w0 & Hc0 & Ho0 & Hrun).
    rewrite Hrun. fold key. rewrite cacheSegment_spec. cbn [snd].
    rewrite Hc0, Ho0. unfold fifo_put.
    assert (Hkey : key <> ""%string) by apply generateSegmentKey_not_empty.
    destruct (MAX_SEGMENT_CACHE_SIZE <=? List.length (segmentCacheOrder w)) eqn:Hcap.
    + apply Nat.leb_le in Hcap.
      destruct (evict_at_capacity (segmentCache w) Hkeys Hne) as
        (oldest & rest & Horder & Hev & Hkeys'); [lia|].
      rewrite Hev. cbn [fst snd]. rewrite Horder. cbn [tl].
      unfold in_sync, set_segmentCacheOrder, set_segmentCache;
      cbn [segmentCache segmentCacheOrder].
      rewrite Horder in Hnodup, Hne, Hlen, Hnotin.
      assert (Hmiss' : JsMap.get key (JsMap.delete oldest (segmentCache w)) = None).
      { apply JsMapFacts.get_None_keys. rewrite Hkeys'.
        intros Hin. apply Hnotin. now right. }
      rewrite JsMapFacts.keys_set_new by exact Hmiss'. rewrite Hkeys'.
      split; [|reflexivity]. split; [reflexivity|].
      inversion Hnodup as [|? ? Hh Hrest]; subst.
      split; [|split].
      * apply NoDup_app; [exact Hrest | repeat constructor; intros [] |].
        intros x Hx [<-|[]]. apply Hnotin. now right.
      * intros Hin. apply in_app_or in Hin. destruct Hin as [Hin|[Hin|[]]].
        -- apply Hne. now right.
        -- now apply Hkey.
      * rewrite length_app. simpl in *. lia.
    + apply Nat.leb_gt in Hcap.
      rewrite evict_below_capacity
        by (rewrite JsMapFacts.size_keys, Hkeys; exact Hcap).
      cbn [fst snd].
      unfold in_sync, set_segmentCacheOrder, set_segmentCache;
      cbn [segmentCache segmentCacheOrder].
      rewrite JsMapFacts.keys_set_new by exact Hget. rewrite Hkeys.
      split; [|reflexivity]. split; [reflexivity|].
      split; [|split].
      * apply NoDup_app; [exact Hnodup | repeat constructor; intros [] |].
        intros x Hx [<-|[]]. now apply Hnotin.
      * intros Hin. apply in_app_or in Hin. destruct Hin as [Hin|[Hin|[]]].
        -- now apply Hne.
        -- now apply Hkey.
      * rewrite length_app. simpl. lia.
Qed.

Lemma resolve_all_fifo (calls : list SegmentCall) (w : World) :
  in_sync w ->
  in_sync (resolve_all calls w) /\
  segmentCacheOrder (resolve_all calls w) = fifo_trace (segmentCacheOrder w) calls.
Proof.
  revert w. induction calls as [|call calls IH]; intros w Hw.
  - split; [exact Hw | reflexivity].
  - destruct (calculateSegment_fifo_step call Hw) as [Hw' Horder].
    cbn zeta in Hw', Horder.
    change (resolve_all (call :: calls) w)
      with (resolve_all calls (resolve_all [call] w)).
    destruct (IH _ Hw') as [Hsync Htrace].
    split; [exact Hsync|]. rewrite Htrace, Horder. reflexivity.
Qed.

Lemma initial_world_in_sync : in_sync initial_world.
Proof.
  repeat split; simpl; try constructor; try tauto. unfold MAX_SEGMENT_CACHE_SIZE. lia.
Qed.

End SegmentCacheOrder.

(** What an insertion evicts, in any world: keys from the front of the
    order record, oldest first. *)
Definition drop_keys (evicted : list string) (cache : JsMap.t RouteSegment)
  : JsMap.t RouteSegment :=
  fold_left (fun cache key => if Str.truthy key then JsMap.delete key cache else cache)
    evicted cache.

Lemma evict_oldest_first (order : list string) :
  forall cache : JsMap.t RouteSegment,
  exists evicted,
    order = evicted ++ snd (evict cache order) /\
    fst (evict cache order) = drop_keys evicted cache.
Proof.
  induction order as [|oldest rest IH]; intros cache; cbn [evict].
  - exists []. split; reflexivity.
  - destruct (MAX_SEGMENT_CACHE_SIZE <=? JsMap.size cache).
    + destruct (IH (if Str.truthy oldest then JsMap.delete oldest cache else cache))
        as (evicted & Horder & Hcache).
      exists (oldest :: evicted). split; [cbn [app]; now f_equal | exact Hcache].
    + exists []. split; reflexivity.
Qed.

Lemma calculateSegment_hit (M : MathImpl) (E : Env) (from to : Location)
  (vehicleType : VehicleType) (c1 c2 : Coordinates) (cached : RouteSegment) (w : World) :
  coordinates from = Some c1 ->
  coordinates to = Some c2 ->
  JsMap.get (generateSegmentKey from to vehicleType) (segmentCache w) = Some cached ->
  calculateSegment M E from to vehicleType w = (Ok cached, w).
Proof.
  intros H1 H2 Hget. unfold calculateSegment. rewrite H1, H2.
  unfold bind, get_world. now rewrite Hget.
Qed.

(** C5.  From a fresh service, after any sequence of [calculateSegment]
    calls (hits, misses and refused calls, whatever the providers
    answer), the keys of the segment cache are, in order, the keys of
    the insertion-order record, and that record is the queue of the
    specification: every insertion at capacity 100 evicted the oldest
    key, and no [get] reordered anything.  In any world, an insertion
    evicts keys from the front of the order record only, oldest first,
    and appends its key at the end; and a call that finds its segment
    in the cache returns it and leaves the world as it is. *)
Theorem segment_cache_is_fifo (M : MathImpl) (E : Env) :
  (forall calls : list SegmentCall,
     segmentCacheOrder (resolve_all M E calls initial_world) = fifo_trace [] calls /\
     JsMap.keys (segmentCache (resolve_all M E calls initial_world))
     = segmentCacheOrder (resolve_all M E calls initial_world) /\
     JsMap.size (segmentCache (resolve_all M E calls initial_world))
     <= MAX_SEGMENT_CACHE_SIZE) /\
  (forall (w : World) (key : string) (segment : RouteSegment),
   exists evicted kept,
     segmentCacheOrder w = evicted ++ kept /\
     segmentCacheOrder (snd (cacheSegment key segment w)) = kept ++ [key] /\
     segmentCache (snd (cacheSegment key segment w))
     = JsMap.set key segment (drop_keys evicted (segmentCache w))) /\
  (forall (w : World) (from to : Location) (vehicleType : VehicleType)
          (cached : RouteSegment),
     has_coordinates from = true ->
     has_coordinates to = true ->
     JsMap.get (generateSegmentKey from to vehicleType) (segmentCache w) = Some cached ->
     calculateSegment M E from to vehicleType w = (Ok cached, w)).
Proof.
  split; [|split].
  - intros calls.
    destruct (resolve_all_fifo M E calls initial_world_in_sync)
      as [(Hkeys & _ & _ & Hlen) Htrace].
    split; [exact Htrace|]. split; [exact Hkeys|].
    rewrite JsMapFacts.size_keys, Hkeys. exact Hlen.
  - intros w key segment.
    destruct (evict_oldest_first (segmentCacheOrder w) (segmentCache w))
      as (evicted & Horder & Hcache).
    exists evicted, (snd (evict (segmentCache w) (segmentCacheOrder w))).
    split; [exact Horder|].
    rewrite cacheSegment_spec. cbn [snd].
    unfold set_segmentCacheOrder, set_segmentCache. cbn [segmentCacheOrder segmentCache].
    split; [reflexivity | now rewrite Hcache].
  - intros w from to vehicleType cached Hfrom Hto Hget.
    unfold has_coordinates in Hfrom, Hto.
    destruct (coordinates from) as [c1|] eqn:H1; [|discriminate].
    destruct (coordinates to) as [c2|] eqn:H2; [|discriminate].
    exact (@calculateSegment_hit M E from to vehicleType c1 c2 cached w H1 H2 Hget).
Qed.

(** The 101 calls of the example: 100 distinct segments, then one more. *)
Definition numbered_stop (i : nat) : Location :=
  stop ("s" ++ JsNumber.Z_to_decimal (Z.of_nat i)) 48.85 2.35.

Definition hub : Location := stop "hub" 48.86 2.34.

Definition numbered_calls (n : nat) : list SegmentCall :=
  map (fun i => (numbered_stop i, hub, car)) (seq 0 n).

Example hundred_and_one_insertions :
  let w := resolve_all PolyMath.impl offline (numbered_calls 101) initial_world in
  JsMap.size (segmentCache w) = 100 /\
  hd_error (segmentCacheOrder w) = Some "s1-hub-car"%string /\
  JsMap.get "s0-hub-car" (segmentCache w) = None /\
  last (segmentCacheOrder w) ""%string = "s100-hub-car"%string.
Proof. vm_compute. repeat split; reflexivity. Qed.

(** Reading the oldest segment again before the insertion beyond the
    capacity does not save it. *)
Example access_does_not_refresh :
  let w := resolve_all PolyMath.impl offline
             (numbered_calls 100 ++ [(numbered_stop 0, hub, car); (numbered_stop 100, hub, car)])
             initial_world in
  JsMap.get "s0-hub-car" (segmentCache w) = None /\
  hd_error (segmentCacheOrder w) = Some "s1-hub-car"%string.
Proof. vm_compute. split; reflexivity. Qed.

(** What the order record that [clearSegmentCache] keeps (C4) does to a
    later run: the segment "A-B-car" of a first run is still on the
    record after the clear; a second run caches 99 segments, then
    "A-B-car" again, then one more.  The insertion beyond the capacity
    shifts the stale "A-B-car" and deletes the entry cached last; the
    oldest entry of the run stays, and the record is longer than the
    map. *)
Example stale_key_evicts_newest :
  let w :=
    resolve_all PolyMath.impl offline
      (numbered_calls 99 ++ [(stop "A" 48.8566 2.3522, stop "B" 48.8606 2.3376, car);
                              (numbered_stop 99, hub, car)])
      (snd (clearSegmentCache after_first_run)) in
  JsMap.get "A-B-car" (segmentCache w) = None /\
  JsMap.get "s0-hub-car" (segmentCache w) <> None /\
  JsMap.size (segmentCache w) = 100 /\
  List.length (segmentCacheOrder w) = 101 /\
  In "A-B-car"%string (segmentCacheOrder w).
Proof.
  vm_compute. split; [reflexivity|]. split; [discriminate|].
  split; [reflexivity|]. split; [reflexivity|].
  do 99 right. now left.
Qed.

(* ------------------------------------------------------------------ *)
(** ** Fingerprints *)

Module KeyFacts.

Lemma chars_append (s t : string) :
  Str.chars (s ++ t)%string = Str.chars s ++ Str.chars t.
Proof.
  unfold Str.chars. induction s as [|c s IH]; simpl; [reflexivity | now rewrite IH].
Qed.

Lemma chars_inj (s t : string) : Str.chars s = Str.chars t -> s = t.
Proof.
  unfold Str.chars. intros H.
  rewrite <- (string_of_list_ascii_of_string s), <- (string_of_list_ascii_of_string t).
  now rewrite H.
Qed.

(** [prefixb a b]: the list [a] starts the list [b]. *)
Fixpoint prefixb (a b : list ascii) : bool :=
  match a, b with
  | [], _ => true
  | _ :: _, [] => false
  | x :: a', y :: b' => Ascii.eqb x y && prefixb a' b'
  end.

Lemma app_eq_prefix (a1 a2 x y : list ascii) :
  a1 ++ x = a2 ++ y -> prefixb a1 a2 = true \/ prefixb a2 a1 = true.
Proof.
  revert a2. induction a1 as [|c a1 IH]; intros a2 H.
  - now left.
  - destruct a2 as [|d a2]; [now right|].
    simpl in H. injection H as -> H. simpl. rewrite Ascii.eqb_refl. simpl.
    now apply IH.
Qed.

(** What follows the coordinates in a fingerprint. *)
Definition key_suffix (v : VehicleType) (m : OptimizationMethod) (b : bool) : string :=
  ("_" ++ VehicleType_str v ++ "_" ++ OptimizationMethod_str m ++ "_" ++ bool_str b)%string.

Lemma generateRouteKey_split (request : RouteOptimizationRequest) :
  generateRouteKey request
  = (locationIds request
       ++ key_suffix (vehicleType request) (optimizationMethod request) (isLoop request))%string.
Proof. reflexivity. Qed.

Lemma key_suffix_inj (v v' : VehicleType) (m m' : OptimizationMethod) (b b' : bool)
  (l l' : string) :
  (l ++ key_suffix v m b)%string = (l' ++ key_suffix v' m' b')%string ->
  v = v' /\ m = m' /\ b = b' /\ l = l'.
Proof.
  intros H.
  assert (Hrev :
    rev (Str.chars (key_suffix v m b)) ++ rev (Str.chars l)
    = rev (Str.chars (key_suffix v' m' b')) ++ rev (Str.chars l')).
  { rewrite <- !rev_app_distr, <- !chars_append. now rewrite H. }
  assert (Hsame : v = v' /\ m = m' /\ b = b').
  { apply app_eq_prefix in Hrev.
    destruct v, v', m, m', b, b'; try (repeat split; reflexivity);
      exfalso; vm_compute in Hrev; destruct Hrev; discriminate. }
  destruct Hsame as (-> & -> & ->). repeat split.
  apply app_inv_head in Hrev.
  apply chars_inj. rewrite <- (rev_involutive (Str.chars l)), Hrev.
  apply rev_involutive.
Qed.

(** Two requests have the same fingerprint exactly when they have the
    same vehicle type, method and loop flag and the same rounded
    coordinates in stop order. *)
Lemma generateRouteKey_inj (r r' : RouteOptimizationRequest) :
  generateRouteKey r = generateRouteKey r' ->
  vehicleType r = vehicleType r' /\
  optimizationMethod r = optimizationMethod r' /\
  isLoop r = isLoop r' /\
  locationIds r = locationIds r'.
Proof. rewrite !generateRouteKey_split. apply key_suffix_inj. Qed.

End KeyFacts.

(* ------------------------------------------------------------------ *)
(** ** The route cache: store and fetch *)

Module RouteCacheFacts.

Implicit Types (m : JsMap.t CacheEntry) (k : string) (e : CacheEntry).

Lemma set_absent m k e : JsMap.get k m = None -> JsMap.set k e m = m ++ [(k, e)].
Proof.
  induction m as [|[k' e'] m IH]; simpl; [reflexivity|].
  destruct (String.eqb k' k); [discriminate|]. intros H. now rewrite IH.
Qed.

Lemma size_set_present m k e :
  JsMap.get k m <> None -> JsMap.size (JsMap.set k e m) = JsMap.size m.
Proof.
  intros H. rewrite !JsMapFacts.size_keys. now rewrite JsMapFacts.keys_set_old.
Qed.

Lemma get_delete_absent m k k' :
  JsMap.get k' m = None -> JsMap.get k' (JsMap.delete k m) = None.
Proof.
  induction m as [|[k0 e0] m IH]; simpl; [reflexivity|].
  destruct (String.eqb k0 k') eqn:Hk'; [discriminate|].
  intros H. destruct (String.eqb k0 k); [exact H|].
  simpl. rewrite Hk'. now apply IH.
Qed.

Lemma get_filter_kept m k e (keep : string * CacheEntry -> bool) :
  JsMap.get k m = Some e -> keep (k, e) = true ->
  JsMap.get k (filter keep m) = Some e.
Proof.
  induction m as [|[k0 e0] m IH]; simpl; [discriminate|].
  destruct (String.eqb k0 k) eqn:Hk.
  - apply String.eqb_eq in Hk. subst k0. intros [= ->] Hkeep.
    rewrite Hkeep. simpl. now rewrite String.eqb_refl.
  - intros Hget Hkeep. destruct (keep (k0, e0)); simpl.
    + rewrite Hk. now apply IH.
    + now apply IH.
Qed.

Lemma get_filter_absent m k (keep : string * CacheEntry -> bool) :
  JsMap.get k m = None -> JsMap.get k (filter keep m) = None.
Proof.
  induction m as [|[k0 e0] m IH]; simpl; [reflexivity|].
  destruct (String.eqb k0 k) eqn:Hk; [discriminate|].
  intros H. destruct (keep (k0, e0)); simpl; [rewrite Hk|]; now apply IH.
Qed.

Definition byTimestamp (a b : string * CacheEntry) : Z :=
  (timestamp (snd a) - timestamp (snd b))%Z.

(** The oldest entry by [sort] is not the entry just appended, when no
    earlier entry is younger. *)
Lemma sort_head (old : list (string * CacheEntry)) (x : string * CacheEntry) :
  (forall y, In y old -> (timestamp (snd y) <= timestamp (snd x))%Z) ->
  exists h rest,
    JsArray.sort byTimestamp (old ++ [x]) = h :: rest /\
    (In h old \/ (old = [] /\ h = x)).
Proof.
  induction old as [|y old IH]; intros Hle.
  - exists x, []. split; [reflexivity | now right].
  - destruct IH as (h & rest & Hsort & Hin).
    { intros z Hz. apply Hle. now right. }
    change (JsArray.sort byTimestamp ((y :: old) ++ [x]))
      with (JsArray.insert byTimestamp y (JsArray.sort byTimestamp (old ++ [x]))).
    rewrite Hsort. cbn [JsArray.insert].
    destruct (byTimestamp y h <=? 0)%Z eqn:Hc.
    + exists y, (h :: rest). split; [reflexivity | left; now left].
    + exists h, (JsArray.insert byTimestamp y rest). split; [reflexivity|].
      destruct Hin as [Hin|[-> ->]]; [left; now right|].
      apply Z.leb_gt in Hc. unfold byTimestamp in Hc.
      assert (timestamp (snd y) <= timestamp (snd x))%Z by (apply Hle; now left).
      lia.
Qed.

(** The oldest entry by [sort] is not the entry just appended, when no
    earlier entry is younger. *)
Lemma sort_head_not_last (old : list (string * CacheEntry)) (x : string * CacheEntry) :
  old <> [] ->
  (forall y, In y old -> (timestamp (snd y) <= timestamp (snd x))%Z) ->
  exists h rest, JsArray.sort byTimestamp (old ++ [x]) = h :: rest /\ In h old.
Proof.
  intros Hne Hle. destruct (sort_head old x Hle) as (h & rest & Hsort & [Hin|[Hnil _]]).
  - now exists h, rest.
  - contradiction.
Qed.

End RouteCacheFacts.

Section RouteCache.

Context (E : Env).

(** The cache after [setCachedRoute(request, route)] at time [now]. *)
Definition stored (request : RouteOptimizationRequest) (route : Route) (now : Z)
  (cache : JsMap.t CacheEntry) : JsMap.t CacheEntry :=
  let cache' :=
    JsMap.set (generateRouteKey request) {| cached_route := route; timestamp := now |} cache in
  if 50 <? JsMap.size cache' then
    match JsArray.sort RouteCacheFacts.byTimestamp cache' with
    | (oldestKey, _) :: _ => JsMap.delete oldestKey cache'
    | [] => cache'
    end
  else cache'.

Lemma setCachedRoute_spec (request : RouteOptimizationRequest) (route : Route) (w : World) :
  snd (setCachedRoute E request route w)
  = set_routeCache (stored request route (Date_now E (ticks w)) (routeCache w)) (tick w).
Proof.
  unfold setCachedRoute, stored, bind, Date_now_, update, get_world.
  cbn [routeCache set_routeCache tick].
  destruct (50 <? JsMap.size _); [|reflexivity].
  unfold JsMap.entries. fold RouteCacheFacts.byTimestamp.
  destruct (JsArray.sort RouteCacheFacts.byTimestamp _) as [|[oldestKey e] rest];
    reflexivity.
Qed.

Lemma getCachedRoute_spec (request : RouteOptimizationRequest) (w : World) :
  fst (getCachedRoute E request w)
  = Ok
      match
        JsMap.get (generateRouteKey request)
          (filter (fun entry => negb (expired (Date_now E (ticks w)) entry)) (routeCache w))
      with
      | Some cached =>
          if (Date_now E (S (ticks w)) - timestamp cached <? ROUTE_CACHE_DURATION)%Z
          then Some (cached_route cached)
          else None
      | None => None
      end.
Proof.
  unfold getCachedRoute, cleanRouteCache, bind, Date_now_, update, get_world.
  cbn [routeCache set_routeCache tick ticks].
  destruct (JsMap.get _ _) as [cached|]; [|reflexivity].
  cbn [ticks set_routeCache tick].
  destruct (_ <? _)%Z; reflexivity.
Qed.

Lemma stored_get_other (request request' : RouteOptimizationRequest) (route : Route)
  (now : Z) (cache : JsMap.t CacheEntry) :
  generateRouteKey request' <> generateRouteKey request ->
  JsMap.get (generateRouteKey request') cache = None ->
  JsMap.get (generateRouteKey request') (stored request route now cache) = None.
Proof.
  intros Hne Hnone. unfold stored.
  set (cache' := JsMap.set _ _ cache).
  assert (Hc : JsMap.get (generateRouteKey request') cache' = None).
  { unfold cache'. rewrite JsMapFacts.get_set_other by congruence. exact Hnone. }
  destruct (50 <? JsMap.size cache'); [|exact Hc].
  destruct (JsArray.sort _ cache') as [|[oldestKey e] rest]; [exact Hc|].
  now apply RouteCacheFacts.get_delete_absent.
Qed.

Lemma stored_get_same (request : RouteOptimizationRequest) (route : Route)
  (now : Z) (cache : JsMap.t CacheEntry) :
  JsMap.size cache <= 50 ->
  (forall k e, In (k, e) cache -> (timestamp e <= now)%Z) ->
  JsMap.get (generateRouteKey request) (stored request route now cache)
  = Some {| cached_route := route; timestamp := now |}.
Proof.
  intros Hsize Hold. unfold stored.
  set (key := generateRouteKey request).
  set (entry := {| cached_route := route; timestamp := now |}).
  destruct (50 <? JsMap.size (JsMap.set key entry cache)) eqn:Hfull;
    [|apply JsMapFacts.get_set_same].
  apply Nat.ltb_lt in Hfull.
  destruct (JsMap.get key cache) as [e0|] eqn:Hget.
  - rewrite RouteCacheFacts.size_set_present in Hfull by congruence. lia.
  - pose proof (@RouteCacheFacts.set_absent cache key entry Hget) as Habs.
    rewrite Habs in *.
    destruct (RouteCacheFacts.sort_head_not_last (old := cache) (key, entry))
      as ([h eh] & rest & Hsort & Hin).
    + intros ->. simpl in Hfull. lia.
    + intros [k e] Hy. simpl. now apply (Hold k e).
    + rewrite Hsort.
      assert (Hh : h <> key).
      { intros ->. apply JsMapFacts.get_None_keys in Hget. apply Hget.
        unfold JsMap.keys. change key with (fst (key, eh)). now apply in_map. }
      rewrite JsMapFacts.get_delete_other by exact Hh.
      rewrite <- Habs.
      apply JsMapFacts.get_set_same.
Qed.

End RouteCache.

(** C6, as the code has it.  After [setCachedRoute(request, route)] on a
    cache within its capacity whose entries are not younger than the
    store, a fetch with the same request that comes within the
    time-to-live returns that route; and a fetch with a request whose
    fingerprint differs (in particular one that differs in vehicle type,
    optimization method or loop flag, or in the coordinates rounded to
    4 decimals) and which had no entry before the store returns
    absent. *)
Theorem route_cache_store_fetch
  (E : Env) (request : RouteOptimizationRequest) (route : Route) (w : World)
  (Hsize : JsMap.size (routeCache w) <= 50)
  (Hold : forall k e, In (k, e) (routeCache w) -> (timestamp e <= Date_now E (ticks w))%Z)
  (Hclean : (Date_now E (S (ticks w)) - Date_now E (ticks w) <= ROUTE_CACHE_DURATION)%Z)
  (Hfetch : (Date_now E (S (S (ticks w))) - Date_now E (ticks w) < ROUTE_CACHE_DURATION)%Z) :
  fst (getCachedRoute E request (snd (setCachedRoute E request route w))) = Ok (Some route) /\
  forall request' : RouteOptimizationRequest,
    JsMap.get (generateRouteKey request') (routeCache w) = None ->
    vehicleType request' <> vehicleType request \/
    optimizationMethod request' <> optimizationMethod request \/
    isLoop request' <> isLoop request \/
    locationIds request' <> locationIds request ->
    fst (getCachedRoute E request' (snd (setCachedRoute E request route w))) = Ok None.
Proof.
  split.
  - rewrite getCachedRoute_spec, setCachedRoute_spec.
    cbn [routeCache set_routeCache ticks tick].
    erewrite RouteCacheFacts.get_filter_kept;
      [ | apply stored_get_same; [exact Hsize | exact Hold] | ].
    + cbn [timestamp cached_route].
      replace (_ <? _)%Z with true by (symmetry; apply Z.ltb_lt; lia).
      reflexivity.
    + unfold expired. cbn [snd timestamp].
      apply negb_true_iff, Z.ltb_ge. lia.
  - intros request' Hnone Hdiff.
    assert (Hne : generateRouteKey request' <> generateRouteKey request).
    { intros Heq. apply KeyFacts.generateRouteKey_inj in Heq.
      destruct Heq as (Hv & Hm & Hl & Hids).
      destruct Hdiff as [H|[H|[H|H]]]; contradiction. }
    rewrite getCachedRoute_spec, setCachedRoute_spec.
    cbn [routeCache set_routeCache ticks tick].
    rewrite RouteCacheFacts.get_filter_absent; [reflexivity|].
    now apply stored_get_other.
Qed.

Definition mock_request : RouteOptimizationRequest :=
  request_of [stop "1" 48.8566 2.3522; stop "2" 48.8606 2.3376] car balanced false.

Definition mock_route : Route :=
  {| route_id := "route_123";
     route_locations := [stop "1" 48.8566 2.3522; stop "2" 48.8606 2.3376];
     totalDistance := 10.5;
     totalDuration := 15;
     route_vehicleType := car;
     route_isLoop := false;
     segments := [];
     route_optimizationMethod := balanced |}.

Lemma route_cache_store_fetch_witness :
  fst (getCachedRoute offline mock_request
         (snd (setCachedRoute offline mock_request mock_route initial_world)))
  = Ok (Some mock_route) /\
  forall request' : RouteOptimizationRequest,
    JsMap.get (generateRouteKey request') (routeCache initial_world) = None ->
    vehicleType request' <> vehicleType mock_request \/
    optimizationMethod request' <> optimizationMethod mock_request \/
    isLoop request' <> isLoop mock_request \/
    locationIds request' <> locationIds mock_request ->
    fst (getCachedRoute offline request'
           (snd (setCachedRoute offline mock_request mock_route initial_world)))
    = Ok None.
Proof.
  apply (route_cache_store_fetch offline mock_request mock_route initial_world).
  - simpl. lia.
  - simpl. intros k e [].
  - vm_compute. discriminate.
  - vm_compute. reflexivity.
Defined.

Example mock_request_key :
  generateRouteKey mock_request = "48.8566_2.3522-48.8606_2.3376_car_balanced_false".
Proof. vm_compute. reflexivity. Qed.

(** The same request with the first stop some metres away. *)
Definition nearby_request : RouteOptimizationRequest :=
  request_of [stop "1" 48.85662 2.3522; stop "2" 48.8606 2.3376] car balanced false.

(** C6, against "differs in any stop's coordinates": a request whose
    first stop has another latitude, equal after rounding to 4
    decimals, has the same fingerprint and is served the stored
    route. *)
Lemma fetch_hits_nearby_coordinates :
  (48.85662 =? 48.8566)%float = false /\
  map id (locations nearby_request) = map id (locations mock_request) /\
  generateRouteKey nearby_request = generateRouteKey mock_request /\
  fst (getCachedRoute offline nearby_request
         (snd (setCachedRoute offline mock_request mock_route initial_world)))
  = Ok (Some mock_route).
Proof.
  split; [vm_compute; reflexivity|].
  split; [reflexivity|].
  split; vm_compute; reflexivity.
Qed.

(* ------------------------------------------------------------------ *)
(** ** Scans and loops of the heuristics *)

Ltac destruct_if :=
  match goal with
  | |- context [if ?b then _ else _] => destruct b
  end.

Lemma fold_left_invariant {A B : Type} (f : A -> B -> A) (P : A -> Prop)
  (l : list B) (a : A) :
  P a -> (forall a b, In b l -> P a -> P (f a b)) -> P (fold_left f l a).
Proof.
  revert a. induction l as [|b l IH]; intros a Ha Hstep; simpl; [exact Ha|].
  apply IH.
  - apply Hstep; [now left | exact Ha].
  - intros a' b' Hb'. apply Hstep. now right.
Qed.

Module SetFacts.

Lemma has_In (x : string) (s : JsSet.t) : JsSet.has x s = true <-> In x s.
Proof. apply existsb_eqb_In. Qed.

Lemma has_not_In (x : string) (s : JsSet.t) : JsSet.has x s = false <-> ~ In x s.
Proof.
  rewrite <- has_In. destruct (JsSet.has x s); split; intros; congruence.
Qed.

Lemma add_new (x : string) (s : JsSet.t) : ~ In x s -> JsSet.add x s = s ++ [x].
Proof. intros H. unfold JsSet.add. apply has_not_In in H. now rewrite H. Qed.

Lemma add_NoDup (x : string) (s : JsSet.t) : NoDup s -> NoDup (JsSet.add x s).
Proof.
  intros H. unfold JsSet.add. destruct (JsSet.has x s) eqn:Hx; [exact H|].
  apply has_not_In in Hx.
  apply NoDup_app; [exact H | repeat constructor; intros [] |].
  intros y Hy [<-|[]]. contradiction.
Qed.

Lemma add_incl (x : string) (s big : list string) :
  incl s big -> In x big -> incl (JsSet.add x s) big.
Proof.
  intros H Hx. unfold JsSet.add. destruct (JsSet.has x s); [exact H|].
  apply incl_app; [exact H|]. intros y [<-|[]]. exact Hx.
Qed.

End SetFacts.

Section NearestNeighbour.

Context (M : MathImpl).

(** Every step score of the standard scan is a number below
    [Infinity] (neither [NaN] nor [Infinity]). *)
Definition finite_scores (method : OptimizationMethod) (stops : list Location) : bool :=
  forallb
    (fun a =>
       forallb
         (fun b =>
            match coordinates a, coordinates b with
            | Some ca, Some cb =>
                (nearestScore method (calculateDistance M ca cb) <? infinity)%float
            | _, _ => true
            end)
         stops)
    stops.

(** What the scan keeps is an unvisited stop of the list, with
    coordinates, seen from a stop with coordinates. *)
Lemma nearestScan_Some (visited : JsSet.t) (current : Location)
  (method : OptimizationMethod) (stops : list Location) (nearest : Location) :
  fst (nearestScan M visited current method stops) = Some nearest ->
  In nearest stops /\
  ~ In (id nearest) visited /\
  has_coordinates nearest = true /\
  has_coordinates current = true.
Proof.
  unfold nearestScan.
  apply (@fold_left_invariant _ _ _
           (fun acc => fst acc = Some nearest ->
                       In nearest stops /\ ~ In (id nearest) visited /\
                       has_coordinates nearest = true /\
                       has_coordinates current = true)).
  - discriminate.
  - intros [kept bestScore] location Hin IH.
    destruct (JsSet.has (id location) visited) eqn:Hvis; [exact IH|].
    destruct (coordinates location) as [cl|] eqn:Hcl; [|exact IH].
    destruct (coordinates current) as [cc|] eqn:Hcc; [|exact IH].
    destruct_if; [|exact IH].
    cbn [fst]. intros [= <-].
    apply SetFacts.has_not_In in Hvis. unfold has_coordinates.
    rewrite Hcl, Hcc. repeat split; auto.
Qed.

(** The scan keeps a stop as soon as one unvisited stop scores below
    [Infinity]. *)
Lemma nearestScan_progress (visited : JsSet.t) (current : Location)
  (method : OptimizationMethod) (stops : list Location)
  (cc : Coordinates) (candidate : Location) (cl : Coordinates) :
  coordinates current = Some cc ->
  In candidate stops ->
  ~ In (id candidate) visited ->
  coordinates candidate = Some cl ->
  (nearestScore method (calculateDistance M cc cl) <? infinity)%float = true ->
  fst (nearestScan M visited current method stops) <> None.
Proof.
  intros Hcc Hin Hvis Hcl Hfin. unfold nearestScan.
  set (step := fun (acc : option Location * float) (location : Location) => _).
  assert (Hgen : forall l acc,
    (fst acc = None -> snd acc = infinity) ->
    (fst acc <> None \/ In candidate l) ->
    fst (fold_left step l acc) <> None).
  { induction l as [|location l IH]; intros [kept bestScore] Hinf Hor; simpl.
    - destruct Hor as [H|[]]. exact H.
    - apply IH.
      + unfold step. destruct (JsSet.has (id location) visited); [exact Hinf|].
        destruct (coordinates location); [|exact Hinf].
        rewrite Hcc. destruct_if; [cbn [fst]; intros H; discriminate H | exact Hinf].
      + destruct Hor as [Hkept|[->|Hl]]; [| |now right]; left.
        * unfold step. destruct (JsSet.has (id location) visited); [exact Hkept|].
          destruct (coordinates location); [|exact Hkept].
          rewrite Hcc. destruct_if; [cbn [fst]; discriminate | exact Hkept].
        * unfold step. apply SetFacts.has_not_In in Hvis. rewrite Hvis, Hcl, Hcc.
          destruct kept as [k|]; cbn [fst snd] in *.
          -- destruct_if; cbn [fst]; discriminate.
          -- rewrite Hinf by reflexivity. rewrite Hfin. cbn [fst]. discriminate. }
  apply Hgen; [reflexivity | now right].
Qed.

End NearestNeighbour.

Lemma forallb_false_exists {A : Type} (f : A -> bool) (l : list A) :
  forallb f l = false -> exists x, In x l /\ f x = false.
Proof.
  induction l as [|x l IH]; simpl; [discriminate|].
  destruct (f x) eqn:Hx; simpl.
  - intros H. destruct (IH H) as (y & Hy & Hfy). exists y. split; [now right | exact Hfy].
  - intros _. exists x. split; [now left | exact Hx].
Qed.

Lemma filter_length_lt {A : Type} (f : A -> bool) (l : list A) (x : A) :
  In x l -> f x = false -> List.length (filter f l) < List.length l.
Proof.
  induction l as [|y l IH]; simpl; [tauto|].
  intros [->|Hin] Hx.
  - rewrite Hx. pose proof (filter_length_le f l). lia.
  - specialize (IH Hin Hx). destruct (f y); simpl; lia.
Qed.

Lemma NoDup_map_id (l : list Location) : NoDup (map id l) -> NoDup l.
Proof. apply NoDup_map_inv. Qed.

Section StandardLoop.

Context (M : MathImpl) (method : OptimizationMethod) (stops : list Location).

(** An unvisited stop exists while fewer identifiers are visited than
    there are stops, identifiers being distinct. *)
Lemma unvisited_stop (visited : JsSet.t) :
  NoDup (map id stops) ->
  List.length visited < List.length stops ->
  exists candidate, In candidate stops /\ ~ In (id candidate) visited.
Proof.
  intros Hnodup Hlen.
  destruct (forallb (fun c => JsSet.has (id c) visited) stops) eqn:Hall.
  - exfalso. rewrite forallb_forall in Hall.
    assert (Hincl : incl (map id stops) visited).
    { intros x Hx. apply in_map_iff in Hx. destruct Hx as (c & <- & Hc).
      apply SetFacts.has_In. now apply Hall. }
    pose proof (NoDup_incl_length Hnodup Hincl) as Hle.
    rewrite length_map in Hle. lia.
  - apply forallb_false_exists in Hall. destruct Hall as (c & Hc & Hhas).
    exists c. split; [exact Hc | now apply SetFacts.has_not_In].
Qed.

Section Terminates.

Hypothesis Hcoords : forallb has_coordinates stops = true.
Hypothesis Hids : NoDup (map id stops).
Hypothesis Hfinite : finite_scores M method stops = true.

Lemma finite_score (a b : Location) (ca cb : Coordinates) :
  In a stops -> In b stops ->
  coordinates a = Some ca -> coordinates b = Some cb ->
  (nearestScore method (calculateDistance M ca cb) <? infinity)%float = true.
Proof.
  intros Ha Hb Hca Hcb. unfold finite_scores in Hfinite.
  rewrite forallb_forall in Hfinite. specialize (Hfinite a Ha).
  rewrite forallb_forall in Hfinite. specialize (Hfinite b Hb).
  now rewrite Hca, Hcb in Hfinite.
Qed.

Lemma stop_coordinates (a : Location) :
  In a stops -> exists ca, coordinates a = Some ca.
Proof.
  intros Ha. rewrite forallb_forall in Hcoords. specialize (Hcoords a Ha).
  unfold has_coordinates in Hcoords. destruct (coordinates a) as [ca|]; [|discriminate].
  now exists ca.
Qed.

(** The loop ends within as many rounds as stops are left to visit,
    with a permutation of the stops. *)
Lemma nearestWhile_terminates (first : Location) (fuel : nat) :
  forall (visited : JsSet.t) (result : list Location) (current : Location),
    visited = map id result ->
    NoDup visited ->
    incl result stops ->
    In current stops ->
    hd_error result = Some first ->
    List.length stops - List.length visited <= fuel ->
    exists output,
      nearestWhile M fuel stops method visited result current = Some output /\
      Permutation stops output /\
      hd_error output = Some first.
Proof.
  induction fuel as [|fuel IH]; intros visited result current Hvis Hnodup Hincl Hcur Hhd Hfuel.
  - destruct (JsSet.size visited <? List.length stops) eqn:Hcond.
    + apply Nat.ltb_lt in Hcond. unfold JsSet.size in Hcond. lia.
    + cbn [nearestWhile]. rewrite Hcond.
      apply Nat.ltb_ge in Hcond. unfold JsSet.size in Hcond.
      exists result. split; [reflexivity|]. split; [|exact Hhd].
      apply Permutation_sym, NoDup_Permutation_bis; [| |exact Hincl].
      * apply NoDup_map_id. now rewrite <- Hvis.
      * rewrite Hvis, length_map in Hcond. exact Hcond.
  - cbn [nearestWhile].
    destruct (JsSet.size visited <? List.length stops) eqn:Hcond.
    + apply Nat.ltb_lt in Hcond. unfold JsSet.size in Hcond.
      destruct (unvisited_stop visited Hids Hcond) as (candidate & Hcand & Hnew).
      destruct (stop_coordinates current Hcur) as [cc Hcc].
      destruct (stop_coordinates candidate Hcand) as [cl Hcl].
      pose proof (nearestScan_progress M visited current method stops
                    candidate Hcc Hcand Hnew Hcl
                    (finite_score current candidate Hcur Hcand Hcc Hcl)) as Hprog.
      destruct (fst (nearestScan M visited current method stops)) as [nearest|] eqn:Hscan;
        [|congruence].
      apply nearestScan_Some in Hscan. destruct Hscan as (Hin & Hfresh & _ & _).
      apply IH.
      * rewrite SetFacts.add_new by exact Hfresh. rewrite map_app, Hvis. reflexivity.
      * now apply SetFacts.add_NoDup.
      * apply incl_app; [exact Hincl|]. intros x [<-|[]]. exact Hin.
      * exact Hin.
      * destruct result; [discriminate | exact Hhd].
      * rewrite SetFacts.add_new by exact Hfresh. rewrite length_app. simpl. lia.
    + apply Nat.ltb_ge in Hcond. unfold JsSet.size in Hcond.
      exists result. split; [reflexivity|]. split; [|exact Hhd].
      apply Permutation_sym, NoDup_Permutation_bis; [| |exact Hincl].
      * apply NoDup_map_id. now rewrite <- Hvis.
      * rewrite Hvis, length_map in Hcond. exact Hcond.
Qed.

End Terminates.

Section Diverges.

(** A property of the visited identifiers and the current stop that
    keeps the loop condition true and that a round preserves. *)
Variable Inv : JsSet.t -> Location -> Prop.

Hypothesis Inv_running :
  forall visited current, Inv visited current -> List.length visited < List.length stops.

Hypothesis Inv_step :
  forall visited current nearest,
    Inv visited current ->
    fst (nearestScan M visited current method stops) = Some nearest ->
    Inv (JsSet.add (id nearest) visited) nearest.

Lemma nearestWhile_diverges (fuel : nat) :
  forall (visited : JsSet.t) (result : list Location) (current : Location),
    Inv visited current ->
    nearestWhile M fuel stops method visited result current = None.
Proof.
  induction fuel as [|fuel IH]; intros visited result current HI; cbn [nearestWhile];
    (replace (JsSet.size visited <? List.length stops) with true
      by (symmetry; apply Nat.ltb_lt; exact (Inv_running HI))); [reflexivity|].
  destruct (fst (nearestScan M visited current method stops)) as [nearest|] eqn:Hscan.
  - apply IH. eapply Inv_step; eassumption.
  - now apply IH.
Qed.

End Diverges.

(** The visited identifiers stay distinct identifiers of stops with
    coordinates. *)
Definition located_ids (visited : JsSet.t) (current : Location) : Prop :=
  NoDup visited /\ incl visited (map id (filter has_coordinates stops)).

Lemma located_ids_step (visited : JsSet.t) (current nearest : Location) :
  located_ids visited current ->
  fst (nearestScan M visited current method stops) = Some nearest ->
  located_ids (JsSet.add (id nearest) visited) nearest.
Proof.
  intros [Hnodup Hincl] Hscan.
  apply nearestScan_Some in Hscan. destruct Hscan as (Hin & _ & Hc & _).
  split; [now apply SetFacts.add_NoDup|].
  apply SetFacts.add_incl; [exact Hincl|].
  apply in_map. apply filter_In. now split.
Qed.

Lemma located_ids_running (visited : JsSet.t) (current : Location) :
  existsb (fun loc => negb (has_coordinates loc)) stops = true \/ ~ NoDup (map id stops) ->
  located_ids visited current ->
  List.length visited < List.length stops.
Proof.
  intros Hbad [Hnodup Hincl].
  pose proof (NoDup_incl_length Hnodup Hincl) as Hle. rewrite length_map in Hle.
  destruct Hbad as [Hmissing|Hdup].
  - apply existsb_exists in Hmissing. destruct Hmissing as (x & Hx & Hnc).
    apply negb_true_iff in Hnc.
    pose proof (filter_length_lt has_coordinates stops x Hx Hnc). lia.
  - destruct (Nat.lt_ge_cases (List.length visited) (List.length stops)) as [Hlt|Hge];
      [exact Hlt|].
    exfalso. apply Hdup.
    apply (NoDup_incl_NoDup Hnodup).
    + rewrite length_map. exact Hge.
    + intros x Hx. apply Hincl in Hx.
      apply in_map_iff in Hx. destruct Hx as (c & <- & Hc).
      apply filter_In in Hc. apply in_map. tauto.
Qed.

(** From a stop without coordinates the scan keeps nothing. *)
Definition stranded (visited : JsSet.t) (current : Location) : Prop :=
  has_coordinates current = false /\ List.length visited < List.length stops.

Lemma stranded_step (visited : JsSet.t) (current nearest : Location) :
  stranded visited current ->
  fst (nearestScan M visited current method stops) = Some nearest ->
  stranded (JsSet.add (id nearest) visited) nearest.
Proof.
  intros [Hnc _] Hscan. apply nearestScan_Some in Hscan.
  destruct Hscan as (_ & _ & _ & Hc). congruence.
Qed.

End StandardLoop.

(** C9, as the code has it.  In the standard branch (no loop, or fewer
    than three stops): for a non-empty list of stops that all have
    coordinates, with pairwise distinct identifiers and step scores
    that are numbers below [Infinity], the nearest-neighbour ordering
    returns, within as many rounds as there are stops, a permutation of
    its input that begins with the first input stop; for a list of at
    least two stops in which some stop lacks coordinates or two stops
    share an identifier, the visited-count loop never ends. *)
Theorem nearestNeighborOptimization_standard
  (M : MathImpl) (method : OptimizationMethod) (stops : list Location) (loop : bool)
  (Hstandard : loop && (3 <=? List.length stops) = false) :
  (stops <> [] ->
   forallb has_coordinates stops = true ->
   NoDup (map id stops) ->
   finite_scores M method stops = true ->
   forall fuel, List.length stops <= fuel ->
   exists output,
     nearestNeighborOptimization M fuel stops method loop = Some output /\
     Permutation stops output /\
     hd_error output = hd_error stops) /\
  (2 <= List.length stops ->
   existsb (fun loc => negb (has_coordinates loc)) stops = true \/ ~ NoDup (map id stops) ->
   forall fuel, nearestNeighborOptimization M fuel stops method loop = None).
Proof.
  split.
  - intros Hne Hcoords Hids Hfinite fuel Hfuel.
    destruct stops as [|first [|second rest]]; [congruence| |].
    + exists [first]. repeat split. apply Permutation_refl.
    + unfold nearestNeighborOptimization. rewrite Hstandard.
      apply (@nearestWhile_terminates M method _ Hcoords Hids Hfinite).
      * reflexivity.
      * repeat constructor. intros [].
      * intros x [<-|[]]. now left.
      * now left.
      * reflexivity.
      * simpl in *. lia.
  - intros Hlen Hbad fuel.
    destruct stops as [|first [|second rest]]; [simpl in Hlen; lia | simpl in Hlen; lia |].
    unfold nearestNeighborOptimization. rewrite Hstandard.
    destruct (has_coordinates first) eqn:Hfirst.
    + apply (@nearestWhile_diverges M method _ (located_ids (first :: second :: rest))).
      * intros visited current. now apply located_ids_running.
      * intros visited current nearest. apply located_ids_step.
      * split; [repeat constructor; intros []|].
        intros x [<-|[]]. apply in_map. apply filter_In. split; [now left | exact Hfirst].
    + apply (@nearestWhile_diverges M method _ (stranded (first :: second :: rest))).
      * intros visited current [_ H]. exact H.
      * intros visited current nearest. apply stranded_step.
      * split; [exact Hfirst | simpl; lia].
Qed.

Definition three_stops : list Location :=
  [stop "Louvre" 48.8606 2.3376; stop "Orly" 48.7262 2.3652; stop "Bastille" 48.8532 2.3692].

Lemma nearestNeighborOptimization_standard_witness :
  (three_stops <> [] ->
   forallb has_coordinates three_stops = true ->
   NoDup (map id three_stops) ->
   finite_scores PolyMath.impl shortest_distance three_stops = true ->
   forall fuel, List.length three_stops <= fuel ->
   exists output,
     nearestNeighborOptimization PolyMath.impl fuel three_stops shortest_distance false
     = Some output /\
     Permutation three_stops output /\
     hd_error output = hd_error three_stops) /\
  (2 <= List.length three_stops ->
   existsb (fun loc => negb (has_coordinates loc)) three_stops = true \/
   ~ NoDup (map id three_stops) ->
   forall fuel,
     nearestNeighborOptimization PolyMath.impl fuel three_stops shortest_distance false = None).
Proof.
  apply (nearestNeighborOptimization_standard PolyMath.impl shortest_distance three_stops false).
  reflexivity.
Defined.

Example three_stops_order :
  option_map (map id)
    (nearestNeighborOptimization PolyMath.impl 3 three_stops shortest_distance false)
  = Some ["Louvre"; "Bastille"; "Orly"] /\
  finite_scores PolyMath.impl shortest_distance three_stops = true.
Proof. vm_compute. split; reflexivity. Qed.

Example two_stops_one_unlocated_pending :
  nearestNeighborOptimization PolyMath.impl 1000
    [stop "Louvre" 48.8606 2.3376; stop_without_coordinates "?"] shortest_distance false
  = None.
Proof. vm_compute. reflexivity. Qed.

Definition nowhere : Coordinates := {| latitude := nan; longitude := nan |}.

Lemma calculateDistance_nan (M : MathImpl) : calculateDistance M nowhere nowhere = nan.
Proof.
  unfold calculateDistance, degToRad, nowhere; simpl.
  change (((nan - nan) * (Math_PI / 180) / 2)%float) with nan.
  change ((nan * (Math_PI / 180))%float) with nan.
  rewrite Math_sin_nan, Math_cos_nan.
  change ((nan * nan + nan * nan * nan * nan)%float) with nan.
  change (sqrt nan) with nan.
  change (sqrt (1 - nan)) with nan.
  rewrite Math_atan2_nan. reflexivity.
Qed.

Definition unplaced_stops : list Location := [stop "A" nan nan; stop "B" nan nan].

(** C9, against its two halves.  A single stop without coordinates is
    returned at once: nothing loops.  Two stops with distinct
    identifiers whose coordinates are [NaN] (coordinates they have)
    never leave the loop: every distance is [NaN], no score is below
    [Infinity], no stop is ever visited. *)
Lemma nearest_neighbor_counterexamples :
  (forall (M : MathImpl) (fuel : nat),
     nearestNeighborOptimization M fuel [stop_without_coordinates "A"] shortest_distance false
     = Some [stop_without_coordinates "A"]) /\
  forallb has_coordinates unplaced_stops = true /\
  NoDup (map id unplaced_stops) /\
  (forall (M : MathImpl) (fuel : nat),
     nearestNeighborOptimization M fuel unplaced_stops shortest_distance false = None).
Proof.
  split; [reflexivity|]. split; [reflexivity|].
  split.
  - repeat constructor; simpl; [intros [H|[]]; discriminate H | intros []].
  - intros M fuel. unfold nearestNeighborOptimization, unplaced_stops.
    cbn [andb].
    apply (@nearestWhile_diverges M shortest_distance _
             (fun visited current => visited = ["A"] /\ current = stop "A" nan nan)).
    + intros visited current [-> _]. simpl. lia.
    + intros visited current nearest [-> ->] Hscan. exfalso.
      unfold nearestScan, unplaced_stops, stop in Hscan.
      cbn -[calculateDistance] in Hscan.
      change {| latitude := nan; longitude := nan |} with nowhere in Hscan.
      rewrite calculateDistance_nan in Hscan.
      cbn in Hscan. discriminate Hscan.
    + split; reflexivity.
Qed.

(* ------------------------------------------------------------------ *)
(** ** The order of numbers *)

Module FloatOrder.

Lemma SFltb_irrefl (a : spec_float) : SFltb a a = false.
Proof.
  unfold SFltb, SFcompare.
  destruct a as [s|s| |s m e]; try destruct s; try reflexivity;
    rewrite Z.compare_refl;
    change (PosDef.Pos.compare_cont Eq m m) with (Pos.compare m m);
    rewrite Pos.compare_refl; reflexivity.
Qed.

Lemma SFltb_trans (a b c : spec_float) :
  SFltb a b = true -> SFltb b c = true -> SFltb a c = true.
Proof.
  unfold SFltb, SFcompare.
  destruct a as [sa|sa| |sa ma ea], b as [sb|sb| |sb mb eb], c as [sc|sc| |sc mc ec];
    try destruct sa; try destruct sb; try destruct sc;
    try discriminate; try reflexivity;
    change PosDef.Pos.compare_cont with Pos.compare_cont;
    change (Pos.compare_cont Eq) with Pos.compare;
    destruct (Z.compare_spec ea eb), (Z.compare_spec eb ec), (Z.compare_spec ea ec);
    try discriminate; try reflexivity; try lia; subst;
    destruct (Pos.compare_spec ma mb), (Pos.compare_spec mb mc), (Pos.compare_spec ma mc);
    simpl; try discriminate; try reflexivity; try lia.
Qed.

Lemma ltb_irrefl (x : float) : (x <? x)%float = false.
Proof. rewrite ltb_spec. apply SFltb_irrefl. Qed.

Lemma ltb_trans (x y z : float) :
  (x <? y)%float = true -> (y <? z)%float = true -> (x <? z)%float = true.
Proof. rewrite !ltb_spec. apply SFltb_trans. Qed.

End FloatOrder.

(* ------------------------------------------------------------------ *)
(** ** Keeping the best of several orders *)

Section KeepBest.

Context (score : list Location -> float).

Definition keep (best : list Location * float) (candidate : list Location)
  : list Location * float :=
  keep_best best candidate (score candidate).

(** [best] is the best of the orders [seen]: none of them scores below
    it, and it is one of them unless it still is the initial pair. *)
Definition best_of (initial : list Location * float) (seen : list (list Location))
  (best : list Location * float) : Prop :=
  (forall candidate, In candidate seen -> (score candidate <? snd best)%float = false) /\
  (best = initial \/ (In (fst best) seen /\ snd best = score (fst best))).

Lemma keep_best_of (initial best : list Location * float)
  (seen : list (list Location)) (candidate : list Location) :
  best_of initial seen best ->
  best_of initial (seen ++ [candidate]) (keep best candidate).
Proof.
  intros [Hmin Horigin]. unfold keep, keep_best.
  destruct (score candidate <? snd best)%float eqn:Hlt.
  - split; cbn [fst snd].
    + intros c Hc. apply in_app_or in Hc. destruct Hc as [Hc|[<-|[]]].
      * destruct (score c <? score candidate)%float eqn:Hc'; [|reflexivity].
        rewrite <- (Hmin c Hc). symmetry.
        now apply FloatOrder.ltb_trans with (score candidate).
      * apply FloatOrder.ltb_irrefl.
    + right. split; [apply in_or_app; right; now left | reflexivity].
  - split.
    + intros c Hc. apply in_app_or in Hc. destruct Hc as [Hc|[<-|[]]];
        [now apply Hmin | exact Hlt].
    + destruct Horigin as [H|[H1 H2]]; [now left|].
      right. split; [apply in_or_app; now left | exact H2].
Qed.

Lemma fold_keep_best_of (initial : list Location * float)
  (candidates seen : list (list Location)) (best : list Location * float) :
  best_of initial seen best ->
  best_of initial (seen ++ candidates) (fold_left keep candidates best).
Proof.
  revert seen best. induction candidates as [|c candidates IH]; intros seen best H; simpl.
  - now rewrite app_nil_r.
  - replace (seen ++ c :: candidates) with ((seen ++ [c]) ++ candidates)
      by (rewrite <- app_assoc; reflexivity).
    apply IH. now apply keep_best_of.
Qed.

End KeepBest.

(* ------------------------------------------------------------------ *)
(** ** The placement loops *)

Lemma indexed_nth {A : Type} (l : list A) (start i : nat) (x : A) :
  In (i, x) (combine (seq start (List.length l)) l) ->
  start <= i /\ nth_error l (i - start) = Some x.
Proof.
  revert start. induction l as [|y l IH]; intros start; simpl; [tauto|].
  intros [[= <- <-]|Hin].
  - split; [lia|]. now rewrite Nat.sub_diag.
  - apply IH in Hin. destruct Hin as [Hle Hnth]. split; [lia|].
    replace (i - start) with (S (i - S start)) by lia. exact Hnth.
Qed.

Lemma remove_at_perm {A : Type} (l : list A) (i : nat) (x : A) :
  nth_error l i = Some x -> Permutation l (x :: JsArray.remove_at i l).
Proof.
  revert i. induction l as [|y l IH]; intros [|i]; simpl; try discriminate.
  - intros [= ->]. apply Permutation_refl.
  - intros H. apply perm_trans with (y :: x :: JsArray.remove_at i l).
    + apply perm_skip. now apply IH.
    + apply perm_swap.
Qed.

Section Placement.

Context (score : Coordinates -> Coordinates -> float).

Lemma scan_Some (current : Location) (remaining : list Location)
  (i : nat) (nearest : Location) :
  fst (scan score current remaining) = Some (i, nearest) ->
  nth_error remaining i = Some nearest.
Proof.
  unfold scan.
  apply (@fold_left_invariant _ _ _
           (fun acc => fst acc = Some (i, nearest) -> nth_error remaining i = Some nearest)).
  - discriminate.
  - intros [kept bestScore] [j location] Hin IH.
    destruct (coordinates location) as [cl|]; [|exact IH].
    destruct (coordinates current) as [cc|]; [|exact IH].
    destruct_if; [|exact IH].
    cbn [fst]. intros [= <- <-].
    apply indexed_nth in Hin. destruct Hin as [_ Hnth].
    now rewrite Nat.sub_0_r in Hnth.
Qed.

(** The scan keeps a stop as soon as the first one scores below
    [Infinity]. *)
Lemma scan_progress (current first : Location) (rest : list Location)
  (cc cl : Coordinates) :
  coordinates current = Some cc ->
  coordinates first = Some cl ->
  (score cc cl <? infinity)%float = true ->
  fst (scan score current (first :: rest)) <> None.
Proof.
  intros Hcc Hcl Hfin. unfold scan, indexed. cbn [List.length seq combine fold_left].
  rewrite Hcl, Hcc, Hfin.
  apply (@fold_left_invariant _ _ _ (fun acc => fst acc <> None)).
  - discriminate.
  - intros [kept bestScore] [j location] _ IH.
    destruct (coordinates location); [|exact IH].
    destruct_if; [discriminate | exact IH].
Qed.

End Placement.

Section PlaceWhile.

Context (score : nat -> Coordinates -> Coordinates -> float).

(** When the loop ends every stop has been placed once, after the
    stops already placed. *)
Lemma placeWhile_perm (fuel : nat) :
  forall (result remaining : list Location) (current : Location) (output : list Location),
    placeWhile fuel score result remaining current = Some output ->
    Permutation (result ++ remaining) output /\
    exists placed, output = result ++ placed.
Proof.
  induction fuel as [|fuel IH]; intros result remaining current output.
  - destruct remaining; [|discriminate].
    intros [= <-]. rewrite app_nil_r.
    split; [apply Permutation_refl | exists []; symmetry; apply app_nil_r].
  - destruct remaining as [|r remaining].
    + intros [= <-]. rewrite app_nil_r.
    split; [apply Permutation_refl | exists []; symmetry; apply app_nil_r].
    + cbn [placeWhile].
      destruct (fst (scan (score (List.length (r :: remaining))) current (r :: remaining)))
        as [[bestIndex nearest]|] eqn:Hscan.
      * intros Hrun. apply IH in Hrun. destruct Hrun as [Hperm [placed ->]].
        apply scan_Some in Hscan. split.
        -- eapply perm_trans; [|exact Hperm].
           rewrite <- app_assoc. apply Permutation_app_head.
           apply (remove_at_perm _ _ Hscan).
        -- exists (nearest :: placed). now rewrite <- app_assoc.
      * apply IH.
Qed.

Context (stops : list Location).

Hypothesis Hcoords : forallb has_coordinates stops = true.

Hypothesis Hfinite :
  forall n a b ca cb,
    In a stops -> In b stops ->
    coordinates a = Some ca -> coordinates b = Some cb ->
    (score n ca cb <? infinity)%float = true.

(** The loop ends within as many rounds as stops are left to place. *)
Lemma placeWhile_terminates (fuel : nat) :
  forall (result remaining : list Location) (current : Location),
    incl remaining stops ->
    In current stops ->
    List.length remaining <= fuel ->
    exists output, placeWhile fuel score result remaining current = Some output.
Proof.
  induction fuel as [|fuel IH]; intros result remaining current Hincl Hcur Hfuel.
  - destruct remaining; [now exists result | simpl in Hfuel; lia].
  - destruct remaining as [|r remaining]; [now exists result|].
    cbn [placeWhile].
    destruct (stop_coordinates stops Hcoords current Hcur) as [cc Hcc].
    assert (Hr : In r stops) by (apply Hincl; now left).
    destruct (stop_coordinates stops Hcoords r Hr) as [cl Hcl].
    pose proof (scan_progress (score (List.length (r :: remaining))) current r remaining
                  Hcc Hcl (Hfinite _ current r Hcur Hr Hcc Hcl)) as Hprog.
    destruct (fst (scan (score (List.length (r :: remaining))) current (r :: remaining)))
      as [[bestIndex nearest]|] eqn:Hscan; [|congruence].
    apply scan_Some in Hscan.
    pose proof (remove_at_perm _ _ Hscan) as Hperm.
    apply IH.
    + intros x Hx. apply Hincl.
      apply (Permutation_in _ (Permutation_sym Hperm)). now right.
    + apply Hincl. apply (Permutation_in _ (Permutation_sym Hperm)). now left.
    + apply Permutation_length in Hperm. simpl in Hperm, Hfuel. lia.
Qed.

End PlaceWhile.

(* ------------------------------------------------------------------ *)
(** ** The loop-aware strategies *)

(** The results of a list of runs, when all of them ended. *)
Fixpoint all_ended {A : Type} (runs : list (option A)) : option (list A) :=
  match runs with
  | [] => Some []
  | None :: _ => None
  | Some a :: rest =>
      match all_ended rest with
      | Some results => Some (a :: results)
      | None => None
      end
  end.

Lemma all_ended_map {A : Type} (runs : list (option A)) (results : list A) :
  all_ended runs = Some results <-> runs = map Some results.
Proof.
  revert results. induction runs as [|[a|] runs IH]; intros results; simpl.
  - split; [intros [= <-]; reflexivity | destruct results; [reflexivity | discriminate]].
  - destruct (all_ended runs) as [rs|] eqn:Hrs.
    + split.
      * intros [= <-]. simpl. f_equal. now apply IH.
      * destruct results as [|r results]; [discriminate|].
        simpl. intros [= -> Hruns]. apply IH in Hruns. congruence.
    + split; [discriminate|].
      destruct results as [|r results]; [discriminate|].
      simpl. intros [= -> Hruns]. apply IH in Hruns. discriminate.
  - split; [discriminate|]. destruct results; discriminate.
Qed.

Section LoopStrategies.

Context (M : MathImpl) (method : OptimizationMethod).

(** The tours the loop-aware optimisation evaluates, in order:
    nearest-first, farthest-first, then one tour per forced second
    stop (at most three). *)
Definition strategies (fuel : nat) (stops : list Location)
  : list (option (list Location)) :=
  match stops with
  | [] => []
  | startLocation :: otherLocations =>
      findNearestNeighborLoop M fuel startLocation otherLocations method
      :: findFarthestFirstLoop M fuel startLocation otherLocations
      :: map (alternateSecond M fuel startLocation otherLocations)
           (seq 0 (Nat.min (List.length otherLocations) 3))
  end.

Definition loopScore (order : list Location) : float :=
  calculateCompleteLoopScore M order method.

Lemma tryAlternates_spec (fuel : nat) (start : Location) (others : list Location)
  (indices : list nat) (best : list Location * float) :
  tryAlternates M fuel start others method indices best
  = match all_ended (map (alternateSecond M fuel start others) indices) with
    | Some alternates => Some (fold_left (keep loopScore) alternates best)
    | None => None
    end.
Proof.
  revert best. induction indices as [|i indices IH]; intros best; simpl; [reflexivity|].
  destruct (alternateSecond M fuel start others i) as [reorderedTest|]; [|reflexivity].
  rewrite IH. destruct (all_ended _); reflexivity.
Qed.

(** The optimisation returns the best of its strategies' tours when all
    of them ended, and is still running otherwise. *)
Lemma loopAwareOptimization_spec (fuel : nat) (stops : list Location) :
  loopAwareOptimization M fuel stops method
  = match all_ended (strategies fuel stops) with
    | Some tours => Some (fst (fold_left (keep loopScore) tours (stops, infinity)))
    | None => None
    end.
Proof.
  destruct stops as [|start others]; [reflexivity|].
  unfold loopAwareOptimization, strategies. cbn [all_ended].
  destruct (findNearestNeighborLoop M fuel start others method) as [nearestFirst|];
    [|reflexivity].
  destruct (findFarthestFirstLoop M fuel start others) as [farthestFirst|]; [|reflexivity].
  rewrite tryAlternates_spec.
  destruct (all_ended _) as [alternates|]; [|reflexivity].
  cbn [fold_left]. unfold keep at 3 4.
  destruct (fold_left _ alternates _). reflexivity.
Qed.

(** Every score a placement loop of the strategies can compute is a
    number below [Infinity]. *)
Definition finite_loop_scores (stops : list Location) : bool :=
  match stops with
  | [] => true
  | start :: _ =>
      forallb
        (fun a =>
           forallb
             (fun b =>
                match coordinates a, coordinates b with
                | Some ca, Some cb =>
                    forallb
                      (fun n =>
                         (nearestLoopScore M start method n ca cb <? infinity)%float
                         && (distanceLoopScore M start n ca cb <? infinity)%float)
                      [1; 2]
                | _, _ => true
                end)
             stops)
        stops
  end.

Lemma farthestScan_Some (start : Location) (others : list Location) (farthest : Location) :
  fst (farthestScan M start others) = Some farthest -> In farthest others.
Proof.
  unfold farthestScan.
  apply (@fold_left_invariant _ _ _
           (fun acc => fst acc = Some farthest -> In farthest others)).
  - discriminate.
  - intros [kept maxDistance] location Hin IH.
    destruct (coordinates location); [|exact IH].
    destruct (coordinates start); [|exact IH].
    destruct_if; [|exact IH].
    cbn [fst]. now intros [= <-].
Qed.

Section Ends.

Context (start : Location) (others : list Location).

Hypothesis Hcoords : forallb has_coordinates (start :: others) = true.
Hypothesis Hfinite : finite_loop_scores (start :: others) = true.

Lemma loop_scores_finite (n : nat) (a b : Location) (ca cb : Coordinates) :
  In a (start :: others) -> In b (start :: others) ->
  coordinates a = Some ca -> coordinates b = Some cb ->
  (nearestLoopScore M start method n ca cb <? infinity)%float = true /\
  (distanceLoopScore M start n ca cb <? infinity)%float = true.
Proof.
  intros Ha Hb Hca Hcb. unfold finite_loop_scores in Hfinite.
  rewrite forallb_forall in Hfinite. specialize (Hfinite a Ha).
  rewrite forallb_forall in Hfinite. specialize (Hfinite b Hb).
  rewrite Hca, Hcb in Hfinite. cbn [forallb] in Hfinite.
  apply andb_prop in Hfinite. destruct Hfinite as [H1 H2].
  apply andb_prop in H2. destruct H2 as [H2 _].
  apply andb_prop in H1. destruct H1 as [H1n H1d].
  apply andb_prop in H2. destruct H2 as [H2n H2d].
  unfold nearestLoopScore, distanceLoopScore in *.
  destruct n as [|[|n]]; cbn [Nat.eqb] in *; auto.
Qed.

Lemma findNearestNeighborLoop_ends (fuel : nat) :
  List.length others <= fuel ->
  exists tour, findNearestNeighborLoop M fuel start others method = Some tour.
Proof.
  intros Hfuel. unfold findNearestNeighborLoop.
  apply (@placeWhile_terminates _ (start :: others) Hcoords).
  - intros n a b ca cb Ha Hb Hca Hcb.
    exact (proj1 (loop_scores_finite n Ha Hb Hca Hcb)).
  - intros x Hx. now right.
  - now left.
  - exact Hfuel.
Qed.

Lemma distance_loop_ends (fuel : nat) (result remaining : list Location)
  (current : Location) :
  incl remaining others ->
  In current others ->
  List.length remaining <= fuel ->
  exists tour,
    placeWhile fuel (distanceLoopScore M start) result remaining current = Some tour.
Proof.
  intros Hincl Hcur Hfuel.
  apply (@placeWhile_terminates _ (start :: others) Hcoords).
  - intros n a b ca cb Ha Hb Hca Hcb.
    exact (proj2 (loop_scores_finite n Ha Hb Hca Hcb)).
  - intros x Hx. right. now apply Hincl.
  - now right.
  - exact Hfuel.
Qed.

Lemma findFarthestFirstLoop_ends (fuel : nat) :
  List.length others <= fuel ->
  exists tour, findFarthestFirstLoop M fuel start others = Some tour.
Proof.
  intros Hfuel. unfold findFarthestFirstLoop.
  destruct (fst (farthestScan M start others)) as [farthest|] eqn:Hscan;
    [|now exists (start :: others)].
  apply farthestScan_Some in Hscan.
  apply distance_loop_ends.
  - intros x Hx. apply filter_In in Hx. tauto.
  - exact Hscan.
  - pose proof (filter_length_le
                  (fun loc => negb (String.eqb (id loc) (id farthest))) others). lia.
Qed.

Lemma alternateSecond_ends (fuel i : nat) :
  List.length others <= fuel ->
  exists tour, alternateSecond M fuel start others i = Some tour.
Proof.
  intros Hfuel. unfold alternateSecond.
  destruct (nth_error others i) as [second|] eqn:Hnth; [|eauto].
  pose proof (remove_at_perm _ _ Hnth) as Hperm.
  unfold optimizeFromSecondLocation.
  destruct (JsArray.remove_at i others) as [|t toOptimize] eqn:Hrest;
    cbv beta iota; [eauto|].
  apply distance_loop_ends.
  - intros x Hx. apply (Permutation_in _ (Permutation_sym Hperm)). now right.
  - apply (Permutation_in _ (Permutation_sym Hperm)). now left.
  - apply Permutation_length in Hperm. simpl in *. lia.
Qed.

Lemma strategies_end (fuel : nat) :
  List.length others <= fuel ->
  exists tours, all_ended (strategies fuel (start :: others)) = Some tours.
Proof.
  intros Hfuel. unfold strategies. cbn [all_ended].
  destruct (findNearestNeighborLoop_ends Hfuel) as [t1 ->].
  destruct (findFarthestFirstLoop_ends Hfuel) as [t2 ->].
  assert (Halt : forall indices, exists alternates,
            all_ended (map (alternateSecond M fuel start others) indices) = Some alternates).
  { induction indices as [|i indices [alternates IH]]; simpl; [eauto|].
    destruct (alternateSecond_ends i Hfuel) as [t ->]. rewrite IH. eauto. }
  destruct (Halt (seq 0 (Nat.min (List.length others) 3))) as [alternates ->].
  eauto.
Qed.

End Ends.

End LoopStrategies.

(** C8, as the code has it.  For stops that all have coordinates and
    whose placement scores are numbers below [Infinity], the loop-aware
    optimisation returns within as many rounds as there are stops, and
    the order it returns is the best of the tours of its strategies
    (nearest-first, farthest-first, alternate-second): no strategy's
    tour has a complete-loop score below the score [bound] of the order
    returned, which is one of those tours (or the input order, with
    [bound = Infinity], when no tour scored below [Infinity]).  The input
    order itself is not scored. *)
Theorem loopAwareOptimization_best
  (M : MathImpl) (method : OptimizationMethod) (stops : list Location) (fuel : nat)
  (Hcoords : forallb has_coordinates stops = true)
  (Hfinite : finite_loop_scores M method stops = true)
  (Hfuel : List.length stops <= fuel) :
  exists (chosen : list Location) (bound : float),
    loopAwareOptimization M fuel stops method = Some chosen /\
    (forall tour,
       In (Some tour) (strategies M method fuel stops) ->
       (loopScore M method tour <? bound)%float = false) /\
    ((chosen = stops /\ bound = infinity) \/
     (In (Some chosen) (strategies M method fuel stops) /\
      bound = loopScore M method chosen)).
Proof.
  destruct stops as [|start others].
  - exists [], infinity. split; [reflexivity|]. split; [intros tour []|]. now left.
  - destruct (@strategies_end M method start others Hcoords Hfinite fuel) as [tours Htours];
      [simpl in Hfuel; lia|].
    rewrite loopAwareOptimization_spec, Htours.
    apply all_ended_map in Htours. rewrite Htours.
    pose proof (@fold_keep_best_of (loopScore M method) (start :: others, infinity)
                  tours [] (start :: others, infinity)) as Hbest.
    destruct Hbest as [Hmin Horigin].
    { split; [intros c []| now left]. }
    cbn [app] in Hmin, Horigin.
    destruct (fold_left (keep (loopScore M method)) tours (start :: others, infinity))
      as [chosen bound].
    exists chosen, bound. cbn [fst snd] in *.
    split; [reflexivity|]. split.
    + intros tour Hin. apply Hmin. apply in_map_iff in Hin.
      destruct Hin as (t & [= ->] & Ht). exact Ht.
    + destruct Horigin as [[= -> ->]|[Hin ->]]; [now left|].
      right. split; [now apply in_map | reflexivity].
Qed.

(** Four stops around Paris, in the order of the corners of a kite:
    S south, A west, B north, C east.  In kilometres: SA 29.1, SB 55.6,
    SC 28.1, AB 27.0, AC 8.1, BC 28.0. *)
Definition kite : list Location :=
  [stop "S" 48.60 2.35; stop "A" 48.86 2.30; stop "B" 49.10 2.36; stop "C" 48.85 2.41].

Lemma loopAwareOptimization_best_witness :
  exists (chosen : list Location) (bound : float),
    loopAwareOptimization PolyMath.impl 4 kite shortest_distance = Some chosen /\
    (forall tour,
       In (Some tour) (strategies PolyMath.impl shortest_distance 4 kite) ->
       (loopScore PolyMath.impl shortest_distance tour <? bound)%float = false) /\
    ((chosen = kite /\ bound = infinity) \/
     (In (Some chosen) (strategies PolyMath.impl shortest_distance 4 kite) /\
      bound = loopScore PolyMath.impl shortest_distance chosen)).
Proof.
  apply (@loopAwareOptimization_best PolyMath.impl shortest_distance kite 4).
  - reflexivity.
  - vm_compute. reflexivity.
  - simpl. lia.
Defined.

(** The turn at [q] on the way from [p] to [r], on the plane of
    longitudes and latitudes. *)
Definition turn (p q r : Coordinates) : float :=
  ((longitude q - longitude p) * (latitude r - latitude q)
   - (latitude q - latitude p) * (longitude r - longitude q))%float.

(** Four corners in order turn the same way at every corner. *)
Definition convex_quadrilateral (p q r s : Coordinates) : bool :=
  ((turn p q r <? 0) && (turn q r s <? 0) && (turn r s p <? 0) && (turn s p q <? 0))%float
  || ((0 <? turn p q r) && (0 <? turn q r s) && (0 <? turn r s p) && (0 <? turn s p q))%float.

(** C8, against the claim: on the kite, a convex quadrilateral given in
    the order of its corners, every strategy returns a tour that
    crosses itself; the order chosen, S C A B, has a complete-loop
    score of 118.9 km, above the 112.4 km of the input order. *)
Lemma loop_aware_worse_than_input :
  convex_quadrilateral
    {| latitude := 48.60; longitude := 2.35 |} {| latitude := 48.86; longitude := 2.30 |}
    {| latitude := 49.10; longitude := 2.36 |} {| latitude := 48.85; longitude := 2.41 |}
  = true /\
  exists chosen,
    loopAwareOptimization PolyMath.impl 4 kite shortest_distance = Some chosen /\
    map id chosen = ["S"; "C"; "A"; "B"] /\
    (calculateCompleteLoopScore PolyMath.impl kite shortest_distance
     <? calculateCompleteLoopScore PolyMath.impl chosen shortest_distance)%float = true /\
    (118 <? calculateCompleteLoopScore PolyMath.impl chosen shortest_distance)%float = true /\
    (calculateCompleteLoopScore PolyMath.impl kite shortest_distance <? 113)%float = true.
Proof.
  split; [vm_compute; reflexivity|].
  eexists. split; [vm_compute; reflexivity|].
  repeat split; vm_compute; reflexivity.
Qed.

Example kite_tours :
  map (option_map (map id)) (strategies PolyMath.impl shortest_distance 4 kite)
  = [Some ["S"; "C"; "A"; "B"]; Some ["S"; "B"; "A"; "C"]; Some ["S"; "A"; "C"; "B"];
     Some ["S"; "B"; "A"; "C"]; Some ["S"; "C"; "A"; "B"]].
Proof. vm_compute. reflexivity. Qed.

(* ------------------------------------------------------------------ *)
(** ** What the heuristics return, when they return *)

Section Returned.

Context (M : MathImpl) (method : OptimizationMethod).

(** The standard loop leaves only when as many distinct identifiers
    are visited as there are stops: each stop was placed once. *)
Lemma nearestWhile_perm (stops : list Location) (fuel : nat) :
  forall (visited : JsSet.t) (result : list Location) (current : Location)
         (output : list Location),
    visited = map id result ->
    NoDup visited ->
    incl result stops ->
    nearestWhile M fuel stops method visited result current = Some output ->
    Permutation stops output /\ exists placed, output = result ++ placed.
Proof.
  assert (Hexit : forall visited result,
            visited = map id result -> NoDup visited -> incl result stops ->
            (JsSet.size visited <? List.length stops) = false ->
            Permutation stops result /\ exists placed, result = result ++ placed).
  { intros visited result Hvis Hnodup Hincl Hcond.
    apply Nat.ltb_ge in Hcond. unfold JsSet.size in Hcond.
    split; [|exists []; symmetry; apply app_nil_r].
    apply Permutation_sym, NoDup_Permutation_bis; [| |exact Hincl].
    - apply NoDup_map_id. now rewrite <- Hvis.
    - rewrite Hvis, length_map in Hcond. exact Hcond. }
  induction fuel as [|fuel IH]; intros visited result current output Hvis Hnodup Hincl;
    cbn [nearestWhile];
    destruct (JsSet.size visited <? List.length stops) eqn:Hcond;
    try discriminate; try (intros [= <-]; now apply (Hexit visited)).
  destruct (fst (nearestScan M visited current method stops)) as [nearest|] eqn:Hscan.
  - apply nearestScan_Some in Hscan. destruct Hscan as (Hin & Hfresh & _ & _).
    intros Hrun. apply IH in Hrun.
    + destruct Hrun as [Hperm [placed ->]]. split; [exact Hperm|].
      exists (nearest :: placed). now rewrite <- app_assoc.
    + rewrite SetFacts.add_new by exact Hfresh. rewrite map_app, Hvis. reflexivity.
    + now apply SetFacts.add_NoDup.
    + apply incl_app; [exact Hincl|]. intros x [<-|[]]. exact Hin.
  - now apply IH.
Qed.

Lemma findNearestNeighborLoop_perm (fuel : nat) (start : Location)
  (others tour : list Location) :
  findNearestNeighborLoop M fuel start others method = Some tour ->
  Permutation (start :: others) tour.
Proof.
  unfold findNearestNeighborLoop. intros H. now apply placeWhile_perm in H.
Qed.

Lemma filter_other_ids (others : list Location) (farthest : Location) :
  In farthest others ->
  incl (farthest :: filter (fun loc => negb (String.eqb (id loc) (id farthest))) others)
       others /\
  (NoDup (map id others) ->
   Permutation others
     (farthest :: filter (fun loc => negb (String.eqb (id loc) (id farthest))) others)).
Proof.
  intros Hin. split.
  - intros x [<-|Hx]; [exact Hin|]. apply filter_In in Hx. tauto.
  - induction others as [|o others IH]; [destruct Hin|].
    cbn [map]. intros Hnodup. inversion Hnodup as [|? ? Hfresh Hrest]; subst.
    cbn [filter]. destruct Hin as [->|Hin].
    + rewrite String.eqb_refl. cbn [negb]. apply perm_skip.
      rewrite forallb_filter_id; [apply Permutation_refl|].
      apply forallb_forall. intros x Hx. apply negb_true_iff, String.eqb_neq.
      intros Heq. apply Hfresh. rewrite <- Heq. now apply in_map.
    + assert (Hne : String.eqb (id o) (id farthest) = false).
      { apply String.eqb_neq. intros Heq. apply Hfresh. rewrite Heq. now apply in_map. }
      rewrite Hne. cbn [negb].
      apply perm_trans with (o :: farthest :: filter
        (fun loc => negb (String.eqb (id loc) (id farthest))) others);
        [apply perm_skip; now apply IH | apply perm_swap].
Qed.

Lemma findFarthestFirstLoop_perm (fuel : nat) (start : Location)
  (others tour : list Location) :
  findFarthestFirstLoop M fuel start others = Some tour ->
  incl tour (start :: others) /\
  (exists placed, tour = start :: placed) /\
  (NoDup (map id others) -> Permutation (start :: others) tour).
Proof.
  unfold findFarthestFirstLoop.
  destruct (fst (farthestScan M start others)) as [farthest|] eqn:Hscan.
  - apply farthestScan_Some in Hscan.
    destruct (filter_other_ids others farthest Hscan) as [Hincl Hperm].
    intros Hrun. apply placeWhile_perm in Hrun. destruct Hrun as [Hp [placed ->]].
    split; [|split].
    + intros x Hx. apply (Permutation_in _ (Permutation_sym Hp)) in Hx.
      cbn [app] in Hx. destruct Hx as [<-|Hx]; [now left | right; now apply Hincl].
    + now exists (farthest :: placed).
    + intros Hnodup. eapply perm_trans; [|exact Hp].
      cbn [app]. apply perm_skip. now apply Hperm.
  - intros [= <-]. split; [apply incl_refl|]. split; [now exists others|].
    intros _. apply Permutation_refl.
Qed.

Lemma optimizeFromSecondLocation_perm (fuel : nat) (order tour : list Location) :
  optimizeFromSecondLocation M fuel order = Some tour ->
  Permutation order tour /\ (order <> [] -> tour <> []).
Proof.
  unfold optimizeFromSecondLocation.
  destruct order as [|first [|second [|t toOptimize]]];
    try (intros [= <-]; split; [apply Permutation_refl | auto]).
  intros Hrun. apply placeWhile_perm in Hrun. destruct Hrun as [Hp [placed ->]].
  split; [exact Hp | discriminate].
Qed.

Lemma remove_at_out_of_range {A : Type} (l : list A) (i : nat) :
  nth_error l i = None -> JsArray.remove_at i l = l.
Proof.
  revert i. induction l as [|x l IH]; intros [|i]; simpl; try reflexivity; try discriminate.
  intros H. now rewrite IH.
Qed.

Lemma alternateSecond_perm (fuel : nat) (start : Location) (others : list Location)
  (i : nat) (tour : list Location) :
  alternateSecond M fuel start others i = Some tour ->
  Permutation (start :: others) tour /\ tour <> [].
Proof.
  unfold alternateSecond.
  destruct (nth_error others i) as [second|] eqn:Hnth.
  - intros Hrun. apply optimizeFromSecondLocation_perm in Hrun.
    destruct Hrun as [Hp Hne]. split; [|apply Hne; discriminate].
    eapply perm_trans; [|exact Hp]. apply perm_skip. now apply remove_at_perm.
  - intros [= <-]. rewrite remove_at_out_of_range by exact Hnth.
    split; [apply Permutation_refl | discriminate].
Qed.

(** A property of orders that the input order and every strategy's
    tour have is a property of the order chosen. *)
Lemma loopAwareOptimization_chosen (Q : list Location -> Prop) (fuel : nat)
  (stops chosen : list Location) :
  Q stops ->
  (forall tour, In (Some tour) (strategies M method fuel stops) -> Q tour) ->
  loopAwareOptimization M fuel stops method = Some chosen ->
  Q chosen.
Proof.
  intros Hstops Htours. rewrite loopAwareOptimization_spec.
  destruct (all_ended (strategies M method fuel stops)) as [tours|] eqn:Hended;
    [|discriminate].
  apply all_ended_map in Hended. intros [= <-].
  apply (@fold_left_invariant _ _ (keep (loopScore M method)) (fun best => Q (fst best))).
  - exact Hstops.
  - intros best tour Hin Hbest. unfold keep, keep_best.
    destruct_if; [|exact Hbest]. cbn [fst]. apply Htours. rewrite Hended. now apply in_map.
Qed.

Lemma strategies_perm (fuel : nat) (stops tour : list Location) :
  In (Some tour) (strategies M method fuel stops) ->
  incl tour stops /\ tour <> [] /\ (NoDup (map id stops) -> Permutation stops tour).
Proof.
  destruct stops as [|start others]; [intros []|].
  unfold strategies. intros [H|[H|H]].
  - apply findNearestNeighborLoop_perm in H. split; [|split].
    + intros x Hx. now apply (Permutation_in _ (Permutation_sym H)).
    + intros ->. apply Permutation_sym, Permutation_nil in H. discriminate.
    + intros _. exact H.
  - apply findFarthestFirstLoop_perm in H. destruct H as (Hincl & [placed ->] & Hperm).
    split; [exact Hincl|]. split; [discriminate|].
    intros Hnodup. apply Hperm. cbn [map] in Hnodup. now inversion Hnodup.
  - apply in_map_iff in H. destruct H as (i & Hrun & _).
    apply alternateSecond_perm in Hrun. destruct Hrun as [Hp Hne].
    split; [|split; [exact Hne | intros _; exact Hp]].
    intros x Hx. now apply (Permutation_in _ (Permutation_sym Hp)).
Qed.

(** The order returned by [nearestNeighborOptimization]: stops of the
    input only, at least one when the input has one, and, identifiers
    being distinct, each of them once. *)
Lemma nearestNeighborOptimization_perm (fuel : nat) (stops : list Location)
  (loop : bool) (output : list Location) :
  nearestNeighborOptimization M fuel stops method loop = Some output ->
  incl output stops /\
  (stops <> [] -> output <> []) /\
  (NoDup (map id stops) -> Permutation stops output).
Proof.
  unfold nearestNeighborOptimization.
  destruct stops as [|first [|second rest]];
    try (intros [= <-]; split; [apply incl_refl | split; [auto | intros _; apply Permutation_refl]]).
  destruct (loop && (3 <=? List.length (first :: second :: rest))).
  - apply (@loopAwareOptimization_chosen
             (fun order => incl order (first :: second :: rest) /\
                           ((first :: second :: rest) <> [] -> order <> []) /\
                           (NoDup (map id (first :: second :: rest)) ->
                            Permutation (first :: second :: rest) order))).
    + split; [apply incl_refl | split; [auto | intros _; apply Permutation_refl]].
    + intros tour Hin. apply strategies_perm in Hin. tauto.
  - intros Hrun. apply nearestWhile_perm in Hrun.
    + destruct Hrun as [Hperm [placed ->]]. split; [|split].
      * intros x Hx. now apply (Permutation_in _ (Permutation_sym Hperm)).
      * discriminate.
      * intros _. exact Hperm.
    + reflexivity.
    + repeat constructor. intros [].
    + intros x [<-|[]]. now left.
Qed.

End Returned.

(* ------------------------------------------------------------------ *)
(** ** Permutations tried by the bounded search *)

Lemma permute_perm {T : Type} (arr : list T) (maxCount depth : nat) :
  forall (current remaining : list T) (result : list (list T)),
    Permutation arr (current ++ remaining) ->
    Forall (Permutation arr) result ->
    Forall (Permutation arr) (permute depth maxCount current remaining result).
Proof.
  induction depth as [|depth IH]; intros current remaining result Hperm Hres;
    cbn [permute]; destruct (maxCount <=? List.length result); try exact Hres;
    destruct remaining as [|r remaining]; try exact Hres;
    try (apply Forall_app; split; [exact Hres|];
         constructor; [now rewrite app_nil_r in Hperm | constructor]).
  apply fold_left_invariant; [exact Hres|].
  intros res i _ Hres'.
  destruct (nth_error (r :: remaining) i) as [next|] eqn:Hnth; [|exact Hres'].
  apply IH; [|exact Hres'].
  eapply perm_trans; [exact Hperm|].
  rewrite <- app_assoc. apply Permutation_app_head.
  now apply remove_at_perm.
Qed.

Lemma generatePermutations_perm {T : Type} (arr : list T) (maxCount : nat)
  (permutation : list T) :
  In permutation (generatePermutations arr maxCount) -> Permutation arr permutation.
Proof.
  unfold generatePermutations. intros Hin.
  assert (Hall : Forall (Permutation arr) (permute (List.length arr) maxCount [] arr []))
    by (apply permute_perm; [apply Permutation_refl | constructor]).
  rewrite Forall_forall in Hall. apply Hall.
  rewrite <- (firstn_skipn maxCount). apply in_or_app. now left.
Qed.

Example permutations_of_three :
  generatePermutations [1; 2; 3] 4 = [[1; 2; 3]; [1; 3; 2]; [2; 1; 3]; [2; 3; 1]].
Proof. reflexivity. Qed.

(* ------------------------------------------------------------------ *)
(** ** Loops over computations *)

Lemma for_each_invariant {A S : Type} (P : S -> Prop) (l : list A)
  (body : S -> A -> Comp S) :
  (forall s x w s' w', In x l -> P s -> body s x w = (Ok s', w') -> P s') ->
  forall s w s' w', P s -> for_each l body s w = (Ok s', w') -> P s'.
Proof.
  induction l as [|x l IH]; intros Hbody s w s' w' Hs; cbn [for_each].
  - unfold ret. now intros [= <- _].
  - intros Hrun. apply bind_Ok_inv in Hrun. destruct Hrun as (s1 & w1 & Hx & Hrest).
    apply (IH (fun s x w s' w' Hin => Hbody s x w s' w' (or_intror Hin)) s1 w1 s' w');
      [|exact Hrest].
    apply (Hbody s x w s1 w1); [now left | exact Hs | exact Hx].
Qed.

Lemma lift_option_Ok {A : Type} (o : option A) (w w' : World) (a : A) :
  lift_option o w = (Ok a, w') -> o = Some a /\ w' = w.
Proof.
  destruct o as [a0|]; cbn; [|discriminate]. unfold ret. now intros [= -> ->].
Qed.

Section BoundedSearch.

Context (M : MathImpl) (E : Env).

(** A property of orders that the input order, the nearest-neighbour
    order and the permutations tried have is a property of the order
    returned. *)
Lemma advancedOptimization_returns (Q : list Location -> Prop) (fuel : nat)
  (stops : list Location) (method : OptimizationMethod) (loop : bool)
  (vehicle : VehicleType) (w w' : World) (output : list Location) :
  Q stops ->
  (forall order,
     nearestNeighborOptimization M fuel stops method loop = Some order -> Q order) ->
  (forall permutation, Permutation stops permutation -> Q permutation) ->
  advancedOptimization M E fuel stops method loop vehicle w = (Ok output, w') ->
  Q output.
Proof.
  intros Hstops Hnearest Hperms. unfold advancedOptimization.
  destruct (List.length stops <=? 1); [unfold ret; now intros [= <- _]|].
  intros Hrun. apply bind_Ok_inv in Hrun.
  destruct Hrun as (nearestNeighborResult & w1 & Hnn & Hrun).
  apply lift_option_Ok in Hnn. destruct Hnn as [Hnn ->].
  apply bind_Ok_inv in Hrun. destruct Hrun as (nearestScore & w2 & _ & Hrun).
  assert (Hfirst : Q (fst (keep_best (stops, infinity) nearestNeighborResult nearestScore))).
  { unfold keep_best. destruct_if; cbn [fst]; [now apply Hnearest | exact Hstops]. }
  destruct (List.length stops <=? 6).
  - apply bind_Ok_inv in Hrun. destruct Hrun as (best & w3 & Hloop & Hret).
    unfold ret in Hret. injection Hret as <- _.
    revert Hloop. apply (for_each_invariant (fun best => Q (fst best))); [|exact Hfirst].
    intros best0 permutation w0 best1 w1 Hin Hbest Hbody.
    apply bind_Ok_inv in Hbody. destruct Hbody as (score & w4 & _ & Hret).
    unfold ret in Hret. injection Hret as <- _.
    unfold keep_best. destruct_if; cbn [fst]; [|exact Hbest].
    apply Hperms. now apply generatePermutations_perm in Hin.
  - unfold ret in Hrun. now injection Hrun as <- _.
Qed.

End BoundedSearch.

(* ------------------------------------------------------------------ *)
(** ** Merging locked and optimised stops *)

Lemma fold_seq_invariant {S : Type} (P : nat -> S -> Prop) (f : S -> nat -> S) :
  forall (len start : nat) (s : S),
    P start s ->
    (forall i s, start <= i < start + len -> P i s -> P (Datatypes.S i) (f s i)) ->
    P (start + len) (fold_left f (seq start len) s).
Proof.
  induction len as [|len IH]; intros start s Hs Hstep; cbn [seq fold_left].
  - now rewrite Nat.add_0_r.
  - replace (start + Datatypes.S len) with (Datatypes.S start + len) by lia.
    apply IH.
    + apply Hstep; [lia | exact Hs].
    + intros i s' Hi. apply Hstep. lia.
Qed.

Lemma firstn_next {A : Type} (l : list A) (i : nat) (x : A) :
  nth_error l i = Some x -> firstn (S i) l = firstn i l ++ [x].
Proof.
  revert i. induction l as [|y l IH]; intros [|i]; simpl; try discriminate.
  - now intros [= ->].
  - intros H. f_equal. now apply IH.
Qed.

Lemma filter_none {A : Type} (f : A -> bool) (l : list A) :
  (forall x, In x l -> f x = false) -> filter f l = [].
Proof.
  induction l as [|y l IH]; simpl; [reflexivity|].
  intros H. rewrite (H y) by now left. apply IH. intros x Hx. apply H. now right.
Qed.

Lemma filter_partition_perm {A : Type} (f : A -> bool) (l : list A) :
  Permutation l (filter f l ++ filter (fun x => negb (f x)) l).
Proof.
  induction l as [|x l IH]; simpl; [apply perm_nil|].
  destruct (f x); simpl.
  - now apply perm_skip.
  - now apply Permutation_cons_app.
Qed.

Lemma NoDup_map_filter {A B : Type} (g : A -> B) (f : A -> bool) (l : list A) :
  NoDup (map g l) -> NoDup (map g (filter f l)).
Proof.
  induction l as [|x l IH]; simpl; [auto|].
  intros H. inversion H as [|? ? Hx Hl]; subst.
  destruct (f x); simpl; [|now apply IH].
  constructor; [|now apply IH].
  intros Hin. apply Hx. apply in_map_iff in Hin. destruct Hin as (y & Hy & Hin).
  apply filter_In in Hin. rewrite <- Hy. apply in_map. tauto.
Qed.

Module MergeFacts.

(** The stop's position index is below [i]. *)
Definition below (i : nat) (loc : Location) : bool :=
  match order loc with Some o => (o <? Z.of_nat i)%Z | None => false end.

(** The stop's position index is one of [0 .. n-1]. *)
Definition in_range (n : nat) (loc : Location) : bool :=
  match order loc with Some o => (0 <=? o)%Z && (o <? Z.of_nat n)%Z | None => false end.

Lemma below_cases (i : nat) (x : Location) :
  below (S i) x = below i x || order_is i x /\ below i x && order_is i x = false.
Proof.
  unfold below, order_is. destruct (order x) as [o|]; [|split; reflexivity].
  destruct (Z.ltb_spec o (Z.of_nat i)), (Z.eqb_spec o (Z.of_nat i)),
           (Z.ltb_spec o (Z.of_nat (S i)));
    try lia; split; reflexivity.
Qed.

Lemma below_succ (i : nat) (l : list Location) :
  Permutation (filter (below (S i)) l) (filter (below i) l ++ filter (order_is i) l).
Proof.
  induction l as [|x l IH]; simpl; [apply perm_nil|].
  destruct (below_cases i x) as [-> Hexcl].
  destruct (below i x), (order_is i x); try discriminate; cbn [orb app].
  - now apply perm_skip.
  - now apply Permutation_cons_app.
  - exact IH.
Qed.

Lemma position_taken_once (i : nat) (l : list Location) (x : Location) :
  NoDup (map order l) ->
  JsArray.find (order_is i) l = Some x ->
  filter (order_is i) l = [x].
Proof.
  unfold JsArray.find. induction l as [|y l IH]; simpl; [discriminate|].
  intros Hnodup. inversion Hnodup as [|? ? Hy Hl]; subst.
  destruct (order_is i y) eqn:Hiy.
  - intros [= ->]. f_equal.
    assert (Hnone : forallb (fun z => negb (order_is i z)) l = true).
    { apply forallb_forall. intros z Hz. apply negb_true_iff.
      destruct (order_is i z) eqn:Hiz; [|reflexivity].
      exfalso. apply Hy. unfold order_is in Hiy, Hiz.
      destruct (order x) as [ox|]; [|discriminate].
      destruct (order z) as [oz|] eqn:Hoz; [|discriminate].
      apply Z.eqb_eq in Hiy, Hiz. subst ox oz. rewrite <- Hoz. now apply in_map. }
    clear - Hnone. induction l as [|z l IH]; simpl in *; [reflexivity|].
    apply andb_prop in Hnone. destruct Hnone as [Hz Hl].
    apply negb_true_iff in Hz. rewrite Hz. now apply IH.
  - now apply IH.
Qed.

Lemma position_free (i : nat) (l : list Location) :
  JsArray.find (order_is i) l = None -> filter (order_is i) l = [].
Proof.
  unfold JsArray.find. induction l as [|y l IH]; simpl; [reflexivity|].
  destruct (order_is i y); [discriminate | exact IH].
Qed.

(** Distinct position indices within [a .. b-1] are at most [b - a]. *)
Lemma positions_pigeonhole (a b : nat) (l : list Location) :
  NoDup (map order l) ->
  (forall x, In x l -> exists o, order x = Some o /\ (Z.of_nat a <= o < Z.of_nat b)%Z) ->
  List.length l <= b - a.
Proof.
  intros Hnodup Hrange.
  assert (Hincl : incl (map order l) (map (fun k => Some (Z.of_nat k)) (seq a (b - a)))).
  { intros p Hp. apply in_map_iff in Hp. destruct Hp as (x & <- & Hx).
    destruct (Hrange x Hx) as (o & -> & Ho).
    apply in_map_iff. exists (Z.to_nat o). split; [f_equal; lia|].
    apply in_seq. lia. }
  pose proof (NoDup_incl_length Hnodup Hincl) as Hle.
  now rewrite !length_map, length_seq in Hle.
Qed.

Section Merge.

Context (n : nat) (lockedLocations optimized : list Location).

Hypothesis Hrange : forallb (in_range n) lockedLocations = true.
Hypothesis Hdistinct : NoDup (map order lockedLocations).
Hypothesis Hcount : List.length lockedLocations + List.length optimized = n.

(** After positions [0 .. i-1]: one stop a position, the locked stops
    of those positions and the first optimised stops. *)
Definition merged (i : nat) (state : list Location * nat) : Prop :=
  Permutation (fst state)
    (filter (below i) lockedLocations ++ firstn (snd state) optimized) /\
  snd state <= List.length optimized /\
  List.length (fst state) = i.

Lemma locked_order (x : Location) :
  In x lockedLocations ->
  exists o, order x = Some o /\ (0 <= o < Z.of_nat n)%Z.
Proof.
  intros Hx. rewrite forallb_forall in Hrange. specialize (Hrange x Hx).
  unfold in_range in Hrange. destruct (order x) as [o|]; [|discriminate].
  exists o. split; [reflexivity|]. lia.
Qed.

Lemma mergeStep_merged (i : nat) (state : list Location * nat) :
  i < n -> merged i state -> merged (S i) (mergeStep lockedLocations optimized state i).
Proof.
  intros Hi (Hperm & Hidx & Hlen). destruct state as [result idx]. cbn [fst snd] in *.
  unfold mergeStep.
  pose proof (below_succ i lockedLocations) as Hsucc.
  destruct (JsArray.find (order_is i) lockedLocations) as [x|] eqn:Hfind.
  - rewrite (position_taken_once i lockedLocations Hdistinct Hfind) in Hsucc.
    split; [|split]; cbn [fst snd].
    + eapply perm_trans; [apply Permutation_app_tail; exact Hperm|].
      eapply perm_trans; [|apply Permutation_app_tail, Permutation_sym; exact Hsucc].
      rewrite <- !app_assoc. apply Permutation_app_head. apply Permutation_app_comm.
    + exact Hidx.
    + rewrite length_app. simpl. lia.
  - rewrite (position_free i lockedLocations Hfind), app_nil_r in Hsucc.
    (* a free position: an optimised stop is left for it *)
    assert (Hleft : idx < List.length optimized).
    { pose proof (Permutation_length Hperm) as Hl1.
      rewrite length_app, length_firstn, Nat.min_l in Hl1 by exact Hidx.
      pose proof (Permutation_length Hsucc) as Hl2.
      pose proof (filter_length (below (S i)) lockedLocations) as Hl3.
      assert (Habove :
        List.length (filter (fun x => negb (below (S i) x)) lockedLocations) <= n - S i).
      { apply positions_pigeonhole.
        - now apply NoDup_map_filter.
        - intros x Hx. apply filter_In in Hx. destruct Hx as [Hx Hb].
          destruct (locked_order x Hx) as (o & Ho & Hr).
          exists o. split; [exact Ho|].
          apply negb_true_iff in Hb. unfold below in Hb. rewrite Ho in Hb.
          apply Z.ltb_ge in Hb. lia. }
      lia. }
    destruct (nth_error optimized idx) as [next|] eqn:Hnth;
      [|apply nth_error_None in Hnth; lia].
    split; [|split]; cbn [fst snd].
    + eapply perm_trans; [apply Permutation_app_tail; exact Hperm|].
      eapply perm_trans; [|apply Permutation_app_tail, Permutation_sym; exact Hsucc].
      rewrite <- app_assoc. apply Permutation_app_head.
      rewrite (firstn_next _ _ Hnth). apply Permutation_refl.
    + lia.
    + rewrite length_app. simpl. lia.
Qed.

Lemma mergeLocked_perm :
  Permutation (lockedLocations ++ optimized) (mergeLocked n lockedLocations optimized).
Proof.
  unfold mergeLocked.
  pose proof (@fold_seq_invariant _ merged (mergeStep lockedLocations optimized)
                n 0 ([], 0)) as Hfold.
  cbn [Nat.add] in Hfold.
  destruct Hfold as (Hperm & Hidx & Hlen).
  - split; [|split]; cbn [fst snd]; [|lia|reflexivity].
    rewrite filter_none; [apply perm_nil|].
    intros x Hx. destruct (locked_order x Hx) as (o & Ho & Hr).
    unfold below. rewrite Ho. apply Z.ltb_ge. lia.
  - intros i s Hi. apply mergeStep_merged. lia.
  - destruct (fold_left _ _ _) as [result idx]. cbn [fst snd] in *.
    assert (Hall : filter (below n) lockedLocations = lockedLocations).
    { apply forallb_filter_id, forallb_forall. intros x Hx.
      destruct (locked_order x Hx) as (o & Ho & Hr).
      unfold below. rewrite Ho. apply Z.ltb_lt. lia. }
    rewrite Hall in Hperm.
    pose proof (Permutation_length Hperm) as Hl.
    rewrite length_app, length_firstn, Nat.min_l in Hl by exact Hidx.
    rewrite firstn_all2 in Hperm by lia.
    now apply Permutation_sym.
Qed.

End Merge.

(** Where the stops of the merged order come from. *)
Lemma mergeLocked_origin (n : nat) (lockedLocations optimized : list Location)
  (x : Location) :
  In x (mergeLocked n lockedLocations optimized) ->
  (In x lockedLocations /\ in_range n x = true) \/ In x optimized.
Proof.
  unfold mergeLocked.
  apply (@fold_left_invariant _ _ (mergeStep lockedLocations optimized)
           (fun state => In x (fst state) ->
                         (In x lockedLocations /\ in_range n x = true) \/ In x optimized)).
  - intros [].
  - intros [result idx] i Hi IH. unfold mergeStep. cbn [fst] in IH.
    apply in_seq in Hi.
    destruct (JsArray.find (order_is i) lockedLocations) as [y|] eqn:Hfind.
    + cbn [fst]. intros Hin. apply in_app_or in Hin.
      destruct Hin as [Hin|[<-|[]]]; [now apply IH|].
      apply find_some in Hfind. destruct Hfind as [Hy Hiy].
      left. split; [exact Hy|]. unfold order_is in Hiy. unfold in_range.
      destruct (order y) as [o|]; [|discriminate].
      apply Z.eqb_eq in Hiy. subst o.
      apply andb_true_intro. split; [apply Z.leb_le | apply Z.ltb_lt]; lia.
    + destruct (nth_error optimized idx) as [next|] eqn:Hnth; [|exact IH].
      cbn [fst]. intros Hin. apply in_app_or in Hin.
      destruct Hin as [Hin|[<-|[]]]; [now apply IH|].
      right. now apply nth_error_In in Hnth.
Qed.

(** The merged order is not empty when an optimised stop is there for
    the first position. *)
Lemma mergeLocked_not_empty (n : nat) (lockedLocations optimized : list Location) :
  0 < n -> optimized <> [] -> mergeLocked n lockedLocations optimized <> [].
Proof.
  intros Hn Hopt. unfold mergeLocked.
  destruct n as [|n]; [lia|]. cbn [seq fold_left].
  assert (Hgrow : forall l state,
            fst state <> [] ->
            fst (fold_left (mergeStep lockedLocations optimized) l state) <> []).
  { intros l state Hstate.
    apply (@fold_left_invariant _ _ _ (fun st => fst st <> [])); [exact Hstate|].
    intros [result idx] i _ Hne. unfold mergeStep. cbn [fst] in *.
    destruct (JsArray.find _ _); [cbn [fst]; now destruct result|].
    destruct (nth_error optimized idx); [cbn [fst]; now destruct result | exact Hne]. }
  apply Hgrow. unfold mergeStep.
  destruct (JsArray.find _ _); [discriminate|].
  destruct optimized as [|o optimized]; [congruence | discriminate].
Qed.

End MergeFacts.

(* ------------------------------------------------------------------ *)
(** ** The sequencer *)

(** Every locked stop carries a position index of its own among
    [0 .. n-1], for [n] stops. *)
Definition well_placed (stops : list Location) : Prop :=
  forallb (MergeFacts.in_range (List.length stops)) (filter locked stops) = true /\
  NoDup (map order (filter locked stops)).

Definition unlocked (loc : Location) : bool := negb (locked loc).

Section Sequencer.

Context (M : MathImpl) (E : Env).

(** The order computed for the unlocked stops, when it is computed. *)
Lemma optimized_returns (fuel : nat) (unlockedLocations : list Location)
  (method : OptimizationMethod) (loop : bool) (vehicle : VehicleType)
  (w w' : World) (optimized : list Location) :
  unlockedLocations <> [] ->
  (if List.length unlockedLocations <=? 8
   then advancedOptimization M E fuel unlockedLocations method loop vehicle
   else lift_option (nearestNeighborOptimization M fuel unlockedLocations method loop)) w
  = (Ok optimized, w') ->
  incl optimized unlockedLocations /\
  optimized <> [] /\
  (NoDup (map id unlockedLocations) -> Permutation unlockedLocations optimized).
Proof.
  intros Hne.
  set (Q := fun order : list Location =>
              incl order unlockedLocations /\ order <> [] /\
              (NoDup (map id unlockedLocations) -> Permutation unlockedLocations order)).
  assert (Hnearest : forall order,
            nearestNeighborOptimization M fuel unlockedLocations method loop = Some order ->
            Q order).
  { intros order Hrun. apply nearestNeighborOptimization_perm in Hrun.
    destruct Hrun as (H1 & H2 & H3). repeat split; auto. }
  destruct (List.length unlockedLocations <=? 8).
  - apply (@advancedOptimization_returns M E Q).
    + repeat split; [apply incl_refl | exact Hne | intros _; apply Permutation_refl].
    + exact Hnearest.
    + intros permutation Hperm. repeat split.
      * intros x Hx. now apply (Permutation_in _ (Permutation_sym Hperm)).
      * intros ->. apply Permutation_sym, Permutation_nil in Hperm. contradiction.
      * intros _. exact Hperm.
  - intros Hrun. apply lift_option_Ok in Hrun. destruct Hrun as [Hrun _].
    now apply Hnearest.
Qed.

Lemma filter_not_empty {A : Type} (f : A -> bool) (l : list A) :
  (List.length (filter f l) =? 0) = false -> filter f l <> [].
Proof. intros H Heq. rewrite Heq in H. discriminate H. Qed.

End Sequencer.

(* ------------------------------------------------------------------ *)
(** ** The sequencer returns *)

Lemma for_each_returns {A S : Type} (l : list A) (body : S -> A -> Comp S) :
  (forall s x w, In x l -> exists s' w', body s x w = (Ok s', w')) ->
  forall s w, exists s' w', for_each l body s w = (Ok s', w').
Proof.
  induction l as [|x l IH]; intros Hbody s w; cbn [for_each].
  - now exists s, w.
  - destruct (Hbody s x w (or_introl eq_refl)) as (s1 & w1 & Hx).
    rewrite (@bind_Ok _ _ _ _ _ _ _ Hx).
    apply IH. intros s0 y w0 Hy. apply Hbody. now right.
Qed.

Lemma at_index_returns {A : Type} (l : list A) (i : nat) (w : World) :
  i < List.length l -> exists x, nth_error l i = Some x /\ at_index l i w = (Ok x, w).
Proof.
  intros Hi. unfold at_index.
  destruct (nth_error l i) as [x|] eqn:Hnth.
  - now exists x.
  - apply nth_error_None in Hnth. lia.
Qed.

(** The stops a scan may have to compare: all with coordinates,
    identifiers pairwise distinct, and every score of a scan a number
    below [Infinity]. *)
Definition orderable (M : MathImpl) (method : OptimizationMethod)
  (stops : list Location) : Prop :=
  forallb has_coordinates stops = true /\
  NoDup (map id stops) /\
  finite_scores M method stops = true /\
  finite_loop_scores M method stops = true.

Section Returns.

Context (M : MathImpl) (E : Env).

(** With coordinates at both ends the resolver returns a segment. *)
Lemma calculateSegment_returns (from to : Location) (vehicleType : VehicleType)
  (w : World) :
  has_coordinates from = true ->
  has_coordinates to = true ->
  exists segment w', calculateSegment M E from to vehicleType w = (Ok segment, w').
Proof.
  unfold has_coordinates. intros Hfrom Hto.
  destruct (coordinates from) as [c1|] eqn:H1; [|discriminate].
  destruct (coordinates to) as [c2|] eqn:H2; [|discriminate].
  destruct (JsMap.get (generateSegmentKey from to vehicleType) (segmentCache w))
    as [cached|] eqn:Hget.
  - exists cached, w. exact (@calculateSegment_hit M E from to vehicleType c1 c2 cached w H1 H2 Hget).
  - destruct (@calculateSegment_miss M E from to vehicleType c1 c2 w H1 H2 Hget)
      as (segment & w0 & _ & _ & Hrun).
    rewrite Hrun. eauto.
Qed.

Lemma calculateOrderScore_returns (stops : list Location) (method : OptimizationMethod)
  (loop : bool) (vehicleType : VehicleType) (w : World) :
  exists score w', calculateOrderScore M E stops method loop vehicleType w = (Ok score, w').
Proof.
  unfold calculateOrderScore.
  destruct (List.length stops =? 0) eqn:Hlen; [unfold ret; eauto|].
  apply Nat.eqb_neq in Hlen.
  apply for_each_returns. intros totalScore i w0 Hi. apply in_seq in Hi.
  assert (Hbound : i < List.length stops) by (destruct loop; lia).
  destruct (at_index_returns stops w0 Hbound) as (from & _ & Hfrom).
  rewrite (@bind_Ok _ _ _ _ _ _ _ Hfrom).
  assert (Hto : exists to,
            (if loop && (i =? List.length stops - 1)
             then at_index stops 0 else at_index stops (i + 1)) w0 = (Ok to, w0)).
  { destruct (loop && (i =? List.length stops - 1)) eqn:Hlast.
    - destruct (@at_index_returns _ stops 0 w0) as (to & _ & Hto); [lia | eauto].
    - destruct (@at_index_returns _ stops (i + 1) w0) as (to & _ & Hto); [|eauto].
      destruct loop; cbn [andb] in Hlast; [apply Nat.eqb_neq in Hlast|]; lia. }
  destruct Hto as (to & Hto). rewrite (@bind_Ok _ _ _ _ _ _ _ Hto).
  destruct (coordinates from) as [cf|] eqn:Hcf; [|unfold ret; eauto].
  destruct (coordinates to) as [ct|] eqn:Hct; [|unfold ret; eauto].
  destruct (@calculateSegment_returns from to vehicleType w0) as (segment & w1 & Hrun);
    try (unfold has_coordinates; now rewrite ?Hcf, ?Hct).
  unfold try_catch. rewrite (@bind_Ok _ _ _ _ _ _ _ Hrun). unfold ret. eauto.
Qed.

Lemma nearestNeighborOptimization_returns (fuel : nat) (stops : list Location)
  (method : OptimizationMethod) (loop : bool) :
  orderable M method stops ->
  List.length stops <= fuel ->
  exists order, nearestNeighborOptimization M fuel stops method loop = Some order.
Proof.
  intros (Hcoords & Hids & Hfinite & Hloop) Hfuel.
  destruct stops as [|first [|second rest]]; [now exists [] | now exists [first] |].
  unfold nearestNeighborOptimization.
  destruct (loop && (3 <=? List.length (first :: second :: rest))).
  - rewrite loopAwareOptimization_spec.
    destruct (@strategies_end M method first (second :: rest) Hcoords Hloop fuel)
      as [tours ->]; [simpl in *; lia | eauto].
  - destruct (@nearestWhile_terminates M method (first :: second :: rest)
                Hcoords Hids Hfinite first fuel
                (JsSet.add (id first) []) [first] first) as (output & Hrun & _);
      try reflexivity; eauto.
    + repeat constructor. intros [].
    + intros x [<-|[]]. now left.
    + now left.
    + simpl in *. lia.
Qed.

Lemma advancedOptimization_total (fuel : nat) (stops : list Location)
  (method : OptimizationMethod) (loop : bool) (vehicleType : VehicleType) (w : World) :
  orderable M method stops ->
  List.length stops <= fuel ->
  exists order w',
    advancedOptimization M E fuel stops method loop vehicleType w = (Ok order, w').
Proof.
  intros Hstops Hfuel. unfold advancedOptimization.
  destruct (List.length stops <=? 1); [unfold ret; eauto|]. cbv zeta.
  destruct (nearestNeighborOptimization_returns loop Hstops Hfuel) as [nearest Hnearest].
  rewrite Hnearest. cbn [lift_option]. unfold bind at 1, ret at 1.
  destruct (calculateOrderScore_returns nearest method loop vehicleType w)
    as (nearestScore & w1 & Hscore).
  rewrite (@bind_Ok _ _ _ _ _ _ _ Hscore).
  destruct (List.length stops <=? 6); [|unfold ret; eauto].
  match goal with
  | |- context [for_each ?l ?body ?s0] =>
      assert (Hloop : exists best w2, for_each l body s0 w1 = (Ok best, w2));
        [apply for_each_returns | destruct Hloop as (best & w2 & Hloop)]
  end.
  - intros best permutation w0 _.
    destruct (calculateOrderScore_returns permutation method loop vehicleType w0)
      as (score & w3 & Hperm).
    rewrite (@bind_Ok _ _ _ _ _ _ _ Hperm). unfold ret. eauto.
  - rewrite (@bind_Ok _ _ _ _ _ _ _ Hloop). unfold ret. eauto.
Qed.

(** The sequencer returns as soon as its unlocked stops are orderable
    and it may run as many rounds as there are stops. *)
Lemma optimizeLocationOrder_total (fuel : nat) (stops : list Location)
  (method : OptimizationMethod) (loop : bool) (vehicleType : VehicleType) (w : World) :
  orderable M method (filter unlocked stops) ->
  List.length stops <= fuel ->
  exists output after w',
    optimizeLocationOrder M E fuel stops method loop vehicleType w
    = (Ok (output, after), w').
Proof.
  intros Hstops Hfuel. unfold optimizeLocationOrder.
  destruct (List.length stops <=? 2); [unfold ret; eauto|]. cbv zeta.
  fold unlocked. change (fun loc => negb (locked loc)) with unlocked.
  destruct (List.length (filter unlocked stops) =? 0); [unfold ret; eauto|].
  assert (Hlen : List.length (filter unlocked stops) <= fuel).
  { pose proof (filter_length_le unlocked stops). lia. }
  destruct (List.length (filter unlocked stops) <=? 8).
  - destruct (advancedOptimization_total loop vehicleType w Hstops Hlen)
      as (optimized & w1 & Hrun).
    rewrite (@bind_Ok _ _ _ _ _ _ _ Hrun). unfold ret. eauto.
  - destruct (nearestNeighborOptimization_returns loop Hstops Hlen) as [optimized Hrun].
    rewrite Hrun. cbn [lift_option]. unfold bind, ret. eauto.
Qed.

Lemma calculateRouteSegments_returns (stops : list Location) (vehicleType : VehicleType)
  (loop : bool) (w : World) :
  forallb has_coordinates stops = true ->
  exists segments w',
    calculateRouteSegments M E stops vehicleType loop w = (Ok segments, w').
Proof.
  intros Hcoords. rewrite forallb_forall in Hcoords.
  unfold calculateRouteSegments.
  match goal with
  | |- context [for_each ?l ?body ?s0] =>
      assert (Hloop : exists segs w1, for_each l body s0 w = (Ok segs, w1));
        [apply for_each_returns | destruct Hloop as (segs & w1 & Hloop)]
  end.
  - intros segs i w0 Hi. apply in_seq in Hi.
    destruct (@at_index_returns _ stops i w0) as (from & Hnf & Hfrom); [lia|].
    rewrite (@bind_Ok _ _ _ _ _ _ _ Hfrom).
    destruct (@at_index_returns _ stops (i + 1) w0) as (to & Hnt & Hto); [lia|].
    rewrite (@bind_Ok _ _ _ _ _ _ _ Hto).
    destruct (@calculateSegment_returns from to vehicleType w0) as (segment & w2 & Hrun).
    + apply Hcoords. now apply nth_error_In in Hnf.
    + apply Hcoords. now apply nth_error_In in Hnt.
    + rewrite (@bind_Ok _ _ _ _ _ _ _ Hrun). unfold ret. eauto.
  - rewrite (@bind_Ok _ _ _ _ _ _ _ Hloop).
    destruct (loop && (2 <? List.length stops)) eqn:Hback; [|unfold ret; eauto].
    apply andb_prop in Hback. destruct Hback as [_ Hback]. apply Nat.ltb_lt in Hback.
    destruct (@at_index_returns _ stops (List.length stops - 1) w1) as (from & Hnf & Hfrom);
      [lia|].
    rewrite (@bind_Ok _ _ _ _ _ _ _ Hfrom).
    destruct (@at_index_returns _ stops 0 w1) as (to & Hnt & Hto); [lia|].
    rewrite (@bind_Ok _ _ _ _ _ _ _ Hto).
    destruct (@calculateSegment_returns from to vehicleType w1) as (segment & w2 & Hrun).
    + apply Hcoords. now apply nth_error_In in Hnf.
    + apply Hcoords. now apply nth_error_In in Hnt.
    + rewrite (@bind_Ok _ _ _ _ _ _ _ Hrun). unfold ret. eauto.
Qed.

End Returns.

(** C10, as the code has it.  [optimizeLocationOrder] returns when its
    unlocked stops are orderable and it may run as many rounds as there
    are stops.  Whenever it returns: if the stop identifiers are
    pairwise distinct and every locked stop carries a position index of
    its own among [0 .. n-1], the output holds every input stop exactly
    once; with at least three stops of which one is unlocked, a locked
    stop whose position index is missing, negative or not below the
    number of stops is not in the output; with at most two stops, or
    all stops locked, no stop is left out, whatever the position
    indices. *)
Theorem optimizeLocationOrder_merge
  (M : MathImpl) (E : Env) (fuel : nat) (stops : list Location)
  (method : OptimizationMethod) (loop : bool) (vehicle : VehicleType) (w : World) :
  (orderable M method (filter unlocked stops) ->
   List.length stops <= fuel ->
   exists output after w',
     optimizeLocationOrder M E fuel stops method loop vehicle w
     = (Ok (output, after), w')) /\
  (forall (output after : list Location) (w' : World),
     optimizeLocationOrder M E fuel stops method loop vehicle w
     = (Ok (output, after), w') ->
     (NoDup (map id stops) -> well_placed stops -> Permutation stops output) /\
     (3 <= List.length stops ->
      existsb unlocked stops = true ->
      forall x, In x stops -> locked x = true ->
                MergeFacts.in_range (List.length stops) x = false ->
                ~ In x output) /\
     (List.length stops <= 2 \/ forallb locked stops = true -> Permutation stops output)).
Proof.
  split; [apply optimizeLocationOrder_total|].
  intros output after w' Hrun.
  unfold optimizeLocationOrder in Hrun.
  destruct (List.length stops <=? 2) eqn:Hlen.
  - apply Nat.leb_le in Hlen. unfold ret in Hrun. injection Hrun as <- <- <-.
    split; [intros _ _; apply Permutation_refl|].
    split; [intros H; lia | intros _; apply Permutation_refl].
  - apply Nat.leb_gt in Hlen.
    destruct (List.length (filter (fun loc => negb (locked loc)) stops) =? 0) eqn:Hunlocked.
    + (* every stop is locked *)
      unfold ret in Hrun. injection Hrun as <- <- <-.
      assert (Hnone : forall x, In x stops -> locked x = true).
      { intros x Hx. destruct (locked x) eqn:Hl; [reflexivity|].
        apply Nat.eqb_eq, length_zero_iff_nil in Hunlocked.
        assert (Hin : In x (filter (fun loc => negb (locked loc)) stops))
          by (apply filter_In; split; [exact Hx | now rewrite Hl]).
        rewrite Hunlocked in Hin. destruct Hin. }
      split; [intros _ _; apply SortFacts.sort_perm|].
      split; [|intros _; apply SortFacts.sort_perm].
      intros _ Hsome. exfalso.
      apply existsb_exists in Hsome. destruct Hsome as (x & Hx & Hu).
      unfold unlocked in Hu. rewrite (Hnone x Hx) in Hu. discriminate.
    + (* the merge *)
      apply bind_Ok_inv in Hrun. destruct Hrun as (optimized & w1 & Hopt & Hret).
      unfold ret in Hret. injection Hret as <- <- <-.
      apply optimized_returns in Hopt; [|now apply filter_not_empty].
      destruct Hopt as (Hincl & _ & Hperm).
      split; [|split].
      * intros Hids [Hrange Hdistinct].
        specialize (Hperm (NoDup_map_filter id _ stops Hids)).
        eapply perm_trans; [apply (filter_partition_perm locked)|].
        eapply perm_trans; [apply Permutation_app_head; exact Hperm|].
        apply MergeFacts.mergeLocked_perm; [exact Hrange | exact Hdistinct|].
        rewrite <- (Permutation_length Hperm). apply filter_length.
      * intros _ _ x Hx Hlocked Hout Hin.
        apply MergeFacts.mergeLocked_origin in Hin.
        destruct Hin as [[_ Hr]|Hin]; [congruence|].
        apply Hincl in Hin. apply filter_In in Hin. destruct Hin as [_ Hu].
        rewrite Hlocked in Hu. discriminate.
      * intros [H|Hall]; [lia|]. exfalso.
        rewrite (all_locked_no_unlocked stops Hall) in Hunlocked. discriminate.
Qed.

(** Distinct strings of a list written out. *)
Ltac distinct_strings :=
  repeat (constructor; [simpl; intuition discriminate|]); constructor.

(** Four stops in a loop, the first locked at position 0 (the kite). *)
Definition depot_and_three : list Location :=
  [locked_stop "S" 48.60 2.35 (Some 0%Z); stop "A" 48.86 2.30;
   stop "B" 49.10 2.36; stop "C" 48.85 2.41].

Definition depot_and_three_output : list Location :=
  [locked_stop "S" 48.60 2.35 (Some 0%Z); stop "A" 48.86 2.30;
   stop "C" 48.85 2.41; stop "B" 49.10 2.36].

Lemma optimizeLocationOrder_merge_witness :
  (exists output after w',
     optimizeLocationOrder PolyMath.impl offline 4 depot_and_three
       shortest_distance true car initial_world
     = (Ok (output, after), w')) /\
  Permutation depot_and_three depot_and_three_output.
Proof.
  destruct (optimizeLocationOrder_merge PolyMath.impl offline 4 depot_and_three
              shortest_distance true car initial_world) as [Htotal Hpartial].
  split.
  - apply Htotal; [|simpl; lia].
    split; [reflexivity|]. split; [distinct_strings|].
    split; vm_compute; reflexivity.
  - destruct (Hpartial depot_and_three_output depot_and_three
                (snd (optimizeLocationOrder PolyMath.impl offline 4 depot_and_three
                        shortest_distance true car initial_world)))
      as (Hperm & _ & _); [vm_compute; reflexivity|].
    apply Hperm; [distinct_strings|].
    split; [reflexivity|]. simpl. repeat constructor. intros [].
Defined.

(** The same with the lock of S on no position: S is left out. *)
Definition unplaced_depot_and_three : list Location :=
  [locked_stop "S" 48.60 2.35 None; stop "A" 48.86 2.30;
   stop "B" 49.10 2.36; stop "C" 48.85 2.41].

Example unplaced_locked_stop_omitted :
  match fst (optimizeLocationOrder PolyMath.impl offline 4 unplaced_depot_and_three
               shortest_distance false car initial_world) with
  | Ok (output, _) => map id output
  | _ => []
  end = ["B"; "A"; "C"].
Proof. vm_compute. reflexivity. Qed.

(** C10, against "silently omitted": a locked stop without a position
    index is kept when the request has two stops, and when all of its
    three stops are locked. *)
Lemma locked_stop_without_position_kept :
  (exists output,
     fst (optimizeLocationOrder PolyMath.impl offline 4
            [stop "A" 48.86 2.30; locked_stop "S" 48.60 2.35 None]
            shortest_distance false car initial_world)
     = Ok (output, output) /\
     map id output = ["A"; "S"] /\
     In (locked_stop "S" 48.60 2.35 None) output) /\
  (exists output,
     fst (optimizeLocationOrder PolyMath.impl offline 4
            [locked_stop "A" 48.86 2.30 (Some 1%Z); locked_stop "S" 48.60 2.35 None;
             locked_stop "B" 49.10 2.36 (Some 7%Z)]
            shortest_distance false car initial_world)
     = Ok (output, output) /\
     map id output = ["S"; "A"; "B"] /\
     In (locked_stop "S" 48.60 2.35 None) output /\
     In (locked_stop "B" 49.10 2.36 (Some 7%Z)) output).
Proof.
  split.
  - eexists. split; [reflexivity|]. split; [reflexivity|]. right. now left.
  - eexists. split; [reflexivity|]. split; [reflexivity|].
    split; [now left | right; right; now left].
Qed.

(* ------------------------------------------------------------------ *)
(** ** What the service leaves of the route cache *)

(** A computation that leaves the route cache as it found it, however
    it ends. *)
Definition keeps_routes {A : Type} (c : Comp A) : Prop :=
  forall w, routeCache (snd (c w)) = routeCache w.

Module Frame.

Lemma keeps_ret {A : Type} (a : A) : keeps_routes (ret a).
Proof. intros w. reflexivity. Qed.

Lemma keeps_throw {A : Type} (message : string) : keeps_routes (@throw A message).
Proof. intros w. reflexivity. Qed.

Lemma keeps_pending {A : Type} : keeps_routes (@pending A).
Proof. intros w. reflexivity. Qed.

Lemma keeps_bind {A B : Type} (c : Comp A) (k : A -> Comp B) :
  keeps_routes c -> (forall a, keeps_routes (k a)) -> keeps_routes (bind c k).
Proof.
  intros Hc Hk w. unfold bind. specialize (Hc w).
  destruct (c w) as [[a|message|] w1]; cbn [snd] in *; [|exact Hc|exact Hc].
  now rewrite Hk.
Qed.

Lemma keeps_try_catch {A : Type} (c : Comp A) (handler : string -> Comp A) :
  keeps_routes c -> (forall message, keeps_routes (handler message)) ->
  keeps_routes (try_catch c handler).
Proof.
  intros Hc Hh w. unfold try_catch. specialize (Hc w).
  destruct (c w) as [[a|message|] w1]; cbn [snd] in *; [exact Hc| |exact Hc].
  now rewrite Hh.
Qed.

Lemma keeps_update (f : World -> World) :
  (forall w, routeCache (f w) = routeCache w) -> keeps_routes (update f).
Proof. intros Hf w. apply Hf. Qed.

Lemma keeps_get_world : keeps_routes get_world.
Proof. intros w. reflexivity. Qed.

Lemma keeps_lift_option {A : Type} (o : option A) : keeps_routes (lift_option o).
Proof. destruct o; intros w; reflexivity. Qed.

Lemma keeps_at_index {A : Type} (l : list A) (i : nat) :
  keeps_routes (at_index l i).
Proof. unfold at_index. destruct (nth_error l i); intros w; reflexivity. Qed.

Lemma keeps_for_each {A S : Type} (l : list A) (body : S -> A -> Comp S) :
  (forall s x, keeps_routes (body s x)) -> forall s, keeps_routes (for_each l body s).
Proof.
  intros Hbody. induction l as [|x l IH]; intros s; cbn [for_each].
  - apply keeps_ret.
  - apply keeps_bind; [apply Hbody | exact IH].
Qed.

Lemma keeps_Date_now (E : Env) : keeps_routes (Date_now_ E).
Proof. intros w. reflexivity. Qed.

Lemma keeps_fetch_ORS (E : Env) (from to : Location) : keeps_routes (fetch_ORS E from to).
Proof. intros w. reflexivity. Qed.

Lemma keeps_fetch_OSRM (E : Env) (from to : Location) : keeps_routes (fetch_OSRM E from to).
Proof. intros w. reflexivity. Qed.

Lemma keeps_cacheSegment (key : string) (segment : RouteSegment) :
  keeps_routes (cacheSegment key segment).
Proof. intros w. rewrite cacheSegment_spec. reflexivity. Qed.

Lemma keeps_clearSegmentCache : keeps_routes clearSegmentCache.
Proof. intros w. reflexivity. Qed.

Ltac step :=
  first
    [ apply keeps_ret | apply keeps_throw | apply keeps_pending
    | apply keeps_get_world | apply keeps_lift_option | apply keeps_at_index
    | apply keeps_Date_now | apply keeps_fetch_ORS | apply keeps_fetch_OSRM
    | apply keeps_cacheSegment | apply keeps_clearSegmentCache
    | apply keeps_bind | apply keeps_try_catch | apply keeps_for_each
    | match goal with
      | |- keeps_routes (match ?x with _ => _ end) => destruct x
      | |- forall _, _ => intro
      end ].

Section Service.

Context (M : MathImpl) (E : Env).

Lemma keeps_calculateSegment (from to : Location) (vehicleType : VehicleType) :
  keeps_routes (calculateSegment M E from to vehicleType).
Proof.
  unfold calculateSegment, calculateSegmentWithORS. cbv zeta. repeat step.
Qed.

Lemma keeps_calculateRouteSegments (stops : list Location) (vehicleType : VehicleType)
  (loop : bool) :
  keeps_routes (calculateRouteSegments M E stops vehicleType loop).
Proof.
  unfold calculateRouteSegments. repeat (step || apply keeps_calculateSegment).
Qed.

Lemma keeps_calculateOrderScore (stops : list Location) (method : OptimizationMethod)
  (loop : bool) (vehicleType : VehicleType) :
  keeps_routes (calculateOrderScore M E stops method loop vehicleType).
Proof.
  unfold calculateOrderScore. cbv zeta. repeat (step || apply keeps_calculateSegment).
Qed.

Lemma keeps_advancedOptimization (fuel : nat) (stops : list Location)
  (method : OptimizationMethod) (loop : bool) (vehicleType : VehicleType) :
  keeps_routes (advancedOptimization M E fuel stops method loop vehicleType).
Proof.
  unfold advancedOptimization. cbv zeta. repeat (step || apply keeps_calculateOrderScore).
Qed.

Lemma keeps_optimizeLocationOrder (fuel : nat) (stops : list Location)
  (method : OptimizationMethod) (loop : bool) (vehicleType : VehicleType) :
  keeps_routes (optimizeLocationOrder M E fuel stops method loop vehicleType).
Proof.
  unfold optimizeLocationOrder. cbv zeta. repeat (step || apply keeps_advancedOptimization).
Qed.

Lemma keeps_generateRouteId : keeps_routes (generateRouteId E).
Proof.
  unfold generateRouteId. apply keeps_bind; [apply keeps_Date_now|].
  intros now w. reflexivity.
Qed.

End Service.

End Frame.

Lemma keeps_run {A : Type} (c : Comp A) (w w' : World) (r : Outcome A) :
  keeps_routes c -> c w = (r, w') -> routeCache w' = routeCache w.
Proof. intros Hc Hrun. specialize (Hc w). now rewrite Hrun in Hc. Qed.

(* ------------------------------------------------------------------ *)
(** ** The orchestrator: the route returned *)

(** The invariant of a route: one segment between consecutive stops,
    one more back to the first stop in a loop of at least three stops,
    and totals that are the sums, in order, over these segments. *)
Definition route_invariant (r : Route) : Prop :=
  (route_isLoop r = false ->
   List.length (route_locations r) = S (List.length (segments r))) /\
  (route_isLoop r = true -> 3 <= List.length (route_locations r) ->
   List.length (segments r) = List.length (route_locations r)) /\
  totalDistance r
  = fold_left (fun sum seg => (sum + distance seg)%float) (segments r) 0%float /\
  totalDuration r
  = fold_left (fun sum seg => (sum + duration seg)%float) (segments r) 0%float.

Lemma for_each_count {A B : Type} (l : list A) (body : list B -> A -> Comp (list B)) :
  (forall s x w s' w', body s x w = (Ok s', w') -> List.length s' = S (List.length s)) ->
  forall s w s' w',
    for_each l body s w = (Ok s', w') ->
    List.length s' = List.length s + List.length l.
Proof.
  intros Hbody. induction l as [|x l IH]; intros s w s' w'; cbn [for_each].
  - unfold ret. intros [= <- _]. simpl. lia.
  - intros Hrun. apply bind_Ok_inv in Hrun. destruct Hrun as (s1 & w1 & Hx & Hrest).
    apply IH in Hrest. apply Hbody in Hx. simpl. lia.
Qed.

Section RouteReturned.

Context (M : MathImpl) (E : Env).

Lemma calculateRouteSegments_length (stops : list Location) (vehicleType : VehicleType)
  (loop : bool) (w w' : World) (segs : list RouteSegment) :
  calculateRouteSegments M E stops vehicleType loop w = (Ok segs, w') ->
  List.length segs
  = List.length stops - 1 + (if loop && (2 <? List.length stops) then 1 else 0).
Proof.
  unfold calculateRouteSegments. intros Hrun.
  apply bind_Ok_inv in Hrun. destruct Hrun as (segs0 & w1 & Hloop & Hrest).
  apply for_each_count in Hloop.
  - rewrite length_seq in Hloop. cbn [List.length] in Hloop.
    destruct (loop && (2 <? List.length stops)).
    + apply bind_Ok_inv in Hrest. destruct Hrest as (from & w2 & _ & Hrest).
      apply bind_Ok_inv in Hrest. destruct Hrest as (to & w3 & _ & Hrest).
      apply bind_Ok_inv in Hrest. destruct Hrest as (returnSegment & w4 & _ & Hrest).
      unfold ret in Hrest. injection Hrest as <- _.
      rewrite length_app. simpl. lia.
    + unfold ret in Hrest. injection Hrest as <- _. lia.
  - intros s i w0 s' w0' Hbody.
    apply bind_Ok_inv in Hbody. destruct Hbody as (from & w2 & _ & Hbody).
    apply bind_Ok_inv in Hbody. destruct Hbody as (to & w3 & _ & Hbody).
    apply bind_Ok_inv in Hbody. destruct Hbody as (segment & w4 & _ & Hbody).
    unfold ret in Hbody. injection Hbody as <- _.
    rewrite length_app. simpl. lia.
Qed.

(** The order returned is not empty, and the argument array holds the
    same stops afterwards. *)
Lemma optimizeLocationOrder_returns (fuel : nat) (stops : list Location)
  (method : OptimizationMethod) (loop : bool) (vehicle : VehicleType)
  (w w' : World) (output after : list Location) :
  stops <> [] ->
  optimizeLocationOrder M E fuel stops method loop vehicle w = (Ok (output, after), w') ->
  output <> [] /\ Permutation stops after.
Proof.
  intros Hne. unfold optimizeLocationOrder.
  destruct (List.length stops <=? 2) eqn:Hlen.
  - unfold ret. intros [= <- <- _]. split; [exact Hne | apply Permutation_refl].
  - destruct (List.length (filter (fun loc => negb (locked loc)) stops) =? 0) eqn:Hunlocked.
    + unfold ret. intros [= <- <- _].
      pose proof (SortFacts.sort_perm compareOrder stops) as Hperm.
      split; [|exact Hperm].
      intros Hnil. rewrite Hnil in Hperm.
      apply Permutation_sym, Permutation_nil in Hperm. contradiction.
    + intros Hrun. apply bind_Ok_inv in Hrun.
      destruct Hrun as (optimized & w1 & Hopt & Hret).
      unfold ret in Hret. injection Hret as <- <- _.
      apply optimized_returns in Hopt; [|now apply filter_not_empty].
      destruct Hopt as (_ & Hopt & _).
      split; [|apply Permutation_refl].
      apply MergeFacts.mergeLocked_not_empty; [|exact Hopt].
      apply Nat.leb_gt in Hlen. lia.
Qed.

Lemma getCachedRoute_run (request : RouteOptimizationRequest) (w : World) :
  exists cachedRoute w1,
    getCachedRoute E request w = (Ok cachedRoute, w1) /\
    routeCache w1
    = filter (fun entry => negb (expired (Date_now E (ticks w)) entry)) (routeCache w) /\
    (forall r, cachedRoute = Some r ->
       exists e, JsMap.get (generateRouteKey request) (routeCache w1) = Some e /\
                 cached_route e = r) /\
    (JsMap.get (generateRouteKey request) (routeCache w1) = None -> cachedRoute = None).
Proof.
  set (cache := filter (fun entry => negb (expired (Date_now E (ticks w)) entry))
                  (routeCache w)).
  assert (Hrun : getCachedRoute E request w
                 = match JsMap.get (generateRouteKey request) cache with
                   | Some cached =>
                       (Ok (if (Date_now E (S (ticks w)) - timestamp cached
                                <? ROUTE_CACHE_DURATION)%Z
                            then Some (cached_route cached) else None),
                        tick (set_routeCache cache (tick w)))
                   | None => (Ok None, set_routeCache cache (tick w))
                   end).
  { unfold getCachedRoute, cleanRouteCache, bind, Date_now_, update, get_world.
    cbn [routeCache set_routeCache tick ticks]. fold cache.
    destruct (JsMap.get _ cache) as [cached|]; [|reflexivity].
    cbn [ticks set_routeCache tick].
    destruct (_ <? _)%Z; reflexivity. }
  rewrite Hrun.
  destruct (JsMap.get (generateRouteKey request) cache) as [cached|] eqn:Hget.
  - eexists _, _. split; [reflexivity|]. cbn [routeCache tick set_routeCache].
    split; [reflexivity|]. rewrite Hget. split; [|discriminate].
    intros r Hr. exists cached. split; [reflexivity|].
    destruct (_ <? _)%Z; [now injection Hr | discriminate].
  - eexists _, _. split; [reflexivity|]. cbn [routeCache tick set_routeCache].
    split; [reflexivity|]. split; [discriminate | reflexivity].
Qed.

Lemma In_set (k k0 : string) (e e0 : CacheEntry) (m : JsMap.t CacheEntry) :
  In (k, e) (JsMap.set k0 e0 m) -> (k, e) = (k0, e0) \/ In (k, e) m.
Proof.
  induction m as [|[k1 e1] m IH]; simpl.
  - intros [H|[]]. left. now symmetry.
  - destruct (String.eqb k1 k0).
    + intros [H|H]; [left; now symmetry | right; now right].
    + intros [H|H]; [right; now left|].
      destruct (IH H) as [H'|H']; [now left | right; now right].
Qed.

Lemma In_delete (k k0 : string) (e : CacheEntry) (m : JsMap.t CacheEntry) :
  In (k, e) (JsMap.delete k0 m) -> In (k, e) m.
Proof.
  induction m as [|[k1 e1] m IH]; simpl; [tauto|].
  destruct (String.eqb k1 k0); [now right|].
  intros [H|H]; [now left | right; now apply IH].
Qed.

Lemma In_stored (request : RouteOptimizationRequest) (r : Route) (now : Z)
  (cache : JsMap.t CacheEntry) (k : string) (e : CacheEntry) :
  In (k, e) (stored request r now cache) ->
  (k = generateRouteKey request /\ cached_route e = r) \/ In (k, e) cache.
Proof.
  unfold stored.
  assert (Hset : In (k, e)
                   (JsMap.set (generateRouteKey request)
                      {| cached_route := r; timestamp := now |} cache) ->
                 (k = generateRouteKey request /\ cached_route e = r) \/ In (k, e) cache).
  { intros H. apply In_set in H. destruct H as [[= -> ->]|H]; [left; now split | now right]. }
  destruct (50 <? JsMap.size _); [|exact Hset].
  destruct (JsArray.sort _ _) as [|[oldestKey e0] rest]; [exact Hset|].
  intros H. apply In_delete in H. now apply Hset.
Qed.

End RouteReturned.

(** A request the orchestrator accepts. *)
Definition accepted (request : RouteOptimizationRequest) : Prop :=
  forallb has_coordinates (locations request) = true /\
  2 <= List.length (locations request).

Lemma no_missing_coordinates (stops : list Location) :
  (0 <? List.length (filter (fun loc => negb (has_coordinates loc)) stops)) = false ->
  forallb has_coordinates stops = true.
Proof.
  intros H. apply Nat.ltb_ge in H.
  assert (Hnil : filter (fun loc => negb (has_coordinates loc)) stops = [])
    by (apply length_zero_iff_nil; lia).
  apply forallb_forall. intros x Hx.
  destruct (has_coordinates x) eqn:Hc; [reflexivity|].
  assert (Hin : In x (filter (fun loc => negb (has_coordinates loc)) stops))
    by (apply filter_In; split; [exact Hx | now rewrite Hc]).
  rewrite Hnil in Hin. destruct Hin.
Qed.

Section RouteComputed.

Context (M : MathImpl) (E : Env).

(** How [calculateRoute] returns: from the cache, or after it
    sequenced the stops of an accepted request, resolved the segments
    and stored the route it built. *)
Lemma calculateRoute_Ok_inv (fuel : nat) (request : RouteOptimizationRequest)
  (w w' : World) (response : RouteOptimizationResponse) :
  calculateRoute M E fuel request w = (Ok response, w') ->
  let cleaned :=
    filter (fun entry => negb (expired (Date_now E (S (ticks w))) entry)) (routeCache w) in
  (exists e,
     In (generateRouteKey request, e) cleaned /\
     route response = cached_route e /\
     routeCache w' = cleaned) \/
  (accepted request /\
   exists optimized after segs now w2 w3 w4,
     optimizeLocationOrder M E fuel (locations request) (optimizationMethod request)
       (isLoop request) (vehicleType request) w2 = (Ok (optimized, after), w3) /\
     calculateRouteSegments M E optimized (vehicleType request) (isLoop request) w3
     = (Ok segs, w4) /\
     route_locations (route response) = optimized /\
     segments (route response) = segs /\
     route_isLoop (route response) = isLoop request /\
     totalDistance (route response) = sum_by distance segs /\
     totalDuration (route response) = sum_by duration segs /\
     routeCache w'
     = stored (with_locations request after) (route response) now cleaned).
Proof.
  unfold calculateRoute. intros Hrun. cbv zeta.
  apply bind_Ok_inv in Hrun. destruct Hrun as (startTime & w0 & Hstart & Hrun).
  unfold Date_now_ in Hstart. injection Hstart as <- <-.
  apply bind_Ok_inv in Hrun. destruct Hrun as (cachedRoute & w1 & Hget & Hrun).
  destruct (getCachedRoute_run E request (tick w)) as (c' & w1' & Hget' & Hcache & Hhit & _).
  rewrite Hget in Hget'. injection Hget' as <- <-.
  cbn [ticks tick routeCache] in Hcache.
  destruct cachedRoute as [cachedRoute|].
  - (* the cache answered *)
    left. destruct (Hhit cachedRoute eq_refl) as (e & He & Hr).
    apply bind_Ok_inv in Hrun. destruct Hrun as (now & w2 & Hnow & Hret).
    unfold Date_now_ in Hnow. injection Hnow as <- <-.
    unfold ret in Hret. injection Hret as <- <-.
    exists e. rewrite <- Hcache. split; [now apply JsMapFacts.get_In|].
    split; [now symmetry | reflexivity].
  - (* the route is computed *)
    right.
    apply bind_Ok_inv in Hrun. destruct Hrun as ([] & w2 & Hclear & Hrun).
    pose proof (@keeps_run _ _ _ _ _ Frame.keeps_clearSegmentCache Hclear) as Hk2.
    apply try_catch_Ok_inv in Hrun.
    destruct Hrun as [Hrun|(message & w3 & _ & Hthrow)]; [|discriminate Hthrow].
    destruct (0 <? List.length (filter _ (locations request))) eqn:Hmissing;
      [discriminate Hrun|].
    destruct (List.length (locations request) <? 2) eqn:Hfew; [discriminate Hrun|].
    split.
    { split; [now apply no_missing_coordinates | apply Nat.ltb_ge in Hfew; exact Hfew]. }
    apply bind_Ok_inv in Hrun. destruct Hrun as ([optimized after] & w3 & Hopt & Hrun).
    pose proof (@keeps_run _ _ _ _ _ (@Frame.keeps_optimizeLocationOrder M E _ _ _ _ _) Hopt) as Hk3.
    apply bind_Ok_inv in Hrun. destruct Hrun as (segs & w4 & Hsegs & Hrun).
    pose proof (@keeps_run _ _ _ _ _ (@Frame.keeps_calculateRouteSegments M E _ _ _) Hsegs) as Hk4.
    apply bind_Ok_inv in Hrun. destruct Hrun as (routeId & w5 & Hid & Hrun).
    pose proof (@keeps_run _ _ _ _ _ (@Frame.keeps_generateRouteId E) Hid) as Hk5.
    apply bind_Ok_inv in Hrun. destruct Hrun as ([] & w6 & Hset & Hrun).
    apply bind_Ok_inv in Hrun. destruct Hrun as (now & w7 & Hnow & Hret).
    unfold Date_now_ in Hnow. injection Hnow as <- <-.
    unfold ret in Hret. injection Hret as <- <-.
    cbn [fst snd] in *.
    exists optimized, after, segs, (Date_now E (ticks w5)), w2, w3, w4.
    split; [exact Hopt|]. split; [exact Hsegs|].
    cbn [route route_locations segments route_isLoop totalDistance totalDuration].
    repeat (split; [reflexivity|]).
    cbn [routeCache tick].
    pose proof (setCachedRoute_spec E (with_locations request after)
                  {| route_id := routeId; route_locations := optimized;
                     totalDistance := sum_by distance segs;
                     totalDuration := sum_by duration segs;
                     route_vehicleType := vehicleType request;
                     route_isLoop := isLoop request;
                     segments := segs;
                     route_optimizationMethod := optimizationMethod request |} w5) as Hspec.
    rewrite Hset in Hspec. cbn [snd] in Hspec. rewrite Hspec.
    cbn [routeCache set_routeCache]. rewrite Hk5, Hk4, Hk3, Hk2, Hcache. reflexivity.
Qed.

End RouteComputed.

Lemma try_catch_Ok {A : Type} (c : Comp A) (handler : string -> Comp A)
  (w w' : World) (a : A) :
  c w = (Ok a, w') -> try_catch c handler w = (Ok a, w').
Proof. unfold try_catch. now intros ->. Qed.

Lemma sort_not_empty {A : Type} (compareFn : A -> A -> Z) (l : list A) :
  l <> [] -> JsArray.sort compareFn l <> [].
Proof.
  intros Hne Hnil. pose proof (SortFacts.sort_perm compareFn l) as Hperm.
  rewrite Hnil in Hperm. apply Permutation_sym, Permutation_nil in Hperm. contradiction.
Qed.

Lemma setCachedRoute_returns (E : Env) (request : RouteOptimizationRequest)
  (route : Route) (w : World) :
  exists w', setCachedRoute E request route w = (Ok tt, w').
Proof.
  unfold setCachedRoute, bind, Date_now_, update, get_world.
  cbn [routeCache set_routeCache tick].
  destruct (50 <? JsMap.size _) eqn:Hfull; [|unfold ret; eauto].
  unfold JsMap.entries.
  match goal with
  | |- context [JsArray.sort ?f ?l] =>
      pose proof (@sort_not_empty _ f l) as Hsort;
      destruct (JsArray.sort f l) as [|[oldestKey e] rest]
  end.
  - exfalso. apply Hsort; [|reflexivity].
    intros Hnil. rewrite Hnil in Hfull. discriminate Hfull.
  - eauto.
Qed.

Section RouteTotal.

Context (M : MathImpl) (E : Env).

(** The stops of the order returned are stops of the input. *)
Lemma optimizeLocationOrder_incl (fuel : nat) (stops : list Location)
  (method : OptimizationMethod) (loop : bool) (vehicle : VehicleType)
  (w w' : World) (output after : list Location) :
  optimizeLocationOrder M E fuel stops method loop vehicle w = (Ok (output, after), w') ->
  incl output stops.
Proof.
  unfold optimizeLocationOrder.
  destruct (List.length stops <=? 2); [unfold ret; intros [= <- _ _]; apply incl_refl|].
  destruct (List.length (filter (fun loc => negb (locked loc)) stops) =? 0) eqn:Hunlocked.
  - unfold ret. intros [= <- _ _] x Hx.
    apply (Permutation_in x (Permutation_sym (SortFacts.sort_perm compareOrder stops)) Hx).
  - intros Hrun. apply bind_Ok_inv in Hrun.
    destruct Hrun as (optimized & w1 & Hopt & Hret).
    unfold ret in Hret. injection Hret as <- _ _.
    apply optimized_returns in Hopt; [|now apply filter_not_empty].
    destruct Hopt as (Hincl & _ & _).
    intros x Hx. apply MergeFacts.mergeLocked_origin in Hx.
    destruct Hx as [[Hx _]|Hx].
    + apply filter_In in Hx. tauto.
    + apply Hincl in Hx. apply filter_In in Hx. tauto.
Qed.

(** [calculateRoute] returns a response for an accepted request whose
    unlocked stops are orderable, when it may run as many rounds as
    there are stops. *)
Lemma calculateRoute_returns (fuel : nat) (request : RouteOptimizationRequest)
  (w : World) :
  accepted request ->
  orderable M (optimizationMethod request) (filter unlocked (locations request)) ->
  List.length (locations request) <= fuel ->
  exists response w', calculateRoute M E fuel request w = (Ok response, w').
Proof.
  intros [Hcoords Hlen] Hstops Hfuel.
  unfold calculateRoute.
  unfold bind at 1. unfold Date_now_ at 1. cbv beta iota.
  destruct (getCachedRoute_run E request (tick w)) as (cachedRoute & w1 & Hget & _).
  unfold bind at 1. rewrite Hget. cbv beta iota.
  destruct cachedRoute as [cachedRoute|].
  - unfold bind, Date_now_, ret. eauto.
  - unfold bind at 1. unfold clearSegmentCache at 1, update at 1. cbv beta iota zeta.
    assert (Hmissing : (0 <? List.length (filter (fun loc => negb (has_coordinates loc))
                                            (locations request))) = false).
    { rewrite filter_none; [reflexivity|].
      intros x Hx. rewrite forallb_forall in Hcoords. now rewrite (Hcoords x Hx). }
    rewrite Hmissing.
    replace (List.length (locations request) <? 2) with false
      by (symmetry; apply Nat.ltb_ge; exact Hlen).
    match goal with
    | |- exists response w', try_catch ?body ?handler ?w0 = _ =>
        assert (Hbody : exists response w', body w0 = (Ok response, w'));
          [|destruct Hbody as (response & w' & Hbody);
            exists response, w'; apply try_catch_Ok; exact Hbody]
    end.
    set (w2 := set_segmentCache JsMap.empty w1).
    destruct (@optimizeLocationOrder_total M E fuel (locations request)
                (optimizationMethod request) (isLoop request) (vehicleType request) w2
                Hstops Hfuel) as (output & after & w3 & Hopt).
    rewrite (@bind_Ok _ _ _ _ _ _ _ Hopt). cbn [fst snd].
    assert (Houtput : forallb has_coordinates output = true).
    { apply forallb_forall. intros x Hx.
      rewrite forallb_forall in Hcoords. apply Hcoords.
      eapply optimizeLocationOrder_incl; [exact Hopt | exact Hx]. }
    destruct (@calculateRouteSegments_returns M E output (vehicleType request)
                (isLoop request) w3 Houtput) as (segs & w4 & Hsegs).
    rewrite (@bind_Ok _ _ _ _ _ _ _ Hsegs).
    assert (Hid : exists routeId w5, generateRouteId E w4 = (Ok routeId, w5))
      by (unfold generateRouteId, bind, Date_now_; eauto).
    destruct Hid as (routeId & w5 & Hid).
    rewrite (@bind_Ok _ _ _ _ _ _ _ Hid).
    match goal with
    | |- context [setCachedRoute E ?r ?route] =>
        destruct (setCachedRoute_returns E r route w5) as (w6 & Hset)
    end.
    rewrite (@bind_Ok _ _ _ _ _ _ _ Hset).
    unfold bind, Date_now_, ret. eauto.
Qed.

End RouteTotal.


Definition paris_loop_request : RouteOptimizationRequest :=
  request_of kite car shortest_distance true.

Example paris_loop_route :
  match fst (calculateRoute PolyMath.impl offline 4 paris_loop_request initial_world) with
  | Ok response =>
      (map id (route_locations (route response)),
       List.length (segments (route response)),
       algorithm (metadata response))
  | _ => ([], 0, ""%string)
  end = (["S"; "A"; "B"; "C"], 4, "openstreetmap-free"%string).
Proof. vm_compute. reflexivity. Qed.

Example two_stops_route :
  match fst (calculateRoute PolyMath.impl offline 0 mock_request initial_world) with
  | Ok response =>
      (List.length (segments (route response)),
       map distance (segments (route response)),
       totalDistance (route response))
  | _ => (0, [], 0%float)
  end = (1, [1.1570046974814778%float], 1.1570046974814778%float).
Proof. vm_compute. reflexivity. Qed.

(* ------------------------------------------------------------------ *)
(** ** The characters of a fingerprint *)

Module CharFacts.

(** A character that is neither the underscore nor the letter u. *)
Definition plain (c : ascii) : bool :=
  negb (Ascii.eqb c "_") && negb (Ascii.eqb c "u").

Definition plain_string (s : string) : Prop := forallb plain (Str.chars s) = true.

Lemma plain_String (c : ascii) (s : string) :
  plain c = true -> plain_string s -> plain_string (String c s).
Proof. intros Hc Hs. unfold plain_string. simpl. now rewrite Hc. Qed.

Lemma plain_append (s t : string) :
  plain_string s -> plain_string t -> plain_string (s ++ t)%string.
Proof.
  unfold plain_string. rewrite KeyFacts.chars_append, forallb_app.
  intros -> ->. reflexivity.
Qed.

Lemma plain_digit (n : Z) : plain (JsNumber.digit_char (n mod 10)) = true.
Proof.
  unfold JsNumber.digit_char.
  pose proof (Z.mod_pos_bound n 10 ltac:(lia)) as Hbound.
  assert (Hk : Z.to_nat (n mod 10) < 10) by lia.
  destruct (Z.to_nat (n mod 10)) as [|[|[|[|[|[|[|[|[|[|k]]]]]]]]]];
    try reflexivity; lia.
Qed.

Lemma plain_decimal_digits (fuel : nat) :
  forall (n : Z) (acc : string),
    plain_string acc -> plain_string (JsNumber.decimal_digits fuel n acc).
Proof.
  induction fuel as [|fuel IH]; intros n acc Hacc; cbn [JsNumber.decimal_digits].
  - apply plain_String; [apply plain_digit | exact Hacc].
  - destruct (n <? 10)%Z.
    + apply plain_String; [apply plain_digit | exact Hacc].
    + apply IH. apply plain_String; [apply plain_digit | exact Hacc].
Qed.

Lemma plain_Z_to_decimal (n : Z) : plain_string (JsNumber.Z_to_decimal n).
Proof. apply plain_decimal_digits. reflexivity. Qed.

Lemma plain_zeros (k : nat) : plain_string (JsNumber.zeros k).
Proof.
  induction k as [|k IH]; [reflexivity|]. cbn [JsNumber.zeros].
  apply plain_String; [reflexivity | exact IH].
Qed.

Lemma plain_substring (s : string) :
  forall n m, plain_string s -> plain_string (substring n m s).
Proof.
  unfold plain_string.
  induction s as [|c s IH]; intros [|n] [|m] Hs; simpl in *; try reflexivity;
    apply andb_prop in Hs; destruct Hs as [Hc Hs].
  - rewrite Hc. now apply IH.
  - now apply IH.
  - now apply IH.
Qed.

Lemma plain_fixed_point (f : nat) (n : Z) : plain_string (JsNumber.fixed_point f n).
Proof.
  unfold JsNumber.fixed_point.
  destruct (f =? 0); [apply plain_Z_to_decimal|].
  set (m := if _ <=? f then _ else _).
  assert (Hm : plain_string m).
  { unfold m. destruct (_ <=? f).
    - apply plain_append; [apply plain_zeros | apply plain_Z_to_decimal].
    - apply plain_Z_to_decimal. }
  apply plain_append; [now apply plain_substring|].
  apply plain_append; [reflexivity | now apply plain_substring].
Qed.

Lemma plain_strip_zeros (l : list ascii) :
  forallb plain l = true -> forallb plain (JsNumber.strip_zeros l) = true.
Proof.
  induction l as [|c l IH]; [reflexivity|]. intros H.
  cbn [JsNumber.strip_zeros].
  destruct (Ascii.eqb c "0") eqn:Hc.
  - apply Ascii.eqb_eq in Hc. subst c. simpl in H. now apply IH.
  - destruct c as [[] [] [] [] [] [] [] []]; try exact H; discriminate Hc.
Qed.

Lemma forallb_rev {A : Type} (f : A -> bool) (l : list A) :
  forallb f l = true -> forallb f (rev l) = true.
Proof.
  rewrite !forallb_forall. intros H x Hx. apply H. now apply in_rev.
Qed.

Lemma plain_of_chars (l : list ascii) :
  forallb plain l = true -> plain_string (string_of_list_ascii l).
Proof.
  unfold plain_string, Str.chars. now rewrite list_ascii_of_string_of_list_ascii.
Qed.

Lemma plain_exponent_form (x : Z) : plain_string (JsNumber.exponent_form x).
Proof.
  unfold JsNumber.exponent_form.
  set (d := JsNumber.Z_to_decimal _).
  set (e := JsNumber.Z_to_decimal _).
  assert (He : plain_string ("e+" ++ e)%string)
    by (apply plain_append; [reflexivity | apply plain_Z_to_decimal]).
  assert (Hd : forallb plain (rev (JsNumber.strip_zeros (rev (Str.chars d)))) = true).
  { apply forallb_rev, plain_strip_zeros, forallb_rev. apply plain_Z_to_decimal. }
  destruct (rev (JsNumber.strip_zeros (rev (Str.chars d)))) as [|c [|c' rest]];
    [reflexivity| |].
  - simpl in Hd. apply andb_prop in Hd. apply plain_String; tauto.
  - cbn [forallb] in Hd. apply andb_prop in Hd. destruct Hd as [Hc Hrest].
    apply plain_String; [exact Hc|].
    apply plain_append; [reflexivity|].
    apply plain_append; [|exact He]. now apply plain_of_chars.
Qed.

(** [toFixed] prints neither an underscore nor the letter u. *)
Lemma plain_toFixed (f : nat) (x : float) : plain_string (JsNumber.toFixed f x).
Proof.
  unfold JsNumber.toFixed.
  destruct (Prim2SF x) as [s|s| |s m e].
  - apply plain_fixed_point.
  - destruct s; reflexivity.
  - reflexivity.
  - destruct (_ && _).
    + apply plain_append; [destruct s; reflexivity | apply plain_exponent_form].
    + apply plain_append; [destruct s; reflexivity | apply plain_fixed_point].
Qed.

Lemma count_append (c : ascii) (s t : string) :
  Str.count c (s ++ t)%string = Str.count c s + Str.count c t.
Proof.
  unfold Str.count. now rewrite KeyFacts.chars_append, filter_app, length_app.
Qed.

Lemma has_append (c : ascii) (s t : string) :
  Str.has c (s ++ t)%string = Str.has c s || Str.has c t.
Proof. unfold Str.has. now rewrite KeyFacts.chars_append, existsb_app. Qed.

Lemma plain_count (s : string) : plain_string s -> Str.count "_" s = 0.
Proof.
  unfold plain_string, Str.count. induction (Str.chars s) as [|c l IH]; [reflexivity|].
  cbn [forallb filter]. intros H. apply andb_prop in H. destruct H as [Hc Hl].
  unfold plain in Hc. apply andb_prop in Hc. destruct Hc as [Hc _].
  apply negb_true_iff in Hc. rewrite Ascii.eqb_sym in Hc. rewrite Hc. now apply IH.
Qed.

Lemma plain_has (s : string) : plain_string s -> Str.has "u" s = false.
Proof.
  unfold plain_string, Str.has. induction (Str.chars s) as [|c l IH]; [reflexivity|].
  cbn [forallb existsb]. intros H. apply andb_prop in H. destruct H as [Hc Hl].
  unfold plain in Hc. apply andb_prop in Hc. destruct Hc as [_ Hc].
  apply negb_true_iff in Hc. rewrite Ascii.eqb_sym in Hc. rewrite Hc. now apply IH.
Qed.

(** The key of a stop with coordinates: one underscore, no u. *)
Lemma locationKey_located (loc : Location) :
  has_coordinates loc = true ->
  Str.count "_" (locationKey loc) = 1 /\ Str.has "u" (locationKey loc) = false.
Proof.
  unfold has_coordinates, locationKey. destruct (coordinates loc) as [c|]; [|discriminate].
  intros _. rewrite !count_append, !has_append.
  rewrite (plain_count (plain_toFixed 4 (latitude c))).
  rewrite (plain_count (plain_toFixed 4 (longitude c))).
  rewrite (plain_has (plain_toFixed 4 (latitude c))).
  rewrite (plain_has (plain_toFixed 4 (longitude c))).
  split; reflexivity.
Qed.

Lemma locationKey_unlocated (loc : Location) :
  has_coordinates loc = false -> Str.has "u" (locationKey loc) = true.
Proof.
  unfold has_coordinates, locationKey. destruct (coordinates loc); [discriminate|].
  reflexivity.
Qed.

Lemma join_cons (sep x : string) (l : list string) :
  l <> [] -> Str.join sep (x :: l) = (x ++ sep ++ Str.join sep l)%string.
Proof. destruct l; [congruence | reflexivity]. Qed.

Lemma locationIds_located (stops : list Location) :
  forallb has_coordinates stops = true ->
  Str.count "_" (Str.join "-" (map locationKey stops)) = List.length stops /\
  Str.has "u" (Str.join "-" (map locationKey stops)) = false.
Proof.
  induction stops as [|x stops IH]; [split; reflexivity|].
  cbn [forallb map]. intros H. apply andb_prop in H. destruct H as [Hx Hstops].
  destruct (locationKey_located x Hx) as [Hcount Hhas].
  destruct stops as [|y stops].
  - cbn [map Str.join]. split; assumption.
  - destruct (IH Hstops) as [IHc IHh].
    rewrite join_cons by discriminate.
    rewrite !count_append, !has_append, Hcount, Hhas, IHc, IHh. split; reflexivity.
Qed.

Lemma locationIds_unlocated (stops : list Location) :
  forallb has_coordinates stops = false ->
  Str.has "u" (Str.join "-" (map locationKey stops)) = true.
Proof.
  induction stops as [|x stops IH]; [discriminate|].
  cbn [forallb map]. intros H.
  destruct stops as [|y stops].
  - cbn [map Str.join]. apply locationKey_unlocated.
    cbn [forallb] in H. now rewrite andb_true_r in H.
  - rewrite join_cons by discriminate. rewrite !has_append.
    destruct (has_coordinates x) eqn:Hx.
    + cbn [andb] in H. rewrite (IH H). now rewrite !orb_true_r.
    + now rewrite (locationKey_unlocated x Hx).
Qed.

End CharFacts.

(** An accepted request and a request that is not accepted never have
    the same fingerprint. *)
Lemma rejected_key_distinct (r r' : RouteOptimizationRequest) :
  accepted r ->
  forallb has_coordinates (locations r') = false \/ List.length (locations r') < 2 ->
  generateRouteKey r <> generateRouteKey r'.
Proof.
  intros [Hcoords Hlen] Hbad Heq.
  apply KeyFacts.generateRouteKey_inj in Heq. destruct Heq as (_ & _ & _ & Hids).
  unfold locationIds in Hids.
  destruct (CharFacts.locationIds_located _ Hcoords) as [Hcount Hhas].
  destruct (forallb has_coordinates (locations r')) eqn:Hcoords'.
  - destruct Hbad as [Hbad|Hbad]; [discriminate|].
    destruct (CharFacts.locationIds_located _ Hcoords') as [Hcount' _].
    rewrite Hids in Hcount. lia.
  - pose proof (CharFacts.locationIds_unlocated _ Hcoords') as Hhas'.
    rewrite Hids in Hhas. congruence.
Qed.

(* ------------------------------------------------------------------ *)
(** ** The orchestrator: the requests it refuses *)

(** A request that fails a precondition of [calculateRoute]. *)
Definition refused (request : RouteOptimizationRequest) : Prop :=
  forallb has_coordinates (locations request) = false \/
  List.length (locations request) < 2.

(** The message of the first check a request fails. *)
Definition precondition_message (request : RouteOptimizationRequest) : string :=
  let missingCoordinates :=
    filter (fun loc => negb (has_coordinates loc)) (locations request) in
  if 0 <? List.length missingCoordinates
  then missing_coordinates_message missingCoordinates
  else too_few_message.

(** Every key of the route cache is the fingerprint of an accepted
    request. *)
Definition cache_keys_ok (w : World) : Prop :=
  forall k e, In (k, e) (routeCache w) ->
    exists r, accepted r /\ generateRouteKey r = k.

(** A computation after which the keys of the route cache are still
    fingerprints of accepted requests, however it ends. *)
Definition keeps_keys {A : Type} (c : Comp A) : Prop :=
  forall w, cache_keys_ok w -> cache_keys_ok (snd (c w)).

Lemma refused_not_accepted (request : RouteOptimizationRequest) :
  refused request <-> ~ accepted request.
Proof.
  unfold refused, accepted. split.
  - intros [H|H] [Hc Hl]; [congruence | lia].
  - intros H. destruct (forallb has_coordinates (locations request)); [|now left].
    right. destruct (Nat.lt_ge_cases (List.length (locations request)) 2) as [Hlt|Hge];
      [exact Hlt | exfalso; apply H; now split].
Qed.

Lemma some_missing_coordinates (stops : list Location) :
  forallb has_coordinates stops = false ->
  (0 <? List.length (filter (fun loc => negb (has_coordinates loc)) stops)) = true.
Proof.
  intros H. destruct (0 <? _) eqn:Hmissing; [reflexivity|].
  apply no_missing_coordinates in Hmissing. congruence.
Qed.

Lemma refused_miss (request : RouteOptimizationRequest) (w : World)
  (keep : string * CacheEntry -> bool) :
  cache_keys_ok w -> refused request ->
  JsMap.get (generateRouteKey request) (filter keep (routeCache w)) = None.
Proof.
  intros Hkeys Hbad.
  destruct (JsMap.get _ _) as [e|] eqn:Hget; [|reflexivity].
  apply JsMapFacts.get_In in Hget. apply filter_In in Hget. destruct Hget as [Hin _].
  destruct (Hkeys _ _ Hin) as (r & Hacc & Hkey).
  exfalso. exact (@rejected_key_distinct r request Hacc Hbad Hkey).
Qed.

Module KeysFrame.

Lemma keeps_routes_keys {A : Type} (c : Comp A) : keeps_routes c -> keeps_keys c.
Proof. intros Hc w Hw k e Hin. rewrite Hc in Hin. exact (Hw k e Hin). Qed.

Lemma keys_bind_run {A B : Type} (c : Comp A) (k : A -> Comp B) :
  keeps_keys c ->
  (forall a w w1, c w = (Ok a, w1) -> keeps_keys (k a)) ->
  keeps_keys (bind c k).
Proof.
  intros Hc Hk w Hw. unfold bind. specialize (Hc w Hw).
  destruct (c w) as [[a|message|] w1] eqn:Hrun; cbn [snd] in *; try exact Hc.
  exact (Hk a w w1 Hrun w1 Hc).
Qed.

Lemma keys_bind {A B : Type} (c : Comp A) (k : A -> Comp B) :
  keeps_keys c -> (forall a, keeps_keys (k a)) -> keeps_keys (bind c k).
Proof. intros Hc Hk. apply keys_bind_run; [exact Hc|]. intros a _ _ _. apply Hk. Qed.

Lemma keys_try_catch {A : Type} (c : Comp A) (handler : string -> Comp A) :
  keeps_keys c -> (forall message, keeps_keys (handler message)) ->
  keeps_keys (try_catch c handler).
Proof.
  intros Hc Hh w Hw. unfold try_catch. specialize (Hc w Hw).
  destruct (c w) as [[a|message|] w1]; cbn [snd] in *; try exact Hc.
  exact (Hh message w1 Hc).
Qed.

Lemma keys_getCachedRoute (E : Env) (request : RouteOptimizationRequest) :
  keeps_keys (getCachedRoute E request).
Proof.
  intros w Hw.
  destruct (getCachedRoute_run E request w) as (c & w1 & Hget & Hcache & _).
  rewrite Hget. cbn [snd]. intros k e Hin. rewrite Hcache in Hin.
  apply filter_In in Hin. apply (Hw k e). tauto.
Qed.

Lemma keys_setCachedRoute (E : Env) (request : RouteOptimizationRequest) (route : Route) :
  accepted request -> keeps_keys (setCachedRoute E request route).
Proof.
  intros Hacc w Hw. rewrite setCachedRoute_spec. intros k e Hin.
  cbn [routeCache set_routeCache tick] in Hin. apply In_stored in Hin.
  destruct Hin as [[Hk _]|Hin].
  - exists request. split; [exact Hacc | now symmetry].
  - exact (Hw k e Hin).
Qed.

Lemma keys_clearAllCache : keeps_keys clearAllCache.
Proof. intros w _ k e []. Qed.

End KeysFrame.

Lemma accepted_with_locations (request : RouteOptimizationRequest) (after : list Location) :
  accepted request -> Permutation (locations request) after ->
  accepted (with_locations request after).
Proof.
  intros [Hc Hl] Hperm. unfold accepted. cbn [with_locations locations]. split.
  - apply forallb_forall. intros x Hx.
    rewrite forallb_forall in Hc. apply Hc.
    apply (Permutation_in x (Permutation_sym Hperm) Hx).
  - rewrite <- (Permutation_length Hperm). exact Hl.
Qed.

Section Refusal.

Context (M : MathImpl) (E : Env).

(** [calculateRoute] keeps the keys of the route cache fingerprints of
    accepted requests, however it ends. *)
Lemma keys_calculateRoute (fuel : nat) (request : RouteOptimizationRequest) :
  keeps_keys (calculateRoute M E fuel request).
Proof.
  unfold calculateRoute.
  apply KeysFrame.keys_bind;
    [apply KeysFrame.keeps_routes_keys, Frame.keeps_Date_now|]. intros startTime.
  apply KeysFrame.keys_bind; [apply KeysFrame.keys_getCachedRoute|].
  intros [cachedRoute|].
  - apply KeysFrame.keeps_routes_keys. repeat Frame.step.
  - apply KeysFrame.keys_bind;
      [apply KeysFrame.keeps_routes_keys, Frame.keeps_clearSegmentCache|]. intros _.
    apply KeysFrame.keys_try_catch;
      [|intros message; apply KeysFrame.keeps_routes_keys, Frame.keeps_throw].
    cbv zeta.
    destruct (0 <? List.length (filter _ (locations request))) eqn:Hmissing;
      [apply KeysFrame.keeps_routes_keys, Frame.keeps_throw|].
    destruct (List.length (locations request) <? 2) eqn:Hfew;
      [apply KeysFrame.keeps_routes_keys, Frame.keeps_throw|].
    assert (Hacc : accepted request).
    { split; [now apply no_missing_coordinates | now apply Nat.ltb_ge in Hfew]. }
    apply KeysFrame.keys_bind_run;
      [apply KeysFrame.keeps_routes_keys, Frame.keeps_optimizeLocationOrder|].
    intros [optimized after] w w1 Hopt.
    apply optimizeLocationOrder_returns in Hopt.
    2:{ destruct Hacc as [_ Hlen]. intros Hnil. rewrite Hnil in Hlen. simpl in Hlen. lia. }
    destruct Hopt as [_ Hperm].
    apply KeysFrame.keys_bind;
      [apply KeysFrame.keeps_routes_keys, Frame.keeps_calculateRouteSegments|].
    intros segs.
    apply KeysFrame.keys_bind;
      [apply KeysFrame.keeps_routes_keys, Frame.keeps_generateRouteId|].
    intros routeId.
    apply KeysFrame.keys_bind.
    + apply KeysFrame.keys_setCachedRoute. now apply accepted_with_locations.
    + intros _. apply KeysFrame.keeps_routes_keys. repeat Frame.step.
Qed.

(** The worlds the service reaches: from a freshly loaded module, by
    calls of [calculateRoute], of [clearAllCache], and of whatever
    leaves the route cache alone. *)
Inductive served : World -> Prop :=
| served_initial : served initial_world
| served_calculateRoute (fuel : nat) (request : RouteOptimizationRequest) (w : World) :
    served w -> served (snd (calculateRoute M E fuel request w))
| served_clearAllCache (w : World) :
    served w -> served (snd (clearAllCache w))
| served_other (A : Type) (c : Comp A) (w : World) :
    keeps_routes c -> served w -> served (snd (c w)).

Lemma served_keys_ok (w : World) : served w -> cache_keys_ok w.
Proof.
  induction 1 as [|fuel request w _ IH|w _ IH|A c w Hc _ IH].
  - intros k e [].
  - now apply keys_calculateRoute.
  - now apply KeysFrame.keys_clearAllCache.
  - now apply KeysFrame.keeps_routes_keys.
Qed.

(** With no entry for it in the route cache, a refused request is
    refused with the message of the first check it fails. *)
Lemma calculateRoute_refused_run (fuel : nat) (request : RouteOptimizationRequest)
  (w : World) :
  cache_keys_ok w -> refused request ->
  fst (getCachedRoute E request (tick w)) = Ok None /\
  exists w',
    calculateRoute M E fuel request w
    = (Throw (failure_message (precondition_message request)), w').
Proof.
  intros Hkeys Hbad.
  assert (Hkeys' : cache_keys_ok (tick w)) by exact Hkeys.
  destruct (getCachedRoute_run E request (tick w)) as (c & w1 & Hget & Hcache & _ & Hmiss).
  assert (Hc : c = None).
  { apply Hmiss. rewrite Hcache. now apply refused_miss. }
  subst c. split; [now rewrite Hget|].
  unfold calculateRoute, precondition_message. cbv zeta.
  unfold bind at 1. unfold Date_now_ at 1. cbv beta iota.
  unfold bind at 1. rewrite Hget. cbv beta iota.
  unfold bind at 1. unfold clearSegmentCache, update. cbv beta iota.
  unfold try_catch.
  destruct (forallb has_coordinates (locations request)) eqn:Hcoords.
  - destruct Hbad as [Hbad|Hbad]; [congruence|].
    assert (Hnone : (0 <? List.length (filter (fun loc => negb (has_coordinates loc))
                                         (locations request))) = false).
    { apply Nat.ltb_ge.
      assert (Hnil : filter (fun loc => negb (has_coordinates loc)) (locations request) = []).
      { apply filter_none. intros x Hx. rewrite forallb_forall in Hcoords.
        now rewrite (Hcoords x Hx). }
      rewrite Hnil. simpl. lia. }
    rewrite Hnone.
    replace (List.length (locations request) <? 2) with true
      by (symmetry; now apply Nat.ltb_lt).
    unfold throw. eexists. reflexivity.
  - rewrite (some_missing_coordinates _ Hcoords).
    unfold throw. eexists. reflexivity.
Qed.

End Refusal.

(** C2.  In a world the service has reached, [calculateRoute] on a
    request in which some stop has no coordinates, or which has fewer
    than two stops, returns no route: the lookup in the route cache
    finds nothing for the request, and the call throws the message of
    the first check the request fails (the addresses of the stops
    without coordinates, or that two stops at least are required)
    behind the prefix of the orchestrator. *)
Theorem calculateRoute_refuses
  (M : MathImpl) (E : Env) (fuel : nat) (request : RouteOptimizationRequest) (w : World)
  (Hserved : served M E w)
  (Hbad : forallb has_coordinates (locations request) = false \/
          List.length (locations request) < 2) :
  fst (getCachedRoute E request (tick w)) = Ok None /\
  exists w',
    calculateRoute M E fuel request w
    = (Throw (failure_message (precondition_message request)), w').
Proof.
  apply calculateRoute_refused_run; [|exact Hbad].
  exact (served_keys_ok Hserved).
Qed.

Definition unlocated_request : RouteOptimizationRequest :=
  request_of [stop "1" 48.8566 2.3522; stop_without_coordinates "2"] car balanced false.

(** The world after one route was computed and cached. *)
Definition after_mock_request : World :=
  snd (calculateRoute PolyMath.impl offline 0 mock_request initial_world).

Lemma calculateRoute_refuses_witness :
  fst (getCachedRoute offline unlocated_request (tick after_mock_request)) = Ok None /\
  exists w',
    calculateRoute PolyMath.impl offline 0 unlocated_request after_mock_request
    = (Throw (failure_message (precondition_message unlocated_request)), w').
Proof.
  apply (@calculateRoute_refuses PolyMath.impl offline 0 unlocated_request
           after_mock_request).
  - apply served_calculateRoute, served_initial.
  - left. reflexivity.
Defined.

Example after_mock_request_cached :
  JsMap.keys (routeCache after_mock_request)
  = ["48.8566_2.3522-48.8606_2.3376_car_balanced_false"%string].
Proof. vm_compute. reflexivity. Qed.

Example unlocated_request_refused :
  fst (calculateRoute PolyMath.impl offline 0 unlocated_request after_mock_request)
  = Throw ("Impossible de calculer le trajet: "
           ++ "Les emplacements suivants n'ont pas de coordonnées : 2")%string.
Proof. vm_compute. reflexivity. Qed.

Example single_stop_refused :
  fst (calculateRoute PolyMath.impl offline 0
         (request_of [stop "1" 48.8566 2.3522] car balanced false) initial_world)
  = Throw ("Impossible de calculer le trajet: "
           ++ "Au moins 2 emplacements sont requis pour calculer un trajet")%string.
Proof. vm_compute. reflexivity. Qed.

Example no_stop_refused :
  fst (calculateRoute PolyMath.impl offline 0 (request_of [] truck fastest_time true)
         initial_world)
  = Throw ("Impossible de calculer le trajet: "
           ++ "Au moins 2 emplacements sont requis pour calculer un trajet")%string.
Proof. vm_compute. reflexivity. Qed.

(** Both checks failed: the message is that of the stops without
    coordinates. *)
Example unlocated_single_stop_refused :
  fst (calculateRoute PolyMath.impl offline 0
         (request_of [stop_without_coordinates "Lyon"] car balanced false) initial_world)
  = Throw ("Impossible de calculer le trajet: "
           ++ "Les emplacements suivants n'ont pas de coordonnées : Lyon")%string.
Proof. vm_compute. reflexivity. Qed.

(** The hypothesis on the world is used: [setCachedRoute] is exported
    by the cache module, and a caller outside the service that stores a
    route under the fingerprint of a refused request makes the lookup
    of [calculateRoute] answer before the checks. *)
Example setCachedRoute_outside_service :
  let w := snd (setCachedRoute offline unlocated_request mock_route initial_world) in
  match fst (calculateRoute PolyMath.impl offline 0 unlocated_request w) with
  | Ok response => algorithm (metadata response) = "cache-hit"%string
  | _ => False
  end.
Proof. vm_compute. reflexivity. Qed.

(* ================================================================== *)
(** * More of the service and of the cache *)

(** ** What a computation preserves *)

Section Preserved.

Variable P : World -> Prop.

(** The computation leaves a world with [P] when it starts in one,
    however it ends. *)
Definition preserves {A : Type} (c : Comp A) : Prop :=
  forall w, P w -> P (snd (c w)).

Lemma preserves_ret {A : Type} (a : A) : preserves (ret a).
Proof. intros w Hw. exact Hw. Qed.

Lemma preserves_throw {A : Type} (message : string) : preserves (@throw A message).
Proof. intros w Hw. exact Hw. Qed.

Lemma preserves_pending {A : Type} : preserves (@pending A).
Proof. intros w Hw. exact Hw. Qed.

Lemma preserves_get_world : preserves get_world.
Proof. intros w Hw. exact Hw. Qed.

Lemma preserves_lift_option {A : Type} (o : option A) : preserves (lift_option o).
Proof. destruct o; intros w Hw; exact Hw. Qed.

Lemma preserves_at_index {A : Type} (l : list A) (i : nat) : preserves (at_index l i).
Proof. unfold at_index. destruct (nth_error l i); intros w Hw; exact Hw. Qed.

Lemma preserves_bind_run {A B : Type} (c : Comp A) (k : A -> Comp B) :
  preserves c ->
  (forall a w w1, c w = (Ok a, w1) -> preserves (k a)) ->
  preserves (bind c k).
Proof.
  intros Hc Hk w Hw. unfold bind. specialize (Hc w Hw).
  destruct (c w) as [[a|message|] w1] eqn:Hrun; cbn [snd] in *; try exact Hc.
  exact (Hk a w w1 Hrun w1 Hc).
Qed.

Lemma preserves_bind {A B : Type} (c : Comp A) (k : A -> Comp B) :
  preserves c -> (forall a, preserves (k a)) -> preserves (bind c k).
Proof. intros Hc Hk. apply preserves_bind_run; [exact Hc|]. intros a _ _ _. apply Hk. Qed.

Lemma preserves_try_catch {A : Type} (c : Comp A) (handler : string -> Comp A) :
  preserves c -> (forall message, preserves (handler message)) ->
  preserves (try_catch c handler).
Proof.
  intros Hc Hh w Hw. unfold try_catch. specialize (Hc w Hw).
  destruct (c w) as [[a|message|] w1]; cbn [snd] in *; try exact Hc.
  exact (Hh message w1 Hc).
Qed.

Lemma preserves_for_each {A S : Type} (l : list A) (body : S -> A -> Comp S) :
  (forall s x, preserves (body s x)) -> forall s, preserves (for_each l body s).
Proof.
  intros Hbody. induction l as [|x l IH]; intros s; cbn [for_each].
  - apply preserves_ret.
  - apply preserves_bind; [apply Hbody | exact IH].
Qed.

Lemma preserves_update (f : World -> World) :
  (forall w, P w -> P (f w)) -> preserves (update f).
Proof. intros Hf w Hw. now apply Hf. Qed.

Hypothesis P_tick : forall w, P w -> P (tick w).

Lemma preserves_Date_now (E : Env) : preserves (Date_now_ E).
Proof. intros w Hw. now apply P_tick. Qed.

Lemma preserves_fetch_ORS (E : Env) (from to : Location) : preserves (fetch_ORS E from to).
Proof. intros w Hw. now apply P_tick. Qed.

Lemma preserves_fetch_OSRM (E : Env) (from to : Location) : preserves (fetch_OSRM E from to).
Proof. intros w Hw. now apply P_tick. Qed.

Lemma preserves_generateRouteId (E : Env) : preserves (generateRouteId E).
Proof.
  unfold generateRouteId. apply preserves_bind; [apply preserves_Date_now|].
  intros now w Hw. now apply P_tick.
Qed.

(** The sequencer and the resolver preserve what [cacheSegment]
    preserves for the keys of segments. *)
Hypothesis P_cacheSegment :
  forall (segment : RouteSegment) (vehicleType : VehicleType),
    preserves
      (cacheSegment (generateSegmentKey (from segment) (to segment) vehicleType) segment).

Context (M : MathImpl) (E : Env).

Lemma preserves_calculateSegment (from to : Location) (vehicleType : VehicleType) :
  preserves (calculateSegment M E from to vehicleType).
Proof.
  unfold calculateSegment, calculateSegmentWithORS.
  destruct (coordinates from) as [c1|]; [|apply preserves_throw].
  destruct (coordinates to) as [c2|]; [|apply preserves_throw].
  cbv zeta.
  apply preserves_bind; [apply preserves_get_world|]. intros w0.
  destruct (JsMap.get _ (segmentCache w0)); [apply preserves_ret|].
  assert (Hgeneral :
    preserves
      (try_catch
         (bind (fetch_OSRM E from to)
            (fun response =>
               match response with
               | Some route =>
                   bind (cacheSegment (generateSegmentKey from to vehicleType)
                           (osrmSegment from to vehicleType route))
                     (fun _ => ret (osrmSegment from to vehicleType route))
               | None => throw "Aucun trajet trouvé"
               end))
         (fun _ =>
            bind (cacheSegment (generateSegmentKey from to vehicleType)
                    (fallbackSegment M from to c1 c2 vehicleType))
              (fun _ => ret (fallbackSegment M from to c1 c2 vehicleType))))).
  { apply preserves_try_catch.
    - apply preserves_bind; [apply preserves_fetch_OSRM|].
      intros [route|]; [|apply preserves_throw].
      apply preserves_bind;
        [exact (P_cacheSegment (osrmSegment from to vehicleType route) vehicleType)
        | intros _; apply preserves_ret].
    - intros _.
      apply preserves_bind;
        [exact (P_cacheSegment (fallbackSegment M from to c1 c2 vehicleType) vehicleType)
        | intros _; apply preserves_ret]. }
  destruct (VehicleType_eqb vehicleType truck && hasTruckRouting E); [|exact Hgeneral].
  apply preserves_try_catch; [|intros _; exact Hgeneral].
  apply preserves_bind; [apply preserves_fetch_ORS|].
  intros [route|]; [|apply preserves_throw].
  apply preserves_bind;
    [exact (P_cacheSegment (orsSegment from to route) vehicleType)
    | intros _; apply preserves_ret].
Qed.

Lemma preserves_calculateRouteSegments (stops : list Location) (vehicleType : VehicleType)
  (loop : bool) :
  preserves (calculateRouteSegments M E stops vehicleType loop).
Proof.
  unfold calculateRouteSegments.
  apply preserves_bind.
  - apply preserves_for_each. intros segs i.
    apply preserves_bind; [apply preserves_at_index|]. intros from.
    apply preserves_bind; [apply preserves_at_index|]. intros to.
    apply preserves_bind; [apply preserves_calculateSegment|]. intros segment.
    apply preserves_ret.
  - intros segs. destruct (loop && (2 <? List.length stops)); [|apply preserves_ret].
    apply preserves_bind; [apply preserves_at_index|]. intros from.
    apply preserves_bind; [apply preserves_at_index|]. intros to.
    apply preserves_bind; [apply preserves_calculateSegment|]. intros segment.
    apply preserves_ret.
Qed.

Lemma preserves_calculateOrderScore (stops : list Location) (method : OptimizationMethod)
  (loop : bool) (vehicleType : VehicleType) :
  preserves (calculateOrderScore M E stops method loop vehicleType).
Proof.
  unfold calculateOrderScore.
  destruct (List.length stops =? 0); [apply preserves_ret|]. cbv zeta.
  apply preserves_for_each. intros totalScore i.
  apply preserves_bind; [apply preserves_at_index|]. intros from.
  apply preserves_bind;
    [destruct (loop && (i =? List.length stops - 1)); apply preserves_at_index|].
  intros to.
  destruct (coordinates from); [|apply preserves_ret].
  destruct (coordinates to); [|apply preserves_ret].
  apply preserves_try_catch; [|intros _; apply preserves_ret].
  apply preserves_bind; [apply preserves_calculateSegment | intros s; apply preserves_ret].
Qed.

Lemma preserves_advancedOptimization (fuel : nat) (stops : list Location)
  (method : OptimizationMethod) (loop : bool) (vehicleType : VehicleType) :
  preserves (advancedOptimization M E fuel stops method loop vehicleType).
Proof.
  unfold advancedOptimization.
  destruct (List.length stops <=? 1); [apply preserves_ret|]. cbv zeta.
  apply preserves_bind; [apply preserves_lift_option|]. intros nearest.
  apply preserves_bind; [apply preserves_calculateOrderScore|]. intros nearestScore.
  destruct (List.length stops <=? 6); [|apply preserves_ret].
  apply preserves_bind; [|intros best; apply preserves_ret].
  apply preserves_for_each. intros best permutation.
  apply preserves_bind; [apply preserves_calculateOrderScore | intros s; apply preserves_ret].
Qed.

Lemma preserves_optimizeLocationOrder (fuel : nat) (stops : list Location)
  (method : OptimizationMethod) (loop : bool) (vehicleType : VehicleType) :
  preserves (optimizeLocationOrder M E fuel stops method loop vehicleType).
Proof.
  unfold optimizeLocationOrder.
  destruct (List.length stops <=? 2); [apply preserves_ret|]. cbv zeta.
  destruct (List.length (filter _ stops) =? 0); [apply preserves_ret|].
  apply preserves_bind; [|intros optimized; apply preserves_ret].
  destruct (List.length (filter _ stops) <=? 8);
    [apply preserves_advancedOptimization | apply preserves_lift_option].
Qed.

(** The orchestrator preserves it when clearing the segment cache and
    writing the route cache do. *)
Hypothesis P_clearSegmentCache : preserves clearSegmentCache.
Hypothesis P_getCachedRoute : forall request, preserves (getCachedRoute E request).
Hypothesis P_setCachedRoute :
  forall request route, preserves (setCachedRoute E request route).

Lemma preserves_calculateRoute (fuel : nat) (request : RouteOptimizationRequest) :
  preserves (calculateRoute M E fuel request).
Proof.
  unfold calculateRoute.
  apply preserves_bind; [apply preserves_Date_now|]. intros startTime.
  apply preserves_bind; [apply P_getCachedRoute|]. intros [cachedRoute|].
  - apply preserves_bind; [apply preserves_Date_now | intros now; apply preserves_ret].
  - apply preserves_bind; [apply P_clearSegmentCache|]. intros _.
    apply preserves_try_catch; [|intros message; apply preserves_throw].
    cbv zeta.
    destruct (0 <? _); [apply preserves_throw|].
    destruct (_ <? 2); [apply preserves_throw|].
    apply preserves_bind; [apply preserves_optimizeLocationOrder|]. intros optimized.
    apply preserves_bind; [apply preserves_calculateRouteSegments|]. intros segs.
    apply preserves_bind; [apply preserves_generateRouteId|]. intros routeId.
    apply preserves_bind; [apply P_setCachedRoute|]. intros _.
    apply preserves_bind; [apply preserves_Date_now | intros now; apply preserves_ret].
Qed.

End Preserved.

(* ------------------------------------------------------------------ *)
(** ** The calls of a client, and the bounds of the two caches *)

Module MapFacts.

Section Facts.

Context {V : Type}.

Implicit Types (m : JsMap.t V) (k : string) (v : V).

Lemma keys_set_In m k v x :
  In x (JsMap.keys (JsMap.set k v m)) -> x = k \/ In x (JsMap.keys m).
Proof.
  induction m as [|[k' v'] m IH]; simpl.
  - intros [H|[]]. now left.
  - destruct (String.eqb k' k) eqn:Hk; simpl.
    + intros [H|H]; [now left | right; now right].
    + intros [H|H]; [right; now left|].
      destruct (IH H) as [H'|H']; [now left | right; now right].
Qed.

Lemma set_NoDup m k v : NoDup (JsMap.keys m) -> NoDup (JsMap.keys (JsMap.set k v m)).
Proof.
  intros Hnodup. destruct (JsMap.get k m) as [v0|] eqn:Hget.
  - rewrite JsMapFacts.keys_set_old by congruence. exact Hnodup.
  - rewrite JsMapFacts.keys_set_new by exact Hget.
    apply NoDup_app; [exact Hnodup | repeat constructor; intros [] |].
    intros x Hx [<-|[]]. now apply JsMapFacts.get_None_keys in Hget.
Qed.

Lemma size_set m k v : JsMap.size (JsMap.set k v m) <= S (JsMap.size m).
Proof.
  unfold JsMap.size. induction m as [|[k' v'] m IH]; simpl; [lia|].
  destruct (String.eqb k' k); simpl; lia.
Qed.

Lemma keys_delete_In m k x :
  In x (JsMap.keys (JsMap.delete k m)) -> In x (JsMap.keys m).
Proof.
  induction m as [|[k' v'] m IH]; simpl; [tauto|].
  destruct (String.eqb k' k); simpl; [now right|].
  intros [H|H]; [now left | right; now apply IH].
Qed.

Lemma delete_NoDup m k : NoDup (JsMap.keys m) -> NoDup (JsMap.keys (JsMap.delete k m)).
Proof.
  induction m as [|[k' v'] m IH]; simpl; [auto|].
  intros H. inversion H as [|? ? Hk' Hm]; subst.
  destruct (String.eqb k' k); simpl; [exact Hm|].
  constructor; [|now apply IH].
  intros Hin. apply Hk'. now apply keys_delete_In in Hin.
Qed.

Lemma delete_gone m k :
  NoDup (JsMap.keys m) -> ~ In k (JsMap.keys (JsMap.delete k m)).
Proof.
  induction m as [|[k' v'] m IH]; simpl; [tauto|].
  intros H. inversion H as [|? ? Hk' Hm]; subst.
  destruct (String.eqb k' k) eqn:Hk; simpl.
  - apply String.eqb_eq in Hk. now subst.
  - apply String.eqb_neq in Hk. intros [Heq|Hin]; [contradiction | now apply IH in Hin].
Qed.

Lemma size_delete m k :
  In k (JsMap.keys m) -> S (JsMap.size (JsMap.delete k m)) = JsMap.size m.
Proof.
  unfold JsMap.size. induction m as [|[k' v'] m IH]; simpl; [tauto|].
  destruct (String.eqb k' k) eqn:Hk; simpl; [reflexivity|].
  apply String.eqb_neq in Hk. intros [Heq|Hin]; [contradiction|].
  now rewrite IH.
Qed.

Lemma filter_NoDup m (keep : string * V -> bool) :
  NoDup (JsMap.keys m) -> NoDup (JsMap.keys (filter keep m)).
Proof. apply NoDup_map_filter. Qed.

Lemma size_filter m (keep : string * V -> bool) :
  JsMap.size (filter keep m) <= JsMap.size m.
Proof. apply filter_length_le. Qed.

End Facts.

End MapFacts.

(** A call of a client of the service or of the cache module. *)
Inductive Call : Type :=
| CalculateRoute (fuel : nat) (request : RouteOptimizationRequest)
| GetCachedRoute (request : RouteOptimizationRequest)
| SetCachedRoute (request : RouteOptimizationRequest) (route : Route)
| CleanRouteCache
| ClearAllCache.

Section Calls.

Context (M : MathImpl) (E : Env).

(** The world after the call, however it ended. *)
Definition perform (w : World) (call : Call) : World :=
  match call with
  | CalculateRoute fuel request => snd (calculateRoute M E fuel request w)
  | GetCachedRoute request => snd (getCachedRoute E request w)
  | SetCachedRoute request route => snd (setCachedRoute E request route w)
  | CleanRouteCache => snd (cleanRouteCache E w)
  | ClearAllCache => snd (clearAllCache w)
  end.

Definition perform_all (calls : list Call) (w : World) : World :=
  fold_left perform calls w.

End Calls.

(** The keys of the route cache are distinct and at most 50. *)
Definition route_cache_ok (w : World) : Prop :=
  NoDup (JsMap.keys (routeCache w)) /\ JsMap.size (routeCache w) <= 50.

(** The keys of the segment cache are distinct, not empty, all on the
    order record, and at most 100. *)
Definition segment_cache_ok (w : World) : Prop :=
  NoDup (JsMap.keys (segmentCache w)) /\
  ~ In ""%string (JsMap.keys (segmentCache w)) /\
  incl (JsMap.keys (segmentCache w)) (segmentCacheOrder w) /\
  JsMap.size (segmentCache w) <= MAX_SEGMENT_CACHE_SIZE.

Lemma stored_ok (request : RouteOptimizationRequest) (route : Route) (now : Z)
  (cache : JsMap.t CacheEntry) :
  NoDup (JsMap.keys cache) -> JsMap.size cache <= 50 ->
  NoDup (JsMap.keys (stored request route now cache)) /\
  JsMap.size (stored request route now cache) <= 50.
Proof.
  intros Hnodup Hsize. unfold stored.
  set (cache' := JsMap.set _ _ cache).
  assert (Hnodup' : NoDup (JsMap.keys cache')) by now apply MapFacts.set_NoDup.
  assert (Hsize' : JsMap.size cache' <= 51).
  { pose proof (MapFacts.size_set cache (generateRouteKey request)
                  {| cached_route := route; timestamp := now |}). unfold cache'. lia. }
  destruct (50 <? JsMap.size cache') eqn:Hfull;
    [|apply Nat.ltb_ge in Hfull; now split].
  pose proof (SortFacts.sort_perm RouteCacheFacts.byTimestamp cache') as Hperm.
  destruct (JsArray.sort RouteCacheFacts.byTimestamp cache') as [|[oldestKey e] rest].
  - apply Permutation_sym, Permutation_nil in Hperm.
    rewrite Hperm in Hfull. discriminate Hfull.
  - assert (Hin : In oldestKey (JsMap.keys cache')).
    { unfold JsMap.keys. change oldestKey with (fst (oldestKey, e)). apply in_map.
      apply (Permutation_in _ (Permutation_sym Hperm)). now left. }
    split; [now apply MapFacts.delete_NoDup|].
    pose proof (MapFacts.size_delete cache' oldestKey Hin). lia.
Qed.

Lemma evict_ok (order : list string) :
  forall cache : JsMap.t RouteSegment,
    NoDup (JsMap.keys cache) ->
    ~ In ""%string (JsMap.keys cache) ->
    incl (JsMap.keys cache) order ->
    NoDup (JsMap.keys (fst (evict cache order))) /\
    ~ In ""%string (JsMap.keys (fst (evict cache order))) /\
    incl (JsMap.keys (fst (evict cache order))) (snd (evict cache order)) /\
    JsMap.size (fst (evict cache order)) < MAX_SEGMENT_CACHE_SIZE.
Proof.
  induction order as [|oldest rest IH]; intros cache Hnodup Hne Hincl; cbn [evict].
  - cbn [fst snd]. repeat split; auto.
    rewrite JsMapFacts.size_keys.
    destruct (JsMap.keys cache) as [|k ks]; [unfold MAX_SEGMENT_CACHE_SIZE; simpl; lia|].
    destruct (Hincl k (or_introl eq_refl)).
  - destruct (MAX_SEGMENT_CACHE_SIZE <=? JsMap.size cache) eqn:Hfull.
    + apply IH.
      * destruct (Str.truthy oldest); [now apply MapFacts.delete_NoDup | exact Hnodup].
      * destruct (Str.truthy oldest); [|exact Hne].
        intros Hin. apply Hne. now apply MapFacts.keys_delete_In in Hin.
      * intros x Hx. destruct (Str.truthy oldest) eqn:Htruthy.
        -- pose proof (MapFacts.delete_gone cache oldest Hnodup) as Hgone.
           apply MapFacts.keys_delete_In in Hx as Hx'.
           destruct (Hincl x Hx') as [<-|Hrest]; [contradiction | exact Hrest].
        -- destruct (Hincl x Hx) as [<-|Hrest]; [|exact Hrest].
           destruct oldest; [contradiction | discriminate Htruthy].
    + apply Nat.leb_gt in Hfull. cbn [fst snd]. repeat split; auto.
Qed.

Lemma cacheSegment_ok (from to : Location) (vehicleType : VehicleType)
  (segment : RouteSegment) :
  preserves segment_cache_ok
    (cacheSegment (generateSegmentKey from to vehicleType) segment).
Proof.
  intros w (Hnodup & Hne & Hincl & _). rewrite cacheSegment_spec. cbn [snd].
  destruct (@evict_ok (segmentCacheOrder w) (segmentCache w) Hnodup Hne Hincl)
    as (Hnodup' & Hne' & Hincl' & Hsize').
  unfold segment_cache_ok, set_segmentCacheOrder, set_segmentCache.
  cbn [segmentCache segmentCacheOrder].
  split; [now apply MapFacts.set_NoDup|]. split; [|split].
  - intros Hin. apply MapFacts.keys_set_In in Hin. destruct Hin as [Hin|Hin].
    + symmetry in Hin. now apply generateSegmentKey_not_empty in Hin.
    + contradiction.
  - intros x Hx. apply MapFacts.keys_set_In in Hx. apply in_or_app.
    destruct Hx as [->|Hx]; [right; now left | left; now apply Hincl'].
  - pose proof (MapFacts.size_set (fst (evict (segmentCache w) (segmentCacheOrder w)))
                  (generateSegmentKey from to vehicleType) segment). lia.
Qed.

Section Bounds.

Context (M : MathImpl) (E : Env).

Lemma perform_route_cache_ok (w : World) (call : Call) :
  route_cache_ok w -> route_cache_ok (perform M E w call).
Proof.
  assert (Hget : forall request, preserves route_cache_ok (getCachedRoute E request)).
  { intros request w0 [Hnodup Hsize].
    destruct (getCachedRoute_run E request w0) as (c & w1 & Hrun & Hcache & _).
    rewrite Hrun. cbn [snd]. unfold route_cache_ok. rewrite Hcache.
    split; [now apply MapFacts.filter_NoDup|].
    pose proof (MapFacts.size_filter (routeCache w0)
                  (fun entry => negb (expired (Date_now E (ticks w0)) entry))). lia. }
  assert (Hset : forall request route,
            preserves route_cache_ok (setCachedRoute E request route)).
  { intros request route w0 [Hnodup Hsize]. rewrite setCachedRoute_spec.
    unfold route_cache_ok. cbn [routeCache set_routeCache].
    now apply stored_ok. }
  destruct call as [fuel request|request|request route| |]; cbn [perform].
  - apply (@preserves_calculateRoute route_cache_ok).
    + intros w0 H0. exact H0.
    + intros segment vehicleType w0 H0. rewrite cacheSegment_spec. exact H0.
    + intros w0 H0. exact H0.
    + exact Hget.
    + exact Hset.
  - apply Hget.
  - apply Hset.
  - intros [Hnodup Hsize]. unfold cleanRouteCache, bind, Date_now_, update, route_cache_ok.
    cbn [snd routeCache set_routeCache tick].
    split; [now apply MapFacts.filter_NoDup|].
    pose proof (MapFacts.size_filter (routeCache w)
                  (fun entry => negb (expired (Date_now E (ticks w)) entry))). lia.
  - intros _. split; [constructor | simpl; lia].
Qed.

Lemma perform_segment_cache_ok (w : World) (call : Call) :
  segment_cache_ok w -> segment_cache_ok (perform M E w call).
Proof.
  assert (Hroute : forall (c : JsMap.t CacheEntry) w0,
            segment_cache_ok w0 -> segment_cache_ok (set_routeCache c w0))
    by (intros c w0 H0; exact H0).
  assert (Hget : forall request, preserves segment_cache_ok (getCachedRoute E request)).
  { intros request w0 H0.
    destruct (getCachedRoute E request w0) as [r w1] eqn:Hrun.
    assert (Hsame : segmentCache w1 = segmentCache w0 /\
                    segmentCacheOrder w1 = segmentCacheOrder w0).
    { revert Hrun.
      unfold getCachedRoute, cleanRouteCache, bind, Date_now_, update, get_world.
      cbn [routeCache set_routeCache tick ticks].
      destruct (JsMap.get _ _) as [cached|]; [destruct (_ <? _)%Z|];
        intros [= _ <-]; split; reflexivity. }
    cbn [snd]. unfold segment_cache_ok. destruct Hsame as [-> ->]. exact H0. }
  assert (Hset : forall request route,
            preserves segment_cache_ok (setCachedRoute E request route)).
  { intros request route w0 H0. rewrite setCachedRoute_spec. exact H0. }
  destruct call as [fuel request|request|request route| |]; cbn [perform].
  - apply (@preserves_calculateRoute segment_cache_ok).
    + intros w0 H0. exact H0.
    + intros segment vehicleType. apply cacheSegment_ok.
    + intros w0 _. unfold segment_cache_ok. simpl.
      repeat split; [constructor | tauto | intros x [] | unfold MAX_SEGMENT_CACHE_SIZE; lia].
    + exact Hget.
    + exact Hset.
  - apply Hget.
  - apply Hset.
  - intros H0. exact H0.
  - intros H0. exact H0.
Qed.

End Bounds.

Section Reached.

Context (M : MathImpl) (E : Env).

Lemma perform_all_route_cache_ok (calls : list Call) :
  forall w, route_cache_ok w -> route_cache_ok (perform_all M E calls w).
Proof.
  induction calls as [|call calls IH]; intros w Hw; [exact Hw|].
  apply IH. now apply perform_route_cache_ok.
Qed.

Lemma perform_all_segment_cache_ok (calls : list Call) :
  forall w, segment_cache_ok w -> segment_cache_ok (perform_all M E calls w).
Proof.
  induction calls as [|call calls IH]; intros w Hw; [exact Hw|].
  apply IH. now apply perform_segment_cache_ok.
Qed.

Lemma initial_route_cache_ok : route_cache_ok initial_world.
Proof. split; [constructor | simpl; lia]. Qed.

Lemma initial_segment_cache_ok : segment_cache_ok initial_world.
Proof.
  unfold segment_cache_ok. simpl.
  repeat split; [constructor | tauto | intros x [] | unfold MAX_SEGMENT_CACHE_SIZE; lia].
Qed.

End Reached.

(** X1.  Whatever a client calls, in whatever order ([calculateRoute],
    [getCachedRoute], [setCachedRoute], [cleanRouteCache],
    [clearAllCache]), starting from a freshly loaded module, the route
    cache never holds more than 50 routes, each under a key of its
    own. *)
Theorem route_cache_bounded (M : MathImpl) (E : Env) (calls : list Call) :
  JsMap.size (routeCache (perform_all M E calls initial_world)) <= 50 /\
  NoDup (JsMap.keys (routeCache (perform_all M E calls initial_world))).
Proof.
  destruct (perform_all_route_cache_ok M E calls initial_route_cache_ok)
    as [Hnodup Hsize].
  now split.
Qed.

(** X2.  Whatever a client calls, in whatever order, starting from a
    fresh service, the segment cache never holds more than 100
    segments, and every key it holds is on the insertion-order record:
    the clear at the start of a run, which leaves the record as it is,
    does not break the bound. *)
Theorem segment_cache_bounded (M : MathImpl) (E : Env) (calls : list Call) :
  JsMap.size (segmentCache (perform_all M E calls initial_world))
  <= MAX_SEGMENT_CACHE_SIZE /\
  incl (JsMap.keys (segmentCache (perform_all M E calls initial_world)))
       (segmentCacheOrder (perform_all M E calls initial_world)).
Proof.
  destruct (perform_all_segment_cache_ok M E calls initial_segment_cache_ok)
    as (_ & _ & Hincl & Hsize).
  now split.
Qed.

(* ------------------------------------------------------------------ *)
(** ** The route cache: expiry, overwriting and eviction *)

Module StoreFacts.

Implicit Types (m : JsMap.t CacheEntry) (k : string) (e : CacheEntry).

Lemma In_get m k e : NoDup (JsMap.keys m) -> In (k, e) m -> JsMap.get k m = Some e.
Proof.
  induction m as [|[k0 e0] m IH]; simpl; [tauto|].
  intros H. inversion H as [|? ? Hk0 Hm]; subst.
  intros [[= -> ->]|Hin]; [now rewrite String.eqb_refl|].
  destruct (String.eqb k0 k) eqn:Hk; [|now apply IH].
  apply String.eqb_eq in Hk. subst k0. exfalso. apply Hk0.
  unfold JsMap.keys. change k with (fst (k, e)). now apply in_map.
Qed.

Lemma get_delete_NoDup m k k' e :
  NoDup (JsMap.keys m) ->
  JsMap.get k' (JsMap.delete k m) = Some e -> JsMap.get k' m = Some e.
Proof.
  intros Hnodup Hget. destruct (String.eqb k k') eqn:Hk.
  - apply String.eqb_eq in Hk. subst k'. exfalso.
    apply JsMapFacts.get_Some_keys in Hget.
    exact (MapFacts.delete_gone m k Hnodup Hget).
  - apply String.eqb_neq in Hk. now rewrite JsMapFacts.get_delete_other in Hget.
Qed.

(** The first entry of least timestamp: what [sort] by timestamp puts
    first. *)
Lemma sort_head_oldest (l : list (string * CacheEntry)) :
  l <> [] ->
  exists before oldest after rest,
    l = before ++ oldest :: after /\
    JsArray.sort RouteCacheFacts.byTimestamp l = oldest :: rest /\
    (forall y, In y before -> (timestamp (snd oldest) < timestamp (snd y))%Z) /\
    (forall y, In y after -> (timestamp (snd oldest) <= timestamp (snd y))%Z).
Proof.
  induction l as [|a l IH]; [congruence|]. intros _.
  destruct l as [|b l].
  - exists [], a, [], []. repeat split; intros y [].
  - destruct IH as (before & oldest & after & rest & Hl & Hsort & Hbefore & Hafter);
      [discriminate|].
    change (JsArray.sort RouteCacheFacts.byTimestamp (a :: b :: l))
      with (JsArray.insert RouteCacheFacts.byTimestamp a
              (JsArray.sort RouteCacheFacts.byTimestamp (b :: l))).
    rewrite Hsort. cbn [JsArray.insert].
    destruct (RouteCacheFacts.byTimestamp a oldest <=? 0)%Z eqn:Hc;
      unfold RouteCacheFacts.byTimestamp in Hc.
    + apply Z.leb_le in Hc.
      exists [], a, (b :: l), (oldest :: rest).
      split; [reflexivity|]. split; [reflexivity|]. split; [intros y []|].
      intros y Hy. rewrite Hl in Hy. apply in_app_or in Hy.
      destruct Hy as [Hy|[<-|Hy]].
      * specialize (Hbefore y Hy). lia.
      * lia.
      * specialize (Hafter y Hy). lia.
    + apply Z.leb_gt in Hc.
      exists (a :: before), oldest, after,
             (JsArray.insert RouteCacheFacts.byTimestamp a rest).
      split; [rewrite Hl; reflexivity|]. split; [reflexivity|]. split; [|exact Hafter].
      intros y [<-|Hy]; [lia | now apply Hbefore].
Qed.

Lemma delete_middle (before after : list (string * CacheEntry)) k e :
  NoDup (JsMap.keys (before ++ (k, e) :: after)) ->
  JsMap.delete k (before ++ (k, e) :: after) = before ++ after.
Proof.
  induction before as [|[k0 e0] before IH]; simpl.
  - intros _. now rewrite String.eqb_refl.
  - intros H. inversion H as [|? ? Hk0 Hrest]; subst.
    destruct (String.eqb k0 k) eqn:Hk.
    + apply String.eqb_eq in Hk. subst k0. exfalso. apply Hk0.
      unfold JsMap.keys. rewrite map_app. apply in_or_app. right. now left.
    + f_equal. now apply IH.
Qed.

End StoreFacts.

Section Store.

Context (M : MathImpl) (E : Env).

(** Under the key of [request], the cache after [setCachedRoute] holds
    the route stored and the time of the store, or nothing. *)
Lemma stored_get_key (request : RouteOptimizationRequest) (route : Route) (now : Z)
  (cache : JsMap.t CacheEntry) (e : CacheEntry) :
  NoDup (JsMap.keys cache) ->
  JsMap.get (generateRouteKey request) (stored request route now cache) = Some e ->
  e = {| cached_route := route; timestamp := now |}.
Proof.
  intros Hnodup. unfold stored.
  set (key := generateRouteKey request).
  set (entry := {| cached_route := route; timestamp := now |}).
  assert (Hset : JsMap.get key (JsMap.set key entry cache) = Some entry)
    by apply JsMapFacts.get_set_same.
  assert (Hnodup' : NoDup (JsMap.keys (JsMap.set key entry cache)))
    by now apply MapFacts.set_NoDup.
  destruct (50 <? JsMap.size _); [|intros H; congruence].
  destruct (JsArray.sort _ _) as [|[oldestKey e0] rest]; [intros H; congruence|].
  intros H. apply StoreFacts.get_delete_NoDup in H; [congruence | exact Hnodup'].
Qed.

End Store.

(** X3.  After any history of calls, a route stored with
    [setCachedRoute] is no longer served by [getCachedRoute] with the
    same request once the clock read at the fetch is 30 minutes or more
    after the clock read at the store. *)
Theorem stored_route_expires
  (M : MathImpl) (E : Env) (calls : list Call)
  (request : RouteOptimizationRequest) (route : Route)
  (Hlate : (ROUTE_CACHE_DURATION
            <= Date_now E (S (S (ticks (perform_all M E calls initial_world))))
               - Date_now E (ticks (perform_all M E calls initial_world)))%Z) :
  fst (getCachedRoute E request
         (snd (setCachedRoute E request route (perform_all M E calls initial_world))))
  = Ok None.
Proof.
  set (w := perform_all M E calls initial_world) in *.
  destruct (perform_all_route_cache_ok M E calls initial_route_cache_ok) as [Hnodup Hsize].
  fold w in Hnodup, Hsize.
  rewrite getCachedRoute_spec, setCachedRoute_spec.
  cbn [routeCache set_routeCache ticks tick].
  destruct (JsMap.get _ (filter _ _)) as [cached|] eqn:Hget; [|reflexivity].
  apply JsMapFacts.get_In in Hget. apply filter_In in Hget. destruct Hget as [Hin _].
  assert (Hcached : JsMap.get (generateRouteKey request)
                      (stored request route (Date_now E (ticks w)) (routeCache w))
                    = Some cached).
  { apply StoreFacts.In_get; [|exact Hin].
    now apply stored_ok. }
  apply stored_get_key in Hcached; [|exact Hnodup]. subst cached.
  cbn [timestamp].
  replace (_ <? _)%Z with false by (symmetry; apply Z.ltb_ge; exact Hlate).
  reflexivity.
Qed.

(** A host as [offline] whose clock advances by 30 minutes a read. *)
Definition slow_clock : Env :=
  {| openRouteServiceApiKey := None;
     Date_now := fun n => (1700000000000 + 1800000 * Z.of_nat n)%Z;
     Math_random_base36 := Math_random_base36 offline;
     fetchORS := fun _ _ _ => None;
     fetchOSRM := fun _ _ _ => None |}.

Lemma stored_route_expires_witness :
  fst (getCachedRoute slow_clock mock_request
         (snd (setCachedRoute slow_clock mock_request mock_route
                 (perform_all PolyMath.impl slow_clock [] initial_world))))
  = Ok None.
Proof.
  apply (@stored_route_expires PolyMath.impl slow_clock [] mock_request mock_route).
  vm_compute. discriminate.
Defined.

(** X4.  After any history of calls, storing a route under a
    fingerprint the cache already holds replaces the route and the
    timestamp of that entry where it stands: the keys and their order
    are unchanged, and every other entry is as before. *)
Theorem setCachedRoute_overwrites
  (M : MathImpl) (E : Env) (calls : list Call)
  (request : RouteOptimizationRequest) (route : Route)
  (Hheld : JsMap.get (generateRouteKey request)
             (routeCache (perform_all M E calls initial_world)) <> None) :
  let w := perform_all M E calls initial_world in
  let w' := snd (setCachedRoute E request route w) in
  JsMap.keys (routeCache w') = JsMap.keys (routeCache w) /\
  JsMap.get (generateRouteKey request) (routeCache w')
  = Some {| cached_route := route; timestamp := Date_now E (ticks w) |} /\
  forall k, k <> generateRouteKey request ->
            JsMap.get k (routeCache w') = JsMap.get k (routeCache w).
Proof.
  cbv zeta. set (w := perform_all M E calls initial_world) in *.
  destruct (perform_all_route_cache_ok M E calls initial_route_cache_ok) as [_ Hsize].
  fold w in Hsize.
  rewrite setCachedRoute_spec. cbn [routeCache set_routeCache].
  unfold stored.
  rewrite RouteCacheFacts.size_set_present by exact Hheld.
  replace (50 <? JsMap.size (routeCache w)) with false
    by (symmetry; apply Nat.ltb_ge; exact Hsize).
  split; [now apply JsMapFacts.keys_set_old|].
  split; [apply JsMapFacts.get_set_same|].
  intros k Hk. apply JsMapFacts.get_set_other. congruence.
Qed.

Lemma setCachedRoute_overwrites_witness :
  let w := perform_all PolyMath.impl offline [SetCachedRoute mock_request mock_route]
             initial_world in
  let w' := snd (setCachedRoute offline mock_request mock_route w) in
  JsMap.keys (routeCache w') = JsMap.keys (routeCache w) /\
  JsMap.get (generateRouteKey mock_request) (routeCache w')
  = Some {| cached_route := mock_route; timestamp := Date_now offline (ticks w) |} /\
  forall k, k <> generateRouteKey mock_request ->
            JsMap.get k (routeCache w') = JsMap.get k (routeCache w).
Proof.
  apply (@setCachedRoute_overwrites PolyMath.impl offline
           [SetCachedRoute mock_request mock_route] mock_request mock_route).
  vm_compute. discriminate.
Defined.

(** X5.  After any history of calls that left 50 routes in the cache,
    storing a route under a fingerprint the cache does not hold evicts
    one entry: the first, in insertion order, of least timestamp among
    the 50 and the new one; the others stay in their order, the new
    one last. *)
Theorem setCachedRoute_evicts_oldest
  (M : MathImpl) (E : Env) (calls : list Call)
  (request : RouteOptimizationRequest) (route : Route)
  (Hfull : JsMap.size (routeCache (perform_all M E calls initial_world)) = 50)
  (Hnew : JsMap.get (generateRouteKey request)
            (routeCache (perform_all M E calls initial_world)) = None) :
  let w := perform_all M E calls initial_world in
  let w' := snd (setCachedRoute E request route w) in
  exists before oldest after,
    routeCache w
      ++ [(generateRouteKey request,
           {| cached_route := route; timestamp := Date_now E (ticks w) |})]
    = before ++ oldest :: after /\
    (forall y, In y before -> (timestamp (snd oldest) < timestamp (snd y))%Z) /\
    (forall y, In y after -> (timestamp (snd oldest) <= timestamp (snd y))%Z) /\
    routeCache w' = before ++ after.
Proof.
  cbv zeta. set (w := perform_all M E calls initial_world) in *.
  destruct (perform_all_route_cache_ok M E calls initial_route_cache_ok) as [Hnodup _].
  fold w in Hnodup.
  rewrite setCachedRoute_spec. cbn [routeCache set_routeCache].
  unfold stored.
  set (entry := {| cached_route := route; timestamp := Date_now E (ticks w) |}).
  assert (Hnodup' : NoDup (JsMap.keys (JsMap.set (generateRouteKey request) entry
                                         (routeCache w))))
    by now apply MapFacts.set_NoDup.
  rewrite (@RouteCacheFacts.set_absent (routeCache w) (generateRouteKey request) entry Hnew)
    in *.
  replace (50 <? JsMap.size (routeCache w ++ [(generateRouteKey request, entry)]))
    with true
    by (symmetry; apply Nat.ltb_lt; unfold JsMap.size in *; rewrite length_app; simpl; lia).
  destruct (@StoreFacts.sort_head_oldest (routeCache w ++ [(generateRouteKey request, entry)]))
    as (before & [oldestKey e] & after & rest & Hl & Hsort & Hbefore & Hafter).
  { destruct (routeCache w); discriminate. }
  rewrite Hsort. exists before, (oldestKey, e), after.
  split; [exact Hl|]. split; [exact Hbefore|]. split; [exact Hafter|].
  rewrite Hl. apply StoreFacts.delete_middle. now rewrite <- Hl.
Qed.

(** Fifty requests with fingerprints of their own: [i] stops each. *)
Definition fifty_stores : list Call :=
  map (fun i => SetCachedRoute
                  (request_of (repeat (stop "s" 48.85 2.35) i) car balanced false)
                  mock_route)
      (seq 0 50).

Lemma setCachedRoute_evicts_oldest_witness :
  let w := perform_all PolyMath.impl offline fifty_stores initial_world in
  let w' := snd (setCachedRoute offline mock_request mock_route w) in
  exists before oldest after,
    routeCache w
      ++ [(generateRouteKey mock_request,
           {| cached_route := mock_route; timestamp := Date_now offline (ticks w) |})]
    = before ++ oldest :: after /\
    (forall y, In y before -> (timestamp (snd oldest) < timestamp (snd y))%Z) /\
    (forall y, In y after -> (timestamp (snd oldest) <= timestamp (snd y))%Z) /\
    routeCache w' = before ++ after.
Proof.
  apply (@setCachedRoute_evicts_oldest PolyMath.impl offline fifty_stores
           mock_request mock_route).
  - vm_compute. reflexivity.
  - vm_compute. reflexivity.
Defined.

Example fifty_one_stores :
  let w := perform_all PolyMath.impl offline
             (fifty_stores ++ [SetCachedRoute mock_request mock_route]) initial_world in
  JsMap.size (routeCache w) = 50 /\
  hd_error (JsMap.keys (routeCache w))
  = Some "48.8500_2.3500_car_balanced_false"%string /\
  JsMap.get "_car_balanced_false" (routeCache w) = None.
Proof. vm_compute. repeat split; reflexivity. Qed.

(* ------------------------------------------------------------------ *)
(** ** The segment resolver: errors, repeated calls and providers *)

(** The host with another heavy-vehicle provider, or another general
    provider. *)
Definition with_fetchORS (f : nat -> Location -> Location -> option ORSRoute) (E : Env)
  : Env :=
  {| openRouteServiceApiKey := openRouteServiceApiKey E;
     Date_now := Date_now E;
     Math_random_base36 := Math_random_base36 E;
     fetchORS := f;
     fetchOSRM := fetchOSRM E |}.

Definition with_fetchOSRM (g : nat -> Location -> Location -> option OSRMRoute) (E : Env)
  : Env :=
  {| openRouteServiceApiKey := openRouteServiceApiKey E;
     Date_now := Date_now E;
     Math_random_base36 := Math_random_base36 E;
     fetchORS := fetchORS E;
     fetchOSRM := g |}.

Lemma bind_get_world {A : Type} (k : World -> Comp A) (w : World) :
  bind get_world k w = k w w.
Proof. reflexivity. Qed.

(** X6.  [calculateSegment] throws exactly when one of the two stops
    has no coordinates, before it reads the cache or asks a provider
    (the world is left as it was); with coordinates at both ends it
    returns a segment, whatever the providers answer. *)
Theorem calculateSegment_throws_without_coordinates
  (M : MathImpl) (E : Env) (from to : Location) (vehicleType : VehicleType) (w : World) :
  (has_coordinates from = true -> has_coordinates to = true ->
   exists segment w', calculateSegment M E from to vehicleType w = (Ok segment, w')) /\
  (has_coordinates from = false \/ has_coordinates to = false ->
   calculateSegment M E from to vehicleType w = (Throw coordinates_required, w)).
Proof.
  split.
  - apply calculateSegment_returns.
  - unfold has_coordinates, calculateSegment.
    destruct (coordinates from), (coordinates to); intros [H|H];
      try discriminate H; reflexivity.
Qed.

Section Resolver.

Context (M : MathImpl) (E : Env).

(** After a call that returned, the segment is in the cache under the
    key of the call. *)
Lemma calculateSegment_cached (from to : Location) (vehicleType : VehicleType)
  (w w' : World) (segment : RouteSegment) :
  calculateSegment M E from to vehicleType w = (Ok segment, w') ->
  has_coordinates from = true /\ has_coordinates to = true /\
  JsMap.get (generateSegmentKey from to vehicleType) (segmentCache w') = Some segment.
Proof.
  intros Hrun. unfold has_coordinates.
  destruct (coordinates from) as [c1|] eqn:H1;
    [|unfold calculateSegment in Hrun; rewrite H1 in Hrun; discriminate Hrun].
  destruct (coordinates to) as [c2|] eqn:H2;
    [|unfold calculateSegment in Hrun; rewrite H1, H2 in Hrun; discriminate Hrun].
  split; [reflexivity|]. split; [reflexivity|].
  destruct (JsMap.get (generateSegmentKey from to vehicleType) (segmentCache w))
    as [cached|] eqn:Hget.
  - rewrite (@calculateSegment_hit M E from to vehicleType c1 c2 cached w H1 H2 Hget) in Hrun.
    injection Hrun as <- <-. exact Hget.
  - destruct (@calculateSegment_miss M E from to vehicleType c1 c2 w H1 H2 Hget)
      as (segment' & w0 & _ & _ & Hrun').
    rewrite Hrun' in Hrun.
    assert (Hs : segment' = segment) by congruence.
    assert (Hw : w' = snd (cacheSegment (generateSegmentKey from to vehicleType) segment' w0))
      by congruence.
    rewrite Hw, <- Hs, cacheSegment_spec.
    cbn [snd segmentCache set_segmentCacheOrder set_segmentCache].
    apply JsMapFacts.get_set_same.
Qed.

End Resolver.

(** X7.  A call of [calculateSegment] that returned a segment, made
    again at once, returns the same segment and leaves the world as it
    is: no provider is asked, the clock is not read, the cache is not
    written. *)
Theorem calculateSegment_repeated
  (M : MathImpl) (E : Env) (from to : Location) (vehicleType : VehicleType)
  (w w' : World) (segment : RouteSegment)
  (Hrun : calculateSegment M E from to vehicleType w = (Ok segment, w')) :
  calculateSegment M E from to vehicleType w' = (Ok segment, w').
Proof.
  apply calculateSegment_cached in Hrun. destruct Hrun as (Hfrom & Hto & Hget).
  unfold has_coordinates in Hfrom, Hto.
  destruct (coordinates from) as [c1|] eqn:H1; [|discriminate].
  destruct (coordinates to) as [c2|] eqn:H2; [|discriminate].
  exact (@calculateSegment_hit M E from to vehicleType c1 c2 segment w' H1 H2 Hget).
Qed.

Lemma calculateSegment_repeated_witness :
  exists segment w',
    calculateSegment PolyMath.impl offline
      (stop "A" 48.8566 2.3522) (stop "B" 51.5074 (-0.1278)) car initial_world
    = (Ok segment, w') /\
    calculateSegment PolyMath.impl offline
      (stop "A" 48.8566 2.3522) (stop "B" 51.5074 (-0.1278)) car w'
    = (Ok segment, w').
Proof.
  destruct (calculateSegment PolyMath.impl offline
              (stop "A" 48.8566 2.3522) (stop "B" 51.5074 (-0.1278)) car initial_world)
    as [[segment|message|] w'] eqn:Hrun.
  - exists segment, w'. split; [reflexivity|].
    exact (@calculateSegment_repeated PolyMath.impl offline _ _ car initial_world w'
             segment Hrun).
  - vm_compute in Hrun. discriminate Hrun.
  - vm_compute in Hrun. discriminate Hrun.
Defined.

(** X8.  For a car, or without an OpenRouteService key, the
    heavy-vehicle provider is never asked: the outcome and the world
    left are the same whatever that provider would answer. *)
Theorem calculateSegment_ignores_heavy_vehicle_provider
  (M : MathImpl) (E : Env) (from to : Location) (vehicleType : VehicleType)
  (f : nat -> Location -> Location -> option ORSRoute) (w : World)
  (Hgeneral : vehicleType = car \/ hasTruckRouting E = false) :
  calculateSegment M (with_fetchORS f E) from to vehicleType w
  = calculateSegment M E from to vehicleType w.
Proof.
  assert (Hcond : VehicleType_eqb vehicleType truck && hasTruckRouting E = false).
  { destruct Hgeneral as [->| ->]; [reflexivity | apply andb_false_r]. }
  unfold calculateSegment.
  destruct (coordinates from) as [c1|]; [|reflexivity].
  destruct (coordinates to) as [c2|]; [|reflexivity].
  cbv zeta. rewrite !bind_get_world.
  destruct (JsMap.get _ (segmentCache w)); [reflexivity|].
  change (hasTruckRouting (with_fetchORS f E)) with (hasTruckRouting E).
  rewrite Hcond. reflexivity.
Qed.

(** A heavy-vehicle provider that would answer every call. *)
Definition ors_answer : ORSRoute :=
  {| ors_distance := 460; ors_duration := 19800;
     ors_instructions := ["Continuer"]; ors_geometry := None |}.

Lemma calculateSegment_ignores_heavy_vehicle_provider_witness :
  calculateSegment PolyMath.impl
    (with_fetchORS (fun _ _ _ => Some ors_answer) offline_with_key)
    (stop "A" 48.8566 2.3522) (stop "B" 51.5074 (-0.1278)) car initial_world
  = calculateSegment PolyMath.impl offline_with_key
      (stop "A" 48.8566 2.3522) (stop "B" 51.5074 (-0.1278)) car initial_world.
Proof.
  apply (@calculateSegment_ignores_heavy_vehicle_provider PolyMath.impl offline_with_key).
  left. reflexivity.
Defined.

(** X9.  For a truck with an OpenRouteService key, on a cache miss,
    when the heavy-vehicle provider answers: the segment carries that
    provider's distance as it is and its duration in minutes, with no
    synthetic adjustment; the general provider is not asked (the
    outcome is the same whatever it would answer), the host was called
    once, and the segment is cached under the key of the call. *)
Theorem calculateSegment_heavy_vehicle_first
  (M : MathImpl) (E : Env) (from to : Location) (route : ORSRoute) (w : World)
  (Hkey : hasTruckRouting E = true)
  (Hfrom : has_coordinates from = true)
  (Hto : has_coordinates to = true)
  (Hmiss : JsMap.get (generateSegmentKey from to truck) (segmentCache w) = None)
  (Hors : fetchORS E (ticks w) from to = Some route) :
  exists segment w',
    calculateSegment M E from to truck w = (Ok segment, w') /\
    (forall g, calculateSegment M (with_fetchOSRM g E) from to truck w = (Ok segment, w')) /\
    distance segment = ors_distance route /\
    duration segment = (ors_duration route / 60)%float /\
    polyline segment = ors_geometry route /\
    ticks w' = S (ticks w) /\
    JsMap.get (generateSegmentKey from to truck) (segmentCache w') = Some segment.
Proof.
  unfold has_coordinates in Hfrom, Hto.
  destruct (coordinates from) as [c1|] eqn:H1; [|discriminate].
  destruct (coordinates to) as [c2|] eqn:H2; [|discriminate].
  exists (orsSegment from to route),
         (snd (cacheSegment (generateSegmentKey from to truck) (orsSegment from to route)
                 (tick w))).
  assert (Hrun : forall E',
            hasTruckRouting E' = true ->
            fetchORS E' (ticks w) from to = Some route ->
            calculateSegment M E' from to truck w
            = (Ok (orsSegment from to route),
               snd (cacheSegment (generateSegmentKey from to truck)
                      (orsSegment from to route) (tick w)))).
  { intros E' Hkey' Hors'. unfold calculateSegment. rewrite H1, H2. cbv zeta.
    unfold bind at 1. unfold get_world. rewrite Hmiss.
    rewrite Hkey'. cbn [VehicleType_eqb andb].
    unfold try_catch at 1. unfold calculateSegmentWithORS. rewrite H1, H2.
    unfold bind at 1, fetch_ORS. rewrite Hors'.
    unfold bind. rewrite cacheSegment_spec. reflexivity. }
  split; [now apply Hrun|].
  split; [intros g; now apply Hrun|].
  split; [reflexivity|]. split; [reflexivity|]. split; [reflexivity|].
  rewrite cacheSegment_spec. cbn [snd].
  split; [reflexivity|].
  cbn [segmentCache set_segmentCacheOrder set_segmentCache].
  apply JsMapFacts.get_set_same.
Qed.

Lemma calculateSegment_heavy_vehicle_first_witness :
  exists segment w',
    calculateSegment PolyMath.impl
      (with_fetchORS (fun _ _ _ => Some ors_answer) offline_with_key)
      (stop "A" 48.8566 2.3522) (stop "B" 51.5074 (-0.1278)) truck initial_world
    = (Ok segment, w') /\
    (forall g,
       calculateSegment PolyMath.impl
         (with_fetchOSRM g (with_fetchORS (fun _ _ _ => Some ors_answer) offline_with_key))
         (stop "A" 48.8566 2.3522) (stop "B" 51.5074 (-0.1278)) truck initial_world
       = (Ok segment, w')) /\
    distance segment = 460%float /\
    duration segment = (19800 / 60)%float /\
    polyline segment = None /\
    ticks w' = 1 /\
    JsMap.get "A-B-truck" (segmentCache w') = Some segment.
Proof.
  apply (@calculateSegment_heavy_vehicle_first PolyMath.impl
           (with_fetchORS (fun _ _ _ => Some ors_answer) offline_with_key)
           (stop "A" 48.8566 2.3522) (stop "B" 51.5074 (-0.1278)) ors_answer initial_world);
    reflexivity.
Defined.

(** The read of the host at which the general provider is asked: the
    next one when the heavy-vehicle provider was asked first. *)
Definition general_tier_tick (E : Env) (vehicleType : VehicleType) (w : World) : nat :=
  if VehicleType_eqb vehicleType truck && hasTruckRouting E then S (ticks w) else ticks w.

(** X10.  On a cache miss, when the heavy-vehicle provider is not asked
    or fails and the general provider answers: the segment carries the
    provider's distance in kilometres and duration in minutes, times
    1.1 and 1.4 for a truck and as they are for a car, and the
    provider's geometry. *)
Theorem calculateSegment_general_provider
  (M : MathImpl) (E : Env) (from to : Location) (vehicleType : VehicleType)
  (route : OSRMRoute) (w : World)
  (Hfrom : has_coordinates from = true)
  (Hto : has_coordinates to = true)
  (Hmiss : JsMap.get (generateSegmentKey from to vehicleType) (segmentCache w) = None)
  (Hors : VehicleType_eqb vehicleType truck && hasTruckRouting E = true ->
          fetchORS E (ticks w) from to = None)
  (Hosrm : fetchOSRM E (general_tier_tick E vehicleType w) from to = Some route) :
  exists segment w',
    calculateSegment M E from to vehicleType w = (Ok segment, w') /\
    distance segment
    = match vehicleType with
      | truck => (osrm_distance route / 1000 * 1.1)%float
      | car => (osrm_distance route / 1000)%float
      end /\
    duration segment
    = match vehicleType with
      | truck => (osrm_duration route / 60 * 1.4)%float
      | car => (osrm_duration route / 60)%float
      end /\
    polyline segment = osrm_geometry route /\
    instructions segment = osrm_instructions route.
Proof.
  unfold has_coordinates in Hfrom, Hto.
  destruct (coordinates from) as [c1|] eqn:H1; [|discriminate].
  destruct (coordinates to) as [c2|] eqn:H2; [|discriminate].
  exists (osrmSegment from to vehicleType route).
  unfold calculateSegment. rewrite H1, H2. cbv zeta.
  unfold bind at 1. unfold get_world. rewrite Hmiss.
  unfold general_tier_tick in Hosrm.
  destruct (VehicleType_eqb vehicleType truck && hasTruckRouting E).
  - unfold try_catch at 1. unfold calculateSegmentWithORS. rewrite H1, H2.
    unfold bind at 1, fetch_ORS. rewrite (Hors eq_refl). unfold throw.
    unfold try_catch, bind at 1, fetch_OSRM. cbn [ticks tick]. rewrite Hosrm.
    unfold bind. rewrite cacheSegment_spec. unfold ret.
    eexists. split; [reflexivity|]. destruct vehicleType; repeat split.
  - unfold try_catch, bind at 1, fetch_OSRM. rewrite Hosrm.
    unfold bind. rewrite cacheSegment_spec. unfold ret.
    eexists. split; [reflexivity|]. destruct vehicleType; repeat split.
Qed.

(** A general provider that would answer every call. *)
Definition osrm_answer : OSRMRoute :=
  {| osrm_distance := 450000; osrm_duration := 18000;
     osrm_instructions := ["Tout droit"];
     osrm_geometry := Some [[2.3522%float; 48.8566%float]] |}.

Lemma calculateSegment_general_provider_witness :
  exists segment w',
    calculateSegment PolyMath.impl
      (with_fetchOSRM (fun _ _ _ => Some osrm_answer) offline_with_key)
      (stop "A" 48.8566 2.3522) (stop "B" 51.5074 (-0.1278)) truck initial_world
    = (Ok segment, w') /\
    distance segment = (450000 / 1000 * 1.1)%float /\
    duration segment = (18000 / 60 * 1.4)%float /\
    polyline segment = Some [[2.3522%float; 48.8566%float]] /\
    instructions segment = ["Tout droit"%string].
Proof.
  apply (@calculateSegment_general_provider PolyMath.impl
           (with_fetchOSRM (fun _ _ _ => Some osrm_answer) offline_with_key)
           (stop "A" 48.8566 2.3522) (stop "B" 51.5074 (-0.1278)) truck
           osrm_answer initial_world);
    reflexivity.
Defined.

(* ------------------------------------------------------------------ *)
(** ** Segment keys, and the chain of a route's segments *)

Module SegmentKeyFacts.

Definition dash_free (s : string) : bool := negb (Str.has "-" s).

Lemma has_count (c : ascii) (s : string) : Str.has c s = false <-> Str.count c s = 0.
Proof.
  unfold Str.has, Str.count. induction (Str.chars s) as [|d l IH]; simpl; [tauto|].
  destruct (Ascii.eqb c d); simpl; [split; [discriminate | lia] | exact IH].
Qed.

Lemma has_String (c d : ascii) (s : string) :
  Str.has c (String d s) = Ascii.eqb c d || Str.has c s.
Proof. reflexivity. Qed.

(** Two strings cut at their first dash. *)
Lemma split_at_dash (a : string) :
  forall a' x y : string,
    Str.has "-" a = false -> Str.has "-" a' = false ->
    (a ++ "-" ++ x)%string = (a' ++ "-" ++ y)%string ->
    a = a' /\ x = y.
Proof.
  induction a as [|c a IH]; intros [|c' a'] x y Ha Ha' Heq; cbn [append] in Heq.
  - injection Heq as ->. now split.
  - injection Heq as <- _. rewrite has_String in Ha'. discriminate Ha'.
  - injection Heq as -> _. rewrite has_String in Ha. discriminate Ha.
  - injection Heq as <- Heq. rewrite has_String in Ha, Ha'.
    apply orb_false_elim in Ha, Ha'.
    destruct (IH a' x y (proj2 Ha) (proj2 Ha') Heq) as [-> ->]. now split.
Qed.

Lemma count_key (from to : Location) (vehicleType : VehicleType) :
  Str.count "-" (generateSegmentKey from to vehicleType)
  = Str.count "-" (id from) + Str.count "-" (id to) + 2.
Proof.
  unfold generateSegmentKey. rewrite !CharFacts.count_append.
  replace (Str.count "-" (VehicleType_str vehicleType)) with 0
    by (destruct vehicleType; reflexivity).
  change (Str.count "-" "-") with 1. lia.
Qed.

(** The key of a pair of stops whose identifiers hold no dash is the
    key of no other pair of identifiers and of no other vehicle. *)
Lemma key_inj (from to from' to' : Location) (vehicleType vehicleType' : VehicleType) :
  dash_free (id from) = true -> dash_free (id to) = true ->
  generateSegmentKey from to vehicleType = generateSegmentKey from' to' vehicleType' ->
  id from = id from' /\ id to = id to' /\ vehicleType = vehicleType'.
Proof.
  unfold dash_free. intros Hfrom Hto Hkey.
  apply negb_true_iff in Hfrom, Hto.
  pose proof (f_equal (Str.count "-") Hkey) as Hcount.
  rewrite !count_key in Hcount.
  apply has_count in Hfrom as Hf, Hto as Ht.
  assert (Hfrom' : Str.has "-" (id from') = false) by (apply has_count; lia).
  assert (Hto' : Str.has "-" (id to') = false) by (apply has_count; lia).
  unfold generateSegmentKey in Hkey.
  apply split_at_dash in Hkey; [|assumption|assumption]. destruct Hkey as [H1 Hkey].
  apply split_at_dash in Hkey; [|assumption|assumption]. destruct Hkey as [H2 Hkey].
  repeat split; try assumption.
  destruct vehicleType, vehicleType'; try reflexivity; discriminate Hkey.
Qed.

End SegmentKeyFacts.

(** X11.  The key of a segment identifies the pair of stops and the
    vehicle when the identifiers of the two stops hold no dash: no
    other pair of identifiers, with or without dashes, and no other
    vehicle has the same key. *)
Theorem generateSegmentKey_injective
  (from to from' to' : Location) (vehicleType vehicleType' : VehicleType)
  (Hfrom : Str.has "-" (id from) = false)
  (Hto : Str.has "-" (id to) = false)
  (Hkey : generateSegmentKey from to vehicleType
          = generateSegmentKey from' to' vehicleType') :
  id from = id from' /\ id to = id to' /\ vehicleType = vehicleType'.
Proof.
  apply SegmentKeyFacts.key_inj; [| |exact Hkey];
    unfold SegmentKeyFacts.dash_free; apply negb_true_iff; assumption.
Qed.

Lemma generateSegmentKey_injective_witness :
  id (stop "A" 48.8566 2.3522) = id (stop "A" 0 0) /\
  id (stop "B" 51.5074 (-0.1278)) = id (stop "B" 0 0) /\
  car = car.
Proof.
  apply (@generateSegmentKey_injective (stop "A" 48.8566 2.3522)
           (stop "B" 51.5074 (-0.1278)) (stop "A" 0 0) (stop "B" 0 0) car car);
    reflexivity.
Defined.

(** With dashes in the identifiers two pairs of stops share a key, and
    the second pair is served the segment of the first. *)
Example generateSegmentKey_collision :
  generateSegmentKey (stop "a-b" 48.85 2.35) (stop "c" 48.86 2.34) car
  = generateSegmentKey (stop "a" 45.76 4.83) (stop "b-c" 43.30 5.37) car /\
  match calculateSegment PolyMath.impl offline
          (stop "a" 45.76 4.83) (stop "b-c" 43.30 5.37) car
          (snd (calculateSegment PolyMath.impl offline
                  (stop "a-b" 48.85 2.35) (stop "c" 48.86 2.34) car initial_world))
  with
  | (Ok segment, _) => (id (from segment), id (to segment))
  | _ => (""%string, ""%string)
  end = ("a-b"%string, "c"%string).
Proof. vm_compute. split; reflexivity. Qed.

(** Every segment of the cache is under a key of its own two stops. *)
Definition segment_keyed (w : World) : Prop :=
  forall k s, In (k, s) (segmentCache w) ->
    exists vehicleType, k = generateSegmentKey (from s) (to s) vehicleType.

Module KeyedFacts.

Lemma segment_In_set (k k0 : string) (s s0 : RouteSegment) (m : JsMap.t RouteSegment) :
  In (k, s) (JsMap.set k0 s0 m) -> (k, s) = (k0, s0) \/ In (k, s) m.
Proof.
  induction m as [|[k1 s1] m IH]; simpl.
  - intros [H|[]]. left. now symmetry.
  - destruct (String.eqb k1 k0).
    + intros [H|H]; [left; now symmetry | right; now right].
    + intros [H|H]; [right; now left|].
      destruct (IH H) as [H'|H']; [now left | right; now right].
Qed.

Lemma segment_In_delete (k k0 : string) (s : RouteSegment) (m : JsMap.t RouteSegment) :
  In (k, s) (JsMap.delete k0 m) -> In (k, s) m.
Proof.
  induction m as [|[k1 s1] m IH]; simpl; [tauto|].
  destruct (String.eqb k1 k0); [now right|].
  intros [H|H]; [now left | right; now apply IH].
Qed.

Lemma In_evict (order : list string) :
  forall (cache : JsMap.t RouteSegment) k s,
    In (k, s) (fst (evict cache order)) -> In (k, s) cache.
Proof.
  induction order as [|oldest rest IH]; intros cache k s; cbn [evict]; [tauto|].
  destruct (MAX_SEGMENT_CACHE_SIZE <=? JsMap.size cache); [|tauto].
  intros H. apply IH in H. destruct (Str.truthy oldest); [|exact H].
  now apply segment_In_delete in H.
Qed.

Lemma cacheSegment_keyed (segment : RouteSegment) (vehicleType : VehicleType) :
  preserves segment_keyed
    (cacheSegment (generateSegmentKey (from segment) (to segment) vehicleType) segment).
Proof.
  intros w Hw k s. rewrite cacheSegment_spec.
  cbn [snd segmentCache set_segmentCacheOrder set_segmentCache]. intros Hin.
  apply segment_In_set in Hin. destruct Hin as [[= -> ->]|Hin]; [now exists vehicleType|].
  apply In_evict in Hin. now apply (Hw k).
Qed.

Lemma calculateSegment_keyed (M : MathImpl) (E : Env) (from to : Location)
  (vehicleType : VehicleType) :
  preserves segment_keyed (calculateSegment M E from to vehicleType).
Proof.
  apply preserves_calculateSegment.
  - intros w Hw. exact Hw.
  - apply cacheSegment_keyed.
Qed.

End KeyedFacts.

Lemma for_each_Forall2 {A B : Type} (R : A -> B -> Prop) (Inv : World -> Prop)
  (l : list A) (body : list B -> A -> Comp (list B)) :
  (forall acc x w acc' w',
     Inv w -> body acc x w = (Ok acc', w') ->
     Inv w' /\ exists b, acc' = acc ++ [b] /\ R x b) ->
  forall acc w acc' w',
    Inv w -> for_each l body acc w = (Ok acc', w') ->
    Inv w' /\ exists bs, acc' = acc ++ bs /\ Forall2 R l bs.
Proof.
  intros Hbody. induction l as [|x l IH]; intros acc w acc' w' Hw; cbn [for_each].
  - unfold ret. intros [= <- <-]. split; [exact Hw|].
    exists []. split; [now rewrite app_nil_r | constructor].
  - intros Hrun. apply bind_Ok_inv in Hrun. destruct Hrun as (acc1 & w1 & Hx & Hrest).
    destruct (Hbody _ _ _ _ _ Hw Hx) as (Hw1 & b & -> & Hb).
    destruct (IH _ _ _ _ Hw1 Hrest) as (Hw' & bs & -> & Hbs).
    split; [exact Hw'|]. exists (b :: bs).
    split; [now rewrite <- app_assoc | now constructor].
Qed.

Lemma Forall2_seq_nth {A : Type} (l : list A) (len : nat) :
  forall (start : nat) (ys : list A),
    Forall2 (fun i y => nth_error l i = Some y) (seq start len) ys ->
    ys = firstn len (skipn start l).
Proof.
  induction len as [|len IH]; intros start ys H; cbn [seq] in H.
  - inversion H. reflexivity.
  - inversion H as [|i y rest ys' Hy Hrest]; subst.
    apply IH in Hrest. rewrite Hrest.
    clear - Hy. revert l Hy. induction start as [|start IHs]; intros [|x l] Hy;
      try discriminate Hy.
    + simpl in Hy. injection Hy as ->. reflexivity.
    + simpl in Hy. cbn [skipn]. now apply IHs.
Qed.

Lemma at_index_Ok_inv {A : Type} (l : list A) (i : nat) (w w' : World) (x : A) :
  at_index l i w = (Ok x, w') -> nth_error l i = Some x /\ w' = w.
Proof.
  unfold at_index. destruct (nth_error l i) as [y|]; [|discriminate].
  unfold ret. intros [= -> ->]. now split.
Qed.

Section Chain.

Context (M : MathImpl) (E : Env).

(** The ends of the segment returned have the identifiers of the stops
    asked for, when these hold no dash. *)
Lemma calculateSegment_ends (a b : Location) (vehicleType : VehicleType)
  (w w' : World) (segment : RouteSegment) :
  segment_keyed w ->
  SegmentKeyFacts.dash_free (id a) = true ->
  SegmentKeyFacts.dash_free (id b) = true ->
  calculateSegment M E a b vehicleType w = (Ok segment, w') ->
  segment_keyed w' /\ id (from segment) = id a /\ id (to segment) = id b.
Proof.
  intros Hw Ha Hb Hrun.
  assert (Hw' : segment_keyed w').
  { pose proof (@KeyedFacts.calculateSegment_keyed M E a b vehicleType w Hw) as H.
    now rewrite Hrun in H. }
  split; [exact Hw'|].
  apply calculateSegment_cached in Hrun. destruct Hrun as (_ & _ & Hget).
  apply JsMapFacts.get_In in Hget. destruct (Hw' _ _ Hget) as [v Hkey].
  apply SegmentKeyFacts.key_inj in Hkey; [|assumption|assumption].
  destruct Hkey as (H1 & H2 & _). now split.
Qed.

(** The stops a segment of the route joins, by their places in the
    order. *)
Definition joins (ids : list string) (i j : nat) (segment : RouteSegment) : Prop :=
  nth_error ids i = Some (id (from segment)) /\
  nth_error ids j = Some (id (to segment)).

Lemma calculateRouteSegments_joins (stops : list Location) (vehicleType : VehicleType)
  (loop : bool) (w w' : World) (segs : list RouteSegment) :
  segment_keyed w ->
  forallb (fun x => SegmentKeyFacts.dash_free (id x)) stops = true ->
  calculateRouteSegments M E stops vehicleType loop w = (Ok segs, w') ->
  segment_keyed w' /\
  exists forward closing,
    segs = forward ++ closing /\
    Forall2 (fun i s => joins (map id stops) i (i + 1) s)
      (seq 0 (List.length stops - 1)) forward /\
    (if loop && (2 <? List.length stops)
     then exists s, closing = [s] /\ joins (map id stops) (List.length stops - 1) 0 s
     else closing = []).
Proof.
  intros Hw Hids Hrun. rewrite forallb_forall in Hids.
  assert (Hstep : forall (x y : Location) i j w0 w1 s,
            segment_keyed w0 ->
            nth_error stops i = Some x -> nth_error stops j = Some y ->
            calculateSegment M E x y vehicleType w0 = (Ok s, w1) ->
            segment_keyed w1 /\ joins (map id stops) i j s).
  { intros x y i j w0 w1 s H0 Hx Hy Hs.
    destruct (@calculateSegment_ends x y vehicleType w0 w1 s H0) as (H1 & Hf & Ht);
      [apply Hids; now apply nth_error_In in Hx
      |apply Hids; now apply nth_error_In in Hy
      |exact Hs|].
    split; [exact H1|]. unfold joins. rewrite !nth_error_map, Hx, Hy, Hf, Ht. now split. }
  unfold calculateRouteSegments in Hrun.
  apply bind_Ok_inv in Hrun. destruct Hrun as (forward & w1 & Hloop & Hrun).
  apply (@for_each_Forall2 _ _ (fun i s => joins (map id stops) i (i + 1) s) segment_keyed)
    in Hloop; [|clear Hloop Hrun|exact Hw].
  - destruct Hloop as (Hw1 & bs & Hforward & Hall). cbn [app] in Hforward. subst bs.
    destruct (loop && (2 <? List.length stops)).
    + apply bind_Ok_inv in Hrun. destruct Hrun as (x & w2 & Hx & Hrun).
      apply at_index_Ok_inv in Hx. destruct Hx as [Hx ->].
      apply bind_Ok_inv in Hrun. destruct Hrun as (y & w3 & Hy & Hrun).
      apply at_index_Ok_inv in Hy. destruct Hy as [Hy ->].
      apply bind_Ok_inv in Hrun. destruct Hrun as (s & w4 & Hs & Hret).
      unfold ret in Hret. injection Hret as <- <-.
      destruct (Hstep _ _ _ _ _ _ _ Hw1 Hx Hy Hs) as [Hw4 Hj].
      split; [exact Hw4|]. exists forward, [s].
      split; [reflexivity|]. split; [exact Hall|]. now exists s.
    + unfold ret in Hrun. injection Hrun as <- <-.
      split; [exact Hw1|]. exists forward, [].
      split; [now rewrite app_nil_r|]. split; [exact Hall | reflexivity].
  - intros acc i w0 acc' w0' H0 Hbody.
    apply bind_Ok_inv in Hbody. destruct Hbody as (x & w2 & Hx & Hbody).
    apply at_index_Ok_inv in Hx. destruct Hx as [Hx ->].
    apply bind_Ok_inv in Hbody. destruct Hbody as (y & w3 & Hy & Hbody).
    apply at_index_Ok_inv in Hy. destruct Hy as [Hy ->].
    apply bind_Ok_inv in Hbody. destruct Hbody as (s & w4 & Hs & Hret).
    unfold ret in Hret. injection Hret as <- <-.
    destruct (Hstep _ _ _ _ _ _ _ H0 Hx Hy Hs) as [Hw4 Hj].
    split; [exact Hw4|]. now exists s.
Qed.

End Chain.

Lemma Forall2_map_r {A B C : Type} (R : A -> C -> Prop) (f : B -> C)
  (l : list A) (ys : list B) :
  Forall2 (fun x y => R x (f y)) l ys -> Forall2 R l (map f ys).
Proof. induction 1; simpl; constructor; assumption. Qed.

Lemma Forall2_impl_l {A B : Type} (R R' : A -> B -> Prop) (l : list A) (ys : list B) :
  (forall x y, R x y -> R' x y) -> Forall2 R l ys -> Forall2 R' l ys.
Proof. intros H. induction 1; constructor; auto. Qed.

Lemma nth_error_tl {A : Type} (l : list A) (i : nat) :
  nth_error l (i + 1) = nth_error (tl l) i.
Proof. rewrite Nat.add_1_r. destruct l; [now destruct i | reflexivity]. Qed.

Lemma last_split {A : Type} (l : list A) (x : A) :
  nth_error l (List.length l - 1) = Some x -> l = firstn (List.length l - 1) l ++ [x].
Proof.
  intros H. rewrite <- (firstn_skipn (List.length l - 1) l) at 1. f_equal.
  assert (Hlen : List.length (skipn (List.length l - 1) l) = 1).
  { rewrite length_skipn. assert (List.length l <> 0); [|lia].
    intros H0. apply length_zero_iff_nil in H0. subst l. discriminate H. }
  pose proof (@Forall2_seq_nth _ l 1 (List.length l - 1) [x]) as Hs.
  rewrite Hs by (cbn [seq]; repeat constructor; exact H).
  destruct (skipn (List.length l - 1) l) as [|y [|z r]]; try discriminate Hlen.
  reflexivity.
Qed.

(** The stops a list of segments should leave from, and arrive at. *)
Definition departures (loop : bool) (stops : list Location) : list Location :=
  if loop && (2 <? List.length stops) then stops else removelast stops.

Definition arrivals (loop : bool) (stops : list Location) : list Location :=
  if loop && (2 <? List.length stops) then tl stops ++ firstn 1 stops else tl stops.

Lemma segments_chain
  (M : MathImpl) (E : Env) (stops : list Location) (vehicleType : VehicleType)
  (loop : bool) (w w' : World) (segs : list RouteSegment)
  (Hkeyed : segment_keyed w)
  (Hids : forallb (fun x => negb (Str.has "-" (id x))) stops = true)
  (Hrun : calculateRouteSegments M E stops vehicleType loop w = (Ok segs, w')) :
  map (fun s => id (from s)) segs = map id (departures loop stops) /\
  map (fun s => id (to s)) segs = map id (arrivals loop stops) /\
  segment_keyed w'.
Proof.
  unfold departures, arrivals.
  destruct (@calculateRouteSegments_joins M E stops vehicleType loop w w' segs
              Hkeyed Hids Hrun) as (Hw' & forward & closing & -> & Hall & Hclosing).
  set (ids := map id stops) in *.
  assert (Hlen : List.length ids = List.length stops) by apply length_map.
  assert (Hfrom : map (fun s => id (from s)) forward = firstn (List.length stops - 1) ids).
  { rewrite (@Forall2_seq_nth _ ids (List.length stops - 1) 0
               (map (fun s => id (from s)) forward)); [reflexivity|].
    apply Forall2_map_r. revert Hall. apply Forall2_impl_l. intros i s [H _]. exact H. }
  assert (Hto : map (fun s => id (to s)) forward = tl ids).
  { rewrite (@Forall2_seq_nth _ (tl ids) (List.length stops - 1) 0
               (map (fun s => id (to s)) forward)).
    - cbn [skipn]. apply firstn_all2. destruct ids; simpl in *; lia.
    - apply Forall2_map_r. revert Hall. apply Forall2_impl_l.
      intros i s [_ H]. now rewrite <- nth_error_tl. }
  assert (Hremovelast : map id (removelast stops) = firstn (List.length stops - 1) ids).
  { rewrite removelast_firstn_len. unfold ids. rewrite firstn_map.
    now rewrite Nat.sub_1_r. }
  assert (Htl : map id (tl stops) = tl ids) by (unfold ids; now destruct stops).
  split; [|split; [|exact Hw']]; rewrite map_app.
  - destruct (loop && (2 <? List.length stops)).
    + destruct Hclosing as (s & -> & Hs & _). cbn [map]. rewrite Hfrom.
      rewrite <- Hlen in *. fold ids. symmetry. now apply last_split.
    + subst closing. cbn [map]. now rewrite app_nil_r, Hfrom, Hremovelast.
  - destruct (loop && (2 <? List.length stops)).
    + destruct Hclosing as (s & -> & _ & Hs). cbn [map]. rewrite Hto, map_app, Htl.
      f_equal. unfold ids in Hs. destruct stops as [|x stops]; [discriminate Hs|].
      simpl in Hs. injection Hs as Hs. simpl. now rewrite Hs.
    + subst closing. cbn [map]. now rewrite app_nil_r, Hto, Htl.
Qed.

(** X12.  In a world whose cached segments are under keys of their own
    stops, for stops whose identifiers hold no dash: the segments
    [calculateRouteSegments] returns chain the stops in order, each
    from a stop to the next by their identifiers, with one more from
    the last stop back to the first in a loop of more than two stops;
    and the world left is such a world again. *)
Theorem calculateRouteSegments_chain
  (M : MathImpl) (E : Env) (stops : list Location) (vehicleType : VehicleType)
  (loop : bool) (w w' : World) (segs : list RouteSegment)
  (Hkeyed : segment_keyed w)
  (Hids : forallb (fun x => negb (Str.has "-" (id x))) stops = true)
  (Hrun : calculateRouteSegments M E stops vehicleType loop w = (Ok segs, w')) :
  map (fun s => id (from s)) segs = map id (departures loop stops) /\
  map (fun s => id (to s)) segs = map id (arrivals loop stops) /\
  segment_keyed w'.
Proof. eapply segments_chain; eassumption. Qed.

Lemma calculateRouteSegments_chain_witness :
  exists segs w',
    calculateRouteSegments PolyMath.impl offline kite car true initial_world = (Ok segs, w') /\
    map (fun s => id (from s)) segs = ["S"; "A"; "B"; "C"]%string /\
    map (fun s => id (to s)) segs = ["A"; "B"; "C"; "S"]%string /\
    segment_keyed w'.
Proof.
  destruct (calculateRouteSegments PolyMath.impl offline kite car true initial_world)
    as [[segs|message|] w'] eqn:Hrun.
  - exists segs, w'. split; [reflexivity|].
    apply (@calculateRouteSegments_chain PolyMath.impl offline kite car true
             initial_world w' segs); [intros k s []|reflexivity|exact Hrun].
  - vm_compute in Hrun. discriminate Hrun.
  - vm_compute in Hrun. discriminate Hrun.
Defined.

Section Computed.

Context (M : MathImpl) (E : Env).



End Computed.



Example computed_route_chain :
  match fst (calculateRoute PolyMath.impl offline 4 paris_loop_request initial_world) with
  | Ok response =>
      (map (fun s => id (from s)) (segments (route response)),
       map (fun s => id (to s)) (segments (route response)))
  | _ => ([], [])
  end = (["S"; "A"; "B"; "C"]%string, ["A"; "B"; "C"; "S"]%string).
Proof. vm_compute. reflexivity. Qed.

(* ------------------------------------------------------------------ *)
(** ** The sequencer: locked stops stay where they are locked *)

Module PositionFacts.

Section Merge.

Context (n : nat) (lockedLocations optimized : list Location).

Hypothesis Hrange : forallb (MergeFacts.in_range n) lockedLocations = true.
Hypothesis Hdistinct : NoDup (map order lockedLocations).
Hypothesis Hcount : List.length lockedLocations + List.length optimized = n.

(** After positions [0 .. i-1]: every locked stop of one of these
    positions is at its position. *)
Definition placed (i : nat) (state : list Location * nat) : Prop :=
  MergeFacts.merged lockedLocations optimized i state /\
  forall x o, In x lockedLocations -> order x = Some (Z.of_nat o) -> o < i ->
              nth_error (fst state) o = Some x.

Lemma mergeStep_placed (i : nat) (state : list Location * nat) :
  i < n -> placed i state -> placed (S i) (mergeStep lockedLocations optimized state i).
Proof.
  intros Hi [Hmerged Hplaced].
  split; [now apply (@MergeFacts.mergeStep_merged n lockedLocations optimized Hrange Hdistinct Hcount)|].
  destruct Hmerged as (_ & _ & Hlen). destruct state as [result idx]. cbn [fst snd] in *.
  intros x o Hx Ho Hlt. unfold mergeStep.
  destruct (JsArray.find (order_is i) lockedLocations) as [y|] eqn:Hfind.
  - cbn [fst]. destruct (Nat.eq_dec o i) as [->|Hne].
    + rewrite nth_error_app2 by lia. rewrite Hlen, Nat.sub_diag. cbn. f_equal.
      pose proof (@MergeFacts.position_taken_once i lockedLocations y Hdistinct Hfind) as Hone.
      assert (Hin : In x (filter (order_is i) lockedLocations)).
      { apply filter_In. split; [exact Hx|]. unfold order_is. rewrite Ho.
        apply Z.eqb_refl. }
      rewrite Hone in Hin. destruct Hin as [<-|[]]. reflexivity.
    + rewrite nth_error_app1 by lia. apply Hplaced; [assumption|assumption|lia].
  - assert (Hne : o <> i).
    { intros ->. unfold JsArray.find in Hfind.
      pose proof (find_none _ _ Hfind x Hx) as Hnone.
      unfold order_is in Hnone. rewrite Ho, Z.eqb_refl in Hnone. discriminate Hnone. }
    assert (Hold : nth_error result o = Some x) by (apply Hplaced; [assumption|assumption|lia]).
    destruct (nth_error optimized idx); cbn [fst]; [|exact Hold].
    rewrite nth_error_app1 by lia. exact Hold.
Qed.

Lemma mergeLocked_placed (x : Location) (o : Z) :
  In x lockedLocations -> order x = Some o ->
  nth_error (mergeLocked n lockedLocations optimized) (Z.to_nat o) = Some x.
Proof.
  intros Hx Ho. unfold mergeLocked.
  pose proof (@fold_seq_invariant _ placed (mergeStep lockedLocations optimized)
                n 0 ([], 0)) as Hfold.
  cbn [Nat.add] in Hfold.
  destruct Hfold as [_ Hplaced].
  - split.
    + split; [|split]; cbn [fst snd]; [|lia|reflexivity].
      rewrite filter_none; [apply perm_nil|].
      intros y Hy. destruct (@MergeFacts.locked_order n lockedLocations optimized Hrange Hcount y Hy) as (oy & Hoy & Hr).
      unfold MergeFacts.below. rewrite Hoy. apply Z.ltb_ge. lia.
    + intros y oy _ _ Hlt. lia.
  - intros i s Hi. apply mergeStep_placed. lia.
  - destruct (@MergeFacts.locked_order n lockedLocations optimized Hrange Hcount x Hx) as (o' & Ho' & Hr).
    assert (o' = o) by congruence. subst o'.
    apply Hplaced; [exact Hx | rewrite Ho; f_equal; lia | lia].
Qed.

End Merge.

(** A list sorted by position index whose indices are distinct and fill
    [lo .. lo + length - 1] has each stop at its index. *)
Lemma sorted_positions (l : list Location) :
  forall lo : nat,
    StronglySorted SortFacts.by_order l ->
    NoDup (map order l) ->
    (forall x, In x l ->
       exists o, order x = Some o /\
                 (Z.of_nat lo <= o < Z.of_nat (lo + List.length l))%Z) ->
    forall i x, nth_error l i = Some x -> order x = Some (Z.of_nat (lo + i)).
Proof.
  induction l as [|a l IH]; intros lo Hsorted Hnodup Hrange i x Hnth;
    [destruct i; discriminate Hnth|].
  inversion Hsorted as [|? ? Hs Ha]; subst.
  cbn [map] in Hnodup. inversion Hnodup as [|? ? Hfresh Hnd]; subst.
  destruct (Hrange a (or_introl eq_refl)) as (oa & Hoa & Hra).
  assert (Hrest : forall y, In y l ->
            exists o, order y = Some o /\
                      (Z.of_nat (Z.to_nat oa + 1) <= o < Z.of_nat (lo + S (List.length l)))%Z).
  { intros y Hy. destruct (Hrange y (or_intror Hy)) as (oy & Hoy & Hry).
    exists oy. split; [exact Hoy|].
    rewrite Forall_forall in Ha. specialize (Ha y Hy).
    unfold SortFacts.by_order, order_or_0 in Ha. rewrite Hoa, Hoy in Ha.
    assert (oy <> oa).
    { intros ->. apply Hfresh. rewrite Hoa, <- Hoy. now apply in_map. }
    cbn [List.length] in Hry. lia. }
  pose proof (@MergeFacts.positions_pigeonhole (Z.to_nat oa + 1) (lo + S (List.length l))
                l Hnd Hrest) as Hpigeon.
  assert (Hlo : oa = Z.of_nat lo) by (cbn [List.length] in Hra; lia).
  destruct i as [|i]; cbn [nth_error] in Hnth.
  - injection Hnth as <-. rewrite Hoa, Hlo. f_equal. lia.
  - replace (lo + S i) with (S lo + i) by lia.
    apply (IH (S lo) Hs Hnd); [|exact Hnth].
    intros y Hy. destruct (Hrest y Hy) as (oy & Hoy & Hry).
    exists oy. split; [exact Hoy|]. lia.
Qed.

End PositionFacts.

(** X14.  For at least three stops with pairwise distinct identifiers,
    every locked stop carrying a position index of its own among
    [0 .. n-1]: in the order [optimizeLocationOrder] returns, every
    locked stop is at the place its position index names, whatever the
    method, the loop flag and the providers. *)
Theorem locked_stops_keep_position
  (M : MathImpl) (E : Env) (fuel : nat) (stops : list Location)
  (method : OptimizationMethod) (loop : bool) (vehicle : VehicleType)
  (w w' : World) (output after : list Location) (x : Location) (o : Z)
  (Hlen : 3 <= List.length stops)
  (Hids : NoDup (map id stops))
  (Hplaced : well_placed stops)
  (Hrun : optimizeLocationOrder M E fuel stops method loop vehicle w
          = (Ok (output, after), w'))
  (Hx : In x stops)
  (Hlocked : locked x = true)
  (Ho : order x = Some o) :
  nth_error output (Z.to_nat o) = Some x.
Proof.
  destruct Hplaced as [Hrange Hdistinct].
  unfold optimizeLocationOrder in Hrun.
  replace (List.length stops <=? 2) with false in Hrun
    by (symmetry; apply Nat.leb_gt; lia).
  destruct (List.length (filter (fun loc => negb (locked loc)) stops) =? 0) eqn:Hunlocked.
  - (* every stop is locked: the sorted list *)
    unfold ret in Hrun. injection Hrun as <- _ _.
    assert (Hall : filter locked stops = stops).
    { apply forallb_filter_id, forallb_forall. intros y Hy.
      destruct (locked y) eqn:Hl; [reflexivity|].
      apply Nat.eqb_eq, length_zero_iff_nil in Hunlocked.
      assert (Hin : In y (filter (fun loc => negb (locked loc)) stops))
        by (apply filter_In; split; [exact Hy | now rewrite Hl]).
      rewrite Hunlocked in Hin. destruct Hin. }
    rewrite Hall in Hrange, Hdistinct.
    pose proof (SortFacts.sort_perm compareOrder stops) as Hperm.
    assert (Hin : In x (JsArray.sort compareOrder stops))
      by (apply (Permutation_in _ Hperm); exact Hx).
    apply In_nth_error in Hin. destruct Hin as [i Hi].
    assert (Hoi : order x = Some (Z.of_nat (0 + i))).
    { apply (@PositionFacts.sorted_positions (JsArray.sort compareOrder stops) 0
               (SortFacts.sort_sorted stops)) with (x := x); [| |exact Hi].
      - apply (Permutation_NoDup (Permutation_map order Hperm) Hdistinct).
      - intros y Hy. apply (Permutation_in _ (Permutation_sym Hperm)) in Hy.
        rewrite forallb_forall in Hrange. specialize (Hrange y Hy).
        unfold MergeFacts.in_range in Hrange.
        destruct (order y) as [oy|]; [|discriminate].
        exists oy. split; [reflexivity|].
        rewrite <- (Permutation_length Hperm). lia. }
    rewrite Ho in Hoi. injection Hoi as ->. cbn [Nat.add].
    now rewrite Nat2Z.id.
  - (* the merge *)
    apply bind_Ok_inv in Hrun. destruct Hrun as (optimized & w1 & Hopt & Hret).
    unfold ret in Hret. injection Hret as <- _ _.
    apply optimized_returns in Hopt; [|now apply filter_not_empty].
    destruct Hopt as (_ & _ & Hperm).
    specialize (Hperm (NoDup_map_filter id _ stops Hids)).
    apply (@PositionFacts.mergeLocked_placed (List.length stops) (filter locked stops)
             optimized Hrange Hdistinct).
    + rewrite <- (Permutation_length Hperm). apply filter_length.
    + apply filter_In. now split.
    + exact Ho.
Qed.

(** Five stops, two of them locked, at the second and at the last
    place. *)
Definition two_pinned : list Location :=
  [stop "A" 48.86 2.30; locked_stop "Z" 48.70 2.20 (Some 4%Z); stop "B" 49.10 2.36;
   locked_stop "P" 48.90 2.50 (Some 1%Z); stop "C" 48.85 2.41].

Lemma locked_stops_keep_position_witness :
  match optimizeLocationOrder PolyMath.impl offline 5 two_pinned
          shortest_distance false car initial_world with
  | (Ok (output, _), _) =>
      nth_error output (Z.to_nat 4) = Some (locked_stop "Z" 48.70 2.20 (Some 4%Z))
  | _ => False
  end.
Proof.
  destruct (optimizeLocationOrder PolyMath.impl offline 5 two_pinned
              shortest_distance false car initial_world)
    as [[[output after]|message|] w'] eqn:Hrun.
  - apply (@locked_stops_keep_position PolyMath.impl offline 5 two_pinned
             shortest_distance false car initial_world w' output after
             (locked_stop "Z" 48.70 2.20 (Some 4%Z)) 4%Z).
    + simpl. lia.
    + distinct_strings.
    + split; [reflexivity|]. simpl. repeat constructor; simpl; intuition discriminate.
    + exact Hrun.
    + right. now left.
    + reflexivity.
    + reflexivity.
  - vm_compute in Hrun. discriminate Hrun.
  - vm_compute in Hrun. discriminate Hrun.
Defined.

Example two_pinned_order :
  match fst (optimizeLocationOrder PolyMath.impl offline 5 two_pinned
               shortest_distance false car initial_world) with
  | Ok (output, _) => map id output
  | _ => []
  end = ["B"; "P"; "A"; "C"; "Z"]%string.
Proof. vm_compute. reflexivity. Qed.

(* ------------------------------------------------------------------ *)
(** ** The nearest-neighbour heuristics: the start and the greedy choice *)

Section Start.

Context (M : MathImpl) (method : OptimizationMethod).

(** Every tour the loop-aware optimisation evaluates leaves from the
    first stop. *)
Lemma strategies_start (fuel : nat) (start : Location) (others tour : list Location) :
  In (Some tour) (strategies M method fuel (start :: others)) ->
  hd_error tour = Some start.
Proof.
  unfold strategies. intros [H|[H|H]].
  - unfold findNearestNeighborLoop in H. apply placeWhile_perm in H.
    destruct H as [_ [placed ->]]. reflexivity.
  - apply findFarthestFirstLoop_perm in H. destruct H as (_ & [placed ->] & _).
    reflexivity.
  - apply in_map_iff in H. destruct H as (i & Hrun & _).
    unfold alternateSecond in Hrun.
    destruct (nth_error others i) as [second|]; [|now injection Hrun as <-].
    unfold optimizeFromSecondLocation in Hrun.
    destruct (JsArray.remove_at i others) as [|t toOptimize];
      [now injection Hrun as <-|].
    apply placeWhile_perm in Hrun. destruct Hrun as [_ [placed ->]]. reflexivity.
Qed.

End Start.

Lemma nearestNeighborOptimization_start
  (M : MathImpl) (fuel : nat) (stops : list Location) (method : OptimizationMethod)
  (loop : bool) (output : list Location) :
  nearestNeighborOptimization M fuel stops method loop = Some output ->
  hd_error output = hd_error stops.
Proof.
  intros Hrun. unfold nearestNeighborOptimization in Hrun.
  destruct stops as [|first [|second rest]]; try (now injection Hrun as <-).
  destruct (loop && (3 <=? List.length (first :: second :: rest))).
  - apply (@loopAwareOptimization_chosen M method
             (fun order => hd_error order = Some first) fuel
             (first :: second :: rest) output); [reflexivity| |exact Hrun].
    intros tour Hin. eapply strategies_start. exact Hin.
  - apply nearestWhile_perm in Hrun.
    + destruct Hrun as [_ [placed ->]]. reflexivity.
    + reflexivity.
    + repeat constructor. intros [].
    + intros x [<-|[]]. now left.
Qed.

(** X15.  Whatever the method and the mode, an order returned by
    [nearestNeighborOptimization] leaves from the first stop of the
    input, holds stops of the input only and, the identifiers being
    pairwise distinct, each of them once. *)
Theorem nearestNeighborOptimization_keeps_start
  (M : MathImpl) (fuel : nat) (stops : list Location) (method : OptimizationMethod)
  (loop : bool) (output : list Location)
  (Hrun : nearestNeighborOptimization M fuel stops method loop = Some output) :
  hd_error output = hd_error stops /\
  incl output stops /\
  (NoDup (map id stops) -> Permutation stops output).
Proof.
  split; [now apply nearestNeighborOptimization_start in Hrun|].
  apply nearestNeighborOptimization_perm in Hrun. tauto.
Qed.

Lemma nearestNeighborOptimization_keeps_start_witness :
  match nearestNeighborOptimization PolyMath.impl 4 kite shortest_distance true with
  | Some output =>
      hd_error output = hd_error kite /\
      incl output kite /\
      (NoDup (map id kite) -> Permutation kite output)
  | None => False
  end.
Proof.
  destruct (nearestNeighborOptimization PolyMath.impl 4 kite shortest_distance true)
    as [output|] eqn:Hrun.
  - exact (@nearestNeighborOptimization_keeps_start PolyMath.impl 4 kite
             shortest_distance true output Hrun).
  - vm_compute in Hrun. discriminate Hrun.
Defined.

(** Two stops under one identifier: the farthest-first tour of the loop
    mode keeps one of them only, and the order returned has lost a
    stop. *)
Example shared_identifier_drops_stop :
  option_map (map address)
    (nearestNeighborOptimization PolyMath.impl 4
       [stop "S" 48.60 2.35; stop "A" 48.86 2.30;
        {| id := "B"; address := "B1";
           coordinates := Some {| latitude := 49.10; longitude := 2.36 |};
           isLocked := None; lockPosition := None; order := None |};
        {| id := "B"; address := "B2";
           coordinates := Some {| latitude := 49.11; longitude := 2.37 |};
           isLocked := None; lockPosition := None; order := None |}]
       shortest_distance true)
  = Some ["S"; "B2"; "A"]%string.
Proof. vm_compute. reflexivity. Qed.

Section Greedy.

Context (M : MathImpl) (method : OptimizationMethod).

Local Open Scope float_scope.

(** From [a], the stop [c] does not score below the stop [b]. *)
Definition not_nearer (a b c : Location) : Prop :=
  forall ca cb cc,
    coordinates a = Some ca -> coordinates b = Some cb -> coordinates c = Some cc ->
    (nearestScore method (calculateDistance M ca cc)
     <? nearestScore method (calculateDistance M ca cb)) = false.

(** An order in which every stop is followed by one that no later stop
    beats, by the score from that stop. *)
Fixpoint greedy (current : Location) (placed : list Location) : Prop :=
  match placed with
  | [] => True
  | next :: rest =>
      (forall c, In c rest -> not_nearer current next c) /\ greedy next rest
  end.

Definition nearestStep (visited : JsSet.t) (current : Location)
  (acc : option Location * float) (location : Location) : option Location * float :=
  let '(nearest, bestScore) := acc in
  if JsSet.has (id location) visited then acc
  else
    match coordinates location, coordinates current with
    | Some cl, Some cc =>
        let distance := calculateDistance M cc cl in
        let score := nearestScore method distance in
        if score <? bestScore then (Some location, score) else acc
    | _, _ => acc
    end.

Lemma nearestScan_fold (visited : JsSet.t) (current : Location) (stops : list Location) :
  nearestScan M visited current method stops
  = fold_left (nearestStep visited current) stops (None, infinity).
Proof. reflexivity. Qed.

(** The score kept is the score of the stop kept. *)
Definition scored (current : Location) (acc : option Location * float) : Prop :=
  forall nearest, fst acc = Some nearest ->
    exists cc cn, coordinates current = Some cc /\ coordinates nearest = Some cn /\
                  snd acc = nearestScore method (calculateDistance M cc cn).

Lemma nearestStep_least (visited : JsSet.t) (current : Location) (stops : list Location) :
  forall acc : option Location * float,
    scored current acc ->
    let final := fold_left (nearestStep visited current) stops acc in
    scored current final /\
    (snd final = snd acc \/ (snd final <? snd acc) = true) /\
    forall c cc cl,
      In c stops -> JsSet.has (id c) visited = false ->
      coordinates current = Some cc -> coordinates c = Some cl ->
      (nearestScore method (calculateDistance M cc cl) <? snd final) = false.
Proof.
  induction stops as [|x stops IH]; intros acc Hacc; cbn [fold_left].
  - split; [exact Hacc|]. split; [now left|]. intros c cc cl [].
  - assert (Hstep : scored current (nearestStep visited current acc x) /\
              (snd (nearestStep visited current acc x) = snd acc \/
               (snd (nearestStep visited current acc x) <? snd acc) = true) /\
              forall cc cl,
                JsSet.has (id x) visited = false ->
                coordinates current = Some cc -> coordinates x = Some cl ->
                (nearestScore method (calculateDistance M cc cl)
                 <? snd (nearestStep visited current acc x)) = false).
    { unfold nearestStep. destruct acc as [nearest bestScore].
      destruct (JsSet.has (id x) visited);
        [split; [exact Hacc | split; [now left | discriminate]]|].
      destruct (coordinates x) as [cl|] eqn:Hcl;
        [|split; [exact Hacc | split; [now left | discriminate]]].
      destruct (coordinates current) as [cc|] eqn:Hcc;
        [|split; [exact Hacc | split; [now left | discriminate]]].
      cbv zeta.
      destruct (nearestScore method (calculateDistance M cc cl) <? bestScore) eqn:Hlt.
      - split; [|split].
        + intros n [= <-]. exists cc, cl. cbn [snd]. auto.
        + now right.
        + intros cc' cl' _ [= <-] [= <-]. apply FloatOrder.ltb_irrefl.
      - split; [exact Hacc|]. split; [now left|].
        intros cc' cl' _ [= <-] [= <-]. exact Hlt. }
    destruct Hstep as (Hscored & Hle & Hx).
    destruct (IH _ Hscored) as (Hfinal & Hle' & Hrest). cbv zeta in *.
    set (final := fold_left (nearestStep visited current) stops
                    (nearestStep visited current acc x)) in *.
    split; [exact Hfinal|]. split.
    + destruct Hle' as [->|Hlt']; [exact Hle|].
      destruct Hle as [<-|Hlt]; [now right|].
      right. eapply FloatOrder.ltb_trans; eassumption.
    + intros c cc cl [<-|Hc] Hvis Hcc Hcl; [|now apply (Hrest c)].
      specialize (Hx cc cl Hvis Hcc Hcl).
      destruct Hle' as [->|Hlt']; [exact Hx|].
      destruct (nearestScore method (calculateDistance M cc cl) <? snd final) eqn:Hc;
        [|reflexivity].
      rewrite <- Hx. symmetry. eapply FloatOrder.ltb_trans; eassumption.
Qed.

Lemma nearestWhile_greedy (stops : list Location) (fuel : nat) :
  forall (visited : JsSet.t) (result : list Location) (current : Location)
         (output : list Location),
    visited = map id result ->
    NoDup visited ->
    incl result stops ->
    nearestWhile M fuel stops method visited result current = Some output ->
    exists placed,
      output = result ++ placed /\
      NoDup (map id output) /\
      incl output stops /\
      greedy current placed.
Proof.
  assert (Hexit : forall visited result current,
            visited = map id result -> NoDup visited -> incl result stops ->
            exists placed,
              result = result ++ placed /\ NoDup (map id result) /\
              incl result stops /\ greedy current placed).
  { intros visited result current Hvis Hnodup Hincl. exists [].
    rewrite app_nil_r, <- Hvis. cbn [greedy]. auto. }
  induction fuel as [|fuel IH]; intros visited result current output Hvis Hnodup Hincl;
    cbn [nearestWhile];
    destruct (JsSet.size visited <? List.length stops)%nat eqn:Hcond;
    try discriminate; try (intros [= <-]; now apply (Hexit visited)).
  destruct (fst (nearestScan M visited current method stops)) as [nearest|] eqn:Hscan.
  - pose proof (nearestScan_Some _ _ _ _ _ Hscan) as (Hin & Hfresh & _ & _).
    intros Hrun. apply IH in Hrun.
    + destruct Hrun as (placed & -> & Hids & Hout & Hgreedy).
      exists (nearest :: placed). rewrite <- app_assoc in *. cbn [app] in *.
      split; [reflexivity|]. split; [exact Hids|]. split; [exact Hout|].
      cbn [greedy]. split; [|exact Hgreedy].
      intros c Hc ca cb cc Ha Hb Hcc.
      rewrite nearestScan_fold in Hscan.
      destruct (@nearestStep_least visited current stops (None, infinity))
        as (Hscored & _ & Hleast); [intros n; discriminate|].
      cbv zeta in Hscored, Hleast.
      destruct (Hscored nearest Hscan) as (ca' & cb' & Ha' & Hb' & Hscore).
      assert (ca' = ca) by congruence. assert (cb' = cb) by congruence. subst ca' cb'.
      rewrite <- Hscore. apply (Hleast c); try assumption.
      * apply Hout. apply in_or_app. right. right. exact Hc.
      * apply SetFacts.has_not_In. rewrite Hvis. intros Hseen.
        rewrite map_app in Hids. cbn [map] in Hids.
        revert Hids Hseen Hc. clear. intros Hids Hseen Hc.
        apply (in_map id) in Hc.
        induction (map id result) as [|r rs IHr]; [destruct Hseen|].
        cbn [app] in Hids. inversion Hids as [|? ? Hr Hrs]; subst.
        destruct Hseen as [->|Hseen]; [|now apply IHr].
        apply Hr. apply in_or_app. right. right. exact Hc.
    + rewrite SetFacts.add_new by exact Hfresh. rewrite map_app, Hvis. reflexivity.
    + now apply SetFacts.add_NoDup.
    + apply incl_app; [exact Hincl|]. intros x [<-|[]]. exact Hin.
  - now apply IH.
Qed.

End Greedy.

(** X16.  Outside the loop mode, the order [nearestNeighborOptimization]
    returns is greedy from the first stop of the input: each stop is
    followed by one that none of the stops placed later beats, by the
    score of the method computed from that stop. *)
Theorem nearestNeighborOptimization_greedy
  (M : MathImpl) (fuel : nat) (first : Location) (rest : list Location)
  (method : OptimizationMethod) (output : list Location)
  (Hrun : nearestNeighborOptimization M fuel (first :: rest) method false = Some output) :
  exists placed, output = first :: placed /\ greedy M method first placed.
Proof.
  unfold nearestNeighborOptimization in Hrun. cbn [andb] in Hrun.
  destruct rest as [|second rest].
  - injection Hrun as <-. exists []. cbn [greedy]. auto.
  - apply nearestWhile_greedy in Hrun.
    + destruct Hrun as (placed & -> & _ & _ & Hgreedy). now exists placed.
    + reflexivity.
    + repeat constructor. intros [].
    + intros x [<-|[]]. now left.
Qed.

Lemma nearestNeighborOptimization_greedy_witness :
  match nearestNeighborOptimization PolyMath.impl 4 kite fastest_time false with
  | Some output =>
      exists placed, output = stop "S" 48.60 2.35 :: placed /\
                     greedy PolyMath.impl fastest_time (stop "S" 48.60 2.35) placed
  | None => False
  end.
Proof.
  destruct (nearestNeighborOptimization PolyMath.impl 4 kite fastest_time false)
    as [output|] eqn:Hrun.
  - exact (@nearestNeighborOptimization_greedy PolyMath.impl 4 (stop "S" 48.60 2.35)
             [stop "A" 48.86 2.30; stop "B" 49.10 2.36; stop "C" 48.85 2.41]
             fastest_time output Hrun).
  - vm_compute in Hrun. discriminate Hrun.
Defined.

(* ------------------------------------------------------------------ *)
(** ** The orders tried by the bounded search: how many, and which *)

Lemma factorial_fact (n : nat) : factorial n = fact n.
Proof.
  induction n as [|n IH]; [reflexivity|].
  cbn [factorial]. destruct n as [|n]; [reflexivity|].
  replace (S (S n) <=? 1) with false by reflexivity.
  rewrite IH. reflexivity.
Qed.

Lemma remove_at_length {A : Type} (l : list A) (i : nat) :
  i < List.length l -> List.length (JsArray.remove_at i l) = List.length l - 1.
Proof.
  revert i. induction l as [|x l IH]; intros [|i]; simpl; try lia.
  intros Hi. rewrite IH by lia. lia.
Qed.

Lemma remove_at_NoDup {A : Type} (l : list A) (i : nat) :
  NoDup l -> NoDup (JsArray.remove_at i l).
Proof.
  intros Hnodup. destruct (nth_error l i) as [x|] eqn:Hnth.
  - apply remove_at_perm in Hnth.
    apply (Permutation_NoDup Hnth) in Hnodup. now inversion Hnodup.
  - now rewrite remove_at_out_of_range.
Qed.

Section Permutations.

Context {T : Type} (maxCount : nat).

(** What a call of [permute] adds to [result]: as many orders as fit
    below [maxCount], at most [count], each beginning with [current],
    the first of them [first]. *)
Definition pushed (count : nat) (first : list T) (is_pushed : list T -> Prop)
  (remaining : list T) (result result' : list (list T)) : Prop :=
  exists added,
    result' = result ++ added /\
    List.length added = Nat.min (maxCount - List.length result) count /\
    Forall is_pushed added /\
    (NoDup remaining -> NoDup added) /\
    (List.length result < maxCount -> 0 < count -> hd_error added = Some first).

Lemma permute_pushed (depth : nat) :
  forall (current remaining : list T) (result : list (list T)),
    List.length remaining <= depth ->
    pushed (fact (List.length remaining)) (current ++ remaining)
      (fun p => exists tail, p = current ++ tail)
      remaining result (permute depth maxCount current remaining result).
Proof.
  assert (Hfull : forall count first is_pushed remaining (result : list (list T)),
            (maxCount <=? List.length result) = true ->
            pushed count first is_pushed remaining result result).
  { intros count first is_pushed remaining result Hle. apply Nat.leb_le in Hle.
    exists []. rewrite app_nil_r. split; [reflexivity|].
    split; [cbn [List.length]; lia|]. split; [constructor|].
    split; [intros _; constructor | lia]. }
  assert (Hleaf : forall current (result : list (list T)),
            (maxCount <=? List.length result) = false ->
            pushed (fact 0) (current ++ []) (fun p => exists tail, p = current ++ tail)
              [] result (result ++ [current])).
  { intros current result Hlt. apply Nat.leb_gt in Hlt.
    exists [current]. split; [reflexivity|].
    split; [cbn [List.length fact]; lia|].
    split; [constructor; [exists []; symmetry; apply app_nil_r | constructor]|].
    split; [intros _; repeat constructor; intros []|].
    intros _ _. now rewrite app_nil_r. }
  induction depth as [|depth IH]; intros current remaining result Hdepth;
    cbn [permute]; destruct (maxCount <=? List.length result) eqn:Hcount;
    try (now apply Hfull);
    destruct remaining as [|r remaining]; try (now apply Hleaf);
    [cbn [List.length] in Hdepth; lia|].
  set (stops := r :: remaining) in *.
  set (step := fun (result : list (list T)) (i : nat) =>
                 match nth_error stops i with
                 | Some next =>
                     permute depth maxCount (current ++ [next])
                       (JsArray.remove_at i stops) result
                 | None => result
                 end).
  assert (Hloop : forall k a result,
            a + k <= List.length stops ->
            pushed (k * fact (List.length stops - 1))
              (current ++ nth a stops r :: JsArray.remove_at a stops)
              (fun p => exists i x tail,
                   a <= i < a + k /\ nth_error stops i = Some x /\
                   p = current ++ x :: tail)
              stops result (fold_left step (seq a k) result)).
  { clear result Hcount.
    induction k as [|k IHk]; intros a result Hk; cbn [seq fold_left].
    - exists []. rewrite app_nil_r. split; [reflexivity|].
      split; [cbn [List.length]; lia|]. split; [constructor|].
      split; [intros _; constructor | lia].
    - destruct (nth_error stops a) as [x|] eqn:Hx;
        [|apply nth_error_None in Hx; lia].
      unfold step at 2. rewrite Hx.
      assert (Hlen : List.length (JsArray.remove_at a stops) = List.length stops - 1)
        by (apply remove_at_length; lia).
      destruct (IH (current ++ [x]) (JsArray.remove_at a stops) result)
        as (added1 & -> & Hlen1 & Hform1 & Hnodup1 & Hhd1);
        [rewrite Hlen; subst stops; cbn [List.length] in *; lia|].
      destruct (IHk (S a) (result ++ added1)) as (added2 & -> & Hlen2 & Hform2 & Hnodup2 & _);
        [lia|].
      rewrite Hlen in Hlen1. rewrite length_app in Hlen2.
      exists (added1 ++ added2). split; [now rewrite app_assoc|]. split; [|split; [|split]].
      + rewrite length_app, Hlen1, Hlen2.
        replace (S k * fact (List.length stops - 1))
          with (fact (List.length stops - 1) + k * fact (List.length stops - 1))
          by (cbn [Nat.mul]; reflexivity).
        lia.
      + apply Forall_app. split.
        * eapply Forall_impl; [|exact Hform1].
          intros p [tail ->]. exists a, x, tail. rewrite <- app_assoc.
          split; [lia | split; [exact Hx | reflexivity]].
        * eapply Forall_impl; [|exact Hform2].
          intros p (i & y & tail & Hi & Hy & ->). exists i, y, tail.
          split; [lia | split; [exact Hy | reflexivity]].
      + intros Hnodup. apply NoDup_app.
        * apply Hnodup1. now apply remove_at_NoDup.
        * now apply Hnodup2.
        * intros p Hp1 Hp2.
          rewrite Forall_forall in Hform1, Hform2.
          destruct (Hform1 p Hp1) as [tail ->].
          destruct (Hform2 _ Hp2) as (i & y & tail' & Hi & Hy & Heq).
          rewrite <- app_assoc in Heq. apply app_inv_head in Heq.
          injection Heq as <- _.
          assert (a = i); [|lia].
          apply (proj1 (NoDup_nth_error stops) Hnodup); [lia | congruence].
      + intros Hroom _.
        rewrite (nth_error_nth _ _ r Hx).
        assert (Hfirst : hd_error added1
                         = Some ((current ++ [x]) ++ JsArray.remove_at a stops)).
        { apply Hhd1; [exact Hroom | apply lt_O_fact]. }
        rewrite <- app_assoc in Hfirst. cbn [app] in Hfirst.
        destruct added1; [discriminate Hfirst | exact Hfirst]. }
  destruct (Hloop (List.length stops) 0 result) as (added & -> & Hlen & Hform & Hnodup & Hhd);
    [lia|].
  exists added. split; [reflexivity|]. split; [|split; [|split]].
  - rewrite Hlen. subst stops. cbn [List.length]. rewrite Nat.sub_succ, Nat.sub_0_r.
    reflexivity.
  - eapply Forall_impl; [|exact Hform].
    intros p (i & x & tail & _ & _ & ->). now exists (x :: tail).
  - exact Hnodup.
  - intros Hroom _. apply Hhd; [exact Hroom|].
    subst stops. cbn [List.length]. rewrite Nat.sub_succ, Nat.sub_0_r.
    pose proof (lt_O_fact (List.length remaining)). lia.
Qed.

End Permutations.

(** X17.  [generatePermutations] returns [min (n!, maxCount)] orders of
    the [n] elements, [n!] being what [factorial] returns: each a
    permutation of the input, the input order first, and no order
    twice when no element is there twice. *)
Theorem generatePermutations_count {T : Type} (arr : list T) (maxCount : nat) :
  List.length (generatePermutations arr maxCount)
  = Nat.min (factorial (List.length arr)) maxCount /\
  (forall p, In p (generatePermutations arr maxCount) -> Permutation arr p) /\
  (0 < maxCount -> hd_error (generatePermutations arr maxCount) = Some arr) /\
  (NoDup arr -> NoDup (generatePermutations arr maxCount)).
Proof.
  split; [|split; [intros p; apply generatePermutations_perm|]];
    unfold generatePermutations;
    destruct (@permute_pushed T maxCount (List.length arr) [] arr [] (le_n _))
      as (added & Hadded & Hlen & _ & Hnodup & Hhd);
    cbn [app List.length] in *; rewrite Nat.sub_0_r in Hlen;
    rewrite Hadded, firstn_all2 by lia.
  - rewrite Hlen, factorial_fact. apply Nat.min_comm.
  - split; [|exact Hnodup].
    intros Hmax. apply Hhd; [exact Hmax | apply lt_O_fact].
Qed.

(* ------------------------------------------------------------------ *)
(** ** The departure in the bounded search *)

Lemma permute_full {T : Type} (depth maxCount : nat) (current remaining : list T)
  (result : list (list T)) :
  maxCount <= List.length result ->
  permute depth maxCount current remaining result = result.
Proof.
  intros Hfull. apply Nat.leb_le in Hfull.
  destruct depth; cbn [permute]; now rewrite Hfull.
Qed.

(** When no more orders are asked for than there are with the first
    element in place, every order returned begins with it. *)
Lemma generatePermutations_head {T : Type} (arr : list T) (maxCount : nat) (p : list T) :
  maxCount <= fact (List.length arr - 1) ->
  In p (generatePermutations arr maxCount) ->
  hd_error p = hd_error arr.
Proof.
  intros Hmax. unfold generatePermutations.
  destruct arr as [|r rest]; cbn [List.length permute].
  - destruct (maxCount <=? 0); [now destruct maxCount|].
    destruct maxCount; [intros []|]. intros [<-|Hin]; [reflexivity|].
    now destruct maxCount.
  - destruct (maxCount <=? 0) eqn:Hzero; [now destruct maxCount|].
    apply Nat.leb_gt in Hzero.
    cbn [List.length Nat.sub] in Hmax. rewrite Nat.sub_0_r in Hmax.
    cbn [seq fold_left nth_error JsArray.remove_at].
    destruct (@permute_pushed T maxCount (List.length rest) ([] ++ [r]) rest []
                (le_n _)) as (added & -> & Hlen & Hform & _ & _).
    cbn [app List.length] in *. rewrite Nat.sub_0_r in Hlen.
    assert (Hidle : forall l,
              fold_left
                (fun result i =>
                   match nth_error (r :: rest) i with
                   | Some next =>
                       permute (List.length rest) maxCount ([] ++ [next])
                         (JsArray.remove_at i (r :: rest)) result
                   | None => result
                   end) l added = added).
    { induction l as [|i l IH]; cbn [fold_left]; [reflexivity|].
      destruct (nth_error (r :: rest) i); [|exact IH].
      rewrite permute_full by lia. exact IH. }
    rewrite Hidle. intros Hin.
    assert (Hp : In p added).
    { rewrite <- (firstn_skipn maxCount added). apply in_or_app. now left. }
    rewrite Forall_forall in Hform. destruct (Hform p Hp) as [tail ->]. reflexivity.
Qed.

Lemma mergeLocked_unlocked (n : nat) (optimized : list Location) :
  mergeLocked n [] optimized = firstn n optimized.
Proof.
  unfold mergeLocked.
  pose proof (@fold_seq_invariant _
                (fun i state => state = (firstn i optimized,
                                         Nat.min i (List.length optimized)))
                (mergeStep [] optimized) n 0 ([], 0)) as Hfold.
  cbn [Nat.add] in Hfold. rewrite Hfold; [reflexivity|reflexivity|].
  intros i s _ ->. unfold mergeStep. cbn [JsArray.find find].
  destruct (Nat.lt_ge_cases i (List.length optimized)) as [Hlt|Hge].
  - rewrite Nat.min_l by lia.
    destruct (nth_error optimized i) as [x|] eqn:Hx;
      [|apply nth_error_None in Hx; lia].
    rewrite (firstn_next _ _ Hx). f_equal. lia.
  - rewrite Nat.min_r by lia.
    destruct (nth_error optimized (List.length optimized)) as [x|] eqn:Hx;
      [apply nth_error_Some_lt in Hx || (assert (Hsome : nth_error optimized (List.length optimized) <> None) by congruence; apply nth_error_Some in Hsome); lia|].
    rewrite !firstn_all2 by lia. f_equal. lia.
Qed.

Section Departure.

Context (M : MathImpl) (E : Env).

(** The order returned by the bounded search is the input order, the
    nearest-neighbour order or one of the permutations tried. *)
Lemma advancedOptimization_chosen (Q : list Location -> Prop) (fuel : nat)
  (stops : list Location) (method : OptimizationMethod) (loop : bool)
  (vehicle : VehicleType) (w w' : World) (output : list Location) :
  Q stops ->
  (forall order,
     nearestNeighborOptimization M fuel stops method loop = Some order -> Q order) ->
  (forall permutation,
     List.length stops <= 6 ->
     In permutation
       (generatePermutations stops
          (Nat.min (Nat.min (factorial (List.length stops)) 120) 20)) ->
     Q permutation) ->
  advancedOptimization M E fuel stops method loop vehicle w = (Ok output, w') ->
  Q output.
Proof.
  intros Hstops Hnearest Hperms. unfold advancedOptimization.
  destruct (List.length stops <=? 1); [unfold ret; now intros [= <- _]|].
  intros Hrun. apply bind_Ok_inv in Hrun.
  destruct Hrun as (nearestNeighborResult & w1 & Hnn & Hrun).
  apply lift_option_Ok in Hnn. destruct Hnn as [Hnn ->].
  apply bind_Ok_inv in Hrun. destruct Hrun as (nearestScore & w2 & _ & Hrun).
  assert (Hfirst : Q (fst (keep_best (stops, infinity) nearestNeighborResult nearestScore))).
  { unfold keep_best. destruct_if; cbn [fst]; [now apply Hnearest | exact Hstops]. }
  destruct (List.length stops <=? 6) eqn:Hsix.
  - apply Nat.leb_le in Hsix.
    apply bind_Ok_inv in Hrun. destruct Hrun as (best & w3 & Hloop & Hret).
    unfold ret in Hret. injection Hret as <- _.
    revert Hloop. apply (for_each_invariant (fun best => Q (fst best))); [|exact Hfirst].
    intros best0 permutation w0 best1 w1 Hin Hbest Hbody.
    apply bind_Ok_inv in Hbody. destruct Hbody as (score & w4 & _ & Hret).
    unfold ret in Hret. injection Hret as <- _.
    unfold keep_best. destruct_if; cbn [fst]; [|exact Hbest].
    now apply Hperms.
  - unfold ret in Hrun. now injection Hrun as <- _.
Qed.

Lemma advancedOptimization_start (fuel : nat)
  (stops : list Location) (method : OptimizationMethod) (loop : bool)
  (vehicle : VehicleType) (w w' : World) (output : list Location) :
  5 <= List.length stops ->
  advancedOptimization M E fuel stops method loop vehicle w = (Ok output, w') ->
  hd_error output = hd_error stops.
Proof.
  intros Hfive.
  apply (@advancedOptimization_chosen (fun order => hd_error order = hd_error stops)).
  - reflexivity.
  - intros order Hrun. now apply nearestNeighborOptimization_start in Hrun.
  - intros permutation _. apply generatePermutations_head.
    apply Nat.le_trans with 20; [apply Nat.le_min_r|].
    apply Nat.le_trans with (fact 4); [cbn; lia|].
    apply fact_le. lia.
Qed.

End Departure.

(** X18.  With no locked stop and at least five stops,
    [optimizeLocationOrder] leaves the first stop of the input first,
    whatever the method, the mode and the providers: the bounded search
    tries at most 20 permutations, which all begin with it, and the
    nearest-neighbour heuristics start from it. *)
Theorem optimizeLocationOrder_keeps_departure
  (M : MathImpl) (E : Env) (fuel : nat) (stops : list Location)
  (method : OptimizationMethod) (loop : bool) (vehicle : VehicleType)
  (w w' : World) (output after : list Location)
  (Hfive : 5 <= List.length stops)
  (Hfree : forallb (fun loc => negb (locked loc)) stops = true)
  (Hrun : optimizeLocationOrder M E fuel stops method loop vehicle w
          = (Ok (output, after), w')) :
  hd_error output = hd_error stops.
Proof.
  unfold optimizeLocationOrder in Hrun.
  replace (List.length stops <=? 2) with false in Hrun
    by (symmetry; apply Nat.leb_gt; lia).
  rewrite (forallb_filter_id _ _ Hfree) in Hrun.
  replace (List.length stops =? 0) with false in Hrun
    by (symmetry; apply Nat.eqb_neq; lia).
  assert (Hnone : filter locked stops = []).
  { apply filter_none. intros x Hx. rewrite forallb_forall in Hfree.
    now apply negb_true_iff, Hfree. }
  rewrite Hnone in Hrun.
  apply bind_Ok_inv in Hrun. destruct Hrun as (optimized & w1 & Hopt & Hret).
  unfold ret in Hret. injection Hret as <- _ _.
  rewrite mergeLocked_unlocked.
  assert (Hhead : hd_error optimized = hd_error stops).
  { destruct (List.length stops <=? 8).
    - now apply advancedOptimization_start in Hopt.
    - apply lift_option_Ok in Hopt. destruct Hopt as [Hopt _].
      now apply nearestNeighborOptimization_start in Hopt. }
  rewrite <- Hhead. destruct stops as [|s stops]; [cbn in Hfive; lia|].
  destruct optimized; reflexivity.
Qed.

Definition five_stops : list Location :=
  [stop "A" 48.86 2.30; stop "B" 49.10 2.36; stop "C" 48.85 2.41;
   stop "D" 48.20 2.10; stop "E" 48.87 2.31].

Lemma optimizeLocationOrder_keeps_departure_witness :
  match optimizeLocationOrder PolyMath.impl offline 5 five_stops
          shortest_distance false car initial_world with
  | (Ok (output, _), _) => hd_error output = hd_error five_stops
  | _ => False
  end.
Proof.
  destruct (optimizeLocationOrder PolyMath.impl offline 5 five_stops
              shortest_distance false car initial_world)
    as [[[output after]|message|] w'] eqn:Hrun.
  - apply (@optimizeLocationOrder_keeps_departure PolyMath.impl offline 5 five_stops
             shortest_distance false car initial_world w' output after).
    + simpl. lia.
    + reflexivity.
    + exact Hrun.
  - vm_compute in Hrun. discriminate Hrun.
  - vm_compute in Hrun. discriminate Hrun.
Defined.

(** With four stops the search may move the departure. *)
Example four_stops_departure_moved :
  match fst (optimizeLocationOrder PolyMath.impl offline 4
               [stop "A" 48.86 2.30; stop "B" 49.10 2.36; stop "C" 48.85 2.41;
                stop "D" 48.20 2.10]
               shortest_distance false car initial_world) with
  | Ok (output, _) => map id output
  | _ => []
  end = ["B"; "A"; "C"; "D"]%string.
Proof. vm_compute. reflexivity. Qed.

(* ------------------------------------------------------------------ *)
(** ** What the orchestrator throws *)

Section Thrown.

Context (M : MathImpl) (E : Env).

(** The bounded search ends with an order or does not end; it does not
    throw, whatever the providers answer. *)
Lemma advancedOptimization_quiet (fuel : nat) (stops : list Location)
  (method : OptimizationMethod) (loop : bool) (vehicle : VehicleType)
  (w w' : World) (message : string) :
  advancedOptimization M E fuel stops method loop vehicle w <> (Throw message, w').
Proof.
  unfold advancedOptimization.
  destruct (List.length stops <=? 1); [discriminate|]. cbv zeta.
  destruct (nearestNeighborOptimization M fuel stops method loop) as [nearest|];
    [|discriminate].
  cbn [lift_option]. unfold bind at 1, ret at 1.
  destruct (@calculateOrderScore_returns M E nearest method loop vehicle w)
    as (nearestScore & w1 & Hscore).
  rewrite (@bind_Ok _ _ _ _ _ _ _ Hscore).
  destruct (List.length stops <=? 6); [|discriminate].
  match goal with
  | |- bind (for_each ?l ?body ?s0) _ _ <> _ =>
      assert (Hloop : exists best w2, for_each l body s0 w1 = (Ok best, w2));
        [apply for_each_returns | destruct Hloop as (best & w2 & Hloop)]
  end.
  - intros best permutation w0 _.
    destruct (@calculateOrderScore_returns M E permutation method loop vehicle w0)
      as (score & w2 & Hperm).
    rewrite (@bind_Ok _ _ _ _ _ _ _ Hperm). unfold ret. eauto.
  - rewrite (@bind_Ok _ _ _ _ _ _ _ Hloop). discriminate.
Qed.

Lemma optimizeLocationOrder_quiet (fuel : nat) (stops : list Location)
  (method : OptimizationMethod) (loop : bool) (vehicle : VehicleType)
  (w w' : World) (message : string) :
  optimizeLocationOrder M E fuel stops method loop vehicle w <> (Throw message, w').
Proof.
  unfold optimizeLocationOrder.
  destruct (List.length stops <=? 2); [discriminate|]. cbv zeta.
  destruct (List.length (filter (fun loc => negb (locked loc)) stops) =? 0);
    [discriminate|].
  unfold bind.
  match goal with
  | |- match ?c w with _ => _ end <> _ =>
      destruct (c w) as [[optimized|message'|] w1] eqn:Hopt
  end; [discriminate| |discriminate].
  exfalso. destruct (List.length (filter (fun loc => negb (locked loc)) stops) <=? 8).
  - now apply advancedOptimization_quiet in Hopt.
  - destruct (nearestNeighborOptimization M fuel _ method loop); discriminate Hopt.
Qed.

End Thrown.

(** X19.  Whatever the state and the providers, an error thrown by
    [calculateRoute] is one of its two precondition errors behind the
    prefix of the orchestrator: the request has a stop without
    coordinates or fewer than two stops.  No failure of a provider
    makes it throw. *)
Theorem calculateRoute_throws_preconditions_only
  (M : MathImpl) (E : Env) (fuel : nat) (request : RouteOptimizationRequest)
  (w w' : World) (message : string)
  (Hrun : calculateRoute M E fuel request w = (Throw message, w')) :
  (forallb has_coordinates (locations request) = false \/
   List.length (locations request) < 2) /\
  message = failure_message (precondition_message request).
Proof.
  unfold calculateRoute in Hrun.
  unfold bind at 1 in Hrun. unfold Date_now_ at 1 in Hrun. cbv beta iota in Hrun.
  destruct (getCachedRoute_run E request (tick w)) as (cachedRoute & w1 & Hget & _).
  unfold bind at 1 in Hrun. rewrite Hget in Hrun. cbv beta iota in Hrun.
  destruct cachedRoute as [cachedRoute|];
    [unfold bind, Date_now_, ret in Hrun; discriminate Hrun|].
  unfold bind at 1 in Hrun. unfold clearSegmentCache at 1, update at 1 in Hrun.
  cbv beta iota zeta in Hrun. unfold precondition_message. cbv zeta.
  destruct (0 <? List.length (filter (fun loc => negb (has_coordinates loc))
                                (locations request))) eqn:Hmissing.
  - unfold try_catch, throw in Hrun. injection Hrun as <- _. split; [left|reflexivity].
    destruct (forallb has_coordinates (locations request)) eqn:Hcoords; [|reflexivity].
    rewrite filter_none in Hmissing; [discriminate Hmissing|].
    intros x Hx. rewrite forallb_forall in Hcoords. now rewrite (Hcoords x Hx).
  - destruct (List.length (locations request) <? 2) eqn:Hfew.
    + unfold try_catch, throw in Hrun. injection Hrun as <- _.
      split; [right; now apply Nat.ltb_lt | reflexivity].
    + exfalso. apply no_missing_coordinates in Hmissing.
      set (w2 := set_segmentCache JsMap.empty w1) in Hrun.
      unfold try_catch in Hrun.
      match type of Hrun with
      | match ?body w2 with _ => _ end = _ =>
          assert (Hbody : (exists response w3, body w2 = (Ok response, w3)) \/
                          (exists w3, body w2 = (Pending, w3)));
            [|destruct Hbody as [(response & w3 & Hbody)|(w3 & Hbody)];
              rewrite Hbody in Hrun; discriminate Hrun]
      end.
      destruct (optimizeLocationOrder M E fuel (locations request)
                  (optimizationMethod request) (isLoop request) (vehicleType request) w2)
        as [[[output after]|message'|] w3] eqn:Hopt.
      * left. rewrite (@bind_Ok _ _ _ _ _ _ _ Hopt). cbn [fst snd].
        assert (Houtput : forallb has_coordinates output = true).
        { apply forallb_forall. intros x Hx.
          rewrite forallb_forall in Hmissing. apply Hmissing.
          eapply optimizeLocationOrder_incl; [exact Hopt | exact Hx]. }
        destruct (@calculateRouteSegments_returns M E output (vehicleType request)
                    (isLoop request) w3 Houtput) as (segs & w4 & Hsegs).
        rewrite (@bind_Ok _ _ _ _ _ _ _ Hsegs).
        assert (Hid : exists routeId w5, generateRouteId E w4 = (Ok routeId, w5))
          by (unfold generateRouteId, bind, Date_now_; eauto).
        destruct Hid as (routeId & w5 & Hid).
        rewrite (@bind_Ok _ _ _ _ _ _ _ Hid).
        match goal with
        | |- context [setCachedRoute E ?r ?route] =>
            destruct (setCachedRoute_returns E r route w5) as (w6 & Hset)
        end.
        rewrite (@bind_Ok _ _ _ _ _ _ _ Hset).
        unfold bind, Date_now_, ret. eauto.
      * now apply optimizeLocationOrder_quiet in Hopt.
      * right. exists w3. unfold bind at 1. now rewrite Hopt.
Qed.

Lemma calculateRoute_throws_preconditions_only_witness :
  (forallb has_coordinates (locations unlocated_request) = false \/
   List.length (locations unlocated_request) < 2) /\
  failure_message "Les emplacements suivants n'ont pas de coordonnées : 2"
  = failure_message (precondition_message unlocated_request).
Proof.
  apply (@calculateRoute_throws_preconditions_only PolyMath.impl offline 0
           unlocated_request initial_world
           (snd (calculateRoute PolyMath.impl offline 0 unlocated_request initial_world))).
  vm_compute. reflexivity.
Defined.

(* ------------------------------------------------------------------ *)
(** ** A request asked again *)

Lemma In_stored_dated (request : RouteOptimizationRequest) (r : Route) (now : Z)
  (cache : JsMap.t CacheEntry) (k : string) (e : CacheEntry) :
  In (k, e) (stored request r now cache) -> timestamp e = now \/ In (k, e) cache.
Proof.
  unfold stored.
  assert (Hset : In (k, e)
                   (JsMap.set (generateRouteKey request)
                      {| cached_route := r; timestamp := now |} cache) ->
                 timestamp e = now \/ In (k, e) cache).
  { intros H. apply In_set in H. destruct H as [[= -> ->]|H]; [now left | now right]. }
  destruct (50 <? JsMap.size _); [|exact Hset].
  destruct (JsArray.sort _ _) as [|[oldestKey e0] rest]; [exact Hset|].
  intros H. apply In_delete in H. now apply Hset.
Qed.

Section Dated.

Context (M : MathImpl) (E : Env).

(** The route cache is within its bounds, and every timestamp it holds
    was read from the clock at an earlier call of the host. *)
Definition cache_dated (w : World) : Prop :=
  route_cache_ok w /\
  forall k e, In (k, e) (routeCache w) ->
    exists n, n < ticks w /\ timestamp e = Date_now E n.

Lemma dated_tick (w : World) : cache_dated w -> cache_dated (tick w).
Proof.
  intros [Hok Hdated]. split; [exact Hok|].
  intros k e Hin. destruct (Hdated k e Hin) as (n & Hn & Ht).
  exists n. cbn [ticks tick]. split; [lia | exact Ht].
Qed.

Lemma dated_filter (w : World) (keep : string * CacheEntry -> bool) :
  cache_dated w -> cache_dated (set_routeCache (filter keep (routeCache w)) w).
Proof.
  intros [[Hnodup Hsize] Hdated]. split; [split|]; cbn [routeCache set_routeCache ticks].
  - now apply MapFacts.filter_NoDup.
  - pose proof (MapFacts.size_filter (routeCache w) keep). lia.
  - intros k e Hin. apply filter_In in Hin. destruct Hin as [Hin _].
    exact (Hdated k e Hin).
Qed.

Lemma getCachedRoute_world (request : RouteOptimizationRequest) (w : World) :
  let cache :=
    filter (fun entry => negb (expired (Date_now E (ticks w)) entry)) (routeCache w) in
  snd (getCachedRoute E request w)
  = match JsMap.get (generateRouteKey request) cache with
    | Some _ => tick (set_routeCache cache (tick w))
    | None => set_routeCache cache (tick w)
    end.
Proof.
  unfold getCachedRoute, cleanRouteCache, bind, Date_now_, update, get_world.
  cbn [routeCache set_routeCache tick ticks].
  destruct (JsMap.get _ _) as [cached|]; [|reflexivity].
  cbn [ticks set_routeCache tick].
  destruct (_ <? _)%Z; reflexivity.
Qed.

Lemma dated_getCachedRoute (request : RouteOptimizationRequest) :
  preserves cache_dated (getCachedRoute E request).
Proof.
  intros w Hw. rewrite getCachedRoute_world. cbv zeta.
  pose proof (@dated_filter (tick w)
                (fun entry => negb (expired (Date_now E (ticks w)) entry))
                (dated_tick Hw)) as Hclean.
  destruct (JsMap.get _ _); [apply dated_tick|]; exact Hclean.
Qed.

Lemma dated_setCachedRoute (request : RouteOptimizationRequest) (route : Route) :
  preserves cache_dated (setCachedRoute E request route).
Proof.
  intros w [[Hnodup Hsize] Hdated]. rewrite setCachedRoute_spec.
  split; cbn [routeCache set_routeCache ticks tick].
  - now apply stored_ok.
  - intros k e Hin. apply In_stored_dated in Hin. destruct Hin as [Hnow|Hin].
    + exists (ticks w). split; [lia | exact Hnow].
    + destruct (Hdated k e Hin) as (n & Hn & Ht). exists n. split; [lia | exact Ht].
Qed.

Lemma dated_cacheSegment (segment : RouteSegment) (vehicleType : VehicleType) :
  preserves cache_dated
    (cacheSegment (generateSegmentKey (from segment) (to segment) vehicleType) segment).
Proof. intros w Hw. rewrite cacheSegment_spec. exact Hw. Qed.

Lemma perform_cache_dated (w : World) (call : Call) :
  cache_dated w -> cache_dated (perform M E w call).
Proof.
  destruct call as [fuel request|request|request route| |]; cbn [perform].
  - apply (@preserves_calculateRoute cache_dated).
    + exact dated_tick.
    + exact dated_cacheSegment.
    + intros w0 H0. exact H0.
    + exact dated_getCachedRoute.
    + exact dated_setCachedRoute.
  - apply dated_getCachedRoute.
  - apply dated_setCachedRoute.
  - intros Hw.
    exact (@dated_filter (tick w)
             (fun entry => negb (expired (Date_now E (ticks w)) entry)) (dated_tick Hw)).
  - intros _. split; [split; [constructor | simpl; lia]|]. intros k e [].
Qed.

Lemma perform_all_cache_dated (calls : list Call) (w : World) :
  cache_dated w -> cache_dated (perform_all M E calls w).
Proof.
  revert w. induction calls as [|call calls IH]; intros w Hw; [exact Hw|].
  apply IH. now apply perform_cache_dated.
Qed.

Lemma initial_cache_dated : cache_dated initial_world.
Proof. split; [split; [constructor | simpl; lia]|]. intros k e []. Qed.

(** What a run of [calculateRoute] that returned leaves under the
    fingerprint of the request: the entry it was served from, or the
    route it computed, stored at a clock reading in a cache that was
    within its bounds. *)
Lemma calculateRoute_stores (fuel : nat) (request : RouteOptimizationRequest)
  (w w' : World) (response : RouteOptimizationResponse) :
  cache_dated w ->
  calculateRoute M E fuel request w = (Ok response, w') ->
  (exists e,
     JsMap.get (generateRouteKey request) (routeCache w') = Some e /\
     cached_route e = route response) \/
  (exists optimized after w3 w4 w5,
     optimizeLocationOrder M E fuel (locations request) (optimizationMethod request)
       (isLoop request) (vehicleType request) w3 = (Ok (optimized, after), w4) /\
     cache_dated w5 /\
     routeCache w'
     = stored (with_locations request after) (route response)
         (Date_now E (ticks w5)) (routeCache w5)).
Proof.
  intros Hw Hrun. unfold calculateRoute in Hrun.
  apply bind_Ok_inv in Hrun. destruct Hrun as (startTime & w0 & Hstart & Hrun).
  unfold Date_now_ in Hstart. injection Hstart as <- <-.
  apply bind_Ok_inv in Hrun. destruct Hrun as (cachedRoute & w1 & Hget & Hrun).
  assert (H1 : cache_dated w1).
  { pose proof (@dated_getCachedRoute request (tick w) (dated_tick Hw)) as H.
    now rewrite Hget in H. }
  destruct cachedRoute as [cachedRoute|].
  - left.
    destruct (getCachedRoute_run E request (tick w)) as (c' & w1' & Hget' & _ & Hhit & _).
    rewrite Hget in Hget'. injection Hget' as <- <-.
    destruct (Hhit cachedRoute eq_refl) as (e & He & Hr).
    apply bind_Ok_inv in Hrun. destruct Hrun as (now & w2 & Hnow & Hret).
    unfold Date_now_ in Hnow. injection Hnow as <- <-.
    unfold ret in Hret. injection Hret as <- <-.
    exists e. split; [exact He | exact Hr].
  - right.
    apply bind_Ok_inv in Hrun. destruct Hrun as ([] & w2 & Hclear & Hrun).
    rewrite clearSegmentCache_spec in Hclear. injection Hclear as <-.
    assert (H2 : cache_dated (set_segmentCache JsMap.empty w1)) by exact H1.
    apply try_catch_Ok_inv in Hrun.
    destruct Hrun as [Hrun|(message & w3 & _ & Hthrow)]; [|discriminate Hthrow].
    cbv zeta in Hrun.
    destruct (0 <? List.length (filter _ (locations request))); [discriminate Hrun|].
    destruct (List.length (locations request) <? 2); [discriminate Hrun|].
    apply bind_Ok_inv in Hrun. destruct Hrun as ([optimized after] & w3 & Hopt & Hrun).
    assert (H3 : cache_dated w3).
    { pose proof (@preserves_optimizeLocationOrder cache_dated dated_tick dated_cacheSegment
                    M E fuel (locations request) (optimizationMethod request)
                    (isLoop request) (vehicleType request) _ H2) as H.
      now rewrite Hopt in H. }
    apply bind_Ok_inv in Hrun. destruct Hrun as (segs & w4 & Hsegs & Hrun).
    assert (H4 : cache_dated w4).
    { pose proof (@preserves_calculateRouteSegments cache_dated dated_tick dated_cacheSegment
                    M E (fst (optimized, after)) (vehicleType request) (isLoop request)
                    _ H3) as H.
      now rewrite Hsegs in H. }
    apply bind_Ok_inv in Hrun. destruct Hrun as (routeId & w5 & Hid & Hrun).
    assert (H5 : cache_dated w5).
    { pose proof (@preserves_generateRouteId cache_dated dated_tick E _ H4) as H.
      now rewrite Hid in H. }
    apply bind_Ok_inv in Hrun. destruct Hrun as ([] & w6 & Hset & Hrun).
    apply bind_Ok_inv in Hrun. destruct Hrun as (now & w7 & Hnow & Hret).
    unfold Date_now_ in Hnow. injection Hnow as <- <-.
    unfold ret in Hret. injection Hret as <- <-.
    cbn [fst snd] in *.
    exists optimized, after, (set_segmentCache JsMap.empty w1), w3, w5.
    split; [exact Hopt|]. split; [exact H5|].
    match type of Hset with
    | setCachedRoute E ?r ?route w5 = _ =>
        pose proof (setCachedRoute_spec E r route w5) as Hspec
    end.
    rewrite Hset in Hspec. cbn [snd] in Hspec. rewrite Hspec. reflexivity.
Qed.

(** The argument array is left as it was unless every stop is locked
    and there are more than two. *)
Lemma optimizeLocationOrder_argument (fuel : nat) (stops : list Location)
  (method : OptimizationMethod) (loop : bool) (vehicle : VehicleType)
  (w w' : World) (output after : list Location) :
  List.length stops <= 2 \/ existsb (fun loc => negb (locked loc)) stops = true ->
  optimizeLocationOrder M E fuel stops method loop vehicle w = (Ok (output, after), w') ->
  after = stops.
Proof.
  intros Hfree. unfold optimizeLocationOrder.
  destruct (List.length stops <=? 2) eqn:Hlen; [unfold ret; now intros [= _ <- _]|].
  destruct Hfree as [Hfree|Hfree]; [apply Nat.leb_gt in Hlen; lia|].
  destruct (List.length (filter (fun loc => negb (locked loc)) stops) =? 0) eqn:Hnone.
  - exfalso. apply Nat.eqb_eq, length_zero_iff_nil in Hnone.
    apply existsb_exists in Hfree. destruct Hfree as (x & Hx & Hfree).
    assert (Hin : In x (filter (fun loc => negb (locked loc)) stops))
      by (apply filter_In; now split).
    rewrite Hnone in Hin. destruct Hin.
  - intros Hrun. apply bind_Ok_inv in Hrun. destruct Hrun as (optimized & w1 & _ & Hret).
    unfold ret in Hret. now injection Hret as _ <- _.
Qed.

Lemma getCachedRoute_hit (request : RouteOptimizationRequest) (w : World) (e : CacheEntry) :
  JsMap.get (generateRouteKey request) (routeCache w) = Some e ->
  (Date_now E (ticks w) - timestamp e <= ROUTE_CACHE_DURATION)%Z ->
  (Date_now E (S (ticks w)) - timestamp e < ROUTE_CACHE_DURATION)%Z ->
  getCachedRoute E request w
  = (Ok (Some (cached_route e)),
     tick (set_routeCache
             (filter (fun entry => negb (expired (Date_now E (ticks w)) entry))
                (routeCache w))
             (tick w))).
Proof.
  intros Hget Hclean Hfetch.
  unfold getCachedRoute, cleanRouteCache, bind, Date_now_, update, get_world.
  cbn [routeCache set_routeCache tick ticks].
  rewrite (@RouteCacheFacts.get_filter_kept (routeCache w) (generateRouteKey request) e
             (fun entry => negb (expired (Date_now E (ticks w)) entry)) Hget).
  - cbn [ticks set_routeCache tick].
    replace (_ <? _)%Z with true by (symmetry; apply Z.ltb_lt; exact Hfetch).
    reflexivity.
  - unfold expired. cbn [snd]. apply negb_true_iff, Z.ltb_ge. exact Hclean.
Qed.

End Dated.

(** X20.  With a clock that never goes back, after any history of
    calls: a request for which [calculateRoute] returned a route and
    whose stops are not all locked (or are two at most), asked again
    while the entry the cache holds for it is less than 30 minutes old,
    is served that same route from the route cache, as a cache hit:
    the clock is read four times and nothing else is asked of the
    host, and the segment cache is left as it is. *)
Theorem calculateRoute_asked_again
  (M : MathImpl) (E : Env) (calls : list Call) (fuel fuel' : nat)
  (request : RouteOptimizationRequest) (response : RouteOptimizationResponse)
  (w' : World)
  (Hclock : forall n m, n <= m -> (Date_now E n <= Date_now E m)%Z)
  (Hfree : List.length (locations request) <= 2 \/
           existsb (fun loc => negb (locked loc)) (locations request) = true)
  (Hrun : calculateRoute M E fuel request (perform_all M E calls initial_world)
          = (Ok response, w'))
  (Hsoon : forall e,
      JsMap.get (generateRouteKey request) (routeCache w') = Some e ->
      (Date_now E (S (S (ticks w'))) - timestamp e < ROUTE_CACHE_DURATION)%Z) :
  exists w'',
    calculateRoute M E fuel' request w'
    = (Ok {| route := route response;
             metadata :=
               {| calculationTime :=
                    (Date_now E (S (S (S (ticks w')))) - Date_now E (ticks w'))%Z;
                  algorithm := "cache-hit";
                  apiProvider := "Cache" |} |}, w'') /\
    segmentCache w'' = segmentCache w' /\
    segmentCacheOrder w'' = segmentCacheOrder w' /\
    ticks w'' = 4 + ticks w'.
Proof.
  pose proof (@perform_all_cache_dated M E calls initial_world (initial_cache_dated E))
    as Hdated.
  assert (Hheld : exists e,
            JsMap.get (generateRouteKey request) (routeCache w') = Some e /\
            cached_route e = route response).
  { destruct (@calculateRoute_stores M E fuel request _ w' response Hdated Hrun)
      as [Hhit|(optimized & after & w3 & w4 & w5 & Hopt & [[Hnodup Hsize] H5] & Hcache)];
      [exact Hhit|].
    apply (@optimizeLocationOrder_argument M E _ _ _ _ _ _ _ _ _ Hfree) in Hopt. subst after.
    exists {| cached_route := route response; timestamp := Date_now E (ticks w5) |}.
    split; [|reflexivity]. rewrite Hcache.
    change (generateRouteKey request)
      with (generateRouteKey (with_locations request (locations request))).
    apply stored_get_same; [exact Hsize|].
    intros k e Hin. destruct (H5 k e Hin) as (n & Hn & ->).
    apply Hclock. lia. }
  destruct Hheld as (e & He & Hroute).
  specialize (Hsoon e He).
  pose proof (Hclock (S (ticks w')) (S (S (ticks w'))) (Nat.le_succ_diag_r _)) as Hstep.
  unfold calculateRoute.
  unfold bind at 1. unfold Date_now_ at 1. cbv beta iota.
  unfold bind at 1.
  rewrite (@getCachedRoute_hit E request (tick w') e He); cbn [ticks tick]; [|lia|exact Hsoon].
  unfold bind, Date_now_, ret. cbn [ticks tick set_routeCache].
  rewrite Hroute. eexists. split; [reflexivity|]. cbn. auto.
Qed.

Lemma calculateRoute_asked_again_witness :
  match calculateRoute PolyMath.impl offline 4 paris_loop_request initial_world with
  | (Ok response, w') =>
      exists w'',
        calculateRoute PolyMath.impl offline 0 paris_loop_request w'
        = (Ok {| route := route response;
                 metadata :=
                   {| calculationTime :=
                        (Date_now offline (S (S (S (ticks w'))))
                         - Date_now offline (ticks w'))%Z;
                      algorithm := "cache-hit";
                      apiProvider := "Cache" |} |}, w'') /\
        segmentCache w'' = segmentCache w' /\
        segmentCacheOrder w'' = segmentCacheOrder w' /\
        ticks w'' = 4 + ticks w'
  | _ => False
  end.
Proof.
  destruct (calculateRoute PolyMath.impl offline 4 paris_loop_request initial_world)
    as [[response|message|] w'] eqn:Hrun.
  - apply (@calculateRoute_asked_again PolyMath.impl offline [] 4 0
             paris_loop_request response w').
    + intros n m Hnm. cbn [Date_now offline]. lia.
    + right. reflexivity.
    + exact Hrun.
    + intros e He. pose proof Hrun as Hvalue. vm_compute in Hvalue.
      injection Hvalue as <- <-. vm_compute in He. injection He as <-.
      vm_compute. reflexivity.
  - vm_compute in Hrun. discriminate Hrun.
  - vm_compute in Hrun. discriminate Hrun.
Defined.

(* ------------------------------------------------------------------ *)
(** ** Decoding the geometry of the heavy-vehicle provider *)

Module Polyline.

Local Open Scope Z_scope.

(** [ToInt32]: what a bit operation of the language returns. *)
Definition to_int32 (z : Z) : Z := (z + 2 ^ 31) mod 2 ^ 32 - 2 ^ 31.

(** [encoded.charCodeAt(index)], inside the string; the characters of
    an encoded geometry are below 256. *)
Definition charCodeAt (c : ascii) : Z := Z.of_N (N_of_ascii c).

(** One loop [do { b = encoded.charCodeAt(index++) - 63;
    result |= (b & 0x1f) << shift; shift += 5 } while (b >= 0x20)],
    from the characters left: [result] and the characters left after
    it.  Past the end [charCodeAt] is [NaN]: [NaN & 0x1f] is 0 and
    [NaN >= 0x20] is false, so that the loop ends with [result] as it
    is. *)
Fixpoint decodeValue (encoded : string) (shift result : Z) : Z * string :=
  match encoded with
  | EmptyString => (result, EmptyString)
  | String c rest =>
      let b := charCodeAt c - 63 in
      let result := Z.lor result (to_int32 (Z.shiftl (Z.land b 31) (shift mod 32))) in
      if 32 <=? b then decodeValue rest (shift + 5) result else (result, rest)
  end.

(** [result & 1 ? ~(result >> 1) : result >> 1] *)
Definition signedValue (result : Z) : Z :=
  if Z.land result 1 =? 0 then Z.shiftr result 1 else Z.lnot (Z.shiftr result 1).

(** A 32-bit integer as a number of the language. *)
Definition int32_to_number (z : Z) : float :=
  if z <? 0 then (- PrimFloat.of_uint63 (Uint63.of_Z (- z)))%float
  else PrimFloat.of_uint63 (Uint63.of_Z z).

(** [while (index < encoded.length) { ... coordinates.push([lng / 1e5, lat / 1e5]) }];
    every turn reads one character at least, so that as many turns as
    there are characters are enough. *)
Fixpoint decodeLoop (turns : nat) (encoded : string) (lat lng : float)
  : list (list float) :=
  match turns with
  | O => []
  | S turns' =>
      match encoded with
      | EmptyString => []
      | String _ _ =>
          let '(result, rest) := decodeValue encoded 0 0 in
          let lat := (lat + int32_to_number (signedValue result))%float in
          let '(result, rest) := decodeValue rest 0 0 in
          let lng := (lng + int32_to_number (signedValue result))%float in
          [(lng / 100000)%float; (lat / 100000)%float] :: decodeLoop turns' rest lat lng
      end
  end.

Definition decodeORSGeometry (encoded : string) : list (list float) :=
  decodeLoop (String.length encoded) encoded 0%float 0%float.

(** The encoding the source says it decodes, Google's polyline
    algorithm: [encodeNumber] writes a non-negative number in groups of
    five bits, the low ones first, [encodeSignedNumber] a signed one. *)
Fixpoint encodeNumber (groups : nat) (num : Z) : string :=
  match groups with
  | O => String (ascii_of_N (Z.to_N (num + 63))) EmptyString
  | S groups' =>
      if 32 <=? num
      then String (ascii_of_N (Z.to_N (Z.lor 32 (Z.land num 31) + 63)))
             (encodeNumber groups' (Z.shiftr num 5))
      else String (ascii_of_N (Z.to_N (num + 63))) EmptyString
  end.

Definition encodeSignedNumber (num : Z) : string :=
  let sgn_num := Z.shiftl num 1 in
  encodeNumber 6 (if num <? 0 then Z.lnot sgn_num else sgn_num).

(** A path as the differences between its points, latitude then
    longitude, in units of 1e-5 degree. *)
Definition encodeDeltas (deltas : list (Z * Z)) : string :=
  fold_right
    (fun d encoded =>
       (encodeSignedNumber (fst d) ++ encodeSignedNumber (snd d) ++ encoded)%string)
    EmptyString deltas.

(** The points of a path of differences, summed as numbers of the
    language, longitude first. *)
Fixpoint track (deltas : list (Z * Z)) (lat lng : float) : list (list float) :=
  match deltas with
  | [] => []
  | d :: rest =>
      let lat := (lat + int32_to_number (fst d))%float in
      let lng := (lng + int32_to_number (snd d))%float in
      [(lng / 100000)%float; (lat / 100000)%float] :: track rest lat lng
  end.

Lemma to_int32_small (z : Z) : 0 <= z < 2 ^ 31 -> to_int32 z = z.
Proof. intros Hz. unfold to_int32. rewrite Z.mod_small; lia. Qed.

Lemma lor_shifted (a d n : Z) :
  0 <= n -> 0 <= a < 2 ^ n -> Z.lor a (d * 2 ^ n) = a + d * 2 ^ n.
Proof.
  intros Hn Ha.
  assert (Hland : Z.land a (d * 2 ^ n) = 0).
  { apply Z.bits_inj'. intros i Hi. rewrite Z.land_spec, Z.bits_0.
    destruct (Z.lt_ge_cases i n) as [Hlt|Hge].
    - rewrite <- Z.shiftl_mul_pow2 by exact Hn.
      rewrite Z.shiftl_spec_low by exact Hlt. apply andb_false_r.
    - rewrite <- (Z.mod_small a (2 ^ n)) by exact Ha.
      rewrite Z.mod_pow2_bits_high by lia. reflexivity. }
  rewrite <- (Z.lxor_lor _ _ Hland). symmetry. now apply Z.add_nocarry_lxor.
Qed.

Lemma charCodeAt_fromCharCode (code : Z) :
  0 <= code < 256 -> charCodeAt (ascii_of_N (Z.to_N code)) = code.
Proof.
  intros Hcode. unfold charCodeAt. rewrite N_ascii_embedding by lia. lia.
Qed.

Lemma decodeValue_encodeNumber (groups : nat) :
  forall (num shift result : Z) (rest : string),
    0 <= num < 32 ^ (Z.of_nat groups + 1) ->
    0 <= shift -> shift + 5 * (Z.of_nat groups + 1) <= 35 ->
    0 <= result < 2 ^ shift ->
    result + num * 2 ^ shift < 2 ^ 31 ->
    decodeValue (encodeNumber groups num ++ rest) shift result
    = (result + num * 2 ^ shift, rest).
Proof.
  assert (Hlast : forall num shift result rest,
            0 <= num < 32 -> 0 <= shift <= 30 -> 0 <= result < 2 ^ shift ->
            result + num * 2 ^ shift < 2 ^ 31 ->
            decodeValue (String (ascii_of_N (Z.to_N (num + 63))) EmptyString ++ rest)
              shift result
            = (result + num * 2 ^ shift, rest)).
  { intros num shift result rest Hnum Hshift Hresult Hsum.
    cbn [append decodeValue]. rewrite charCodeAt_fromCharCode by lia.
    replace (num + 63 - 63) with num by lia.
    replace (32 <=? num) with false by (symmetry; apply Z.leb_gt; lia).
    change 31 with (Z.ones 5). rewrite Z.land_ones by lia.
    change (2 ^ 5) with 32. rewrite (Z.mod_small num 32) by lia.
    rewrite (Z.mod_small shift 32) by lia.
    rewrite Z.shiftl_mul_pow2 by lia.
    assert (0 < 2 ^ shift) by (apply Z.pow_pos_nonneg; lia).
    rewrite to_int32_small by nia.
    rewrite lor_shifted by lia. reflexivity. }
  induction groups as [|groups IH]; intros num shift result rest Hnum Hshift Hroom Hresult Hsum.
  - cbn [encodeNumber]. apply Hlast; try assumption; lia.
  - cbn [encodeNumber]. destruct (32 <=? num) eqn:Hbig.
    + apply Z.leb_le in Hbig.
      assert (Hpow : 0 < 2 ^ shift) by (apply Z.pow_pos_nonneg; lia).
      assert (Hdigit : 0 <= num mod 32 < 32) by (apply Z.mod_pos_bound; lia).
      assert (Hsplit : num = 32 * (num / 32) + num mod 32) by (apply Z.div_mod; lia).
      assert (Hquot : 0 <= num / 32) by (apply Z.div_pos; lia).
      cbn [append decodeValue].
      change 31 with (Z.ones 5). rewrite Z.land_ones by lia. change (2 ^ 5) with 32.
      assert (Hlor : Z.lor 32 (num mod 32) = 32 + num mod 32).
      { rewrite Z.lor_comm.
        pose proof (@lor_shifted (num mod 32) 1 5) as Hadd.
        change (1 * 2 ^ 5) with 32 in Hadd. change (2 ^ 5) with 32 in Hadd.
        rewrite Hadd; lia. }
      rewrite Hlor.
      rewrite charCodeAt_fromCharCode by lia.
      replace (32 + num mod 32 + 63 - 63) with (32 + num mod 32) by lia.
      replace (32 <=? 32 + num mod 32) with true by (symmetry; apply Z.leb_le; lia).
      change 31 with (Z.ones 5). rewrite Z.land_ones by lia. change (2 ^ 5) with 32.
      replace ((32 + num mod 32) mod 32) with (num mod 32).
      2:{ rewrite <- Z.add_mod_idemp_l, Z.mod_same, Z.add_0_l by lia.
          now rewrite Z.mod_mod by lia. }
      rewrite (Z.mod_small shift 32) by lia.
      rewrite Z.shiftl_mul_pow2 by lia.
      rewrite to_int32_small by nia.
      rewrite lor_shifted by lia.
      rewrite Z.shiftr_div_pow2 by lia. change (2 ^ 5) with 32.
      assert (Hnext : 2 ^ (shift + 5) = 32 * 2 ^ shift)
        by (rewrite Z.pow_add_r by lia; change (2 ^ 5) with 32; lia).
      rewrite IH.
      * f_equal. rewrite Hnext. nia.
      * split; [exact Hquot|].
        apply Z.div_lt_upper_bound; [lia|].
        replace (Z.of_nat (S groups) + 1) with (Z.succ (Z.of_nat groups + 1)) in Hnum by lia.
        rewrite Z.pow_succ_r in Hnum by lia. lia.
      * lia.
      * lia.
      * rewrite Hnext. nia.
      * rewrite Hnext. nia.
    + apply Z.leb_gt in Hbig. apply Hlast; try assumption; lia.
Qed.

Lemma signedValue_encoded (num : Z) :
  signedValue (if num <? 0 then Z.lnot (Z.shiftl num 1) else Z.shiftl num 1) = num.
Proof.
  assert (Hbit : forall x, Z.land x 1 = x mod 2).
  { intros x. change 1 with (Z.ones 1). now rewrite Z.land_ones by lia. }
  assert (Hhalf : forall x, Z.shiftr x 1 = x / 2).
  { intros x. now rewrite Z.shiftr_div_pow2 by lia. }
  assert (Hdouble : Z.shiftl num 1 = num * 2).
  { now rewrite Z.shiftl_mul_pow2 by lia. }
  unfold signedValue. rewrite Hbit, Hhalf, Hdouble.
  destruct (num <? 0) eqn:Hneg.
  - rewrite Z.lnot_eq_pred_opp.
    replace ((- (num * 2) - 1) mod 2) with 1
      by (apply Z.mod_unique with (- num - 1); lia).
    cbn [Z.eqb].
    replace ((- (num * 2) - 1) / 2) with (- num - 1)
      by (apply Z.div_unique with 1; lia).
    rewrite Z.lnot_eq_pred_opp. lia.
  - rewrite Z.mod_mul by lia. cbn [Z.eqb]. apply Z.div_mul. lia.
Qed.

Lemma decodeValue_encodeSignedNumber (num : Z) (rest : string) :
  - 2 ^ 30 <= num < 2 ^ 30 ->
  exists result,
    decodeValue (encodeSignedNumber num ++ rest) 0 0 = (result, rest) /\
    signedValue result = num.
Proof.
  intros Hnum. unfold encodeSignedNumber. cbv zeta.
  set (sgn := if num <? 0 then Z.lnot (Z.shiftl num 1) else Z.shiftl num 1).
  assert (Hsgn : 0 <= sgn < 2 ^ 31).
  { subst sgn. rewrite Z.shiftl_mul_pow2 by lia. change (2 ^ 1) with 2.
    destruct (num <? 0) eqn:Hneg.
    - apply Z.ltb_lt in Hneg. rewrite Z.lnot_eq_pred_opp. lia.
    - apply Z.ltb_ge in Hneg. lia. }
  exists sgn. split; [|apply signedValue_encoded].
  rewrite decodeValue_encodeNumber.
  - f_equal. change (2 ^ 0) with 1. lia.
  - change (32 ^ (Z.of_nat 6 + 1)) with (2 ^ 35). lia.
  - lia.
  - cbn. lia.
  - change (2 ^ 0) with 1. lia.
  - change (2 ^ 0) with 1. lia.
Qed.

Lemma encodeNumber_not_empty (groups : nat) (num : Z) :
  exists c encoded, encodeNumber groups num = String c encoded.
Proof. destruct groups; cbn [encodeNumber]; [|destruct (32 <=? num)]; eauto. Qed.

Lemma decodeLoop_turn (turns : nat) (encoded : string) (lat lng : float) :
  encoded <> EmptyString ->
  decodeLoop (S turns) encoded lat lng
  = let '(result, rest) := decodeValue encoded 0 0 in
    let lat := (lat + int32_to_number (signedValue result))%float in
    let '(result, rest) := decodeValue rest 0 0 in
    let lng := (lng + int32_to_number (signedValue result))%float in
    [(lng / 100000)%float; (lat / 100000)%float] :: decodeLoop turns rest lat lng.
Proof. destruct encoded; [contradiction | reflexivity]. Qed.

Lemma decodeLoop_encodeDeltas (deltas : list (Z * Z)) :
  Forall (fun d => - 2 ^ 30 <= fst d < 2 ^ 30 /\ - 2 ^ 30 <= snd d < 2 ^ 30) deltas ->
  forall (turns : nat) (lat lng : float),
    (List.length deltas <= turns)%nat ->
    decodeLoop turns (encodeDeltas deltas) lat lng = track deltas lat lng.
Proof.
  induction 1 as [|d deltas [Hlat Hlng] _ IH]; intros turns lat lng Hturns.
  - destruct turns; reflexivity.
  - destruct turns as [|turns]; [cbn [List.length] in Hturns; lia|].
    cbn [encodeDeltas fold_right]. fold (encodeDeltas deltas).
    destruct (decodeValue_encodeSignedNumber
                (encodeSignedNumber (snd d) ++ encodeDeltas deltas) Hlat)
      as (r1 & Hr1 & Hv1).
    destruct (decodeValue_encodeSignedNumber (encodeDeltas deltas) Hlng)
      as (r2 & Hr2 & Hv2).
    rewrite decodeLoop_turn.
    + rewrite Hr1, Hr2, Hv1, Hv2. cbn [track]. f_equal.
      apply IH. cbn [List.length] in Hturns. lia.
    + destruct (encodeNumber_not_empty 6
                  (if fst d <? 0 then Z.lnot (Z.shiftl (fst d) 1) else Z.shiftl (fst d) 1))
        as (c & encoded & Hc).
      unfold encodeSignedNumber at 1. cbv zeta. rewrite Hc. discriminate.
Qed.

Lemma length_append_r (a b : string) :
  (String.length b <= String.length (a ++ b))%nat.
Proof. induction a as [|c a IH]; cbn [append String.length]; lia. Qed.

Lemma encodeDeltas_length (deltas : list (Z * Z)) :
  (List.length deltas <= String.length (encodeDeltas deltas))%nat.
Proof.
  induction deltas as [|d deltas IH]; [cbn; lia|].
  cbn [encodeDeltas fold_right List.length]. fold (encodeDeltas deltas).
  destruct (encodeNumber_not_empty 6
              (if fst d <? 0 then Z.lnot (Z.shiftl (fst d) 1) else Z.shiftl (fst d) 1))
    as (c & encoded & Hc).
  unfold encodeSignedNumber at 1. cbv zeta. rewrite Hc. cbn [append String.length].
  pose proof (length_append_r encoded (encodeSignedNumber (snd d) ++ encodeDeltas deltas)).
  pose proof (length_append_r (encodeSignedNumber (snd d)) (encodeDeltas deltas)).
  lia.
Qed.

Lemma decodeValue_length (encoded : string) :
  forall shift result : Z,
    (String.length (snd (decodeValue encoded shift result))
     <= String.length encoded - 1)%nat.
Proof.
  induction encoded as [|c encoded IH]; intros shift result; cbn [decodeValue];
    [cbn; lia|].
  destruct (32 <=? charCodeAt c - 63); cbn [snd String.length]; [|lia].
  match goal with |- context [decodeValue encoded ?s ?r] => specialize (IH s r) end.
  lia.
Qed.

(** As many turns as there are characters are enough: more turns give
    the same points. *)
Lemma decodeLoop_turns (turns : nat) :
  forall (turns' : nat) (encoded : string) (lat lng : float),
    (String.length encoded <= turns)%nat ->
    (String.length encoded <= turns')%nat ->
    decodeLoop turns encoded lat lng = decodeLoop turns' encoded lat lng.
Proof.
  induction turns as [|turns IH]; intros turns' encoded lat lng Hturns Hturns';
    destruct encoded as [|c encoded]; try (destruct turns'; reflexivity);
    cbn [String.length] in *; [lia|].
  destruct turns' as [|turns']; [lia|].
  cbn [decodeLoop].
  pose proof (decodeValue_length (String c encoded) 0 0) as Hfirst.
  destruct (decodeValue (String c encoded) 0 0) as [r1 rest1].
  pose proof (decodeValue_length rest1 0 0) as Hsecond.
  destruct (decodeValue rest1 0 0) as [r2 rest2].
  cbn [snd String.length] in *. f_equal. apply IH; lia.
Qed.

End Polyline.

(** X21.  [decodeORSGeometry] decodes Google's polyline encoding: from
    the encoding of a path given by the differences between its points
    (latitude, then longitude, in units of 1e-5 degree, each below 2^30
    in absolute value) it returns the points of the path, one for each
    pair of differences, as the sums of the differences divided by
    100000, longitude first. *)
Theorem decodeORSGeometry_decodes_polyline (deltas : list (Z * Z))
  (Hdeltas : Forall (fun d => (- 2 ^ 30 <= fst d < 2 ^ 30)%Z /\
                              (- 2 ^ 30 <= snd d < 2 ^ 30)%Z) deltas) :
  Polyline.decodeORSGeometry (Polyline.encodeDeltas deltas)
  = Polyline.track deltas 0%float 0%float.
Proof.
  unfold Polyline.decodeORSGeometry.
  apply Polyline.decodeLoop_encodeDeltas; [exact Hdeltas|].
  apply Polyline.encodeDeltas_length.
Qed.

Lemma decodeORSGeometry_decodes_polyline_witness :
  Polyline.decodeORSGeometry
    (Polyline.encodeDeltas [(3850000, -12020000); (220000, -75000); (255200, -550300)]%Z)
  = Polyline.track [(3850000, -12020000); (220000, -75000); (255200, -550300)]%Z
      0%float 0%float.
Proof.
  apply decodeORSGeometry_decodes_polyline.
  repeat constructor; cbn [fst snd]; lia.
Defined.

(** The path of the documentation of the format, and the same with its
    last longitude cut off: the point is returned with the longitude
    of the point before. *)
Example decodeORSGeometry_documented_path :
  Polyline.decodeORSGeometry "_p~iF~ps|U_ulLnnqC_mqNvxq`@"
  = [[-120.2; 38.5]; [-120.95; 40.7]; [-126.453; 43.252]]%float /\
  Polyline.decodeORSGeometry "_p~iF~ps|U_ulLnnqC_mqN"
  = [[-120.2; 38.5]; [-120.95; 40.7]; [-120.95; 43.252]]%float /\
  Polyline.decodeORSGeometry ""%string = [].
Proof. vm_compute. repeat split. Qed.

(* ------------------------------------------------------------------ *)
(** ** The logger ([utils/logger.ts]) *)

Module Log.

Local Open Scope string_scope.

Inductive LogLevel : Type := level_debug | level_log | level_warn | level_error.

Inductive ConsoleMethod : Type :=
| console_debug | console_log | console_info | console_warn | console_error
| console_time | console_timeEnd.

Section Logger.

(** [import.meta.env.DEV || import.meta.env.VITE_APP_ENV === 'development'] *)
Variable isDev : bool.

(** The values a caller passes ([unknown]). *)
Variable unknown : Type.

Inductive Arg : Type :=
| Text (s : string)
| Value (v : unknown).

(** A call of a method of [console], with its arguments. *)
Definition ConsoleCall : Type := ConsoleMethod * list Arg.

Record LoggerOptions := {
  opt_prefix : option string;
  opt_forceLog : option bool
}.

Record Logger := {
  prefix : string;
  forceLog : bool
}.

(** [constructor(options)]: [options.prefix || ''] and
    [options.forceLog || false]. *)
Definition new_Logger (options : LoggerOptions) : Logger :=
  {| prefix :=
       match opt_prefix options with
       | Some p => if Str.truthy p then p else ""
       | None => ""
       end;
     forceLog :=
       match opt_forceLog options with
       | Some b => if b then b else false
       | None => false
       end |}.

Definition shouldLog (this : Logger) (level : LogLevel) : bool :=
  match level with
  | level_error => true
  | _ => if isDev then true else if forceLog this then true else false
  end.

Definition formatMessage (this : Logger) (emoji : string) (args : list Arg) : list Arg :=
  if Str.truthy (prefix this)
  then Text (emoji ++ " [" ++ prefix this ++ "]") :: args
  else Text emoji :: args.

Definition debug (this : Logger) (args : list Arg) : list ConsoleCall :=
  if shouldLog this level_debug
  then [(console_debug, formatMessage this "🔍" args)] else [].

Definition log (this : Logger) (args : list Arg) : list ConsoleCall :=
  if shouldLog this level_log
  then [(console_log, formatMessage this "📋" args)] else [].

Definition info (this : Logger) (args : list Arg) : list ConsoleCall :=
  if shouldLog this level_log
  then [(console_info, formatMessage this "ℹ️" args)] else [].

Definition warn (this : Logger) (args : list Arg) : list ConsoleCall :=
  if shouldLog this level_warn
  then [(console_warn, formatMessage this "⚠️" args)] else [].

Definition error (this : Logger) (args : list Arg) : list ConsoleCall :=
  [(console_error, formatMessage this "❌" args)].

Definition timerLabel (this : Logger) (label : string) : string :=
  "⏱️ " ++ (if Str.truthy (prefix this) then "[" ++ prefix this ++ "] " else "") ++ label.

Definition time (this : Logger) (label : string) : list ConsoleCall :=
  if shouldLog this level_debug
  then [(console_time, [Text (timerLabel this label)])] else [].

Definition timeEnd (this : Logger) (label : string) : list ConsoleCall :=
  if shouldLog this level_debug
  then [(console_timeEnd, [Text (timerLabel this label)])] else [].

Definition child (this : Logger) (prefix' : string) : Logger :=
  new_Logger
    {| opt_prefix :=
         Some (if Str.truthy (prefix this) then prefix this ++ ":" ++ prefix' else prefix');
       opt_forceLog := Some (forceLog this) |}.

(** The logger reached by a chain of [child] calls. *)
Definition descendant (this : Logger) (prefixes : list string) : Logger :=
  fold_left child prefixes this.

Lemma descendant_forceLog (prefixes : list string) :
  forall this, forceLog (descendant this prefixes) = forceLog this.
Proof.
  induction prefixes as [|p prefixes IH]; intros this; [reflexivity|].
  unfold descendant in *. cbn [fold_left]. rewrite IH.
  cbn. now destruct (forceLog this).
Qed.

Lemma truthy_append (a b : string) : Str.truthy a = true -> Str.truthy (a ++ b) = true.
Proof. destruct a; [discriminate | reflexivity]. Qed.

Lemma append_associative (a b c : string) : (a ++ b) ++ c = a ++ (b ++ c).
Proof. induction a as [|x a IH]; cbn [append]; [reflexivity | now rewrite IH]. Qed.

Lemma join_cons_prefix (a p : string) (prefixes : list string) :
  Str.join ":" ((a ++ ":" ++ p) :: prefixes) = a ++ ":" ++ Str.join ":" (p :: prefixes).
Proof.
  destruct prefixes as [|q prefixes]; [reflexivity|].
  change (Str.join ":" ((a ++ ":" ++ p) :: q :: prefixes))
    with ((a ++ ":" ++ p) ++ ":" ++ Str.join ":" (q :: prefixes)).
  change (Str.join ":" (p :: q :: prefixes))
    with (p ++ ":" ++ Str.join ":" (q :: prefixes)).
  generalize (Str.join ":" (q :: prefixes)). intros tail.
  rewrite append_associative. reflexivity.
Qed.

Lemma descendant_prefix (prefixes : list string) :
  forall this,
    Str.truthy (prefix this) = true ->
    prefix (descendant this prefixes) = Str.join ":" (prefix this :: prefixes).
Proof.
  induction prefixes as [|p prefixes IH]; intros this Hthis; [reflexivity|].
  unfold descendant in *. cbn [fold_left].
  assert (Hchild : prefix (child this p) = prefix this ++ ":" ++ p).
  { unfold child, new_Logger. cbn [prefix opt_prefix]. rewrite Hthis.
    now rewrite truthy_append. }
  rewrite IH; rewrite Hchild; [apply join_cons_prefix | now apply truthy_append].
Qed.

End Logger.

End Log.

(** X22.  In production ([isDev] false), a logger built without
    [forceLog] and every logger derived from it by [child] calls write
    nothing for [debug], [log], [info], [warn], [time] and [timeEnd];
    [error] always writes one [console.error] call, which carries the
    arguments after the tag. *)
Theorem production_logger_writes_errors_only
  (unknown : Type) (options : Log.LoggerOptions) (prefixes : list string)
  (args : list (Log.Arg unknown)) (label : string)
  (Hquiet : Log.opt_forceLog options <> Some true) :
  let logger := Log.descendant (Log.new_Logger options) prefixes in
  Log.debug false logger args = [] /\
  Log.log false logger args = [] /\
  Log.info false logger args = [] /\
  Log.warn false logger args = [] /\
  Log.time false unknown logger label = [] /\
  Log.timeEnd false unknown logger label = [] /\
  exists tag, Log.error logger args = [(Log.console_error, Log.Text unknown tag :: args)].
Proof.
  cbv zeta.
  assert (Hforce : Log.forceLog (Log.descendant (Log.new_Logger options) prefixes) = false).
  { rewrite Log.descendant_forceLog. unfold Log.new_Logger. cbn [Log.forceLog].
    destruct (Log.opt_forceLog options) as [[|]|]; congruence. }
  unfold Log.debug, Log.log, Log.info, Log.warn, Log.time, Log.timeEnd, Log.shouldLog.
  rewrite Hforce. repeat (split; [reflexivity|]).
  unfold Log.error, Log.formatMessage.
  destruct (Str.truthy _); eexists; reflexivity.
Qed.

Lemma production_logger_writes_errors_only_witness :
  let logger :=
    Log.descendant (Log.new_Logger {| Log.opt_prefix := Some "Routing"%string;
                                      Log.opt_forceLog := None |})
      ["osrm"%string] in
  Log.debug false logger [Log.Value 7] = [] /\
  Log.log false logger [Log.Value 7] = [] /\
  Log.info false logger [Log.Value 7] = [] /\
  Log.warn false logger [Log.Value 7] = [] /\
  Log.time false nat logger "route"%string = [] /\
  Log.timeEnd false nat logger "route"%string = [] /\
  exists tag,
    Log.error logger [Log.Value 7] = [(Log.console_error, Log.Text nat tag :: [Log.Value 7])].
Proof.
  apply (@production_logger_writes_errors_only nat
           {| Log.opt_prefix := Some "Routing"%string; Log.opt_forceLog := None |}
           ["osrm"%string] [Log.Value 7] "route"%string).
  discriminate.
Defined.

(** X23.  A logger with a non-empty prefix, derived by [child] calls
    with non-empty prefixes, tags what it writes with all the prefixes
    in order, joined by colons. *)
Theorem child_logger_tag
  (unknown : Type) (name : string) (force : option bool) (prefixes : list string)
  (args : list (Log.Arg unknown))
  (Hname : Str.truthy name = true) :
  let logger :=
    Log.descendant
      (Log.new_Logger {| Log.opt_prefix := Some name; Log.opt_forceLog := force |})
      prefixes in
  Log.prefix logger = Str.join ":" (name :: prefixes) /\
  Log.error logger args
  = [(Log.console_error,
      Log.Text unknown ("❌ [" ++ Str.join ":" (name :: prefixes) ++ "]") :: args)].
Proof.
  cbv zeta.
  assert (Hprefix : Log.prefix
                      (Log.descendant
                         (Log.new_Logger {| Log.opt_prefix := Some name;
                                            Log.opt_forceLog := force |}) prefixes)
                    = Str.join ":" (name :: prefixes)).
  { rewrite Log.descendant_prefix; cbn [Log.new_Logger Log.prefix Log.opt_prefix];
      rewrite Hname; [reflexivity | exact Hname]. }
  split; [exact Hprefix|].
  unfold Log.error, Log.formatMessage. rewrite Hprefix.
  replace (Str.truthy (Str.join ":" (name :: prefixes))) with true; [reflexivity|].
  symmetry. destruct prefixes as [|p prefixes]; [exact Hname|].
  cbn [Str.join]. now apply Log.truthy_append.
Qed.

Lemma child_logger_tag_witness :
  let logger :=
    Log.descendant
      (Log.new_Logger {| Log.opt_prefix := Some "Routing"%string;
                         Log.opt_forceLog := None |})
      ["osrm"; "retry"]%string in
  Log.prefix logger = Str.join ":" ["Routing"; "osrm"; "retry"]%string /\
  Log.error logger [Log.Value 7]
  = [(Log.console_error,
      Log.Text nat ("❌ [" ++ Str.join ":" ["Routing"; "osrm"; "retry"] ++ "]")
        :: [Log.Value 7])].
Proof.
  apply (@child_logger_tag nat "Routing" None ["osrm"; "retry"]%string [Log.Value 7]).
  reflexivity.
Defined.

(** An empty prefix in the chain is not left out: the tag ends with a
    colon. *)
Example child_with_empty_prefix :
  Log.prefix
    (Log.descendant
       (Log.new_Logger {| Log.opt_prefix := Some "Cache"%string; Log.opt_forceLog := None |})
       [""%string])
  = "Cache:"%string.
Proof. reflexivity. Qed.

(* ------------------------------------------------------------------ *)
(** ** The route returned and the request it answers *)

(** What the sequencer makes of the stops it is given: stops of the
    input only and one at least, the input itself when it has two stops
    at most, and every stop of the input once when the identifiers are
    pairwise distinct and every locked stop carries a position index of
    its own. *)
Definition arranged (stops output : list Location) : Prop :=
  incl output stops /\
  output <> [] /\
  (List.length stops <= 2 -> output = stops) /\
  (NoDup (map id stops) -> well_placed stops -> Permutation stops output).

(** Stops of which the sequencer leaves none out. *)
Definition all_kept (stops : list Location) : Prop :=
  List.length stops <= 2 \/ (NoDup (map id stops) /\ well_placed stops).

(** The route answers the request: its loop flag, vehicle and method
    are those of the request, its stops are the stops of the request as
    the sequencer arranged them, it has one segment between consecutive
    stops and one more back to the first stop in a loop of more than
    two stops, and its totals are the sums over these segments. *)
Definition answers (request : RouteOptimizationRequest) (r : Route) : Prop :=
  route_isLoop r = isLoop request /\
  route_vehicleType r = vehicleType request /\
  route_optimizationMethod r = optimizationMethod request /\
  arranged (locations request) (route_locations r) /\
  List.length (segments r)
  = List.length (route_locations r) - 1
    + (if isLoop request && (2 <? List.length (route_locations r)) then 1 else 0) /\
  totalDistance r = sum_by distance (segments r) /\
  totalDuration r = sum_by duration (segments r).

(** The number of segments by the stops and the loop flag of the
    request. *)
Definition segments_for (request : RouteOptimizationRequest) (r : Route) : Prop :=
  List.length (route_locations r) = List.length (locations request) /\
  (isLoop request = false ->
   List.length (segments r) = List.length (locations request) - 1) /\
  (isLoop request = true -> 3 <= List.length (locations request) ->
   List.length (segments r) = List.length (locations request)).

(** Every route in the route cache answers an accepted request that has
    the fingerprint the route is stored under. *)
Definition cache_answers (w : World) : Prop :=
  forall k e, In (k, e) (routeCache w) ->
    exists asked,
      accepted asked /\ generateRouteKey asked = k /\ answers asked (cached_route e).

Lemma arranged_same (stops : list Location) : stops <> [] -> arranged stops stops.
Proof.
  intros Hne. split; [apply incl_refl|]. split; [exact Hne|].
  split; [reflexivity | intros _ _; apply Permutation_refl].
Qed.

Lemma answers_invariant (asked : RouteOptimizationRequest) (r : Route) :
  answers asked r -> route_invariant r.
Proof.
  intros (Hloop & _ & _ & (_ & Hne & _) & Hcount & Hdist & Hdur).
  assert (Hpos : 0 < List.length (route_locations r))
    by (destruct (route_locations r); [congruence | simpl; lia]).
  unfold route_invariant. rewrite Hloop.
  split; [|split; [|split; assumption]].
  - intros Hfalse. rewrite Hfalse in Hcount. cbn [andb] in Hcount. lia.
  - intros Htrue Hthree. rewrite Htrue in Hcount. cbn [andb] in Hcount.
    replace (2 <? List.length (route_locations r)) with true in Hcount
      by (symmetry; apply Nat.ltb_lt; lia).
    lia.
Qed.

Lemma answers_segments_for (asked : RouteOptimizationRequest) (r : Route) :
  answers asked r -> all_kept (locations asked) -> segments_for asked r.
Proof.
  intros (_ & _ & _ & (_ & Hne & Hsmall & Hperm) & Hcount & _) Hkept.
  assert (Hlen : List.length (route_locations r) = List.length (locations asked)).
  { destruct Hkept as [Htwo|[Hids Hplaced]].
    - now rewrite (Hsmall Htwo).
    - symmetry. apply Permutation_length. now apply Hperm. }
  split; [exact Hlen|]. rewrite Hlen in Hcount. split.
  - intros Hfalse. rewrite Hfalse in Hcount. cbn [andb] in Hcount. lia.
  - intros Htrue Hthree. rewrite Htrue in Hcount. cbn [andb] in Hcount.
    replace (2 <? List.length (locations asked)) with true in Hcount
      by (symmetry; apply Nat.ltb_lt; lia).
    lia.
Qed.

(** Two accepted requests of one fingerprint have as many stops. *)
Lemma same_fingerprint_length (r r' : RouteOptimizationRequest) :
  accepted r -> accepted r' -> generateRouteKey r = generateRouteKey r' ->
  List.length (locations r) = List.length (locations r').
Proof.
  intros [Hcoords _] [Hcoords' _] Hkey.
  apply KeyFacts.generateRouteKey_inj in Hkey. destruct Hkey as (_ & _ & _ & Hids).
  unfold locationIds in Hids.
  destruct (CharFacts.locationIds_located _ Hcoords) as [Hcount _].
  destruct (CharFacts.locationIds_located _ Hcoords') as [Hcount' _].
  rewrite Hids in Hcount. congruence.
Qed.

Lemma same_fingerprint_accepted (r r' : RouteOptimizationRequest) :
  accepted r -> generateRouteKey r = generateRouteKey r' -> accepted r'.
Proof.
  intros Hr Hkey.
  destruct (forallb has_coordinates (locations r')) eqn:Hcoords.
  - split; [exact Hcoords|].
    destruct (Nat.lt_ge_cases (List.length (locations r')) 2) as [Hfew|Hlen];
      [|exact Hlen].
    exfalso. apply (@rejected_key_distinct r r' Hr); [now right | exact Hkey].
  - exfalso. apply (@rejected_key_distinct r r' Hr); [now left | exact Hkey].
Qed.

Section Answered.

Context (M : MathImpl) (E : Env).

Lemma optimizeLocationOrder_arranged (fuel : nat) (stops : list Location)
  (method : OptimizationMethod) (loop : bool) (vehicle : VehicleType)
  (w w' : World) (output after : list Location) :
  stops <> [] ->
  optimizeLocationOrder M E fuel stops method loop vehicle w = (Ok (output, after), w') ->
  arranged stops output /\ arranged after output /\ Permutation stops after.
Proof.
  intros Hne Hrun.
  assert (Hincl : incl output stops)
    by (eapply optimizeLocationOrder_incl; exact Hrun).
  destruct (@optimizeLocationOrder_returns M E fuel stops method loop vehicle w w'
              output after Hne Hrun) as [Hout Hafter].
  unfold optimizeLocationOrder in Hrun.
  destruct (List.length stops <=? 2) eqn:Hlen.
  - unfold ret in Hrun. injection Hrun as <- <- _.
    split; [|split]; [now apply arranged_same | now apply arranged_same | exact Hafter].
  - apply Nat.leb_gt in Hlen.
    destruct (List.length (filter (fun loc => negb (locked loc)) stops) =? 0) eqn:Hunlocked.
    + unfold ret in Hrun. injection Hrun as <- <- _.
      split; [|split; [now apply arranged_same | exact Hafter]].
      split; [exact Hincl|]. split; [exact Hout|].
      split; [lia | intros _ _; exact Hafter].
    + apply bind_Ok_inv in Hrun. destruct Hrun as (optimized & w1 & Hopt & Hret).
      unfold ret in Hret. injection Hret as <- <- _.
      assert (Harranged : arranged stops
                            (mergeLocked (List.length stops) (filter locked stops) optimized)).
      { split; [exact Hincl|]. split; [exact Hout|]. split; [lia|].
        intros Hids [Hrange Hdistinct].
        apply optimized_returns in Hopt; [|now apply filter_not_empty].
        destruct Hopt as (_ & _ & Hperm).
        specialize (Hperm (NoDup_map_filter id _ stops Hids)).
        eapply perm_trans; [apply (filter_partition_perm locked)|].
        eapply perm_trans; [apply Permutation_app_head; exact Hperm|].
        apply MergeFacts.mergeLocked_perm; [exact Hrange | exact Hdistinct|].
        rewrite <- (Permutation_length Hperm). apply filter_length. }
      split; [exact Harranged|]. split; [exact Harranged | exact Hafter].
Qed.

(** How [calculateRoute] returns: the route of the entry the route
    cache holds for the request, as a cache hit; or, for an accepted
    request, the route built from the stops as the sequencer arranged
    them and from their segments, stored under the fingerprint of the
    request as the sequencer left it. *)
Lemma calculateRoute_outcome (fuel : nat) (request : RouteOptimizationRequest)
  (w w' : World) (response : RouteOptimizationResponse) :
  calculateRoute M E fuel request w = (Ok response, w') ->
  let cleaned :=
    filter (fun entry => negb (expired (Date_now E (S (ticks w))) entry)) (routeCache w) in
  (algorithm (metadata response) = "cache-hit"%string /\
   exists e,
     In (generateRouteKey request, e) cleaned /\
     route response = cached_route e /\
     routeCache w' = cleaned) \/
  (algorithm (metadata response) = "openstreetmap-free"%string /\
   accepted request /\
   exists optimized after segs now w2 w3 w4,
     optimizeLocationOrder M E fuel (locations request) (optimizationMethod request)
       (isLoop request) (vehicleType request) w2 = (Ok (optimized, after), w3) /\
     calculateRouteSegments M E optimized (vehicleType request) (isLoop request) w3
     = (Ok segs, w4) /\
     route_locations (route response) = optimized /\
     segments (route response) = segs /\
     route_isLoop (route response) = isLoop request /\
     route_vehicleType (route response) = vehicleType request /\
     route_optimizationMethod (route response) = optimizationMethod request /\
     totalDistance (route response) = sum_by distance segs /\
     totalDuration (route response) = sum_by duration segs /\
     routeCache w'
     = stored (with_locations request after) (route response) now cleaned).
Proof.
  unfold calculateRoute. intros Hrun. cbv zeta.
  apply bind_Ok_inv in Hrun. destruct Hrun as (startTime & w0 & Hstart & Hrun).
  unfold Date_now_ in Hstart. injection Hstart as <- <-.
  apply bind_Ok_inv in Hrun. destruct Hrun as (cachedRoute & w1 & Hget & Hrun).
  destruct (getCachedRoute_run E request (tick w)) as (c' & w1' & Hget' & Hcache & Hhit & _).
  rewrite Hget in Hget'. injection Hget' as <- <-.
  cbn [ticks tick routeCache] in Hcache.
  destruct cachedRoute as [cachedRoute|].
  - left. destruct (Hhit cachedRoute eq_refl) as (e & He & Hr).
    apply bind_Ok_inv in Hrun. destruct Hrun as (now & w2 & Hnow & Hret).
    unfold Date_now_ in Hnow. injection Hnow as <- <-.
    unfold ret in Hret. injection Hret as <- <-.
    split; [reflexivity|].
    exists e. rewrite <- Hcache. split; [now apply JsMapFacts.get_In|].
    split; [now symmetry | reflexivity].
  - right.
    apply bind_Ok_inv in Hrun. destruct Hrun as ([] & w2 & Hclear & Hrun).
    pose proof (@keeps_run _ _ _ _ _ Frame.keeps_clearSegmentCache Hclear) as Hk2.
    apply try_catch_Ok_inv in Hrun.
    destruct Hrun as [Hrun|(message & w3 & _ & Hthrow)]; [|discriminate Hthrow].
    destruct (0 <? List.length (filter _ (locations request))) eqn:Hmissing;
      [discriminate Hrun|].
    destruct (List.length (locations request) <? 2) eqn:Hfew; [discriminate Hrun|].
    apply bind_Ok_inv in Hrun. destruct Hrun as ([optimized after] & w3 & Hopt & Hrun).
    pose proof (@keeps_run _ _ _ _ _ (@Frame.keeps_optimizeLocationOrder M E _ _ _ _ _) Hopt) as Hk3.
    apply bind_Ok_inv in Hrun. destruct Hrun as (segs & w4 & Hsegs & Hrun).
    pose proof (@keeps_run _ _ _ _ _ (@Frame.keeps_calculateRouteSegments M E _ _ _) Hsegs) as Hk4.
    apply bind_Ok_inv in Hrun. destruct Hrun as (routeId & w5 & Hid & Hrun).
    pose proof (@keeps_run _ _ _ _ _ (@Frame.keeps_generateRouteId E) Hid) as Hk5.
    apply bind_Ok_inv in Hrun. destruct Hrun as ([] & w6 & Hset & Hrun).
    apply bind_Ok_inv in Hrun. destruct Hrun as (now & w7 & Hnow & Hret).
    unfold Date_now_ in Hnow. injection Hnow as <- <-.
    unfold ret in Hret. injection Hret as <- <-.
    cbn [fst snd] in *.
    split; [reflexivity|]. split.
    { split; [now apply no_missing_coordinates | apply Nat.ltb_ge in Hfew; exact Hfew]. }
    exists optimized, after, segs, (Date_now E (ticks w5)), w2, w3, w4.
    split; [exact Hopt|]. split; [exact Hsegs|].
    cbn [route route_locations segments route_isLoop route_vehicleType
         route_optimizationMethod totalDistance totalDuration].
    repeat (split; [reflexivity|]).
    cbn [routeCache tick].
    pose proof (setCachedRoute_spec E (with_locations request after)
                  {| route_id := routeId; route_locations := optimized;
                     totalDistance := sum_by distance segs;
                     totalDuration := sum_by duration segs;
                     route_vehicleType := vehicleType request;
                     route_isLoop := isLoop request;
                     segments := segs;
                     route_optimizationMethod := optimizationMethod request |} w5) as Hspec.
    rewrite Hset in Hspec. cbn [snd] in Hspec. rewrite Hspec.
    cbn [routeCache set_routeCache]. rewrite Hk5, Hk4, Hk3, Hk2, Hcache. reflexivity.
Qed.

End Answered.

(** C1.  From a route cache whose routes answer accepted requests of
    the fingerprints they are stored under: whenever [calculateRoute]
    returns a route, the request is accepted, and the route has the
    loop flag, the vehicle and the method of the request; it answers an
    accepted request of the same fingerprint and as many stops, which
    is the request itself when the route is computed: its stops are the
    stops of that request as the sequencer arranged them, it has as
    many segments as stops less one when the request is no loop, as
    many segments as stops when it is a loop of at least three stops,
    and its totals are the sums of the distances and of the durations
    of these segments; when the sequencer leaves no stop out, these are
    the numbers of stops and of segments by the stops of the request.
    The routes of the route cache answer their requests afterwards
    too.  And [calculateRoute] does return a route for an accepted
    request whose unlocked stops are orderable, when it may run as many
    rounds as there are stops. *)
Theorem calculateRoute_route_invariant
  (M : MathImpl) (E : Env) (fuel : nat) (request : RouteOptimizationRequest) (w : World)
  (Hcache : cache_answers w) :
  (forall (response : RouteOptimizationResponse) (w' : World),
     calculateRoute M E fuel request w = (Ok response, w') ->
     accepted request /\
     route_invariant (route response) /\
     route_isLoop (route response) = isLoop request /\
     route_vehicleType (route response) = vehicleType request /\
     route_optimizationMethod (route response) = optimizationMethod request /\
     (exists asked,
        accepted asked /\
        generateRouteKey asked = generateRouteKey request /\
        List.length (locations asked) = List.length (locations request) /\
        (algorithm (metadata response) = "openstreetmap-free"%string -> asked = request) /\
        answers asked (route response) /\
        (all_kept (locations asked) -> segments_for request (route response))) /\
     cache_answers w') /\
  (accepted request ->
   orderable M (optimizationMethod request) (filter unlocked (locations request)) ->
   List.length (locations request) <= fuel ->
   exists response w', calculateRoute M E fuel request w = (Ok response, w')).
Proof.
  split; [|apply calculateRoute_returns].
  intros response w' Hrun.
  apply calculateRoute_outcome in Hrun. cbv zeta in Hrun.
  assert (Hcleaned : forall k e,
            In (k, e) (filter (fun entry => negb (expired (Date_now E (S (ticks w))) entry))
                         (routeCache w)) ->
            exists asked,
              accepted asked /\ generateRouteKey asked = k /\
              answers asked (cached_route e)).
  { intros k e Hin. apply filter_In in Hin. apply (Hcache k e). tauto. }
  assert (Hfor : forall asked,
            isLoop asked = isLoop request ->
            List.length (locations asked) = List.length (locations request) ->
            answers asked (route response) ->
            all_kept (locations asked) -> segments_for request (route response)).
  { intros asked Hloop Hlen Hanswers Hkept.
    destruct (@answers_segments_for asked (route response) Hanswers Hkept) as (H1 & H2 & H3).
    rewrite Hloop, Hlen in *. now repeat split. }
  destruct Hrun as [(Halgorithm & e & Hin & Hroute & Hw')|(Halgorithm & Haccepted & Hrun)].
  - (* served from the cache *)
    destruct (Hcleaned _ e Hin) as (asked & Hasked & Hkey & Hanswers).
    rewrite <- Hroute in Hanswers.
    pose proof (@same_fingerprint_accepted asked request Hasked Hkey) as Haccepted.
    pose proof (@same_fingerprint_length asked request Hasked Haccepted Hkey) as Hlen.
    pose proof (@KeyFacts.generateRouteKey_inj asked request Hkey) as (Hvehicle & Hmethod & Hloop & _).
    pose proof Hanswers as (Hl & Hv & Hm & _).
    split; [exact Haccepted|].
    split; [now apply (@answers_invariant asked)|].
    split; [congruence|]. split; [congruence|]. split; [congruence|].
    split.
    + exists asked. split; [exact Hasked|]. split; [exact Hkey|]. split; [exact Hlen|].
      split; [intros Hfree; rewrite Halgorithm in Hfree; discriminate Hfree|].
      split; [exact Hanswers|].
      apply Hfor; [exact Hloop | exact Hlen | exact Hanswers].
    + intros k e' Hin'. rewrite Hw' in Hin'. now apply Hcleaned.
  - (* computed *)
    destruct Hrun as (optimized & after & segs & now & w2 & w3 & w4 &
                      Hopt & Hsegs & Hlocs & Hsegments & Hloop & Hvehicle & Hmethod &
                      Hdist & Hdur & Hw').
    assert (Hne : locations request <> []).
    { destruct Haccepted as [_ Hlen]. intros Hnil. rewrite Hnil in Hlen.
      simpl in Hlen. lia. }
    destruct (@optimizeLocationOrder_arranged M E fuel (locations request)
                (optimizationMethod request) (isLoop request) (vehicleType request)
                w2 w3 optimized after Hne Hopt) as (Hstops & Hafter & Hperm).
    apply calculateRouteSegments_length in Hsegs.
    assert (Hanswers : answers request (route response)).
    { unfold answers. rewrite Hlocs, Hsegments, Hdist, Hdur.
      repeat (split; [assumption|]). split; reflexivity. }
    assert (Hstored : answers (with_locations request after) (route response)).
    { unfold answers. cbn [with_locations isLoop vehicleType optimizationMethod locations].
      rewrite Hlocs, Hsegments, Hdist, Hdur.
      repeat (split; [assumption|]). split; reflexivity. }
    split; [exact Haccepted|].
    split; [now apply (@answers_invariant request)|].
    split; [exact Hloop|]. split; [exact Hvehicle|]. split; [exact Hmethod|].
    split.
    + exists request. split; [exact Haccepted|].
      repeat (split; [reflexivity|]).
      split; [exact Hanswers | now apply Hfor].
    + intros k e Hin. rewrite Hw' in Hin.
      assert (Hcases : (k = generateRouteKey (with_locations request after) /\
                        cached_route e = route response) \/
                       In (k, e)
                         (filter (fun entry =>
                                    negb (expired (Date_now E (S (ticks w))) entry))
                            (routeCache w)))
        by (apply In_stored in Hin; exact Hin).
      destruct Hcases as [[-> Hroute]|Hold]; [|now apply Hcleaned].
      exists (with_locations request after). split; [|split; [reflexivity|]].
      * destruct Haccepted as [Hcoords Hlen]. split; cbn [with_locations locations].
        -- apply forallb_forall. intros x Hx. rewrite forallb_forall in Hcoords.
           apply Hcoords. apply (Permutation_in _ (Permutation_sym Hperm)). exact Hx.
        -- rewrite <- (Permutation_length Hperm). exact Hlen.
      * rewrite Hroute. exact Hstored.
Qed.

Lemma calculateRoute_route_invariant_witness :
  exists response w',
    calculateRoute PolyMath.impl offline 4 paris_loop_request initial_world
    = (Ok response, w') /\
    route_isLoop (route response) = true /\
    segments_for paris_loop_request (route response) /\
    route_invariant (route response) /\
    cache_answers w'.
Proof.
  destruct (@calculateRoute_route_invariant PolyMath.impl offline 4 paris_loop_request
              initial_world) as [Hpartial Htotal].
  - intros k e [].
  - destruct Htotal as (response & w' & Hrun).
    + split; [reflexivity | simpl; lia].
    + split; [reflexivity|]. split; [distinct_strings|].
      split; vm_compute; reflexivity.
    + simpl. lia.
    + exists response, w'. split; [exact Hrun|].
      assert (Hcomputed : algorithm (metadata response) = "openstreetmap-free"%string).
      { pose proof Hrun as Hvalue. vm_compute in Hvalue.
        injection Hvalue as Hresponse _. rewrite <- Hresponse. reflexivity. }
      destruct (Hpartial response w' Hrun)
        as (_ & Hinv & Hloop & _ & _ & (asked & _ & _ & _ & Hsame & _ & Hcount) & Hcache').
      rewrite (Hsame Hcomputed) in Hcount.
      split; [exact Hloop|]. split; [|split; [exact Hinv | exact Hcache']].
      apply Hcount. right. split; [distinct_strings|].
      split; [reflexivity | constructor].
Defined.

(** A request of four stops the first of which is locked without a
    position index: the sequencer leaves that stop out, and the route
    has three stops and two segments. *)
Example route_shorter_than_request :
  match fst (calculateRoute PolyMath.impl offline 4
               (request_of unplaced_depot_and_three car shortest_distance false)
               initial_world) with
  | Ok response =>
      (map id (route_locations (route response)),
       List.length (segments (route response)))
  | _ => ([], 0)
  end = (["B"; "A"; "C"]%string, 2).
Proof. vm_compute. reflexivity. Qed.
